(** * mittensOS chess core: position state, legality engine and search

    A shallow embedding of [gamestate.cpp] / [gamestate.h] and [chessai.cpp]
    / [chessai.h].  C++ [int] values are [Z] (no value in the program comes
    near the 32-bit range), [QString] is [string], [QVector] is [list] with
    [push_back] appending at the end, and the member functions of
    [GameState] that mutate [*this] become functions that take and return a
    [GameState]. *)

From Stdlib Require Import ZArith List String Ascii Bool Lia Permutation.
Import ListNotations.

Open Scope string_scope.
Open Scope Z_scope.

(** ** QVector and QString primitives *)

(** [v[i]] for an [int] index.  Qt leaves an index outside the vector
    undefined; the model reads the default there. *)
Definition zth {A : Type} (l : list A) (i : Z) (d : A) : A :=
  if i <? 0 then d else nth (Z.to_nat i) l d.

Fixpoint set_nth {A : Type} (l : list A) (n : nat) (v : A) : list A :=
  match l, n with
  | [], _ => []
  | _ :: t, O => v :: t
  | h :: t, S k => h :: set_nth t k v
  end.

(** [v[i] = x]; a write outside the vector leaves it as it is. *)
Definition zset {A : Type} (l : list A) (i : Z) (v : A) : list A :=
  if i <? 0 then l else set_nth l (Z.to_nat i) v.

Fixpoint remove_nth {A : Type} (l : list A) (n : nat) : list A :=
  match l, n with
  | [], _ => []
  | _ :: t, O => t
  | h :: t, S k => h :: remove_nth t k
  end.

(** [v.removeAt(i)] *)
Definition removeAt {A : Type} (l : list A) (i : Z) : list A :=
  if i <? 0 then l else remove_nth l (Z.to_nat i).

Definition push_back {A : Type} (l : list A) (x : A) : list A := l ++ [x].
Definition pop_back {A : Type} (l : list A) : list A := removelast l.
Definition back {A : Type} (l : list A) (d : A) : A := last l d.
Definition isEmpty {A : Type} (l : list A) : bool :=
  match l with [] => true | _ => false end.
Definition size {A : Type} (l : list A) : Z := Z.of_nat (List.length l).

(** [s[n]] on a [QString]. *)
Definition chr (s : string) (n : nat) : ascii :=
  match String.get n s with Some c => c | None => Ascii.zero end.

(** [QString(c)]: the one-character string. *)
Definition str1 (c : ascii) : string := String c EmptyString.

Definition streq (a b : string) : bool := String.eqb a b.
Definition chreq (a b : ascii) : bool := Ascii.eqb a b.

Definition pairEq (p q : Z * Z) : bool :=
  (fst p =? fst q) && (snd p =? snd q).

(** ** The board *)

Definition Board := list (list string).

Definition sq (b : Board) (r c : Z) : string := zth (zth b r []) c "".

Definition setSq (b : Board) (r c : Z) (p : string) : Board :=
  zset b r (zset (zth b r []) c p).

Definition onBoard (r c : Z) : bool :=
  (0 <=? r) && (r <=? 7) && (0 <=? c) && (c <=? 7).

(** ** Move *)

Record Move := mkMove {
  startRow : Z;
  startCol : Z;
  endRow : Z;
  endCol : Z;
  pieceMoved : string;
  pieceCaptured : string;
  isPawnPromotion : bool;
  isEnpassantMove : bool;
  isCastleMove : bool;
  isCapture : bool;
  moveID : Z
}.

(** [Move::Move()] *)
Definition defaultMove : Move :=
  mkMove 0 0 0 0 "--" "--" false false false false 0.

(** [Move::Move(startSq, endSq, board, isEnpassantMove, isCastleMove)] *)
Definition newMove (startSq endSq : Z * Z) (board : Board)
    (enpassant castle : bool) : Move :=
  let sr := fst startSq in
  let sc := snd startSq in
  let er := fst endSq in
  let ec := snd endSq in
  let moved := sq board sr sc in
  let captured0 := sq board er ec in
  let promo := ((streq moved "wp") && (er =? 0)) || ((streq moved "bp") && (er =? 7)) in
  let captured :=
    if enpassant then (if streq moved "wp" then "bp" else "wp") else captured0 in
  mkMove sr sc er ec moved captured promo enpassant castle
         (negb (streq captured "--"))
         (sr * 1000 + sc * 100 + er * 10 + ec).

(** [Move::operator==] *)
Definition moveEq (a b : Move) : bool := moveID a =? moveID b.

(** ** Position state *)

Record PinInfo := mkPin {
  pinRow : Z;
  pinCol : Z;
  dirRow : Z;
  dirCol : Z
}.

Record PinsAndChecksInfo := mkPCI {
  pciInCheck : bool;
  pciPins : list PinInfo;
  pciChecks : list PinInfo
}.

Record CastleRights := mkCR {
  wks : bool;
  bks : bool;
  wqs : bool;
  bqs : bool
}.

Record GameState := mkGS {
  board : Board;
  whiteToMove : bool;
  moveLog : list Move;
  whiteKingLocation : Z * Z;
  blackKingLocation : Z * Z;
  checkmate : bool;
  stalemate : bool;
  inCheck : bool;
  pins : list PinInfo;
  checks : list PinInfo;
  enPassantPossible : Z * Z;
  enPassantPossibleLog : list (Z * Z);
  castlingRights : CastleRights;
  castlingRightsLog : list CastleRights
}.

Definition setWhiteToMove (g : GameState) (w : bool) : GameState :=
  mkGS (board g) w (moveLog g) (whiteKingLocation g)
       (blackKingLocation g) (checkmate g) (stalemate g) (inCheck g) (pins g)
       (checks g) (enPassantPossible g) (enPassantPossibleLog g)
       (castlingRights g) (castlingRightsLog g).

Definition setWhiteKing (g : GameState) (k : Z * Z) : GameState :=
  mkGS (board g) (whiteToMove g) (moveLog g) k
       (blackKingLocation g) (checkmate g) (stalemate g) (inCheck g) (pins g)
       (checks g) (enPassantPossible g) (enPassantPossibleLog g)
       (castlingRights g) (castlingRightsLog g).

Definition setBlackKing (g : GameState) (k : Z * Z) : GameState :=
  mkGS (board g) (whiteToMove g) (moveLog g) (whiteKingLocation g)
       k (checkmate g) (stalemate g) (inCheck g) (pins g)
       (checks g) (enPassantPossible g) (enPassantPossibleLog g)
       (castlingRights g) (castlingRightsLog g).

Definition setMate (g : GameState) (cm sm : bool) : GameState :=
  mkGS (board g) (whiteToMove g) (moveLog g) (whiteKingLocation g)
       (blackKingLocation g) cm sm (inCheck g) (pins g)
       (checks g) (enPassantPossible g) (enPassantPossibleLog g)
       (castlingRights g) (castlingRightsLog g).

Definition setPinsAndChecks (g : GameState) (i : PinsAndChecksInfo) : GameState :=
  mkGS (board g) (whiteToMove g) (moveLog g) (whiteKingLocation g)
       (blackKingLocation g) (checkmate g) (stalemate g) (pciInCheck i)
       (pciPins i) (pciChecks i) (enPassantPossible g)
       (enPassantPossibleLog g) (castlingRights g) (castlingRightsLog g).

Definition setPins (g : GameState) (p : list PinInfo) : GameState :=
  mkGS (board g) (whiteToMove g) (moveLog g) (whiteKingLocation g)
       (blackKingLocation g) (checkmate g) (stalemate g) (inCheck g) p
       (checks g) (enPassantPossible g) (enPassantPossibleLog g)
       (castlingRights g) (castlingRightsLog g).

Definition setCastlingRights (g : GameState) (c : CastleRights) : GameState :=
  mkGS (board g) (whiteToMove g) (moveLog g) (whiteKingLocation g)
       (blackKingLocation g) (checkmate g) (stalemate g) (inCheck g) (pins g)
       (checks g) (enPassantPossible g) (enPassantPossibleLog g)
       c (castlingRightsLog g).

Definition initialBoard : Board :=
  [ ["bR"; "bN"; "bB"; "bQ"; "bK"; "bB"; "bN"; "bR"];
    ["bp"; "bp"; "bp"; "bp"; "bp"; "bp"; "bp"; "bp"];
    ["--"; "--"; "--"; "--"; "--"; "--"; "--"; "--"];
    ["--"; "--"; "--"; "--"; "--"; "--"; "--"; "--"];
    ["--"; "--"; "--"; "--"; "--"; "--"; "--"; "--"];
    ["--"; "--"; "--"; "--"; "--"; "--"; "--"; "--"];
    ["wp"; "wp"; "wp"; "wp"; "wp"; "wp"; "wp"; "wp"];
    ["wR"; "wN"; "wB"; "wQ"; "wK"; "wB"; "wN"; "wR"] ].

(** [GameState::GameState()] *)
Definition newGameState : GameState :=
  mkGS initialBoard true [] (7, 4) (0, 4) false false false [] []
       (-1, -1) (push_back [] (-1, -1))
       (mkCR true true true true)
       (push_back [] (mkCR true true true true)).

(** ** makeMove / undoMove *)

(** [GameState::updateCastleRights] (on the rights alone, the only member
    it touches). *)
Definition updateCastleRights (cr : CastleRights) (move : Move) : CastleRights :=
  let cr1 :=
    if streq (pieceCaptured move) "wR" then
      if endCol move =? 0 then mkCR (wks cr) (bks cr) false (bqs cr)
      else if endCol move =? 7 then mkCR false (bks cr) (wqs cr) (bqs cr)
      else cr
    else if streq (pieceCaptured move) "bR" then
      if endCol move =? 0 then mkCR (wks cr) (bks cr) (wqs cr) false
      else if endCol move =? 7 then mkCR (wks cr) false (wqs cr) (bqs cr)
      else cr
    else cr in
  if streq (pieceMoved move) "wK" then mkCR false (bks cr1) false (bqs cr1)
  else if streq (pieceMoved move) "bK" then mkCR (wks cr1) false (wqs cr1) false
  else if streq (pieceMoved move) "wR" then
    if startRow move =? 7 then
      if startCol move =? 0 then mkCR (wks cr1) (bks cr1) false (bqs cr1)
      else if startCol move =? 7 then mkCR false (bks cr1) (wqs cr1) (bqs cr1)
      else cr1
    else cr1
  else if streq (pieceMoved move) "bR" then
    if startRow move =? 0 then
      if startCol move =? 0 then mkCR (wks cr1) (bks cr1) (wqs cr1) false
      else if startCol move =? 7 then mkCR (wks cr1) false (wqs cr1) (bqs cr1)
      else cr1
    else cr1
  else cr1.

(** [GameState::makeMove] *)
Definition makeMove (g : GameState) (move : Move) : GameState :=
  let b1 := setSq (board g) (startRow move) (startCol move) "--" in
  let b2 := setSq b1 (endRow move) (endCol move) (pieceMoved move) in
  let log := push_back (moveLog g) move in
  let turn := negb (whiteToMove g) in
  let wk := if streq (pieceMoved move) "wK"
            then (endRow move, endCol move) else whiteKingLocation g in
  let bk := if streq (pieceMoved move) "wK" then blackKingLocation g
            else if streq (pieceMoved move) "bK"
                 then (endRow move, endCol move) else blackKingLocation g in
  let b3 := if isPawnPromotion move
            then setSq b2 (endRow move) (endCol move)
                       (String.append (str1 (chr (pieceMoved move) 0)) "Q")
            else b2 in
  let b4 := if isEnpassantMove move
            then setSq b3 (startRow move) (endCol move) "--" else b3 in
  let ep := if chreq (chr (pieceMoved move) 1) "p"%char
               && (Z.abs (startRow move - endRow move) =? 2)
            then (Z.quot (startRow move + endRow move) 2, startCol move)
            else (-1, -1) in
  let b5 :=
    if isCastleMove move then
      if endCol move - startCol move =? 2 then
        let b := setSq b4 (endRow move) (endCol move - 1)
                       (sq b4 (endRow move) (endCol move + 1)) in
        setSq b (endRow move) (endCol move + 1) "--"
      else
        let b := setSq b4 (endRow move) (endCol move + 1)
                       (sq b4 (endRow move) (endCol move - 2)) in
        setSq b (endRow move) (endCol move - 2) "--"
    else b4 in
  let epLog := push_back (enPassantPossibleLog g) ep in
  let cr := updateCastleRights (castlingRights g) move in
  let crLog := push_back (castlingRightsLog g)
                         (mkCR (wks cr) (bks cr) (wqs cr) (bqs cr)) in
  mkGS b5 turn log wk bk (checkmate g) (stalemate g) (inCheck g) (pins g)
       (checks g) ep epLog cr crLog.

(** [GameState::undoMove] *)
Definition undoMove (g : GameState) : GameState :=
  if isEmpty (moveLog g) then g
  else
    let move := back (moveLog g) defaultMove in
    let log := pop_back (moveLog g) in
    let b1 := setSq (board g) (startRow move) (startCol move) (pieceMoved move) in
    let b2 := setSq b1 (endRow move) (endCol move) (pieceCaptured move) in
    let turn := negb (whiteToMove g) in
    let wk := if streq (pieceMoved move) "wK"
              then (startRow move, startCol move) else whiteKingLocation g in
    let bk := if streq (pieceMoved move) "wK" then blackKingLocation g
              else if streq (pieceMoved move) "bK"
                   then (startRow move, startCol move) else blackKingLocation g in
    let b3 :=
      if isEnpassantMove move then
        let b := setSq b2 (endRow move) (endCol move) "--" in
        setSq b (startRow move) (endCol move) (pieceCaptured move)
      else b2 in
    let epLog := pop_back (enPassantPossibleLog g) in
    let ep := back epLog (0, 0) in
    let crLog := pop_back (castlingRightsLog g) in
    let cr := back crLog (mkCR true true true true) in
    let b4 :=
      if isCastleMove move then
        if endCol move - startCol move =? 2 then
          let b := setSq b3 (endRow move) (endCol move + 1)
                         (sq b3 (endRow move) (endCol move - 1)) in
          setSq b (endRow move) (endCol move - 1) "--"
        else
          let b := setSq b3 (endRow move) (endCol move - 2)
                         (sq b3 (endRow move) (endCol move + 1)) in
          setSq b (endRow move) (endCol move + 1) "--"
      else b3 in
    mkGS b4 turn log wk bk false false (inCheck g) (pins g) (checks g)
         ep epLog cr crLog.

(** ** Pin and check detection *)

Definition defaultPin : PinInfo := mkPin 0 0 0 0.

Definition teamColorOf (g : GameState) : string :=
  if whiteToMove g then "w" else "b".

Definition enemyColorOf (g : GameState) : string :=
  if whiteToMove g then "b" else "w".

Definition kingPosOf (g : GameState) : Z * Z :=
  if whiteToMove g then whiteKingLocation g else blackKingLocation g.

Definition directions8 : list (Z * Z) :=
  [(-1, 0); (0, -1); (1, 0); (0, 1); (-1, -1); (-1, 1); (1, -1); (1, 1)].

Definition knightOffsets : list (Z * Z) :=
  [(-2, -1); (-2, 1); (-1, -2); (-1, 2); (1, -2); (1, 2); (2, -1); (2, 1)].

(** The values of [i] in [for (int i = 1; i < 8; i++)]. *)
Definition oneToSeven : list Z := [1; 2; 3; 4; 5; 6; 7].

(** The [canCheck] decision of [checkForPinsAndChecks] for an enemy piece
    of kind [pieceType] met at distance [i] on direction number [j]. *)
Definition canCheck (enemyColor : string) (j i : Z) (pieceType : ascii) : bool :=
  if (j <=? 3) && chreq pieceType "R"%char then true
  else if (j >=? 4) && chreq pieceType "B"%char then true
  else if (i =? 1) && chreq pieceType "p"%char then
    (streq enemyColor "w" && (j >=? 6) && (j <=? 7))
    || (streq enemyColor "b" && (j >=? 4) && (j <=? 5))
  else if chreq pieceType "Q"%char then true
  else if (i =? 1) && chreq pieceType "K"%char then true
  else false.

(** The inner loop of [checkForPinsAndChecks] over the distances [is] on
    direction [d]; returning [acc] early is the loop's [break]. *)
Fixpoint scanRay (g : GameState) (j : Z) (d : Z * Z) (dists : list Z)
    (possiblePin : PinInfo) (acc : PinsAndChecksInfo) : PinsAndChecksInfo :=
  match dists with
  | [] => acc
  | i :: rest =>
    let endRow := fst (kingPosOf g) + fst d * i in
    let endCol := snd (kingPosOf g) + snd d * i in
    if onBoard endRow endCol then
      let endPiece := sq (board g) endRow endCol in
      if chreq (chr endPiece 0) (chr (teamColorOf g) 0)
         && negb (chreq (chr endPiece 1) "K"%char) then
        if pinRow possiblePin =? -1 then
          scanRay g j d rest
                  (mkPin endRow endCol (dirRow possiblePin) (dirCol possiblePin))
                  acc
        else acc
      else if chreq (chr endPiece 0) (chr (enemyColorOf g) 0) then
        if canCheck (enemyColorOf g) j i (chr endPiece 1) then
          if pinRow possiblePin =? -1 then
            mkPCI true (pciPins acc)
                  (push_back (pciChecks acc) (mkPin endRow endCol (fst d) (snd d)))
          else
            mkPCI (pciInCheck acc) (push_back (pciPins acc) possiblePin)
                  (pciChecks acc)
        else acc
      else scanRay g j d rest possiblePin acc
    else acc
  end.

Fixpoint scanDirections (g : GameState) (j : Z) (ds : list (Z * Z))
    (acc : PinsAndChecksInfo) : PinsAndChecksInfo :=
  match ds with
  | [] => acc
  | d :: rest =>
    scanDirections g (j + 1) rest
      (scanRay g j d oneToSeven (mkPin (-1) (-1) (fst d) (snd d)) acc)
  end.

Fixpoint scanKnights (g : GameState) (ms : list (Z * Z))
    (acc : PinsAndChecksInfo) : PinsAndChecksInfo :=
  match ms with
  | [] => acc
  | m :: rest =>
    let endRow := fst (kingPosOf g) + fst m in
    let endCol := snd (kingPosOf g) + snd m in
    let acc' :=
      if onBoard endRow endCol then
        let endPiece := sq (board g) endRow endCol in
        if chreq (chr endPiece 0) (chr (enemyColorOf g) 0)
           && chreq (chr endPiece 1) "N"%char
        then mkPCI true (pciPins acc)
                   (push_back (pciChecks acc) (mkPin endRow endCol (fst m) (snd m)))
        else acc
      else acc in
    scanKnights g rest acc'
  end.

(** [GameState::checkForPinsAndChecks] *)
Definition checkForPinsAndChecks (g : GameState) : PinsAndChecksInfo :=
  scanKnights g knightOffsets
    (scanDirections g 0 directions8 (mkPCI false [] [])).

(** ** Per-piece move generation *)

(** The loop [for (i = pins.size() - 1; i >= 0; i--)] looking for the pin
    recorded on square [(row, col)]: the index it stops at, if any. *)
Fixpoint findPin (ps : list PinInfo) (row col : Z) (n : nat) : option nat :=
  match n with
  | O => None
  | S k =>
    let p := nth k ps defaultPin in
    if (pinRow p =? row) && (pinCol p =? col) then Some k
    else findPin ps row col k
  end.

Definition lookupPin (g : GameState) (row col : Z) : option nat :=
  findPin (pins g) row col (List.length (pins g)).

Definition pinDirAt (g : GameState) (k : nat) : Z * Z :=
  (dirRow (nth k (pins g) defaultPin), dirCol (nth k (pins g) defaultPin)).

(** [lo, lo+1, ..., hi-1] *)
Definition upTo (lo hi : Z) : list Z :=
  map (fun k => lo + Z.of_nat k) (seq 0 (Z.to_nat (hi - lo))).

(** [hi, hi-1, ..., lo+1] *)
Definition downTo (hi lo : Z) : list Z :=
  map (fun k => hi - Z.of_nat k) (seq 0 (Z.to_nat (hi - lo))).

(** First loop of the en-passant rank test: any piece between king and pawn. *)
Fixpoint scanBetween (b : Board) (row : Z) (cols : list Z) (blocking : bool) : bool :=
  match cols with
  | [] => blocking
  | i :: rest =>
    if negb (streq (sq b row i) "--") then true
    else scanBetween b row rest blocking
  end.

(** Second loop of the en-passant rank test: the pair is
    [(attackingPiece, blockingPiece)]. *)
Fixpoint scanOutside (b : Board) (row : Z) (enemyColor : string)
    (cols : list Z) (ab : bool * bool) : bool * bool :=
  match cols with
  | [] => ab
  | i :: rest =>
    let square := sq b row i in
    if chreq (chr square 0) (chr enemyColor 0)
       && (chreq (chr square 1) "R"%char || chreq (chr square 1) "Q"%char)
    then (true, snd ab)
    else if negb (streq square "--") then (fst ab, true)
    else scanOutside b row enemyColor rest ab
  end.

(** The "horizontal pin" test of an en-passant capture: [between] and
    [outside] are the columns the two loops visit when the king is left of
    the pawn, [between'] and [outside'] when it is not.  The result is
    [!attackingPiece || blockingPiece]. *)
Definition enPassantAllowed (g : GameState) (row col : Z)
    (between outside between' outside' : list Z) : bool :=
  let kingPos := kingPosOf g in
  let ab :=
    if fst kingPos =? row then
      if snd kingPos <? col then
        scanOutside (board g) row (enemyColorOf g) outside
          (false, scanBetween (board g) row between false)
      else
        scanOutside (board g) row (enemyColorOf g) outside'
          (false, scanBetween (board g) row between' false)
    else (false, false) in
  negb (fst ab) || snd ab.

(** [GameState::getPawnMoves] *)
Definition getPawnMoves (g : GameState) (row col : Z) (moves : list Move)
    : GameState * list Move :=
  let found := lookupPin g row col in
  let piecePinned := match found with Some _ => true | None => false end in
  let pinDirection :=
    match found with Some k => pinDirAt g k | None => (0, 0) end in
  let g' :=
    match found with
    | Some k => setPins g (removeAt (pins g) (Z.of_nat k))
    | None => g
    end in
  let moveAmount := if whiteToMove g then -1 else 1 in
  let startRow := if whiteToMove g then 6 else 1 in
  let enemyColor := enemyColorOf g in
  let kingPos := kingPosOf g in
  let b := board g in
  if (0 <=? row + moveAmount) && (row + moveAmount <=? 7) then
    let moves1 :=
      if streq (sq b (row + moveAmount) col) "--" then
        if negb piecePinned || pairEq pinDirection (moveAmount, 0) then
          let m1 := push_back moves
                      (newMove (row, col) (row + moveAmount, col) b false false) in
          if (row =? startRow) && streq (sq b (row + 2 * moveAmount) col) "--"
          then push_back m1
                 (newMove (row, col) (row + 2 * moveAmount, col) b false false)
          else m1
        else moves
      else moves in
    let moves2 :=
      if 0 <=? col - 1 then
        if negb piecePinned || pairEq pinDirection (moveAmount, -1) then
          let m1 :=
            if chreq (chr (sq b (row + moveAmount) (col - 1)) 0) (chr enemyColor 0)
            then push_back moves1
                   (newMove (row, col) (row + moveAmount, col - 1) b false false)
            else moves1 in
          if (fst (enPassantPossible g) =? row + moveAmount)
             && (snd (enPassantPossible g) =? col - 1) then
            if enPassantAllowed g row col
                 (upTo (snd kingPos + 1) (col - 1)) (upTo (col + 1) 8)
                 (downTo (snd kingPos - 1) col) (downTo (col - 2) (-1))
            then push_back m1
                   (newMove (row, col) (row + moveAmount, col - 1) b true false)
            else m1
          else m1
        else moves1
      else moves1 in
    let moves3 :=
      if col + 1 <=? 7 then
        if negb piecePinned || pairEq pinDirection (moveAmount, 1) then
          let m1 :=
            if chreq (chr (sq b (row + moveAmount) (col + 1)) 0) (chr enemyColor 0)
            then push_back moves2
                   (newMove (row, col) (row + moveAmount, col + 1) b false false)
            else moves2 in
          if (fst (enPassantPossible g) =? row + moveAmount)
             && (snd (enPassantPossible g) =? col + 1) then
            if enPassantAllowed g row col
                 (upTo (snd kingPos + 1) col) (upTo (col + 2) 8)
                 (downTo (snd kingPos - 1) (col + 1)) (downTo (col - 1) (-1))
            then push_back m1
                   (newMove (row, col) (row + moveAmount, col + 1) b true false)
            else m1
          else m1
        else moves2
      else moves2 in
    (g', moves3)
  else (g', moves).

(** The inner loop of [getRookMoves] and [getBishopMoves] over the
    distances [is] on direction [d]. *)
Fixpoint rayMoves (g : GameState) (row col : Z) (piecePinned : bool)
    (pinDirection d : Z * Z) (dists : list Z) (moves : list Move) : list Move :=
  match dists with
  | [] => moves
  | i :: rest =>
    let endRow := row + fst d * i in
    let endCol := col + snd d * i in
    if onBoard endRow endCol then
      if negb piecePinned || pairEq pinDirection d
         || pairEq pinDirection (- fst d, - snd d) then
        let endPiece := sq (board g) endRow endCol in
        if streq endPiece "--" then
          rayMoves g row col piecePinned pinDirection d rest
            (push_back moves (newMove (row, col) (endRow, endCol) (board g) false false))
        else if chreq (chr endPiece 0) (chr (enemyColorOf g) 0) then
          push_back moves (newMove (row, col) (endRow, endCol) (board g) false false)
        else moves
      else rayMoves g row col piecePinned pinDirection d rest moves
    else moves
  end.

Fixpoint slideMoves (g : GameState) (row col : Z) (piecePinned : bool)
    (pinDirection : Z * Z) (ds : list (Z * Z)) (moves : list Move) : list Move :=
  match ds with
  | [] => moves
  | d :: rest =>
    slideMoves g row col piecePinned pinDirection rest
      (rayMoves g row col piecePinned pinDirection d oneToSeven moves)
  end.

(** [GameState::getRookMoves] *)
Definition getRookMoves (g : GameState) (row col : Z) (moves : list Move)
    : GameState * list Move :=
  let found := lookupPin g row col in
  let piecePinned := match found with Some _ => true | None => false end in
  let pinDirection :=
    match found with Some k => pinDirAt g k | None => (0, 0) end in
  let g' :=
    match found with
    | Some k =>
      if negb (chreq (chr (sq (board g) row col) 1) "Q")
      then setPins g (removeAt (pins g) (Z.of_nat k)) else g
    | None => g
    end in
  (g', slideMoves g' row col piecePinned pinDirection
         [(-1, 0); (0, -1); (1, 0); (0, 1)] moves).

(** [GameState::getBishopMoves] *)
Definition getBishopMoves (g : GameState) (row col : Z) (moves : list Move)
    : GameState * list Move :=
  let found := lookupPin g row col in
  let piecePinned := match found with Some _ => true | None => false end in
  let pinDirection :=
    match found with Some k => pinDirAt g k | None => (0, 0) end in
  let g' :=
    match found with
    | Some k => setPins g (removeAt (pins g) (Z.of_nat k))
    | None => g
    end in
  (g', slideMoves g' row col piecePinned pinDirection
         [(-1, -1); (-1, 1); (1, -1); (1, 1)] moves).

Fixpoint knightLoop (g : GameState) (row col : Z) (piecePinned : bool)
    (ms : list (Z * Z)) (moves : list Move) : list Move :=
  match ms with
  | [] => moves
  | m :: rest =>
    let endRow := row + fst m in
    let endCol := col + snd m in
    let moves' :=
      if onBoard endRow endCol then
        if negb piecePinned then
          if negb (chreq (chr (sq (board g) endRow endCol) 0) (chr (teamColorOf g) 0))
          then push_back moves
                 (newMove (row, col) (endRow, endCol) (board g) false false)
          else moves
        else moves
      else moves in
    knightLoop g row col piecePinned rest moves'
  end.

(** [GameState::getKnightMoves] *)
Definition getKnightMoves (g : GameState) (row col : Z) (moves : list Move)
    : GameState * list Move :=
  let found := lookupPin g row col in
  let piecePinned := match found with Some _ => true | None => false end in
  let g' :=
    match found with
    | Some k => setPins g (removeAt (pins g) (Z.of_nat k))
    | None => g
    end in
  (g', knightLoop g' row col piecePinned knightOffsets moves).

(** [GameState::getQueenMoves] *)
Definition getQueenMoves (g : GameState) (row col : Z) (moves : list Move)
    : GameState * list Move :=
  let '(g1, m1) := getBishopMoves g row col moves in
  getRookMoves g1 row col m1.

Definition kingOffsets : list (Z * Z) :=
  [(-1, -1); (-1, 0); (-1, 1); (0, -1); (0, 1); (1, -1); (1, 0); (1, 1)].

Definition setKingOfMover (g : GameState) (k : Z * Z) : GameState :=
  if whiteToMove g then setWhiteKing g k else setBlackKing g k.

Fixpoint kingLoop (g : GameState) (row col : Z) (ms : list (Z * Z))
    (moves : list Move) : GameState * list Move :=
  match ms with
  | [] => (g, moves)
  | m :: rest =>
    let endRow := row + fst m in
    let endCol := col + snd m in
    if onBoard endRow endCol then
      if negb (chreq (chr (sq (board g) endRow endCol) 0) (chr (teamColorOf g) 0)) then
        let g1 := setKingOfMover g (endRow, endCol) in
        let info := checkForPinsAndChecks g1 in
        let moves' :=
          if negb (pciInCheck info)
          then push_back moves
                 (newMove (row, col) (endRow, endCol) (board g1) false false)
          else moves in
        kingLoop (setKingOfMover g1 (row, col)) row col rest moves'
      else kingLoop g row col rest moves
    else kingLoop g row col rest moves
  end.

(** [GameState::getKingMoves] *)
Definition getKingMoves (g : GameState) (row col : Z) (moves : list Move)
    : GameState * list Move :=
  kingLoop g row col kingOffsets moves.

(** ** Whole-position move generation *)

(** The dispatch through [moveFunctions]: a piece letter outside the map
    generates nothing. *)
Definition moveFunction (piece : ascii) (g : GameState) (row col : Z)
    (moves : list Move) : GameState * list Move :=
  if chreq piece "p" then getPawnMoves g row col moves
  else if chreq piece "R" then getRookMoves g row col moves
  else if chreq piece "N" then getKnightMoves g row col moves
  else if chreq piece "B" then getBishopMoves g row col moves
  else if chreq piece "Q" then getQueenMoves g row col moves
  else if chreq piece "K" then getKingMoves g row col moves
  else (g, moves).

(** The values of the loop variables [row] and [col]. *)
Definition zeroToSeven : list Z := [0; 1; 2; 3; 4; 5; 6; 7].

Fixpoint colLoop (g : GameState) (row : Z) (cols : list Z) (moves : list Move)
    : GameState * list Move :=
  match cols with
  | [] => (g, moves)
  | col :: rest =>
    let turn := chr (sq (board g) row col) 0 in
    let '(g1, m1) :=
      if (chreq turn "w" && whiteToMove g)
         || (chreq turn "b" && negb (whiteToMove g))
      then moveFunction (chr (sq (board g) row col) 1) g row col moves
      else (g, moves) in
    colLoop g1 row rest m1
  end.

Fixpoint rowLoop (g : GameState) (rows : list Z) (moves : list Move)
    : GameState * list Move :=
  match rows with
  | [] => (g, moves)
  | row :: rest =>
    let '(g1, m1) := colLoop g row zeroToSeven moves in
    rowLoop g1 rest m1
  end.

(** [GameState::getAllPossibleMoves] *)
Definition getAllPossibleMoves (g : GameState) : GameState * list Move :=
  rowLoop g zeroToSeven [].

(** [GameState::squareUnderAttack] *)
Definition squareUnderAttack (g : GameState) (row col : Z) : GameState * bool :=
  let g1 := setWhiteToMove g (negb (whiteToMove g)) in
  let '(g2, opponentMoves) := getAllPossibleMoves g1 in
  let g3 := setWhiteToMove g2 (negb (whiteToMove g2)) in
  (g3, existsb (fun move => (endRow move =? row) && (endCol move =? col))
               opponentMoves).

(** [GameState::getKingsideCastleMoves] *)
Definition getKingsideCastleMoves (g : GameState) (row col : Z)
    (moves : list Move) : GameState * list Move :=
  if col + 2 >? 7 then (g, moves)
  else if streq (sq (board g) row (col + 1)) "--"
          && streq (sq (board g) row (col + 2)) "--" then
    let '(g1, a1) := squareUnderAttack g row (col + 1) in
    if negb a1 then
      let '(g2, a2) := squareUnderAttack g1 row (col + 2) in
      if negb a2
      then (g2, push_back moves
                  (newMove (row, col) (row, col + 2) (board g2) false true))
      else (g2, moves)
    else (g1, moves)
  else (g, moves).

(** [GameState::getQueensideCastleMoves] *)
Definition getQueensideCastleMoves (g : GameState) (row col : Z)
    (moves : list Move) : GameState * list Move :=
  if (col - 2 <? 0) || (col - 3 <? 0) then (g, moves)
  else if streq (sq (board g) row (col - 1)) "--"
          && streq (sq (board g) row (col - 2)) "--"
          && streq (sq (board g) row (col - 3)) "--" then
    let '(g1, a1) := squareUnderAttack g row (col - 1) in
    if negb a1 then
      let '(g2, a2) := squareUnderAttack g1 row (col - 2) in
      if negb a2
      then (g2, push_back moves
                  (newMove (row, col) (row, col - 2) (board g2) false true))
      else (g2, moves)
    else (g1, moves)
  else (g, moves).

(** [GameState::getCastleMoves] *)
Definition getCastleMoves (g : GameState) (row col : Z) (moves : list Move)
    : GameState * list Move :=
  let '(g1, attacked) := squareUnderAttack g row col in
  if attacked then (g1, moves)
  else
    let '(g2, m2) :=
      if (whiteToMove g1 && wks (castlingRights g1))
         || (negb (whiteToMove g1) && bks (castlingRights g1))
      then getKingsideCastleMoves g1 row col moves
      else (g1, moves) in
    if (whiteToMove g2 && wqs (castlingRights g2))
       || (negb (whiteToMove g2) && bqs (castlingRights g2))
    then getQueensideCastleMoves g2 row col m2
    else (g2, m2).

(** The squares that resolve a single check by a piece that is not a
    knight: the loop pushes the ray from the king and stops once it has
    pushed the checker's square. *)
Fixpoint raySquares (kingRow kingCol : Z) (check : PinInfo) (dists : list Z)
    (validSquares : list (Z * Z)) : list (Z * Z) :=
  match dists with
  | [] => validSquares
  | i :: rest =>
    let square := (kingRow + dirRow check * i, kingCol + dirCol check * i) in
    let vs := push_back validSquares square in
    if (fst square =? pinRow check) && (snd square =? pinCol check) then vs
    else raySquares kingRow kingCol check rest vs
  end.

(** The body of the removal loop of [getValidMoves]: [true] when the move
    stays in the list. *)
Definition keepsMove (validSquares : list (Z * Z)) (m : Move) : bool :=
  if negb (chreq (chr (pieceMoved m) 1) "K") then
    existsb (fun s => (endRow m =? fst s) && (endCol m =? snd s)) validSquares
  else true.

(** [GameState::getValidMoves].  The backwards loop that calls
    [moves.removeAt(i)] on every move that does not resolve the check is a
    [filter]: it keeps the remaining moves in their order. *)
Definition getValidMoves (g : GameState) : GameState * list Move :=
  let tempCastleRights := castlingRights g in
  let g0 := setPinsAndChecks g (checkForPinsAndChecks g) in
  let kingRow := fst (kingPosOf g0) in
  let kingCol := snd (kingPosOf g0) in
  let '(g3, moves) :=
    if inCheck g0 then
      let '(g1, moves1) :=
        if size (checks g0) =? 1 then
          let '(g1, all) := getAllPossibleMoves g0 in
          let check := zth (checks g1) 0 defaultPin in
          let pieceChecking := sq (board g1) (pinRow check) (pinCol check) in
          let validSquares :=
            if chreq (chr pieceChecking 1) "N"
            then push_back [] (pinRow check, pinCol check)
            else raySquares kingRow kingCol check oneToSeven [] in
          (g1, filter (keepsMove validSquares) all)
        else getKingMoves g0 kingRow kingCol [] in
      getCastleMoves g1 (fst (kingPosOf g1)) (snd (kingPosOf g1)) moves1
    else
      let '(g1, all) := getAllPossibleMoves g0 in
      getCastleMoves g1 (fst (kingPosOf g1)) (snd (kingPosOf g1)) all in
  let g4 :=
    if isEmpty moves then
      if inCheck g3 then setMate g3 true false else setMate g3 false true
    else setMate g3 false false in
  (setCastlingRights g4 tempCastleRights, moves).

(** The fields that persist between calls: everything except the derived
    [inCheck], [pins], [checks], [checkmate] and [stalemate]. *)
Definition sameCore (a b : GameState) : Prop :=
  board a = board b /\ whiteToMove a = whiteToMove b
  /\ whiteKingLocation a = whiteKingLocation b
  /\ blackKingLocation a = blackKingLocation b
  /\ castlingRights a = castlingRights b
  /\ enPassantPossible a = enPassantPossible b.

(** ** Move text *)

(** [Move::colsToFiles] and [Move::rowsToRanks] as the [GameState]
    constructor fills them from [filesToCols] and [ranksToRows];
    [QMap::operator[]] gives the empty string for a key that is absent. *)
Definition colsToFiles (col : Z) : string :=
  if col =? 0 then "a" else if col =? 1 then "b" else if col =? 2 then "c"
  else if col =? 3 then "d" else if col =? 4 then "e" else if col =? 5 then "f"
  else if col =? 6 then "g" else if col =? 7 then "h" else "".

Definition rowsToRanks (row : Z) : string :=
  if row =? 7 then "1" else if row =? 6 then "2" else if row =? 5 then "3"
  else if row =? 4 then "4" else if row =? 3 then "5" else if row =? 2 then "6"
  else if row =? 1 then "7" else if row =? 0 then "8" else "".

(** [Move::getRankFile] *)
Definition getRankFile (row col : Z) : string :=
  String.append (colsToFiles col) (rowsToRanks row).



(** ** Static evaluation *)

Definition CHECKMATE : Z := 1000.
Definition STALEMATE : Z := 0.
Definition DEPTH : nat := 3.

(** [ChessAI::pieceScore]; [QMap::operator[]] gives 0 for a letter that is
    not a key. *)
Definition pieceScore (c : ascii) : Z :=
  if chreq c "K" then 0 else if chreq c "Q" then 9 else if chreq c "R" then 5
  else if chreq c "B" then 3 else if chreq c "N" then 3
  else if chreq c "p" then 1 else 0.

(** The position tables hold [double]s that are multiples of 0.05 between
    0 and 0.8; they are kept here in hundredths.  [scoreBoard] adds such a
    value to an [int] and converts the sum back to [int], which truncates
    towards zero.  The binary rounding of the table entries is far smaller
    than 0.05, so the truncated result is the one exact arithmetic gives. *)
Definition knightScores : list (list Z) :=
  [ [0; 10; 20; 20; 20; 20; 10; 0];
    [10; 30; 50; 50; 50; 50; 30; 10];
    [20; 50; 60; 65; 65; 60; 50; 20];
    [20; 55; 65; 70; 70; 65; 55; 20];
    [20; 50; 65; 70; 70; 65; 50; 20];
    [20; 55; 60; 65; 65; 60; 55; 20];
    [10; 30; 50; 55; 55; 50; 30; 10];
    [0; 10; 20; 20; 20; 20; 10; 0] ].

Definition bishopScores : list (list Z) :=
  [ [0; 20; 20; 20; 20; 20; 20; 0];
    [20; 40; 40; 40; 40; 40; 40; 20];
    [20; 40; 50; 60; 60; 50; 40; 20];
    [20; 50; 50; 60; 60; 50; 50; 20];
    [20; 40; 60; 60; 60; 60; 40; 20];
    [20; 60; 60; 60; 60; 60; 60; 20];
    [20; 50; 40; 40; 40; 40; 50; 20];
    [0; 20; 20; 20; 20; 20; 20; 0] ].

Definition rookScores : list (list Z) :=
  [ [25; 25; 25; 25; 25; 25; 25; 25];
    [50; 75; 75; 75; 75; 75; 75; 50];
    [0; 25; 25; 25; 25; 25; 25; 0];
    [0; 25; 25; 25; 25; 25; 25; 0];
    [0; 25; 25; 25; 25; 25; 25; 0];
    [0; 25; 25; 25; 25; 25; 25; 0];
    [0; 25; 25; 25; 25; 25; 25; 0];
    [25; 25; 25; 50; 50; 25; 25; 25] ].

Definition queenScores : list (list Z) :=
  [ [0; 20; 20; 30; 30; 20; 20; 0];
    [20; 40; 40; 40; 40; 40; 40; 20];
    [20; 40; 50; 50; 50; 50; 40; 20];
    [30; 40; 50; 50; 50; 50; 40; 30];
    [40; 40; 50; 50; 50; 50; 40; 30];
    [20; 50; 50; 50; 50; 50; 40; 20];
    [20; 40; 50; 40; 40; 40; 40; 20];
    [0; 20; 20; 30; 30; 20; 20; 0] ].

Definition pawnScores : list (list Z) :=
  [ [80; 80; 80; 80; 80; 80; 80; 80];
    [70; 70; 70; 70; 70; 70; 70; 70];
    [30; 30; 40; 50; 50; 40; 30; 30];
    [25; 25; 30; 45; 45; 30; 25; 25];
    [20; 20; 20; 40; 40; 20; 20; 20];
    [25; 15; 10; 20; 20; 10; 15; 25];
    [25; 30; 30; 0; 0; 30; 30; 25];
    [20; 20; 20; 20; 20; 20; 20; 20] ].

(** [ChessAI::piecePositionScores]: the black tables are the white ones
    with the rows in reverse order ([std::reverse]). *)
Definition piecePositionScores (piece : string) : list (list Z) :=
  if streq piece "wN" then knightScores
  else if streq piece "bN" then rev knightScores
  else if streq piece "wB" then bishopScores
  else if streq piece "bB" then rev bishopScores
  else if streq piece "wQ" then queenScores
  else if streq piece "bQ" then rev queenScores
  else if streq piece "wR" then rookScores
  else if streq piece "bR" then rev rookScores
  else if streq piece "wp" then pawnScores
  else if streq piece "bp" then rev pawnScores
  else [].

(** Material plus position of the piece standing on [(row, col)], in
    hundredths: the right-hand side of [score += ...] / [score -= ...]. *)
Definition pieceTerm (piece : string) (row col : Z) : Z :=
  let piecePositionScore :=
    if negb (chreq (chr piece 1) "K")
    then zth (zth (piecePositionScores piece) row []) col 0 else 0 in
  pieceScore (chr piece 1) * 100 + piecePositionScore.

(** One step of the double loop of [scoreBoard]: the [int] accumulator is
    widened, the term is added or subtracted, and the result is truncated. *)
Definition scoreStep (score : Z) (piece : string) (row col : Z) : Z :=
  if negb (streq piece "--") then
    if chreq (chr piece 0) "w"
    then Z.quot (score * 100 + pieceTerm piece row col) 100
    else Z.quot (score * 100 - pieceTerm piece row col) 100
  else score.

Definition allSquares : list (Z * Z) :=
  flat_map (fun row => map (fun col => (row, col)) zeroToSeven) zeroToSeven.

(** [ChessAI::scoreBoard] *)
Definition scoreBoard (gs : GameState) : Z :=
  if checkmate gs then (if whiteToMove gs then - CHECKMATE else CHECKMATE)
  else if stalemate gs then STALEMATE
  else
    fold_left (fun score rc =>
                 scoreStep score (sq (board gs) (fst rc) (snd rc)) (fst rc) (snd rc))
              allSquares 0.

(** ** Search *)

(** The value the search threads: the position, [ChessAI::nextMove] and
    the score returned. *)
Definition SearchResult : Type := GameState * Move * Z.

(** The [for] loop of [findMoveNegaMaxAlphaBeta] at one node; [rec] is the
    recursive call one ply deeper and [atRoot] is [depth == DEPTH].  The
    source computes in [int]; the scores lie between [-CHECKMATE] and
    [CHECKMATE], and for a window within these bounds, as [findBestMove]
    passes and as the theorems on the search assume, no negation leaves
    the range of [int]; [alphaBetaLoopInt] below is the loop with these
    operations in [int]. *)
Fixpoint alphaBetaLoop
    (rec : GameState -> Move -> list Move -> Z -> Z -> Z -> SearchResult)
    (atRoot : bool) (moves : list Move) (gs : GameState) (nextMove : Move)
    (maxScore alpha beta turnMultiplier : Z) : SearchResult :=
  match moves with
  | [] => (gs, nextMove, maxScore)
  | move :: rest =>
    let gs1 := makeMove gs move in
    let '(gs2, nextMoves) := getValidMoves gs1 in
    let '(gs3, nm3, r) :=
      rec gs2 nextMove nextMoves (- beta) (- alpha) (- turnMultiplier) in
    let score := - r in
    let gs4 := undoMove gs3 in
    let maxScore' := if score >? maxScore then score else maxScore in
    let nm4 := if score >? maxScore then (if atRoot then move else nm3) else nm3 in
    let alpha' := if maxScore' >? alpha then maxScore' else alpha in
    if alpha' >=? beta then (gs4, nm4, maxScore')
    else alphaBetaLoop rec atRoot rest gs4 nm4 maxScore' alpha' beta turnMultiplier
  end.

(** [ChessAI::findMoveNegaMaxAlphaBeta] *)
Fixpoint findMoveNegaMaxAlphaBeta (depth : nat) (gs : GameState)
    (nextMove : Move) (validMoves : list Move)
    (alpha beta turnMultiplier : Z) : SearchResult :=
  match depth with
  | O => (gs, nextMove, turnMultiplier * scoreBoard gs)
  | S d =>
    alphaBetaLoop (findMoveNegaMaxAlphaBeta d) (Nat.eqb depth DEPTH)
      validMoves gs nextMove (- CHECKMATE) alpha beta turnMultiplier
  end.

(** The least and the greatest value of a 32-bit [int]. *)
Definition INT_MIN : Z := -2147483648.
Definition INT_MAX : Z := 2147483647.

(** An [int] result: [None] where the exact value does not fit, which the
    language leaves undefined. *)
Definition toInt (x : Z) : option Z :=
  if (INT_MIN <=? x) && (x <=? INT_MAX) then Some x else None.

(** The loop of [findMoveNegaMaxAlphaBeta] with the negations of [beta],
    [alpha], [turnMultiplier] and of the returned score computed in
    [int]. *)
Fixpoint alphaBetaLoopInt
    (rec : GameState -> Move -> list Move -> Z -> Z -> Z -> option SearchResult)
    (atRoot : bool) (moves : list Move) (gs : GameState) (nextMove : Move)
    (maxScore alpha beta turnMultiplier : Z) : option SearchResult :=
  match moves with
  | [] => Some (gs, nextMove, maxScore)
  | move :: rest =>
    let gs1 := makeMove gs move in
    let '(gs2, nextMoves) := getValidMoves gs1 in
    match toInt (- beta), toInt (- alpha), toInt (- turnMultiplier) with
    | Some nbeta, Some nalpha, Some ntm =>
      match rec gs2 nextMove nextMoves nbeta nalpha ntm with
      | Some (gs3, nm3, r) =>
        match toInt (- r) with
        | Some score =>
          let gs4 := undoMove gs3 in
          let maxScore' := if score >? maxScore then score else maxScore in
          let nm4 :=
            if score >? maxScore then (if atRoot then move else nm3) else nm3 in
          let alpha' := if maxScore' >? alpha then maxScore' else alpha in
          if alpha' >=? beta then Some (gs4, nm4, maxScore')
          else alphaBetaLoopInt rec atRoot rest gs4 nm4 maxScore' alpha' beta
                                turnMultiplier
        | None => None
        end
      | None => None
      end
    | _, _, _ => None
    end
  end.

(** [ChessAI::findMoveNegaMaxAlphaBeta] with its arithmetic in [int]. *)
Fixpoint findMoveNegaMaxAlphaBetaInt (depth : nat) (gs : GameState)
    (nextMove : Move) (validMoves : list Move)
    (alpha beta turnMultiplier : Z) : option SearchResult :=
  match depth with
  | O =>
    match toInt (turnMultiplier * scoreBoard gs) with
    | Some s => Some (gs, nextMove, s)
    | None => None
    end
  | S d =>
    match toInt (- CHECKMATE) with
    | Some maxScore =>
      alphaBetaLoopInt (findMoveNegaMaxAlphaBetaInt d) (Nat.eqb depth DEPTH)
        validMoves gs nextMove maxScore alpha beta turnMultiplier
    | None => None
    end
  end.

(** The same loop with the cutoff [if (alpha >= beta) break;] removed. *)
Fixpoint fullWidthLoop
    (rec : GameState -> Move -> list Move -> Z -> Z -> Z -> SearchResult)
    (atRoot : bool) (moves : list Move) (gs : GameState) (nextMove : Move)
    (maxScore alpha beta turnMultiplier : Z) : SearchResult :=
  match moves with
  | [] => (gs, nextMove, maxScore)
  | move :: rest =>
    let gs1 := makeMove gs move in
    let '(gs2, nextMoves) := getValidMoves gs1 in
    let '(gs3, nm3, r) :=
      rec gs2 nextMove nextMoves (- beta) (- alpha) (- turnMultiplier) in
    let score := - r in
    let gs4 := undoMove gs3 in
    let maxScore' := if score >? maxScore then score else maxScore in
    let nm4 := if score >? maxScore then (if atRoot then move else nm3) else nm3 in
    let alpha' := if maxScore' >? alpha then maxScore' else alpha in
    fullWidthLoop rec atRoot rest gs4 nm4 maxScore' alpha' beta turnMultiplier
  end.

(** The unpruned full-width negamax search of the specification: the
    recursion of [findMoveNegaMaxAlphaBeta] without the cutoff. *)
Fixpoint fullWidthNegaMax (depth : nat) (gs : GameState)
    (nextMove : Move) (validMoves : list Move)
    (alpha beta turnMultiplier : Z) : SearchResult :=
  match depth with
  | O => (gs, nextMove, turnMultiplier * scoreBoard gs)
  | S d =>
    fullWidthLoop (fullWidthNegaMax d) (Nat.eqb depth DEPTH)
      validMoves gs nextMove (- CHECKMATE) alpha beta turnMultiplier
  end.

(** [std::swap(v[i], v[j])] *)
Definition swap (v : list Move) (i j : Z) : list Move :=
  zset (zset v i (zth v j defaultMove)) j (zth v i defaultMove).

(** The random source: [bounded k n] is what the [k]-th call of
    [QRandomGenerator::global()->bounded(n)] returns. *)
Definition RandomSource : Type := nat -> Z -> Z.

(** The shuffle of [findBestMove]: [for (i = size - 1; i > 0; i--)], with
    [k] counting the draws made so far. *)
Fixpoint shuffleLoop (bounded : RandomSource) (i : nat) (k : nat)
    (v : list Move) : list Move * nat :=
  match i with
  | O => (v, k)
  | S i' =>
    let j := bounded k (Z.of_nat i + 1) in
    let v' := if Z.of_nat i =? j then v else swap v (Z.of_nat i) j in
    shuffleLoop bounded i' (S k) v'
  end.




(** ** Games *)

(** The positions the program can be in: a fresh game, and whatever
    [getValidMoves], [makeMove] with a move that [getValidMoves] just
    returned, and [undoMove] make of a position it can be in. *)
Inductive reachable : GameState -> Prop :=
| reach_new : reachable newGameState
| reach_valid : forall g g1 ms,
    reachable g -> getValidMoves g = (g1, ms) -> reachable g1
| reach_make : forall g g1 ms m g',
    reachable g -> getValidMoves g = (g1, ms) -> In m ms ->
    g' = makeMove g1 m -> reachable g'
| reach_undo : forall g g', reachable g -> g' = undoMove g -> reachable g'.

Definition findMove (id : Z) (ms : list Move) : option Move :=
  find (fun m => moveID m =? id) ms.

(** Plays the moves with the given identifiers, each looked up in the list
    [getValidMoves] returns for the position it is played in. *)
Fixpoint playIDs (g : GameState) (ids : list Z) : option GameState :=
  match ids with
  | [] => Some g
  | id :: rest =>
    let '(g1, ms) := getValidMoves g in
    match findMove id ms with
    | Some m => playIDs (makeMove g1 m) rest
    | None => None
    end
  end.

(** A sequence of moves each of which [getValidMoves] returns in the
    position the moves before it lead to. *)
Fixpoint legalSeq (g : GameState) (ms : list Move) : Prop :=
  match ms with
  | [] => True
  | m :: rest => In m (snd (getValidMoves g)) /\ legalSeq (makeMove g m) rest
  end.

Definition applyMoves (g : GameState) (ms : list Move) : GameState :=
  fold_left makeMove ms g.

Definition undoMoves (n : nat) (g : GameState) : GameState :=
  Nat.iter n undoMove g.

(** The calls a client makes on a [GameState]. *)
Inductive Op : Type :=
| OpMake (m : Move)
| OpUndo
| OpValid.

Definition runOp (g : GameState) (o : Op) : GameState :=
  match o with
  | OpMake m => makeMove g m
  | OpUndo => undoMove g
  | OpValid => fst (getValidMoves g)
  end.

Definition runOps (g : GameState) (ops : list Op) : GameState :=
  fold_left runOp ops g.

(** The number of moves applied and not yet undone after [ops], starting
    from [n] such moves; undoing with nothing applied does nothing. *)
Fixpoint pending (n : nat) (ops : list Op) : nat :=
  match ops with
  | [] => n
  | OpMake _ :: rest => pending (S n) rest
  | OpUndo :: rest => pending (Nat.pred n) rest
  | OpValid :: rest => pending n rest
  end.

(** Everything a [GameState] holds apart from the two king caches and the
    derived fields. *)
Definition sameFrame (a b : GameState) : Prop :=
  board a = board b /\ whiteToMove a = whiteToMove b
  /\ moveLog a = moveLog b
  /\ enPassantPossible a = enPassantPossible b
  /\ enPassantPossibleLog a = enPassantPossibleLog b
  /\ castlingRights a = castlingRights b
  /\ castlingRightsLog a = castlingRightsLog b.

(** The three history stacks all holding [n] entries. *)
Definition stacksEqual (g : GameState) (n : nat) : Prop :=
  List.length (moveLog g) = n
  /\ List.length (castlingRightsLog g) = n
  /\ List.length (enPassantPossibleLog g) = n.

(** The move log holding [n] entries and the two other stacks one more:
    the entry the constructor pushes. *)
Definition stacksAligned (g : GameState) (n : nat) : Prop :=
  List.length (moveLog g) = n
  /\ List.length (castlingRightsLog g) = S n
  /\ List.length (enPassantPossibleLog g) = S n.

(** The position [playIDs] reaches from a fresh game (the fresh game
    itself if one of the moves is not in the list it is looked up in). *)
Definition positionAfter (ids : list Z) : GameState :=
  match playIDs newGameState ids with
  | Some g => g
  | None => newGameState
  end.

(** The move with identifier [id] among those [getValidMoves] returns. *)
Definition validMove (g : GameState) (id : Z) : Move :=
  match findMove id (snd (getValidMoves g)) with
  | Some m => m
  | None => defaultMove
  end.

(** 1. h4 e6 2. Rh3 a6 3. Ra3: the rook from h1 stands on a3, the rook on
    a1 and the king on e1 have not moved. *)
Definition rookLiftGame : list Z := [6747; 1424; 7757; 1020; 5750].

(** 1. d4 e6 2. Qd2 Bb4 3. Qd3 Bxe1: the queen pinned on d2 leaves the
    diagonal (the bishop half of [getQueenMoves] consumes the pin before
    the rook half looks for it) and the bishop takes the king. *)
Definition kingCaptureGame : list Z := [6343; 1424; 7363; 541; 6353; 4174].

(** ... 4. Nh3 Nc6 5. g3 Ne5 6. Bg2 Nxd3: the knight attacks e1, where
    [whiteKingLocation] still points and the black bishop stands. *)
Definition castleInCheckGame : list Z :=
  kingCaptureGame ++ [7657; 122; 6656; 2234; 7566; 3453].

(** ... 4. Na3 Ke7 5. Bh6 Kd6 6. "O-O-O" (the bishop on e1 goes to c1, the
    rook from a1 to d1; no right is cleared) Bxb2 7. Rd2 Bxd4 8. Qxh7 Kc5
    9. h3 Kb4 10. h4 Kxa3 11. h5 Kb2 12. g3 Ka1: Black's king stands on a1
    and White may "castle" queenside again. *)
Definition secondCastleGame : list Z :=
  kingCaptureGame ++
  [7150; 414; 7227; 1423; 7472; 7261; 7363; 6143; 5317; 2332; 6757; 3241;
   5747; 4150; 4737; 5061; 6656; 6170].

(** ... 13. "O-O-O": the rook relocation carries Black's king from a1 to
    d1, and [blackKingLocation] still says a1. *)
Definition staleKingGame : list Z := secondCastleGame ++ [7472].

(** A continuation of [secondCastleGame] that trades most of the pieces. *)
Definition sparseGame : list Z :=
  secondCastleGame ++
  [7757; 1627; 1715; 4365; 1565; 1030; 6242; 305; 6505; 1222; 502; 614; 222;
   122; 5747; 702; 6040; 2243; 4743; 242; 4313; 4240; 1311; 1422; 6444; 4044;
   7564; 4464].


(** 1. e4 a6 2. e5 d5: White may capture en passant on d6. *)
Definition enPassantGame : list Z := [6444; 1020; 4434; 1333].


(** The evaluation the specification describes for a position that is
    neither checkmate nor stalemate, in hundredths: the sum over the
    occupied squares of material plus table value, White's terms added and
    Black's subtracted. *)
Definition specEvaluate100 (gs : GameState) : Z :=
  fold_left (fun acc rc =>
               let piece := sq (board gs) (fst rc) (snd rc) in
               if negb (streq piece "--") then
                 if chreq (chr piece 0) "w"
                 then acc + pieceTerm piece (fst rc) (snd rc)
                 else acc - pieceTerm piece (fst rc) (snd rc)
               else acc)
            allSquares 0.





Definition rookLiftPosition : GameState := positionAfter rookLiftGame.
Definition castleInCheckPosition : GameState := positionAfter castleInCheckGame.
Definition staleKingPosition : GameState := positionAfter staleKingGame.
Definition sparsePosition : GameState := positionAfter sparseGame.

(** The position before the second queenside "castle", as
    [getValidMoves] leaves it. *)
Definition secondCastlePosition : GameState :=
  fst (getValidMoves (positionAfter secondCastleGame)).

(** The second "castle", and the step of Black's king from d1 to c1 that
    is legal after it. *)
Definition secondCastleMoves : list Move :=
  [validMove secondCastlePosition 7472;
   validMove (makeMove secondCastlePosition (validMove secondCastlePosition 7472))
             7372].

Definition enPassantPosition : GameState := positionAfter enPassantGame.






Definition sameKings (a b : GameState) : Prop :=
  whiteKingLocation a = whiteKingLocation b
  /\ blackKingLocation a = blackKingLocation b.

(** The king caches are accurate: a square that holds a king of a colour
    is the square cached for that colour. *)
Definition kingsCached (g : GameState) : Prop :=
  forall r c,
  chreq (chr (sq (board g) r c) 1) "K" = true ->
  (chreq (chr (sq (board g) r c) 0) "w" = true -> whiteKingLocation g = (r, c))
  /\ (chreq (chr (sq (board g) r c) 0) "b" = true -> blackKingLocation g = (r, c)).

(** ** The search under the make/undo discipline *)

(** Every entry of a position table lies between 0 and 80 hundredths. *)
Definition tableBounded (t : list (list Z)) : bool :=
  forallb (forallb (fun x => (0 <=? x) && (x <=? 80))) t.

(** The [checkmate] and [stalemate] flags set on the position a generator
    returns. *)
Definition withMate {A : Type} (cm sm : bool) (p : GameState * A) : GameState * A :=
  (setMate (fst p) cm sm, snd p).

(** Two positions agree on every member that survives a call of
    [getValidMoves]: all but the flags and the pin and check lists, which
    [getValidMoves] recomputes. *)
Definition samePersistent (a b : GameState) : Prop :=
  board a = board b /\ whiteToMove a = whiteToMove b
  /\ moveLog a = moveLog b
  /\ whiteKingLocation a = whiteKingLocation b
  /\ blackKingLocation a = blackKingLocation b
  /\ enPassantPossible a = enPassantPossible b
  /\ enPassantPossibleLog a = enPassantPossibleLog b
  /\ castlingRights a = castlingRights b
  /\ castlingRightsLog a = castlingRightsLog b.

(** The make/undo discipline the search relies on, down to [depth] plies:
    undoing a searched move gives back the position it was made in. *)
Fixpoint disciplined (depth : nat) (g : GameState) (moves : list Move) : Prop :=
  match depth with
  | O => True
  | S d =>
    forall m, In m moves ->
    samePersistent (undoMove (fst (getValidMoves (makeMove g m)))) g
    /\ disciplined d (fst (getValidMoves (makeMove g m)))
                     (snd (getValidMoves (makeMove g m)))
  end.

(** What a pruned result [rA] for the window [(alpha, beta)] says about
    the unpruned result [rF]: exact inside the window, a bound outside. *)
Definition related (g : GameState) (alpha beta : Z) (rA rF : SearchResult) : Prop :=
  samePersistent (fst (fst rA)) g /\ samePersistent (fst (fst rF)) g
  /\ - CHECKMATE <= snd rF <= CHECKMATE
  /\ (beta <= snd rA -> snd rA <= snd rF)
  /\ (alpha < snd rA -> snd rA < beta -> snd rF = snd rA)
  /\ (snd rA <= alpha -> snd rF <= snd rA).

(** The type of the two recursive searches. *)
Definition Search : Type :=
  GameState -> Move -> list Move -> Z -> Z -> Z -> SearchResult.

(** The pruned and the unpruned search are [related] at depth [d]. *)
Definition recSpec (d : nat) (recA recF : Search) : Prop :=
  forall g nmA nmF moves alpha beta alpha' beta' tm,
  tm = 1 \/ tm = -1 -> disciplined d g moves ->
  - CHECKMATE <= alpha -> alpha < beta -> beta <= CHECKMATE ->
  related g alpha beta (recA g nmA moves alpha beta tm)
                       (recF g nmF moves alpha' beta' tm).

(** One level of [disciplined]. *)
Definition stepFacts (d : nat) (g : GameState) (moves : list Move) : Prop :=
  forall m, In m moves ->
  samePersistent (undoMove (fst (getValidMoves (makeMove g m)))) g
  /\ disciplined d (fst (getValidMoves (makeMove g m)))
                   (snd (getValidMoves (makeMove g m))).

(** Decidable equality of the persistent members. *)
Fixpoint listEqb {A : Type} (eqb : A -> A -> bool) (l l' : list A) : bool :=
  match l, l' with
  | [], [] => true
  | x :: r, y :: r' => eqb x y && listEqb eqb r r'
  | _, _ => false
  end.

Definition moveSame (a b : Move) : bool :=
  (startRow a =? startRow b) && (startCol a =? startCol b)
  && (endRow a =? endRow b) && (endCol a =? endCol b)
  && String.eqb (pieceMoved a) (pieceMoved b)
  && String.eqb (pieceCaptured a) (pieceCaptured b)
  && Bool.eqb (isPawnPromotion a) (isPawnPromotion b)
  && Bool.eqb (isEnpassantMove a) (isEnpassantMove b)
  && Bool.eqb (isCastleMove a) (isCastleMove b)
  && Bool.eqb (isCapture a) (isCapture b)
  && (moveID a =? moveID b).

Definition rightsSame (a b : CastleRights) : bool :=
  Bool.eqb (wks a) (wks b) && Bool.eqb (bks a) (bks b)
  && Bool.eqb (wqs a) (wqs b) && Bool.eqb (bqs a) (bqs b).

Definition samePersistentb (a b : GameState) : bool :=
  listEqb (listEqb String.eqb) (board a) (board b)
  && Bool.eqb (whiteToMove a) (whiteToMove b)
  && listEqb moveSame (moveLog a) (moveLog b)
  && pairEq (whiteKingLocation a) (whiteKingLocation b)
  && pairEq (blackKingLocation a) (blackKingLocation b)
  && pairEq (enPassantPossible a) (enPassantPossible b)
  && listEqb pairEq (enPassantPossibleLog a) (enPassantPossibleLog b)
  && rightsSame (castlingRights a) (castlingRights b)
  && listEqb rightsSame (castlingRightsLog a) (castlingRightsLog b).

(** [disciplined] as a check that can be run. *)
Fixpoint disciplinedb (depth : nat) (g : GameState) (moves : list Move) : bool :=
  match depth with
  | O => true
  | S d =>
    forallb (fun m =>
      let '(g2, nms) := getValidMoves (makeMove g m) in
      samePersistentb (undoMove g2) g && disciplinedb d g2 nms) moves
  end.

(** ** Invariants of positions and moves *)

(** The last entries of the two state logs are the current values, as
    [undoMove] assumes when it reads them back. *)
Definition logsCurrent (g : GameState) : Prop :=
  back (enPassantPossibleLog g) (0, 0) = enPassantPossible g
  /\ back (castlingRightsLog g) (mkCR true true true true) = castlingRights g.

(** The colour letter of the side to move. *)
Definition teamChar (w : bool) : ascii := if w then "w"%char else "b"%char.

(** The direction pawns of the side to move advance in, and the row they
    start on. *)
Definition forward (w : bool) : Z := if w then -1 else 1.
Definition pawnRow (w : bool) : Z := if w then 6 else 1.

(** What every move of the per-piece generators has in common, on board
    [b] with [w] the side to move and [ep] the en-passant target: it is no
    castle, it runs between two different squares of the board, it moves
    the piece that stands on its start square, a piece of the side to
    move, and unless it is an en-passant capture it records the content of
    its end square as captured, which is no piece of the side to move; an
    en-passant capture is made by a pawn, ends on the target, one row
    forward in a neighbouring column, and records a pawn as captured; a
    pawn that moves two rows starts on its home row, stays in its column
    and passes an empty square; and the promotion flag is set for a pawn
    that reaches the last row. *)
Definition pieceMove (b : Board) (w : bool) (ep : Z * Z) (m : Move) : Prop :=
  onBoard (startRow m) (startCol m) = true
  /\ onBoard (endRow m) (endCol m) = true
  /\ (startRow m, startCol m) <> (endRow m, endCol m)
  /\ pieceMoved m = sq b (startRow m) (startCol m)
  /\ chr (pieceMoved m) 0 = teamChar w
  /\ isCastleMove m = false
  /\ (isEnpassantMove m = false ->
      pieceCaptured m = sq b (endRow m) (endCol m)
      /\ chr (pieceCaptured m) 0 <> teamChar w)
  /\ (isEnpassantMove m = true ->
      chr (pieceMoved m) 1 = "p"%char /\ (endRow m, endCol m) = ep)
  /\ (isEnpassantMove m = true ->
      endRow m = startRow m + forward w /\ endCol m <> startCol m
      /\ pieceCaptured m = (if streq (pieceMoved m) "wp" then "bp" else "wp"))
  /\ (chr (pieceMoved m) 1 = "p"%char -> Z.abs (startRow m - endRow m) = 2 ->
      isEnpassantMove m = false /\ startRow m = pawnRow w
      /\ endCol m = startCol m
      /\ sq b (startRow m + forward w) (startCol m) = "--")
  /\ isPawnPromotion m
     = (streq (pieceMoved m) "wp" && (endRow m =? 0))
       || (streq (pieceMoved m) "bp" && (endRow m =? 7)).

Definition pieceMoveOf (g : GameState) (m : Move) : Prop :=
  pieceMove (board g) (whiteToMove g) (enPassantPossible g) m.

(** What every castle move of [getCastleMoves] has in common, on board
    [b] with [w] the side to move, [cr] the castling rights and [k] the
    square the move generator was called for: it starts on [k], moves
    whatever stands there, stays on its row, and either ends two columns
    to the right, on the board, with the side's kingside right set and the
    two squares right of [k] empty, or ends two columns to the left, with
    the side's queenside right set and the three squares left of [k] on
    the board and empty. *)
Definition castleMove (b : Board) (w : bool) (cr : CastleRights) (k : Z * Z)
    (m : Move) : Prop :=
  isCastleMove m = true /\ isEnpassantMove m = false
  /\ isPawnPromotion m
     = (streq (pieceMoved m) "wp" && (endRow m =? 0))
       || (streq (pieceMoved m) "bp" && (endRow m =? 7))
  /\ (startRow m, startCol m) = k
  /\ pieceMoved m = sq b (startRow m) (startCol m)
  /\ pieceCaptured m = "--"
  /\ endRow m = startRow m
  /\ ((endCol m = startCol m + 2 /\ endCol m <= 7
       /\ (if w then wks cr else bks cr) = true
       /\ sq b (startRow m) (startCol m + 1) = "--"
       /\ sq b (startRow m) (startCol m + 2) = "--")
      \/ (endCol m = startCol m - 2 /\ 0 <= startCol m - 3
          /\ (if w then wqs cr else bqs cr) = true
          /\ sq b (startRow m) (startCol m - 1) = "--"
          /\ sq b (startRow m) (startCol m - 2) = "--"
          /\ sq b (startRow m) (startCol m - 3) = "--")).

Definition castleMoveOf (g : GameState) (m : Move) : Prop :=
  castleMove (board g) (whiteToMove g) (castlingRights g) (kingPosOf g) m.

(** The king of the side to move stands on the square cached for it. *)
Definition kingStands (g : GameState) : Prop :=
  onBoard (fst (kingPosOf g)) (snd (kingPosOf g)) = true
  /\ sq (board g) (fst (kingPosOf g)) (snd (kingPosOf g))
     = (if whiteToMove g then "wK" else "bK").

(** The two kinds of move [getValidMoves] returns. *)
Definition listedMove (g : GameState) (m : Move) : Prop :=
  pieceMoveOf g m \/ castleMoveOf g m.

(** The board has eight rows of eight squares. *)
Definition boardShape (b : Board) : Prop :=
  List.length b = 8%nat /\ Forall (fun row => List.length row = 8%nat) b.

(** The board [makeMove] leaves. *)
Definition makeBoard (b : Board) (move : Move) : Board :=
  let b1 := setSq b (startRow move) (startCol move) "--" in
  let b2 := setSq b1 (endRow move) (endCol move) (pieceMoved move) in
  let b3 := if isPawnPromotion move
            then setSq b2 (endRow move) (endCol move)
                       (String.append (str1 (chr (pieceMoved move) 0)) "Q")
            else b2 in
  let b4 := if isEnpassantMove move
            then setSq b3 (startRow move) (endCol move) "--" else b3 in
  if isCastleMove move then
    if endCol move - startCol move =? 2 then
      let b := setSq b4 (endRow move) (endCol move - 1)
                     (sq b4 (endRow move) (endCol move + 1)) in
      setSq b (endRow move) (endCol move + 1) "--"
    else
      let b := setSq b4 (endRow move) (endCol move + 1)
                     (sq b4 (endRow move) (endCol move - 2)) in
      setSq b (endRow move) (endCol move - 2) "--"
  else b4.

(** The board [undoMove] leaves when [move] is the last move of the log. *)
Definition undoBoard (b : Board) (move : Move) : Board :=
  let b1 := setSq b (startRow move) (startCol move) (pieceMoved move) in
  let b2 := setSq b1 (endRow move) (endCol move) (pieceCaptured move) in
  let b3 :=
    if isEnpassantMove move then
      let b := setSq b2 (endRow move) (endCol move) "--" in
      setSq b (startRow move) (endCol move) (pieceCaptured move)
    else b2 in
  if isCastleMove move then
    if endCol move - startCol move =? 2 then
      let b := setSq b3 (endRow move) (endCol move + 1)
                     (sq b3 (endRow move) (endCol move - 1)) in
      setSq b (endRow move) (endCol move - 1) "--"
    else
      let b := setSq b3 (endRow move) (endCol move - 2)
                     (sq b3 (endRow move) (endCol move + 1)) in
      setSq b (endRow move) (endCol move + 1) "--"
  else b3.

(** Two positions carry the same check flag and the same list of checks. *)
Definition sameChecks (a b : GameState) : Prop :=
  inCheck a = inCheck b /\ checks a = checks b.

(** The check flag is set exactly when a check is recorded. *)
Definition flagMatches (i : PinsAndChecksInfo) : Prop :=
  pciInCheck i = negb (isEmpty (pciChecks i)).

(** A recorded pin names a square of the board that holds a piece of the
    side to move other than a king. *)
Definition pinOK (g : GameState) (p : PinInfo) : Prop :=
  onBoard (pinRow p) (pinCol p) = true
  /\ chr (sq (board g) (pinRow p) (pinCol p)) 0 = chr (teamColorOf g) 0
  /\ chr (sq (board g) (pinRow p) (pinCol p)) 1 <> "K"%char.

(** A recorded check names a square of the board that holds a piece of
    the other side. *)
Definition checkOK (g : GameState) (p : PinInfo) : Prop :=
  onBoard (pinRow p) (pinCol p) = true
  /\ chr (sq (board g) (pinRow p) (pinCol p)) 0 = chr (enemyColorOf g) 0.

Definition infoOK (g : GameState) (i : PinsAndChecksInfo) : Prop :=
  Forall (pinOK g) (pciPins i) /\ Forall (checkOK g) (pciChecks i).

(** [Move::ranksToRows] and [Move::filesToCols], the two maps the source
    initialises. *)
Definition ranksToRows : list (string * Z) :=
  [("1", 7); ("2", 6); ("3", 5); ("4", 4); ("5", 3); ("6", 2); ("7", 1); ("8", 0)].

Definition filesToCols : list (string * Z) :=
  [("a", 0); ("b", 1); ("c", 2); ("d", 3); ("e", 4); ("f", 5); ("g", 6); ("h", 7)].

(** [QMap::value(key)] on a map from [QString]. *)
Fixpoint valueOf (m : list (string * Z)) (key : string) : option Z :=
  match m with
  | [] => None
  | (k, v) :: rest => if streq k key then Some v else valueOf rest key
  end.

(** [map[key] = value] on a map from [int]. *)
Fixpoint assign (m : list (Z * string)) (key : Z) (value : string)
    : list (Z * string) :=
  match m with
  | [] => [(key, value)]
  | (k, v) :: rest =>
    if k =? key then (k, value) :: rest else (k, v) :: assign rest key value
  end.

(** [map[key]] read on a map from [int]: the empty string for an absent key. *)
Fixpoint at_ (m : list (Z * string)) (key : Z) : string :=
  match m with
  | [] => ""
  | (k, v) :: rest => if k =? key then v else at_ rest key
  end.

(** The loops of the [GameState] constructor that fill the reverse maps. *)
Definition reverseMap (m : list (string * Z)) : list (Z * string) :=
  fold_left (fun acc kv => assign acc (snd kv) (fst kv)) m [].

(** [GameState::isInCheck] *)
Definition isInCheck (g : GameState) : GameState * bool :=
  if whiteToMove g
  then squareUnderAttack g (fst (whiteKingLocation g)) (snd (whiteKingLocation g))
  else squareUnderAttack g (fst (blackKingLocation g)) (snd (blackKingLocation g)).

Definition pawnOf (w : bool) : string := if w then "wp" else "bp".

(** Every square of the board holds a two-letter code. *)
Definition twoLetters (b : Board) : Prop :=
  forall r c, onBoard r c = true -> String.length (sq b r c) = 2%nat.

(** Both kings stand on the squares cached for them. *)
Definition kingsOn (g : GameState) : Prop :=
  onBoard (fst (whiteKingLocation g)) (snd (whiteKingLocation g)) = true
  /\ sq (board g) (fst (whiteKingLocation g)) (snd (whiteKingLocation g)) = "wK"
  /\ onBoard (fst (blackKingLocation g)) (snd (blackKingLocation g)) = true
  /\ sq (board g) (fst (blackKingLocation g)) (snd (blackKingLocation g)) = "bK".

(** An en-passant target on the board is an empty square, and the pawn
    that just passed it stands one row further on in its column. *)
Definition enPassantSound (g : GameState) : Prop :=
  onBoard (fst (enPassantPossible g)) (snd (enPassantPossible g)) = true ->
  sq (board g) (fst (enPassantPossible g)) (snd (enPassantPossible g)) = "--"
  /\ sq (board g) (fst (enPassantPossible g) - forward (whiteToMove g))
        (snd (enPassantPossible g))
     = pawnOf (negb (whiteToMove g)).

(** A castling right that is set has its king and its rook at home. *)
Definition rightsSound (g : GameState) : Prop :=
  (wks (castlingRights g) = true ->
   whiteKingLocation g = (7, 4) /\ sq (board g) 7 7 = "wR")
  /\ (wqs (castlingRights g) = true ->
      whiteKingLocation g = (7, 4) /\ sq (board g) 7 0 = "wR")
  /\ (bks (castlingRights g) = true ->
      blackKingLocation g = (0, 4) /\ sq (board g) 0 7 = "bR")
  /\ (bqs (castlingRights g) = true ->
      blackKingLocation g = (0, 4) /\ sq (board g) 0 0 = "bR").

(** The positions of regular play: an 8x8 board of two-letter codes, the
    current rights and en-passant target on top of their logs, one king
    of each colour, standing on its cached square, and en-passant target
    and castling rights that match the board. *)
Definition sound (g : GameState) : Prop :=
  boardShape (board g) /\ twoLetters (board g) /\ logsCurrent g
  /\ kingsCached g /\ kingsOn g /\ enPassantSound g /\ rightsSound g.

Definition homeRow (w : bool) : Z := if w then 7 else 0.
Definition kingOf (w : bool) : string := if w then "wK" else "bK".
Definition rookOf (w : bool) : string := if w then "wR" else "bR".

(** No listed move of the search tree captures a king, [depth] plies
    deep. *)
Fixpoint kingSafe (depth : nat) (g : GameState) (moves : list Move) : Prop :=
  match depth with
  | O => True
  | S d =>
    forall m, In m moves ->
    chr (pieceCaptured m) 1 <> "K"%char
    /\ kingSafe d (fst (getValidMoves (makeMove g m)))
                (snd (getValidMoves (makeMove g m)))
  end.

(** [kingSafe] as a check that can be run. *)
Fixpoint kingSafeb (depth : nat) (g : GameState) (moves : list Move) : bool :=
  match depth with
  | O => true
  | S d =>
    forallb (fun m =>
      negb (chreq (chr (pieceCaptured m) 1) "K")
      && (let '(g2, nms) := getValidMoves (makeMove g m) in kingSafeb d g2 nms))
      moves
  end.

Definition twoLettersb (b : Board) : bool :=
  forallb (fun r =>
    forallb (fun c => Nat.eqb (String.length (sq b r c)) 2) zeroToSeven)
    zeroToSeven.

(** [sound] as a check that can be run. *)
Definition boardShapeb (b : Board) : bool :=
  Nat.eqb (List.length b) 8
  && forallb (fun row => Nat.eqb (List.length row) 8) b.

Definition kingsCachedb (g : GameState) : bool :=
  forallb (fun r =>
    forallb (fun c =>
      negb (chreq (chr (sq (board g) r c) 1) "K")
      || ((negb (chreq (chr (sq (board g) r c) 0) "w")
           || pairEq (whiteKingLocation g) (r, c))
          && (negb (chreq (chr (sq (board g) r c) 0) "b")
              || pairEq (blackKingLocation g) (r, c)))) zeroToSeven)
    zeroToSeven.

Definition kingsOnb (g : GameState) : bool :=
  onBoard (fst (whiteKingLocation g)) (snd (whiteKingLocation g))
  && streq (sq (board g) (fst (whiteKingLocation g))
               (snd (whiteKingLocation g))) "wK"
  && onBoard (fst (blackKingLocation g)) (snd (blackKingLocation g))
  && streq (sq (board g) (fst (blackKingLocation g))
               (snd (blackKingLocation g))) "bK".

Definition enPassantSoundb (g : GameState) : bool :=
  negb (onBoard (fst (enPassantPossible g)) (snd (enPassantPossible g)))
  || (streq (sq (board g) (fst (enPassantPossible g))
                (snd (enPassantPossible g))) "--"
      && streq (sq (board g)
                   (fst (enPassantPossible g) - forward (whiteToMove g))
                   (snd (enPassantPossible g)))
               (pawnOf (negb (whiteToMove g)))).

Definition rightsSoundb (g : GameState) : bool :=
  (negb (wks (castlingRights g))
   || (pairEq (whiteKingLocation g) (7, 4) && streq (sq (board g) 7 7) "wR"))
  && (negb (wqs (castlingRights g))
      || (pairEq (whiteKingLocation g) (7, 4) && streq (sq (board g) 7 0) "wR"))
  && (negb (bks (castlingRights g))
      || (pairEq (blackKingLocation g) (0, 4) && streq (sq (board g) 0 7) "bR"))
  && (negb (bqs (castlingRights g))
      || (pairEq (blackKingLocation g) (0, 4) && streq (sq (board g) 0 0) "bR")).

Definition logsCurrentb (g : GameState) : bool :=
  pairEq (back (enPassantPossibleLog g) (0, 0)) (enPassantPossible g)
  && rightsSame (back (castlingRightsLog g) (mkCR true true true true))
                (castlingRights g).

Definition soundb (g : GameState) : bool :=
  boardShapeb (board g) && twoLettersb (board g) && logsCurrentb g
  && kingsCachedb g && kingsOnb g && enPassantSoundb g && rightsSoundb g.

(** A square the scan of [checkForPinsAndChecks] walks past: it holds
    neither a piece of the side to move other than a king nor a piece of
    the other side. *)
Definition passable (g : GameState) (r c : Z) : Prop :=
  chreq (chr (sq (board g) r c) 0) (chr (teamColorOf g) 0)
    && negb (chreq (chr (sq (board g) r c) 1) "K") = false
  /\ chreq (chr (sq (board g) r c) 0) (chr (enemyColorOf g) 0) = false.

(** The square [i] steps from the cached king square of the side to move
    in direction [d]. *)
Definition fromKing (g : GameState) (d : Z * Z) (i : Z) : Z * Z :=
  (fst (kingPosOf g) + fst d * i, snd (kingPosOf g) + snd d * i).

(** A recorded pin is a pin: direction number [j] of the scan leads from
    the king over passable squares to the pinned piece at distance [i], a
    piece of the side to move that is no king, and on over passable
    squares to a piece of the other side at distance [i'] that gives check
    along this direction from there. *)
Definition pinLine (g : GameState) (p : PinInfo) : Prop :=
  exists j i i',
    0 <= j <= 7 /\ zth directions8 j (0, 0) = (dirRow p, dirCol p)
    /\ 1 <= i /\ i < i' /\ i' <= 7
    /\ (pinRow p, pinCol p) = fromKing g (dirRow p, dirCol p) i
    /\ pinOK g p
    /\ (forall k, 1 <= k < i' -> k <> i ->
        passable g (fst (fromKing g (dirRow p, dirCol p) k))
                   (snd (fromKing g (dirRow p, dirCol p) k)))
    /\ checkOK g (mkPin (fst (fromKing g (dirRow p, dirCol p) i'))
                        (snd (fromKing g (dirRow p, dirCol p) i')) 0 0)
    /\ canCheck (enemyColorOf g) j i'
         (chr (sq (board g) (fst (fromKing g (dirRow p, dirCol p) i'))
                            (snd (fromKing g (dirRow p, dirCol p) i'))) 1)
       = true.

(** A recorded check is a check: a piece of the other side that gives
    check along direction number [j] from distance [i] with only passable
    squares before it, or a knight of the other side a knight's move
    away. *)
Definition checkLine (g : GameState) (p : PinInfo) : Prop :=
  checkOK g p
  /\ ((exists j i,
         0 <= j <= 7 /\ zth directions8 j (0, 0) = (dirRow p, dirCol p)
         /\ 1 <= i <= 7
         /\ (pinRow p, pinCol p) = fromKing g (dirRow p, dirCol p) i
         /\ (forall k, 1 <= k < i ->
             passable g (fst (fromKing g (dirRow p, dirCol p) k))
                        (snd (fromKing g (dirRow p, dirCol p) k)))
         /\ canCheck (enemyColorOf g) j i
              (chr (sq (board g) (pinRow p) (pinCol p)) 1) = true)
      \/ (In (dirRow p, dirCol p) knightOffsets
          /\ (pinRow p, pinCol p) = fromKing g (dirRow p, dirCol p) 1
          /\ chr (sq (board g) (pinRow p) (pinCol p)) 1 = "N"%char)).

Definition infoLines (g : GameState) (i : PinsAndChecksInfo) : Prop :=
  Forall (pinLine g) (pciPins i) /\ Forall (checkLine g) (pciChecks i).

(** [n, n+1, ..., n+len-1] *)
Fixpoint countFrom (n : Z) (len : nat) : list Z :=
  match len with
  | O => []
  | S k => n :: countFrom (n + 1) k
  end.

(** What the scan knows about its possible pin before distance [n]. *)
Definition pinState (g : GameState) (d : Z * Z) (n : Z) (pin : PinInfo) : Prop :=
  (dirRow pin, dirCol pin) = d
  /\ ((pinRow pin = -1
       /\ forall k, 1 <= k < n ->
          passable g (fst (fromKing g d k)) (snd (fromKing g d k)))
      \/ (exists i, 1 <= i < n
          /\ (pinRow pin, pinCol pin) = fromKing g d i
          /\ pinOK g pin
          /\ forall k, 1 <= k < n -> k <> i ->
             passable g (fst (fromKing g d k)) (snd (fromKing g d k)))).

(** The test of the pin lookup loop on one entry. *)
Definition pinMatches (row col : Z) (p : PinInfo) : bool :=
  (pinRow p =? row) && (pinCol p =? col).

(** The pins recorded for one square, in the order of the list. *)
Definition pinsAt (ps : list PinInfo) (row col : Z) : list PinInfo :=
  filter (pinMatches row col) ps.

(** The pin direction the lookup loop of the piece generators finds for a
    square in the list [ps], if it finds one. *)
Definition pinDirFound (ps : list PinInfo) (row col : Z) : option (Z * Z) :=
  match findPin ps row col (List.length ps) with
  | Some k => Some (dirRow (nth k ps defaultPin), dirCol (nth k ps defaultPin))
  | None => None
  end.

Definition lastDir (l : list PinInfo) : option (Z * Z) :=
  match l with
  | [] => None
  | _ => Some (dirRow (last l defaultPin), dirCol (last l defaultPin))
  end.

(** The move runs along direction [d], forwards or backwards. *)
Definition keepsLine (d : Z * Z) (m : Move) : Prop :=
  exists t, endRow m = startRow m + t * fst d
            /\ endCol m = startCol m + t * snd d.

(** A move of a piece other than a queen from a square pinned in [ps]
    runs along the pin direction. *)
Definition alongPin (b : Board) (ps : list PinInfo) (m : Move) : Prop :=
  forall d, pinDirFound ps (startRow m) (startCol m) = Some d ->
  chr (sq b (startRow m) (startCol m)) 1 <> "Q"%char -> keepsLine d m.

(** The end square lies on the line of the pin the generator finds for
    [(row, col)], if it finds one. *)
Definition onPinLine (g : GameState) (row col er ec : Z) : Prop :=
  forall k, lookupPin g row col = Some k ->
  exists t, er = row + t * fst (pinDirAt g k)
            /\ ec = col + t * snd (pinDirAt g k).

(** The pins of squares other than [(row, col)] are the same in both
    states. *)
Definition pinsElsewhere (g' g : GameState) (row col : Z) : Prop :=
  forall r c, (r, c) <> (row, col) ->
  pinsAt (pins g') r c = pinsAt (pins g) r c.

(** Every square of the board is empty or holds a white or a black
    piece. *)
Definition coded (b : Board) : Prop :=
  forall r c, onBoard r c = true ->
  sq b r c = "--" \/ chr (sq b r c) 0 = "w"%char \/ chr (sq b r c) 0 = "b"%char.

(** The two cached king squares are not next to each other. *)
Definition kingsApart (g : GameState) : Prop :=
  1 < Z.abs (fst (whiteKingLocation g) - fst (blackKingLocation g))
  \/ 1 < Z.abs (snd (whiteKingLocation g) - snd (blackKingLocation g)).

Definition codedb (b : Board) : bool :=
  forallb (fun r =>
    forallb (fun c =>
      streq (sq b r c) "--" || chreq (chr (sq b r c) 0) "w"
      || chreq (chr (sq b r c) 0) "b") zeroToSeven) zeroToSeven.

Definition kingsApartb (g : GameState) : bool :=
  (1 <? Z.abs (fst (whiteKingLocation g) - fst (blackKingLocation g)))
  || (1 <? Z.abs (snd (whiteKingLocation g) - snd (blackKingLocation g))).

(** A state in which the attack test generates the moves of the side
    that is not to move in [g]. *)
Definition opposite (g h : GameState) : Prop :=
  board h = board g /\ whiteToMove h = negb (whiteToMove g)
  /\ Forall (pinOK g) (pins h).

(** The square lies on the direction of check [p] from the cached king
    square, at the checking piece or before it. *)
Definition onCheckLine (g : GameState) (p : PinInfo) (s : Z * Z) : Prop :=
  exists k, 1 <= k <= 7
    /\ s = fromKing g (dirRow p, dirCol p) k
    /\ forall k', 1 <= k' < k ->
       fromKing g (dirRow p, dirCol p) k' <> (pinRow p, pinCol p).

(** 1. e4 c6 2. d4 d5 3. Nc3 dxe4 4. Nxe4 Nf6 5. Qd3 e5 6. dxe5 Qa5+
    7. Bd2 Qxe5 8. O-O-O Nxe4 9. Qd8+ Kxd8 10. Bg5+: Black is in check from
    the bishop on g5 and the rook on d1. *)
Definition doubleCheckGame : list Z :=
  [6444; 1222; 6343; 1333; 7152; 3344; 5244; 625; 7353; 1434;
   4334; 330; 7263; 3034; 7472; 2544; 5303; 403; 6336].

Definition doubleCheckPosition : GameState := positionAfter doubleCheckGame.

(** No move of the list records a captured king. *)
Definition noKingCaptured (ms : list Move) : Prop :=
  Forall (fun m => chr (pieceCaptured m) 1 <> "K"%char) ms.

(** 3. exd6 (en passant) cxd6, from [enPassantPosition]. *)
Definition enPassantLine : list Move :=
  [validMove enPassantPosition 3423;
   validMove (makeMove enPassantPosition (validMove enPassantPosition 3423))
             1223].

(** 1. d4 e6 2. Bd2 Bb4: the bishop on d2 is pinned to the king on e1. *)
Definition pinnedBishopGame : list Z := [6343; 1424; 7263; 541].
Definition pinnedBishopPosition : GameState := positionAfter pinnedBishopGame.

(** 1. e4 e5 2. Nf3 Nc6 3. Bc4 Bc5 4. a3 Bxf2+: White is in check with
    the kingside right set and f1 and g1 empty. *)
Definition bishopCheckGame : list Z :=
  [6444; 1434; 7655; 122; 7542; 532; 6050; 3265].
Definition bishopCheckPosition : GameState := positionAfter bishopCheckGame.

(** 1. e4 f5 2. Qh5+: Black is in check from h5 and can block on g6. *)
Definition queenCheckGame : list Z := [6444; 1535; 7337].
Definition queenCheckPosition : GameState := positionAfter queenCheckGame.

(** * Properties *)

(** ** The frame of move generation *)

Lemma sameFrame_refl : forall g, sameFrame g g.
Proof. intros g; repeat split. Qed.

Lemma sameFrame_trans : forall a b c, sameFrame a b -> sameFrame b c -> sameFrame a c.
Proof.
  unfold sameFrame; intros a b c H1 H2.
  destruct H1 as (?&?&?&?&?&?&?), H2 as (?&?&?&?&?&?&?).
  repeat split; congruence.
Qed.

Lemma sameFrame_setPins : forall g p, sameFrame (setPins g p) g.
Proof. intros; repeat split. Qed.

Lemma sameFrame_setKingOfMover : forall g k, sameFrame (setKingOfMover g k) g.
Proof. intros g k; unfold setKingOfMover; destruct (whiteToMove g); repeat split. Qed.

Create HintDb frame.
#[local] Hint Resolve sameFrame_refl sameFrame_setPins sameFrame_setKingOfMover : frame.

Ltac frame_pin :=
  match goal with
  | |- context [lookupPin ?g ?r ?c] => destruct (lookupPin g r c)
  end.

Lemma getPawnMoves_frame : forall g row col moves,
  sameFrame (fst (getPawnMoves g row col moves)) g.
Proof.
  intros; unfold getPawnMoves.
  destruct ((0 <=? row + (if whiteToMove g then -1 else 1))
            && (row + (if whiteToMove g then -1 else 1) <=? 7))%bool;
    frame_pin; simpl; auto with frame.
Qed.

Lemma getRookMoves_frame : forall g row col moves,
  sameFrame (fst (getRookMoves g row col moves)) g.
Proof.
  intros; unfold getRookMoves; frame_pin; simpl; auto with frame.
  destruct (negb _); auto with frame.
Qed.

Lemma getBishopMoves_frame : forall g row col moves,
  sameFrame (fst (getBishopMoves g row col moves)) g.
Proof. intros; unfold getBishopMoves; frame_pin; simpl; auto with frame. Qed.

Lemma getKnightMoves_frame : forall g row col moves,
  sameFrame (fst (getKnightMoves g row col moves)) g.
Proof. intros; unfold getKnightMoves; frame_pin; simpl; auto with frame. Qed.

Lemma getQueenMoves_frame : forall g row col moves,
  sameFrame (fst (getQueenMoves g row col moves)) g.
Proof.
  intros; unfold getQueenMoves.
  pose proof (getBishopMoves_frame g row col moves) as HB.
  destruct (getBishopMoves g row col moves) as [g1 m1]; simpl in HB.
  eapply sameFrame_trans; [apply getRookMoves_frame | exact HB].
Qed.

Lemma kingLoop_frame : forall ms g row col moves,
  sameFrame (fst (kingLoop g row col ms moves)) g.
Proof.
  induction ms as [|m ms IH]; intros; cbn [kingLoop]; auto with frame.
  destruct (onBoard _ _); auto.
  destruct (negb _); auto.
  eapply sameFrame_trans; [apply IH|].
  eapply sameFrame_trans; apply sameFrame_setKingOfMover.
Qed.

Lemma getKingMoves_frame : forall g row col moves,
  sameFrame (fst (getKingMoves g row col moves)) g.
Proof. intros; apply kingLoop_frame. Qed.

Lemma moveFunction_frame : forall piece g row col moves,
  sameFrame (fst (moveFunction piece g row col moves)) g.
Proof.
  intros; unfold moveFunction.
  destruct (chreq piece "p"); [apply getPawnMoves_frame|].
  destruct (chreq piece "R"); [apply getRookMoves_frame|].
  destruct (chreq piece "N"); [apply getKnightMoves_frame|].
  destruct (chreq piece "B"); [apply getBishopMoves_frame|].
  destruct (chreq piece "Q"); [apply getQueenMoves_frame|].
  destruct (chreq piece "K"); [apply getKingMoves_frame|].
  apply sameFrame_refl.
Qed.

Lemma colLoop_frame : forall cols g row moves,
  sameFrame (fst (colLoop g row cols moves)) g.
Proof.
  induction cols as [|c cols IH]; intros; simpl; auto with frame.
  match goal with
  | |- context [if ?c then ?a else ?b] =>
    assert (H : sameFrame (fst (if c then a else b)) g)
      by (destruct c; [apply moveFunction_frame | apply sameFrame_refl]);
    destruct (if c then a else b) as [g1 m1]
  end.
  simpl in H. eapply sameFrame_trans; [apply IH | exact H].
Qed.

Lemma rowLoop_frame : forall rows g moves,
  sameFrame (fst (rowLoop g rows moves)) g.
Proof.
  induction rows as [|r rows IH]; intros; cbn [rowLoop]; auto with frame.
  pose proof (colLoop_frame zeroToSeven g r moves) as H.
  destruct (colLoop g r zeroToSeven moves) as [g1 m1]; simpl in H.
  eapply sameFrame_trans; [apply IH | exact H].
Qed.

Lemma getAllPossibleMoves_frame : forall g,
  sameFrame (fst (getAllPossibleMoves g)) g.
Proof. intros; apply rowLoop_frame. Qed.

Lemma squareUnderAttack_frame : forall g row col,
  sameFrame (fst (squareUnderAttack g row col)) g.
Proof.
  intros; unfold squareUnderAttack.
  pose proof (getAllPossibleMoves_frame (setWhiteToMove g (negb (whiteToMove g)))) as H.
  destruct (getAllPossibleMoves _) as [g2 ms]; simpl in *.
  destruct H as (Hb & Hw & Hl & He & Hel & Hc & Hcl); simpl in *.
  repeat split; simpl; try assumption.
  rewrite Hw. apply negb_involutive.
Qed.

Ltac frame_sua g row col :=
  let H := fresh "H" in
  let g' := fresh "g" in
  let a := fresh "a" in
  pose proof (squareUnderAttack_frame g row col) as H;
  destruct (squareUnderAttack g row col) as [g' a]; simpl in H.

Lemma getKingsideCastleMoves_frame : forall g row col moves,
  sameFrame (fst (getKingsideCastleMoves g row col moves)) g.
Proof.
  intros; unfold getKingsideCastleMoves.
  destruct (col + 2 >? 7); auto with frame.
  destruct (_ && _)%bool; auto with frame.
  frame_sua g row (col + 1). destruct (negb a); auto.
  frame_sua g0 row (col + 2).
  destruct (negb a0); simpl; eapply sameFrame_trans; eauto.
Qed.

Lemma getQueensideCastleMoves_frame : forall g row col moves,
  sameFrame (fst (getQueensideCastleMoves g row col moves)) g.
Proof.
  intros; unfold getQueensideCastleMoves.
  destruct (_ || _)%bool; auto with frame.
  destruct (_ && _)%bool; auto with frame.
  frame_sua g row (col - 1). destruct (negb a); auto.
  frame_sua g0 row (col - 2).
  destruct (negb a0); simpl; eapply sameFrame_trans; eauto.
Qed.

Lemma getCastleMoves_frame : forall g row col moves,
  sameFrame (fst (getCastleMoves g row col moves)) g.
Proof.
  intros; unfold getCastleMoves.
  frame_sua g row col. destruct a; auto.
  match goal with
  | |- context [if ?c then ?x else ?y] =>
    assert (H1 : sameFrame (fst (if c then x else y)) g0)
      by (destruct c; [apply getKingsideCastleMoves_frame | apply sameFrame_refl]);
    destruct (if c then x else y) as [g2 m2]
  end.
  simpl in H1.
  destruct (_ || _)%bool; simpl.
  - eapply sameFrame_trans; [apply getQueensideCastleMoves_frame|].
    eapply sameFrame_trans; eauto.
  - eapply sameFrame_trans; eauto.
Qed.

Lemma getValidMoves_frame : forall g, sameFrame (fst (getValidMoves g)) g.
Proof.
  intros g; unfold getValidMoves.
  set (g0 := setPinsAndChecks g (checkForPinsAndChecks g)).
  assert (H0 : sameFrame g0 g) by (repeat split).
  match goal with
  | |- context [let '(g3, moves) := ?X in _] =>
    assert (H3 : sameFrame (fst X) g0); [| destruct X as [g3 moves]]
  end.
  - destruct (inCheck g0).
    + match goal with
      | |- context [let '(g1, moves1) := ?X in _] =>
        assert (H1 : sameFrame (fst X) g0); [| destruct X as [g1 moves1]]
      end.
      * destruct (size (checks g0) =? 1).
        -- pose proof (getAllPossibleMoves_frame g0) as HA.
           destruct (getAllPossibleMoves g0) as [g1 all]; exact HA.
        -- apply getKingMoves_frame.
      * simpl in H1. eapply sameFrame_trans; [apply getCastleMoves_frame | exact H1].
    + pose proof (getAllPossibleMoves_frame g0) as HA.
      destruct (getAllPossibleMoves g0) as [g1 all]; simpl in HA.
      eapply sameFrame_trans; [apply getCastleMoves_frame | exact HA].
  - simpl in H3.
    assert (H4 : sameFrame g3 g) by (eapply sameFrame_trans; eauto).
    destruct H4 as (Hb & Hw & Hl & He & Hel & Hc & Hcl).
    destruct (isEmpty moves); [destruct (inCheck g3)|];
      repeat split; simpl; assumption || reflexivity.
Qed.

(** ** The king caches across move generation *)

Lemma sameKings_refl : forall g, sameKings g g.
Proof. intros g; split; reflexivity. Qed.

Lemma sameKings_trans : forall a b c, sameKings a b -> sameKings b c -> sameKings a c.
Proof. unfold sameKings; intros a b c [? ?] [? ?]; split; congruence. Qed.

Lemma sameKings_setPins : forall g p, sameKings (setPins g p) g.
Proof. intros; split; reflexivity. Qed.

Create HintDb kings.
#[local] Hint Resolve sameKings_refl sameKings_setPins : kings.

Lemma kingsCached_transfer : forall a b,
  sameFrame a b -> sameKings a b -> kingsCached b -> kingsCached a.
Proof.
  unfold kingsCached; intros a b (Hb & _) (Hw & Hk) H r c.
  rewrite Hb, Hw, Hk; apply H.
Qed.

Lemma getPawnMoves_kings : forall g row col moves,
  sameKings (fst (getPawnMoves g row col moves)) g.
Proof.
  intros; unfold getPawnMoves.
  destruct ((0 <=? row + (if whiteToMove g then -1 else 1))
            && (row + (if whiteToMove g then -1 else 1) <=? 7))%bool;
    frame_pin; simpl; auto with kings.
Qed.

Lemma getRookMoves_kings : forall g row col moves,
  sameKings (fst (getRookMoves g row col moves)) g.
Proof.
  intros; unfold getRookMoves; frame_pin; simpl; auto with kings.
  destruct (negb _); auto with kings.
Qed.

Lemma getBishopMoves_kings : forall g row col moves,
  sameKings (fst (getBishopMoves g row col moves)) g.
Proof. intros; unfold getBishopMoves; frame_pin; simpl; auto with kings. Qed.

Lemma getKnightMoves_kings : forall g row col moves,
  sameKings (fst (getKnightMoves g row col moves)) g.
Proof. intros; unfold getKnightMoves; frame_pin; simpl; auto with kings. Qed.

Lemma getQueenMoves_kings : forall g row col moves,
  sameKings (fst (getQueenMoves g row col moves)) g.
Proof.
  intros; unfold getQueenMoves.
  pose proof (getBishopMoves_kings g row col moves) as HB.
  destruct (getBishopMoves g row col moves) as [g1 m1]; simpl in HB.
  eapply sameKings_trans; [apply getRookMoves_kings | exact HB].
Qed.

(** Moving the mover's king cache away and back to where it was gives the
    state back. *)
Lemma setKingOfMover_restore : forall g k,
  setKingOfMover (setKingOfMover g k) (kingPosOf g) = g.
Proof.
  intros g k; unfold setKingOfMover, kingPosOf; destruct g as [b w]; simpl.
  destruct w; reflexivity.
Qed.

(** Called for the square the cache holds, [getKingMoves] returns the
    state it was given. *)
Lemma kingLoop_restores : forall ms g row col moves,
  kingPosOf g = (row, col) -> fst (kingLoop g row col ms moves) = g.
Proof.
  induction ms as [|m ms IH]; intros g row col moves Hk; cbn [kingLoop]; auto.
  destruct (onBoard _ _); auto.
  destruct (negb _); auto.
  rewrite <- Hk, setKingOfMover_restore. apply IH; exact Hk.
Qed.

Lemma moveFunction_kings : forall piece g row col moves,
  (chreq piece "K" = true -> kingPosOf g = (row, col)) ->
  sameKings (fst (moveFunction piece g row col moves)) g.
Proof.
  intros piece g row col moves HK; unfold moveFunction.
  destruct (chreq piece "p"); [apply getPawnMoves_kings|].
  destruct (chreq piece "R"); [apply getRookMoves_kings|].
  destruct (chreq piece "N"); [apply getKnightMoves_kings|].
  destruct (chreq piece "B"); [apply getBishopMoves_kings|].
  destruct (chreq piece "Q"); [apply getQueenMoves_kings|].
  destruct (chreq piece "K"); [|apply sameKings_refl].
  unfold getKingMoves; rewrite kingLoop_restores; auto with kings.
Qed.

Lemma colLoop_kings : forall cols g row moves,
  kingsCached g -> sameKings (fst (colLoop g row cols moves)) g.
Proof.
  induction cols as [|c cols IH]; intros g row moves Hc; cbn [colLoop];
    auto with kings.
  match goal with
  | |- context [if ?t then ?a else ?b] =>
    assert (H : sameKings (fst (if t then a else b)) g
                /\ sameFrame (fst (if t then a else b)) g);
      [destruct t eqn:Et | destruct (if t then a else b) as [g1 m1]]
  end.
  - split; [|apply moveFunction_frame].
    apply moveFunction_kings; intros HK.
    destruct (Hc row c HK) as [Hw Hb].
    unfold kingPosOf. apply orb_prop in Et.
    destruct (whiteToMove g).
    + destruct Et as [Et|Et]; apply andb_prop in Et; destruct Et as [E1 E2];
        [auto | discriminate].
    + destruct Et as [Et|Et]; apply andb_prop in Et; destruct Et as [E1 E2];
        [discriminate | auto].
  - split; [apply sameKings_refl | apply sameFrame_refl].
  - simpl in H; destruct H as [HK HF].
    eapply sameKings_trans; [apply IH | exact HK].
    eapply kingsCached_transfer; eauto.
Qed.

Lemma rowLoop_kings : forall rows g moves,
  kingsCached g -> sameKings (fst (rowLoop g rows moves)) g.
Proof.
  induction rows as [|r rows IH]; intros g moves Hc; cbn [rowLoop];
    auto with kings.
  pose proof (colLoop_kings zeroToSeven g r moves Hc) as HK.
  pose proof (colLoop_frame zeroToSeven g r moves) as HF.
  destruct (colLoop g r zeroToSeven moves) as [g1 m1]; simpl in HK, HF.
  eapply sameKings_trans; [apply IH | exact HK].
  eapply kingsCached_transfer; eauto.
Qed.

Lemma getAllPossibleMoves_kings : forall g,
  kingsCached g -> sameKings (fst (getAllPossibleMoves g)) g.
Proof. intros; apply rowLoop_kings; auto. Qed.

Lemma squareUnderAttack_kings : forall g row col,
  kingsCached g -> sameKings (fst (squareUnderAttack g row col)) g.
Proof.
  intros g row col Hc; unfold squareUnderAttack.
  assert (Hc' : kingsCached (setWhiteToMove g (negb (whiteToMove g)))) by exact Hc.
  pose proof (getAllPossibleMoves_kings _ Hc') as H.
  destruct (getAllPossibleMoves _) as [g2 ms]; simpl in *.
  destruct H as [Hw Hb]; split; simpl; assumption.
Qed.

Ltac kings_sua g row col Hc :=
  let HK := fresh "HK" in
  let HF := fresh "HF" in
  let g' := fresh "g" in
  let a := fresh "a" in
  pose proof (squareUnderAttack_kings g row col Hc) as HK;
  pose proof (squareUnderAttack_frame g row col) as HF;
  destruct (squareUnderAttack g row col) as [g' a]; simpl in HK, HF.

Lemma getKingsideCastleMoves_kings : forall g row col moves,
  kingsCached g -> sameKings (fst (getKingsideCastleMoves g row col moves)) g.
Proof.
  intros g row col moves Hc; unfold getKingsideCastleMoves.
  destruct (col + 2 >? 7); auto with kings.
  destruct (_ && _)%bool; auto with kings.
  kings_sua g row (col + 1) Hc. destruct (negb a); auto.
  assert (Hc0 : kingsCached g0) by (eapply kingsCached_transfer; eauto).
  kings_sua g0 row (col + 2) Hc0.
  destruct (negb a0); simpl; eapply sameKings_trans; eauto.
Qed.

Lemma getQueensideCastleMoves_kings : forall g row col moves,
  kingsCached g -> sameKings (fst (getQueensideCastleMoves g row col moves)) g.
Proof.
  intros g row col moves Hc; unfold getQueensideCastleMoves.
  destruct (_ || _)%bool; auto with kings.
  destruct (_ && _)%bool; auto with kings.
  kings_sua g row (col - 1) Hc. destruct (negb a); auto.
  assert (Hc0 : kingsCached g0) by (eapply kingsCached_transfer; eauto).
  kings_sua g0 row (col - 2) Hc0.
  destruct (negb a0); simpl; eapply sameKings_trans; eauto.
Qed.

Lemma getCastleMoves_kings : forall g row col moves,
  kingsCached g -> sameKings (fst (getCastleMoves g row col moves)) g.
Proof.
  intros g row col moves Hc; unfold getCastleMoves.
  kings_sua g row col Hc. destruct a; auto.
  assert (Hc0 : kingsCached g0) by (eapply kingsCached_transfer; eauto).
  match goal with
  | |- context [if ?c then ?x else ?y] =>
    assert (H1 : sameKings (fst (if c then x else y)) g0
                 /\ sameFrame (fst (if c then x else y)) g0)
      by (destruct c; split;
          auto using getKingsideCastleMoves_kings, getKingsideCastleMoves_frame,
                     sameKings_refl, sameFrame_refl);
    destruct (if c then x else y) as [g2 m2]
  end.
  simpl in H1; destruct H1 as [HK1 HF1].
  assert (Hc2 : kingsCached g2) by (eapply kingsCached_transfer; eauto).
  destruct (_ || _)%bool; simpl.
  - eapply sameKings_trans; [apply getQueensideCastleMoves_kings; exact Hc2|].
    eapply sameKings_trans; eauto.
  - eapply sameKings_trans; eauto.
Qed.

(** Where the king caches are accurate, [getValidMoves] returns with both
    of them as they were. *)
Lemma getValidMoves_kings : forall g,
  kingsCached g -> sameKings (fst (getValidMoves g)) g.
Proof.
  intros g Hc; unfold getValidMoves.
  set (g0 := setPinsAndChecks g (checkForPinsAndChecks g)).
  assert (Hc0 : kingsCached g0) by exact Hc.
  assert (HK0 : sameKings g0 g) by (split; reflexivity).
  match goal with
  | |- context [let '(g3, moves) := ?X in _] =>
    assert (H3 : sameKings (fst X) g0); [| destruct X as [g3 moves]]
  end.
  - destruct (inCheck g0).
    + match goal with
      | |- context [let '(g1, moves1) := ?X in _] =>
        assert (H1 : sameKings (fst X) g0 /\ sameFrame (fst X) g0);
          [| destruct X as [g1 moves1]]
      end.
      * destruct (size (checks g0) =? 1).
        -- pose proof (getAllPossibleMoves_kings g0 Hc0) as HA.
           pose proof (getAllPossibleMoves_frame g0) as HF.
           destruct (getAllPossibleMoves g0) as [g1 all]; split; assumption.
        -- split; [|apply getKingMoves_frame].
           unfold getKingMoves; rewrite kingLoop_restores;
             [apply sameKings_refl | apply surjective_pairing].
      * simpl in H1; destruct H1 as [HK1 HF1].
        eapply sameKings_trans; [apply getCastleMoves_kings | exact HK1].
        eapply kingsCached_transfer; eauto.
    + pose proof (getAllPossibleMoves_kings g0 Hc0) as HA.
      pose proof (getAllPossibleMoves_frame g0) as HF.
      destruct (getAllPossibleMoves g0) as [g1 all]; simpl in HA, HF.
      eapply sameKings_trans; [apply getCastleMoves_kings | exact HA].
      eapply kingsCached_transfer; eauto.
  - simpl in H3.
    assert (H4 : sameKings g3 g) by (eapply sameKings_trans; eauto).
    destruct H4 as [Hw Hb].
    destruct (isEmpty moves); [destruct (inCheck g3)|]; split; simpl; assumption.
Qed.

(** Where the king caches are accurate, [getValidMoves] leaves the board,
    the side to move, both king locations, the castling rights, the
    en-passant target and the three history stacks as they were. *)
Lemma getValidMoves_preserves : forall g,
  kingsCached g ->
  sameCore (fst (getValidMoves g)) g
  /\ moveLog (fst (getValidMoves g)) = moveLog g
  /\ castlingRightsLog (fst (getValidMoves g)) = castlingRightsLog g
  /\ enPassantPossibleLog (fst (getValidMoves g)) = enPassantPossibleLog g.
Proof.
  intros g Hc.
  destruct (getValidMoves_frame g) as (Hb & Hw & Hl & He & Hel & Hcr & Hcl).
  destruct (getValidMoves_kings g Hc) as [Hwk Hbk].
  unfold sameCore; repeat split; assumption.
Qed.

Lemma sq_offBoard_initial : forall r c,
  onBoard r c = false -> sq initialBoard r c = "".
Proof.
  intros r c H; unfold onBoard in H.
  unfold sq, zth.
  destruct (Z.ltb_spec r 0) as [Hr|Hr].
  { destruct (c <? 0); [reflexivity | destruct (Z.to_nat c); reflexivity]. }
  destruct (Z.leb_spec r 7) as [Hr7|Hr7].
  - assert (Hr' : r = 0 \/ r = 1 \/ r = 2 \/ r = 3 \/ r = 4
                  \/ r = 5 \/ r = 6 \/ r = 7) by lia.
    destruct (Z.ltb_spec c 0) as [Hc|Hc]; [reflexivity|].
    assert (Hc7 : 7 < c).
    { destruct (Z.leb_spec 0 r); [|lia].
      destruct (Z.leb_spec 0 c); [|lia].
      destruct (Z.leb_spec c 7); [discriminate H | lia]. }
    assert (Hn : (8 <= Z.to_nat c)%nat) by lia.
    repeat (destruct Hr' as [Hr'|Hr']; [subst r; apply nth_overflow; exact Hn|]).
    subst r; apply nth_overflow; exact Hn.
  - rewrite (nth_overflow initialBoard []) by (simpl; lia).
    destruct (c <? 0); [reflexivity | destruct (Z.to_nat c); reflexivity].
Qed.

(** The fresh game has accurate king caches. *)
Lemma kingsCached_newGameState : kingsCached newGameState.
Proof.
  intros r c HK; cbn [board newGameState] in *.
  destruct (onBoard r c) eqn:E.
  - unfold onBoard in E.
    apply andb_prop in E; destruct E as [E E4].
    apply andb_prop in E; destruct E as [E E3].
    apply andb_prop in E; destruct E as [E1 E2].
    apply Z.leb_le in E1, E2, E3, E4.
    assert (Hr : r = 0 \/ r = 1 \/ r = 2 \/ r = 3 \/ r = 4
                 \/ r = 5 \/ r = 6 \/ r = 7) by lia.
    assert (Hc : c = 0 \/ c = 1 \/ c = 2 \/ c = 3 \/ c = 4
                 \/ c = 5 \/ c = 6 \/ c = 7) by lia.
    clear E1 E2 E3 E4.
    repeat (destruct Hr as [Hr|Hr]; [|idtac]); subst r;
      repeat (destruct Hc as [Hc|Hc]; [|idtac]); subst c;
      vm_compute in HK; try discriminate HK;
      split; intros H; vm_compute in H; try discriminate H; reflexivity.
  - rewrite (sq_offBoard_initial r c E) in HK. discriminate HK.
Qed.

(** ** Castling rights after a move *)

Ltac decide_streq s t :=
  let E := fresh "E" in
  destruct (streq s t) eqn:E;
  [apply String.eqb_eq in E; rewrite ?E in * |].

Ltac decide_zeq a b :=
  let E := fresh "E" in
  destruct (a =? b) eqn:E;
  [apply Z.eqb_eq in E; rewrite ?E in * |].

(** What [updateCastleRights] computes: a right stays set exactly when it
    was set, the king of that side is not the piece moved, no rook of that
    side leaves the matching home corner, and no rook of that side is
    captured on the matching edge column, whatever the row. *)
Lemma updateCastleRights_computes : forall cr m,
  updateCastleRights cr m =
  mkCR (wks cr && negb (streq (pieceCaptured m) "wR" && (endCol m =? 7))
               && negb (streq (pieceMoved m) "wK")
               && negb (streq (pieceMoved m) "wR" && (startRow m =? 7)
                        && (startCol m =? 7)))
       (bks cr && negb (streq (pieceCaptured m) "bR" && (endCol m =? 7))
               && negb (streq (pieceMoved m) "bK")
               && negb (streq (pieceMoved m) "bR" && (startRow m =? 0)
                        && (startCol m =? 7)))
       (wqs cr && negb (streq (pieceCaptured m) "wR" && (endCol m =? 0))
               && negb (streq (pieceMoved m) "wK")
               && negb (streq (pieceMoved m) "wR" && (startRow m =? 7)
                        && (startCol m =? 0)))
       (bqs cr && negb (streq (pieceCaptured m) "bR" && (endCol m =? 0))
               && negb (streq (pieceMoved m) "bK")
               && negb (streq (pieceMoved m) "bR" && (startRow m =? 0)
                        && (startCol m =? 0))).
Proof.
  intros [w b wq bq] m; unfold updateCastleRights;
    cbn [wks bks wqs bqs].
  decide_streq (pieceCaptured m) "wR"; [|decide_streq (pieceCaptured m) "bR"];
    (decide_zeq (endCol m) 0; [|decide_zeq (endCol m) 7]);
    (decide_streq (pieceMoved m) "wK";
     [|decide_streq (pieceMoved m) "bK";
       [|decide_streq (pieceMoved m) "wR";
         [|decide_streq (pieceMoved m) "bR"]]]);
    try (decide_zeq (startRow m) 7); try (decide_zeq (startRow m) 0);
    try (decide_zeq (startCol m) 0); try (decide_zeq (startCol m) 7);
    cbn; destruct w, b, wq, bq; reflexivity.
Qed.

(** ** Static evaluation of finished games *)

Lemma scoreBoard_checkmate : forall gs,
  checkmate gs = true ->
  scoreBoard gs = if whiteToMove gs then - CHECKMATE else CHECKMATE.
Proof. intros gs H; unfold scoreBoard; rewrite H; reflexivity. Qed.

Lemma scoreBoard_stalemate : forall gs,
  checkmate gs = false -> stalemate gs = true -> scoreBoard gs = 0.
Proof. intros gs H1 H2; unfold scoreBoard; rewrite H1, H2; reflexivity. Qed.

(** ** The history stacks *)

Lemma length_push_back : forall (A : Type) (l : list A) x,
  List.length (push_back l x) = S (List.length l).
Proof. intros; unfold push_back; rewrite length_app; simpl; lia. Qed.

Lemma length_pop_back : forall (A : Type) (l : list A),
  List.length (pop_back l) = Nat.pred (List.length l).
Proof.
  intros A l; unfold pop_back; induction l as [|a [|b l] IH]; simpl in *; auto.
Qed.

Lemma makeMove_aligned : forall g m n,
  stacksAligned g n -> stacksAligned (makeMove g m) (S n).
Proof.
  unfold stacksAligned; intros g m n (H1 & H2 & H3); simpl.
  rewrite !length_push_back; auto.
Qed.

Lemma undoMove_aligned : forall g n,
  stacksAligned g n -> stacksAligned (undoMove g) (Nat.pred n).
Proof.
  unfold stacksAligned, undoMove; intros g n (H1 & H2 & H3).
  destruct (moveLog g) as [|m l] eqn:E; cbn [isEmpty].
  - simpl in H1; subst n; rewrite E; simpl; auto.
  - cbn [moveLog castlingRightsLog enPassantPossibleLog].
    rewrite !length_pop_back, H1, H2, H3.
    simpl in H1; subst n; simpl; auto.
Qed.

Lemma getValidMoves_aligned : forall g n,
  stacksAligned g n -> stacksAligned (fst (getValidMoves g)) n.
Proof.
  unfold stacksAligned; intros g n (H1 & H2 & H3).
  destruct (getValidMoves_frame g) as (_ & _ & Hl & _ & Hel & _ & Hcl).
  rewrite Hl, Hel, Hcl; auto.
Qed.

Lemma runOps_aligned : forall ops g n,
  stacksAligned g n -> stacksAligned (runOps g ops) (pending n ops).
Proof.
  induction ops as [|o ops IH]; intros g n H; simpl; auto.
  destruct o; apply IH; cbn [runOp].
  - apply makeMove_aligned; auto.
  - apply undoMove_aligned; auto.
  - apply getValidMoves_aligned; auto.
Qed.

(** C4, as stated, fails: right after construction no move is applied,
    the move log is empty, and the two other stacks already hold the entry
    the constructor pushed. *)
Lemma C4_stacks_not_equal_after_construction : ~ stacksEqual newGameState 0.
Proof. unfold stacksEqual; simpl; intros (_ & H & _); discriminate. Qed.

(** C4, amended: after construction and after any sequence of [makeMove],
    [undoMove] and [getValidMoves] calls, the move log holds as many
    entries as there are applied, not yet undone moves, and
    [castlingRightsLog] and [enPassantPossibleLog] each hold one more. *)
Theorem C4_stacks_aligned : forall ops,
  stacksAligned (runOps newGameState ops) (pending 0 ops).
Proof.
  intros ops; apply runOps_aligned; repeat split.
Qed.

(** ** The move [findBestMove] returns *)


Lemma length_set_nth : forall (A : Type) (l : list A) n v,
  List.length (set_nth l n v) = List.length l.
Proof.
  induction l as [|a l IH]; intros n v; simpl; auto.
  destruct n; simpl; auto.
Qed.


Lemma length_zset : forall (A : Type) (l : list A) i v,
  List.length (zset l i v) = List.length l.
Proof.
  intros A l i v; unfold zset; destruct (i <? 0); auto using length_set_nth.
Qed.



Lemma length_swap : forall v i j, List.length (swap v i j) = List.length v.
Proof. intros; unfold swap; rewrite !length_zset; auto. Qed.










(** ** Games *)

Lemma findMove_In : forall id ms m, findMove id ms = Some m -> In m ms.
Proof. intros id ms m H; unfold findMove in H; apply find_some in H; tauto. Qed.

Lemma playIDs_cons : forall g id ids,
  playIDs g (id :: ids) =
  let '(g1, ms) := getValidMoves g in
  match findMove id ms with
  | Some m => playIDs (makeMove g1 m) ids
  | None => None
  end.
Proof. intros; reflexivity. Qed.

Lemma playIDs_reachable : forall ids g g',
  reachable g -> playIDs g ids = Some g' -> reachable g'.
Proof.
  induction ids as [|id ids IH]; intros g g' Hg H.
  - inversion H; subst; auto.
  - rewrite playIDs_cons in H.
    destruct (getValidMoves g) as [g1 ms] eqn:Eg.
    destruct (findMove id ms) as [m|] eqn:E; [|discriminate].
    apply findMove_In in E.
    eapply IH; [|exact H].
    eapply reach_make; [exact Hg | exact Eg | exact E | reflexivity].
Qed.

Lemma positionAfter_reachable : forall ids g,
  playIDs newGameState ids = Some g -> reachable (positionAfter ids).
Proof.
  intros ids g H; unfold positionAfter; rewrite H.
  eapply playIDs_reachable; [apply reach_new | exact H].
Qed.

Lemma validMove_In : forall g id,
  findMove id (snd (getValidMoves g)) <> None ->
  In (validMove g id) (snd (getValidMoves g)).
Proof.
  intros g id H; unfold validMove.
  destruct (findMove id (snd (getValidMoves g))) eqn:E; [|congruence].
  eapply findMove_In; exact E.
Qed.

Ltac played := vm_compute; reflexivity.

(** Splits a conjunction and evaluates each conjunct. *)
Ltac evaluated :=
  repeat match goal with |- _ /\ _ => split end; vm_compute; reflexivity.

Lemma reach_valid_fst : forall g, reachable g -> reachable (fst (getValidMoves g)).
Proof. intros g H; eapply reach_valid; [exact H | apply surjective_pairing]. Qed.

Lemma legalSeq_two : forall g a b,
  In a (snd (getValidMoves g)) -> In b (snd (getValidMoves (makeMove g a))) ->
  legalSeq g [a; b].
Proof. intros g a b Ha Hb; cbn [legalSeq]; auto. Qed.

Lemma rookLiftGame_played :
  playIDs newGameState rookLiftGame = Some rookLiftPosition.
Proof. played. Qed.

Lemma castleInCheckGame_played :
  playIDs newGameState castleInCheckGame = Some castleInCheckPosition.
Proof. played. Qed.

Lemma secondCastleGame_played :
  playIDs newGameState secondCastleGame = Some (positionAfter secondCastleGame).
Proof. played. Qed.

Lemma staleKingGame_played :
  playIDs newGameState staleKingGame = Some staleKingPosition.
Proof. played. Qed.

Lemma sparseGame_played :
  playIDs newGameState sparseGame = Some sparsePosition.
Proof. played. Qed.

Lemma secondCastlePosition_reachable : reachable secondCastlePosition.
Proof.
  unfold secondCastlePosition; apply reach_valid_fst.
  exact (positionAfter_reachable _ _ secondCastleGame_played).
Qed.

(** ** The claims *)

(** C8: on a freshly constructed [GameState], the standard initial
    position with White to move, [getValidMoves] returns exactly 20
    moves. *)
Theorem C8_initial_position_has_20_moves :
  whiteToMove newGameState = true
  /\ board newGameState = initialBoard
  /\ List.length (snd (getValidMoves newGameState)) = 20%nat.
Proof. evaluated. Qed.

(** C3 fails on the code: after 1. h4 e6 2. Rh3 a6 3. Ra3 the bishop
    takes the rook on a3, which is not a home corner; no king and no rook
    moves, the rook on a1 and the king on e1 stand where they started, and
    [makeMove] still clears White's queenside right, because the capture
    branch of [updateCastleRights] looks at the column of the captured
    rook only. *)
Theorem C3_rook_captured_off_corner_clears_right :
  let g := fst (getValidMoves rookLiftPosition) in
  let m := validMove rookLiftPosition 550 in
  reachable rookLiftPosition
  /\ In m (snd (getValidMoves rookLiftPosition))
  /\ pieceMoved m = "bB" /\ pieceCaptured m = "wR"
  /\ (endRow m, endCol m) = (5, 0)
  /\ wqs (castlingRights g) = true
  /\ wqs (castlingRights (makeMove g m)) = false
  /\ sq (board (makeMove g m)) 7 0 = "wR"
  /\ sq (board (makeMove g m)) 7 4 = "wK".
Proof.
  cbv zeta; split; [exact (positionAfter_reachable _ _ rookLiftGame_played)|].
  split; [apply validMove_In; vm_compute; discriminate|].
  evaluated.
Qed.

(** C6 fails on the code: the initial position is neither checkmate nor
    stalemate and its material and table values cancel, yet [scoreBoard]
    returns 10: every [score += ...] and [score -= ...] converts the sum
    back to [int], which drops the table value or rounds it up to a whole
    point depending on the sign of the running total. *)
Theorem C6_scoreBoard_initial_position :
  checkmate newGameState = false /\ stalemate newGameState = false
  /\ specEvaluate100 newGameState = 0
  /\ scoreBoard newGameState = 10.
Proof. evaluated. Qed.

(** C5 fails on the code: after 1. d4 e6 2. Qd2 Bb4 3. Qd3 Bxe1 4. Nh3 Nc6
    5. g3 Ne5 6. Bg2 Nxd3 the side to move is in check according to
    [getValidMoves], and the list it returns holds a move flagged as a
    castle: the square White's king cache points to holds a black bishop,
    so no black move ends on it and [squareUnderAttack] finds it safe. *)
Theorem C5_castle_returned_while_in_check :
  let m := validMove castleInCheckPosition 7476 in
  reachable castleInCheckPosition
  /\ inCheck (fst (getValidMoves castleInCheckPosition)) = true
  /\ In m (snd (getValidMoves castleInCheckPosition))
  /\ isCastleMove m = true.
Proof.
  cbv zeta; split; [exact (positionAfter_reachable _ _ castleInCheckGame_played)|].
  split; [vm_compute; reflexivity|].
  split; [apply validMove_In; vm_compute; discriminate | vm_compute; reflexivity].
Qed.

(** C10 fails on the code: in the position after the second "castle",
    Black's king stands on d1 while [blackKingLocation] says a1, and
    [getValidMoves] returns with [blackKingLocation] changed to d1:
    [getKingMoves] "restores" the cache to the square it was called for. *)
Theorem C10_getValidMoves_moves_king_cache :
  reachable staleKingPosition
  /\ sq (board staleKingPosition) 7 3 = "bK"
  /\ blackKingLocation staleKingPosition = (7, 0)
  /\ blackKingLocation (fst (getValidMoves staleKingPosition)) = (7, 3).
Proof.
  split; [exact (positionAfter_reachable _ _ staleKingGame_played)|].
  evaluated.
Qed.

(** C1 fails on the code: from the position before the second "castle",
    that move and the king's step d1-c1 are legal one after the other, and
    two [undoMove] calls after the two [makeMove] calls leave
    [blackKingLocation] at d1, where it was a1 before the sequence. *)
Theorem C1_make_undo_changes_king_cache :
  reachable secondCastlePosition
  /\ legalSeq secondCastlePosition secondCastleMoves
  /\ blackKingLocation secondCastlePosition = (7, 0)
  /\ blackKingLocation
       (undoMoves (List.length secondCastleMoves)
                  (applyMoves secondCastlePosition secondCastleMoves)) = (7, 3)
  /\ ~ sameCore (undoMoves (List.length secondCastleMoves)
                           (applyMoves secondCastlePosition secondCastleMoves))
                secondCastlePosition.
Proof.
  split; [exact secondCastlePosition_reachable|].
  split.
  { apply legalSeq_two; apply validMove_In; vm_compute; discriminate. }
  split; [vm_compute; reflexivity|].
  split; [vm_compute; reflexivity|].
  intros (_ & _ & _ & H & _).
  vm_compute in H; discriminate.
Qed.

(** C2 fails on the code: in a position the game reaches, searched to
    depth 3 over the moves [getValidMoves] returns and with the initial
    window, the pruned search returns 7 and the same recursion without the
    cutoff returns 1000. *)
Theorem C2_pruning_changes_root_value :
  let g := fst (getValidMoves sparsePosition) in
  let moves := snd (getValidMoves sparsePosition) in
  reachable sparsePosition
  /\ whiteToMove g = true
  /\ snd (findMoveNegaMaxAlphaBeta DEPTH g defaultMove moves
                                   (- CHECKMATE) CHECKMATE 1) = 7
  /\ snd (fullWidthNegaMax DEPTH g defaultMove moves
                           (- CHECKMATE) CHECKMATE 1) = 1000.
Proof.
  cbv zeta; split; [exact (positionAfter_reachable _ _ sparseGame_played)|].
  evaluated.
Qed.

(** ** Move text *)






(** ** Pruning under the make/undo discipline *)

Lemma zth_bounded_row : forall (l : list Z) i,
  forallb (fun x => (0 <=? x) && (x <=? 80)) l = true -> 0 <= zth l i 0 <= 80.
Proof.
  intros l i H; unfold zth. destruct (i <? 0); [lia|].
  rewrite forallb_forall in H.
  destruct (Nat.lt_ge_cases (Z.to_nat i) (List.length l)) as [Hl|Hl].
  - specialize (H _ (nth_In l 0 Hl)). lia.
  - rewrite nth_overflow by exact Hl. lia.
Qed.

Lemma zth_bounded : forall t r c,
  tableBounded t = true -> 0 <= zth (zth t r []) c 0 <= 80.
Proof.
  intros t r c H; apply zth_bounded_row.
  unfold zth at 1. destruct (r <? 0); [reflexivity|].
  unfold tableBounded in H; rewrite forallb_forall in H.
  destruct (Nat.lt_ge_cases (Z.to_nat r) (List.length t)) as [Hl|Hl].
  - apply H, nth_In, Hl.
  - rewrite nth_overflow by exact Hl. reflexivity.
Qed.

Lemma piecePositionScores_bounded : forall piece,
  tableBounded (piecePositionScores piece) = true.
Proof.
  intros piece; unfold piecePositionScores.
  repeat match goal with |- context [if ?c then _ else _] => destruct c end;
    reflexivity.
Qed.

Lemma pieceScore_bounded : forall c, 0 <= pieceScore c <= 9.
Proof.
  intros c; unfold pieceScore.
  repeat match goal with |- context [if ?c then _ else _] => destruct c end; lia.
Qed.

Lemma pieceTerm_bounded : forall piece r c, 0 <= pieceTerm piece r c <= 980.
Proof.
  intros piece r c; unfold pieceTerm.
  pose proof (pieceScore_bounded (chr piece 1)).
  pose proof (zth_bounded _ r c (piecePositionScores_bounded piece)).
  destruct (negb _); lia.
Qed.

Lemma quot_between : forall s x,
  (s - 10) * 100 <= x <= (s + 10) * 100 -> s - 10 <= Z.quot x 100 <= s + 10.
Proof.
  intros s x [H1 H2]; split.
  - rewrite <- (Z.quot_mul (s - 10) 100) by lia. apply Z.quot_le_mono; lia.
  - rewrite <- (Z.quot_mul (s + 10) 100) by lia. apply Z.quot_le_mono; lia.
Qed.

Lemma scoreStep_bounded : forall score piece r c,
  score - 10 <= scoreStep score piece r c <= score + 10.
Proof.
  intros score piece r c; unfold scoreStep.
  pose proof (pieceTerm_bounded piece r c) as Ht.
  destruct (negb _); [|lia].
  destruct (chreq _ _); apply quot_between; lia.
Qed.

Lemma fold_scoreStep_bounded : forall b l acc,
  acc - 10 * Z.of_nat (List.length l)
  <= fold_left (fun score rc => scoreStep score (sq b (fst rc) (snd rc)) (fst rc) (snd rc)) l acc
  <= acc + 10 * Z.of_nat (List.length l).
Proof.
  intros b; induction l as [|rc l IH]; intros acc; cbn [fold_left List.length].
  - lia.
  - specialize (IH (scoreStep acc (sq b (fst rc) (snd rc)) (fst rc) (snd rc))).
    pose proof (scoreStep_bounded acc (sq b (fst rc) (snd rc)) (fst rc) (snd rc)).
    lia.
Qed.

(** [scoreBoard] stays between [-CHECKMATE] and [CHECKMATE]: the running
    total never exceeds 10 in absolute value. *)
Lemma scoreBoard_bounded : forall gs, - CHECKMATE <= scoreBoard gs <= CHECKMATE.
Proof.
  intros gs; unfold scoreBoard, CHECKMATE, STALEMATE.
  destruct (checkmate gs); [destruct (whiteToMove gs); lia|].
  destruct (stalemate gs); [lia|].
  pose proof (fold_scoreStep_bounded (board gs) allSquares 0) as H.
  change (Z.of_nat (List.length allSquares)) with 64 in H. lia.
Qed.

Lemma scanRay_setMate : forall g cm sm j d dists p acc,
  scanRay (setMate g cm sm) j d dists p acc = scanRay g j d dists p acc.
Proof.
  intros g cm sm j d; induction dists as [|i rest IH]; intros p acc; cbn [scanRay].
  - reflexivity.
  - rewrite !IH. reflexivity.
Qed.

Lemma scanDirections_setMate : forall g cm sm ds j acc,
  scanDirections (setMate g cm sm) j ds acc = scanDirections g j ds acc.
Proof.
  intros g cm sm; induction ds as [|d rest IH]; intros j acc; cbn [scanDirections].
  - reflexivity.
  - rewrite IH, scanRay_setMate. reflexivity.
Qed.

Lemma scanKnights_setMate : forall g cm sm ms acc,
  scanKnights (setMate g cm sm) ms acc = scanKnights g ms acc.
Proof.
  intros g cm sm; induction ms as [|m rest IH]; intros acc; cbn [scanKnights].
  - reflexivity.
  - rewrite IH. reflexivity.
Qed.

Lemma checkForPinsAndChecks_setMate : forall g cm sm,
  checkForPinsAndChecks (setMate g cm sm) = checkForPinsAndChecks g.
Proof.
  intros; unfold checkForPinsAndChecks.
  rewrite scanKnights_setMate, scanDirections_setMate. reflexivity.
Qed.

Lemma getPawnMoves_setMate : forall g cm sm row col moves,
  getPawnMoves (setMate g cm sm) row col moves
  = withMate cm sm (getPawnMoves g row col moves).
Proof.
  intros; unfold getPawnMoves, withMate.
  change (lookupPin (setMate g cm sm) row col) with (lookupPin g row col).
  change (whiteToMove (setMate g cm sm)) with (whiteToMove g).
  destruct ((0 <=? row + (if whiteToMove g then -1 else 1))
            && (row + (if whiteToMove g then -1 else 1) <=? 7))%bool;
    destruct (lookupPin g row col); reflexivity.
Qed.

Lemma rayMoves_setMate : forall g cm sm row col pp pd d dists moves,
  rayMoves (setMate g cm sm) row col pp pd d dists moves
  = rayMoves g row col pp pd d dists moves.
Proof.
  intros g cm sm row col pp pd d; induction dists as [|i rest IH]; intros moves;
    cbn [rayMoves].
  - reflexivity.
  - rewrite !IH. reflexivity.
Qed.

Lemma slideMoves_setMate : forall g cm sm row col pp pd ds moves,
  slideMoves (setMate g cm sm) row col pp pd ds moves
  = slideMoves g row col pp pd ds moves.
Proof.
  intros g cm sm row col pp pd; induction ds as [|d rest IH]; intros moves;
    cbn [slideMoves].
  - reflexivity.
  - rewrite IH, rayMoves_setMate. reflexivity.
Qed.

Lemma knightLoop_setMate : forall g cm sm row col pp ms moves,
  knightLoop (setMate g cm sm) row col pp ms moves
  = knightLoop g row col pp ms moves.
Proof.
  intros g cm sm row col pp; induction ms as [|m rest IH]; intros moves;
    cbn [knightLoop].
  - reflexivity.
  - rewrite IH. reflexivity.
Qed.

Lemma getRookMoves_setMate : forall g cm sm row col moves,
  getRookMoves (setMate g cm sm) row col moves
  = withMate cm sm (getRookMoves g row col moves).
Proof.
  intros; unfold getRookMoves, withMate.
  change (lookupPin (setMate g cm sm) row col) with (lookupPin g row col).
  change (board (setMate g cm sm)) with (board g).
  destruct (lookupPin g row col); cbn [fst snd].
  - destruct (negb _).
    + change (setPins (setMate g cm sm) (removeAt (pins (setMate g cm sm)) (Z.of_nat n)))
        with (setMate (setPins g (removeAt (pins g) (Z.of_nat n))) cm sm).
      rewrite slideMoves_setMate. reflexivity.
    + rewrite slideMoves_setMate. reflexivity.
  - rewrite slideMoves_setMate. reflexivity.
Qed.

Lemma getBishopMoves_setMate : forall g cm sm row col moves,
  getBishopMoves (setMate g cm sm) row col moves
  = withMate cm sm (getBishopMoves g row col moves).
Proof.
  intros; unfold getBishopMoves, withMate.
  change (lookupPin (setMate g cm sm) row col) with (lookupPin g row col).
  destruct (lookupPin g row col); cbn [fst snd].
  - change (setPins (setMate g cm sm) (removeAt (pins (setMate g cm sm)) (Z.of_nat n)))
      with (setMate (setPins g (removeAt (pins g) (Z.of_nat n))) cm sm).
    rewrite slideMoves_setMate. reflexivity.
  - rewrite slideMoves_setMate. reflexivity.
Qed.

Lemma getKnightMoves_setMate : forall g cm sm row col moves,
  getKnightMoves (setMate g cm sm) row col moves
  = withMate cm sm (getKnightMoves g row col moves).
Proof.
  intros; unfold getKnightMoves, withMate.
  change (lookupPin (setMate g cm sm) row col) with (lookupPin g row col).
  destruct (lookupPin g row col); cbn [fst snd].
  - change (setPins (setMate g cm sm) (removeAt (pins (setMate g cm sm)) (Z.of_nat n)))
      with (setMate (setPins g (removeAt (pins g) (Z.of_nat n))) cm sm).
    rewrite knightLoop_setMate. reflexivity.
  - rewrite knightLoop_setMate. reflexivity.
Qed.

Lemma getQueenMoves_setMate : forall g cm sm row col moves,
  getQueenMoves (setMate g cm sm) row col moves
  = withMate cm sm (getQueenMoves g row col moves).
Proof.
  intros; unfold getQueenMoves.
  rewrite getBishopMoves_setMate; unfold withMate at 1.
  destruct (getBishopMoves g row col moves) as [g1 m1]; cbn [fst snd].
  apply getRookMoves_setMate.
Qed.

Lemma setKingOfMover_setMate : forall g cm sm k,
  setKingOfMover (setMate g cm sm) k = setMate (setKingOfMover g k) cm sm.
Proof.
  intros; unfold setKingOfMover.
  change (whiteToMove (setMate g cm sm)) with (whiteToMove g).
  destruct (whiteToMove g); reflexivity.
Qed.

Lemma kingLoop_setMate : forall ms g cm sm row col moves,
  kingLoop (setMate g cm sm) row col ms moves
  = withMate cm sm (kingLoop g row col ms moves).
Proof.
  induction ms as [|m rest IH]; intros g cm sm row col moves; cbn [kingLoop].
  - reflexivity.
  - change (board (setMate g cm sm)) with (board g).
    change (teamColorOf (setMate g cm sm)) with (teamColorOf g).
    destruct (onBoard _ _); [|apply IH].
    destruct (negb _); [|apply IH].
    rewrite !setKingOfMover_setMate, checkForPinsAndChecks_setMate.
    change (board (setMate (setKingOfMover g (row + fst m, col + snd m)) cm sm))
      with (board (setKingOfMover g (row + fst m, col + snd m))).
    apply IH.
Qed.

Lemma getKingMoves_setMate : forall g cm sm row col moves,
  getKingMoves (setMate g cm sm) row col moves
  = withMate cm sm (getKingMoves g row col moves).
Proof. intros; apply kingLoop_setMate. Qed.

Lemma moveFunction_setMate : forall piece g cm sm row col moves,
  moveFunction piece (setMate g cm sm) row col moves
  = withMate cm sm (moveFunction piece g row col moves).
Proof.
  intros; unfold moveFunction.
  destruct (chreq piece "p"); [apply getPawnMoves_setMate|].
  destruct (chreq piece "R"); [apply getRookMoves_setMate|].
  destruct (chreq piece "N"); [apply getKnightMoves_setMate|].
  destruct (chreq piece "B"); [apply getBishopMoves_setMate|].
  destruct (chreq piece "Q"); [apply getQueenMoves_setMate|].
  destruct (chreq piece "K"); [apply getKingMoves_setMate|].
  reflexivity.
Qed.

Lemma colLoop_setMate : forall cols g cm sm row moves,
  colLoop (setMate g cm sm) row cols moves
  = withMate cm sm (colLoop g row cols moves).
Proof.
  induction cols as [|c rest IH]; intros g cm sm row moves; cbn [colLoop].
  - reflexivity.
  - change (board (setMate g cm sm)) with (board g).
    change (whiteToMove (setMate g cm sm)) with (whiteToMove g).
    destruct (_ || _)%bool.
    + rewrite moveFunction_setMate; unfold withMate at 1.
      destruct (moveFunction _ g row c moves) as [g1 m1]; cbn [fst snd].
      apply IH.
    + apply IH.
Qed.

Lemma rowLoop_setMate : forall rows g cm sm moves,
  rowLoop (setMate g cm sm) rows moves
  = withMate cm sm (rowLoop g rows moves).
Proof.
  induction rows as [|r rest IH]; intros g cm sm moves; cbn [rowLoop].
  - reflexivity.
  - rewrite colLoop_setMate; unfold withMate at 1.
    destruct (colLoop g r zeroToSeven moves) as [g1 m1]; cbn [fst snd].
    apply IH.
Qed.

Lemma getAllPossibleMoves_setMate : forall g cm sm,
  getAllPossibleMoves (setMate g cm sm)
  = withMate cm sm (getAllPossibleMoves g).
Proof. intros; apply rowLoop_setMate. Qed.

Lemma squareUnderAttack_setMate : forall g cm sm row col,
  squareUnderAttack (setMate g cm sm) row col
  = withMate cm sm (squareUnderAttack g row col).
Proof.
  intros; unfold squareUnderAttack.
  change (setWhiteToMove (setMate g cm sm) (negb (whiteToMove (setMate g cm sm))))
    with (setMate (setWhiteToMove g (negb (whiteToMove g))) cm sm).
  rewrite getAllPossibleMoves_setMate; unfold withMate at 1.
  destruct (getAllPossibleMoves _) as [g2 ms]; reflexivity.
Qed.

Lemma getKingsideCastleMoves_setMate : forall g cm sm row col moves,
  getKingsideCastleMoves (setMate g cm sm) row col moves
  = withMate cm sm (getKingsideCastleMoves g row col moves).
Proof.
  intros; unfold getKingsideCastleMoves.
  change (board (setMate g cm sm)) with (board g).
  destruct (col + 2 >? 7); [reflexivity|].
  destruct (_ && _)%bool; [|reflexivity].
  rewrite squareUnderAttack_setMate; unfold withMate at 1.
  destruct (squareUnderAttack g row (col + 1)) as [g1 a1]; cbn [fst snd].
  destruct (negb a1); [|reflexivity].
  rewrite squareUnderAttack_setMate; unfold withMate at 1.
  destruct (squareUnderAttack g1 row (col + 2)) as [g2 a2]; cbn [fst snd].
  destruct (negb a2); reflexivity.
Qed.

Lemma getQueensideCastleMoves_setMate : forall g cm sm row col moves,
  getQueensideCastleMoves (setMate g cm sm) row col moves
  = withMate cm sm (getQueensideCastleMoves g row col moves).
Proof.
  intros; unfold getQueensideCastleMoves.
  change (board (setMate g cm sm)) with (board g).
  destruct (_ || _)%bool; [reflexivity|].
  destruct (_ && _)%bool; [|reflexivity].
  rewrite squareUnderAttack_setMate; unfold withMate at 1.
  destruct (squareUnderAttack g row (col - 1)) as [g1 a1]; cbn [fst snd].
  destruct (negb a1); [|reflexivity].
  rewrite squareUnderAttack_setMate; unfold withMate at 1.
  destruct (squareUnderAttack g1 row (col - 2)) as [g2 a2]; cbn [fst snd].
  destruct (negb a2); reflexivity.
Qed.

Lemma getCastleMoves_setMate : forall g cm sm row col moves,
  getCastleMoves (setMate g cm sm) row col moves
  = withMate cm sm (getCastleMoves g row col moves).
Proof.
  intros; unfold getCastleMoves.
  rewrite squareUnderAttack_setMate; unfold withMate at 1.
  destruct (squareUnderAttack g row col) as [g1 a]; cbn [fst snd].
  destruct a; [reflexivity|].
  change (whiteToMove (setMate g1 cm sm)) with (whiteToMove g1).
  change (castlingRights (setMate g1 cm sm)) with (castlingRights g1).
  destruct (_ || _)%bool.
  - rewrite getKingsideCastleMoves_setMate; unfold withMate at 1.
    destruct (getKingsideCastleMoves g1 row col moves) as [g2 m2]; cbn [fst snd].
    change (whiteToMove (setMate g2 cm sm)) with (whiteToMove g2).
    change (castlingRights (setMate g2 cm sm)) with (castlingRights g2).
    destruct (_ || _)%bool; [apply getQueensideCastleMoves_setMate | reflexivity].
  - destruct (_ || _)%bool; [apply getQueensideCastleMoves_setMate | reflexivity].
Qed.

Lemma setPinsAndChecks_setMate : forall g cm sm i,
  setPinsAndChecks (setMate g cm sm) i = setMate (setPinsAndChecks g i) cm sm.
Proof. reflexivity. Qed.
Lemma castlingRights_setMate : forall g cm sm,
  castlingRights (setMate g cm sm) = castlingRights g.
Proof. reflexivity. Qed.
Lemma kingPosOf_setMate : forall g cm sm, kingPosOf (setMate g cm sm) = kingPosOf g.
Proof. reflexivity. Qed.
Lemma inCheck_setMate : forall g cm sm, inCheck (setMate g cm sm) = inCheck g.
Proof. reflexivity. Qed.
Lemma checks_setMate : forall g cm sm, checks (setMate g cm sm) = checks g.
Proof. reflexivity. Qed.
Lemma board_setMate : forall g cm sm, board (setMate g cm sm) = board g.
Proof. reflexivity. Qed.
Lemma setMate_setMate : forall g cm sm cm' sm',
  setMate (setMate g cm sm) cm' sm' = setMate g cm' sm'.
Proof. reflexivity. Qed.

(** [getValidMoves] overwrites the two flags without reading them. *)
Lemma getValidMoves_setMate : forall g cm sm,
  getValidMoves (setMate g cm sm) = getValidMoves g.
Proof.
  intros; unfold getValidMoves.
  rewrite checkForPinsAndChecks_setMate, setPinsAndChecks_setMate,
    castlingRights_setMate.
  generalize (setPinsAndChecks g (checkForPinsAndChecks g)); intros g0.
  rewrite !kingPosOf_setMate, !inCheck_setMate, !checks_setMate.
  destruct (inCheck g0).
  - destruct (size (checks g0) =? 1).
    + rewrite getAllPossibleMoves_setMate; unfold withMate at 1.
      destruct (getAllPossibleMoves g0) as [g1 all]; cbn [fst snd].
      rewrite !checks_setMate, !board_setMate, !kingPosOf_setMate.
      rewrite getCastleMoves_setMate; unfold withMate at 1.
      destruct (getCastleMoves g1 _ _ _) as [g3 moves]; cbn [fst snd].
      rewrite !inCheck_setMate, !setMate_setMate. reflexivity.
    + rewrite getKingMoves_setMate; unfold withMate at 1.
      destruct (getKingMoves g0 _ _ _) as [g1 moves1]; cbn [fst snd].
      rewrite !kingPosOf_setMate.
      rewrite getCastleMoves_setMate; unfold withMate at 1.
      destruct (getCastleMoves g1 _ _ _) as [g3 moves]; cbn [fst snd].
      rewrite !inCheck_setMate, !setMate_setMate. reflexivity.
  - rewrite getAllPossibleMoves_setMate; unfold withMate at 1.
    destruct (getAllPossibleMoves g0) as [g1 all]; cbn [fst snd].
    rewrite !kingPosOf_setMate.
    rewrite getCastleMoves_setMate; unfold withMate at 1.
    destruct (getCastleMoves g1 _ _ _) as [g3 moves]; cbn [fst snd].
    rewrite !inCheck_setMate, !setMate_setMate. reflexivity.
Qed.

Lemma samePersistent_refl : forall g, samePersistent g g.
Proof. intros g; repeat split. Qed.

Lemma samePersistent_sym : forall a b, samePersistent a b -> samePersistent b a.
Proof.
  unfold samePersistent; intros a b (?&?&?&?&?&?&?&?&?); repeat split; congruence.
Qed.

Lemma samePersistent_trans : forall a b c,
  samePersistent a b -> samePersistent b c -> samePersistent a c.
Proof.
  unfold samePersistent; intros a b c (?&?&?&?&?&?&?&?&?) (?&?&?&?&?&?&?&?&?).
  repeat split; congruence.
Qed.

Lemma scanRay_ext : forall g g',
  board g = board g' -> whiteToMove g = whiteToMove g' ->
  whiteKingLocation g = whiteKingLocation g' ->
  blackKingLocation g = blackKingLocation g' ->
  forall j d dists p acc,
  scanRay g j d dists p acc = scanRay g' j d dists p acc.
Proof.
  intros g g' Hb Hw Hwk Hbk j d; induction dists as [|i rest IH]; intros p acc;
    cbn [scanRay]; [reflexivity|].
  unfold kingPosOf, teamColorOf, enemyColorOf.
  rewrite Hb, Hw, Hwk, Hbk, !IH. reflexivity.
Qed.

Lemma scanDirections_ext : forall g g',
  board g = board g' -> whiteToMove g = whiteToMove g' ->
  whiteKingLocation g = whiteKingLocation g' ->
  blackKingLocation g = blackKingLocation g' ->
  forall ds j acc, scanDirections g j ds acc = scanDirections g' j ds acc.
Proof.
  intros g g' Hb Hw Hwk Hbk; induction ds as [|d rest IH]; intros j acc;
    cbn [scanDirections]; [reflexivity|].
  rewrite IH, (scanRay_ext g g' Hb Hw Hwk Hbk). reflexivity.
Qed.

Lemma scanKnights_ext : forall g g',
  board g = board g' -> whiteToMove g = whiteToMove g' ->
  whiteKingLocation g = whiteKingLocation g' ->
  blackKingLocation g = blackKingLocation g' ->
  forall ms acc, scanKnights g ms acc = scanKnights g' ms acc.
Proof.
  intros g g' Hb Hw Hwk Hbk; induction ms as [|m rest IH]; intros acc;
    cbn [scanKnights]; [reflexivity|].
  unfold kingPosOf, enemyColorOf.
  rewrite Hb, Hw, Hwk, Hbk, IH. reflexivity.
Qed.

Lemma checkForPinsAndChecks_ext : forall g g',
  board g = board g' -> whiteToMove g = whiteToMove g' ->
  whiteKingLocation g = whiteKingLocation g' ->
  blackKingLocation g = blackKingLocation g' ->
  checkForPinsAndChecks g = checkForPinsAndChecks g'.
Proof.
  intros g g' Hb Hw Hwk Hbk; unfold checkForPinsAndChecks.
  rewrite (scanKnights_ext g g' Hb Hw Hwk Hbk),
          (scanDirections_ext g g' Hb Hw Hwk Hbk). reflexivity.
Qed.

Lemma setPinsAndChecks_twice : forall g i j,
  setPinsAndChecks (setPinsAndChecks g i) j = setPinsAndChecks g j.
Proof. reflexivity. Qed.

Lemma castlingRights_setPinsAndChecks : forall g i,
  castlingRights (setPinsAndChecks g i) = castlingRights g.
Proof. reflexivity. Qed.

Lemma getValidMoves_setPinsAndChecks : forall g i,
  getValidMoves (setPinsAndChecks g i) = getValidMoves g.
Proof.
  intros; unfold getValidMoves.
  rewrite (checkForPinsAndChecks_ext (setPinsAndChecks g i) g) by reflexivity.
  rewrite setPinsAndChecks_twice, castlingRights_setPinsAndChecks. reflexivity.
Qed.

(** [getValidMoves] reads none of the derived fields. *)
Lemma getValidMoves_persistent : forall a b,
  samePersistent a b -> getValidMoves a = getValidMoves b.
Proof.
  intros a b H.
  assert (E : b = setMate (setPinsAndChecks a (mkPCI (inCheck b) (pins b) (checks b)))
                          (checkmate b) (stalemate b)).
  { destruct a, b; unfold samePersistent in H; cbn in H.
    destruct H as (?&?&?&?&?&?&?&?&?); subst. reflexivity. }
  rewrite E at 1.
  rewrite getValidMoves_setMate, getValidMoves_setPinsAndChecks. reflexivity.
Qed.

(** [makeMove] and [undoMove] read the persistent members only. *)
Lemma makeMove_persistent : forall a b m,
  samePersistent a b -> samePersistent (makeMove a m) (makeMove b m).
Proof.
  unfold samePersistent, makeMove; intros a b m (Hb&Hw&Hl&Hwk&Hbk&He&Hel&Hc&Hcl).
  cbn [board whiteToMove moveLog whiteKingLocation blackKingLocation
       enPassantPossible enPassantPossibleLog castlingRights castlingRightsLog].
  rewrite Hb, Hw, Hl, Hwk, Hbk, Hel, Hc, Hcl. repeat split.
Qed.

Lemma undoMove_persistent : forall a b,
  samePersistent a b -> samePersistent (undoMove a) (undoMove b).
Proof.
  unfold undoMove; intros a b H.
  pose proof H as (Hb&Hw&Hl&Hwk&Hbk&He&Hel&Hc&Hcl).
  rewrite Hl. destruct (isEmpty (moveLog b)); [exact H|].
  unfold samePersistent.
  cbn [board whiteToMove moveLog whiteKingLocation blackKingLocation
       enPassantPossible enPassantPossibleLog castlingRights castlingRightsLog].
  rewrite Hb, Hw, Hwk, Hbk, Hel, Hcl. repeat split.
Qed.

Lemma alphaBetaLoop_cons : forall rec atRoot move rest gs nextMove maxScore alpha beta tm,
  alphaBetaLoop rec atRoot (move :: rest) gs nextMove maxScore alpha beta tm =
  let '(gs2, nextMoves) := getValidMoves (makeMove gs move) in
  let '(gs3, nm3, r) :=
    rec gs2 nextMove nextMoves (- beta) (- alpha) (- tm) in
  let maxScore' := if - r >? maxScore then - r else maxScore in
  let nm4 := if - r >? maxScore then (if atRoot then move else nm3) else nm3 in
  let alpha' := if maxScore' >? alpha then maxScore' else alpha in
  if alpha' >=? beta then (undoMove gs3, nm4, maxScore')
  else alphaBetaLoop rec atRoot rest (undoMove gs3) nm4 maxScore' alpha' beta tm.
Proof. reflexivity. Qed.

Lemma fullWidthLoop_cons : forall rec atRoot move rest gs nextMove maxScore alpha beta tm,
  fullWidthLoop rec atRoot (move :: rest) gs nextMove maxScore alpha beta tm =
  let '(gs2, nextMoves) := getValidMoves (makeMove gs move) in
  let '(gs3, nm3, r) :=
    rec gs2 nextMove nextMoves (- beta) (- alpha) (- tm) in
  let maxScore' := if - r >? maxScore then - r else maxScore in
  let nm4 := if - r >? maxScore then (if atRoot then move else nm3) else nm3 in
  let alpha' := if maxScore' >? alpha then maxScore' else alpha in
  fullWidthLoop rec atRoot rest (undoMove gs3) nm4 maxScore' alpha' beta tm.
Proof. reflexivity. Qed.

Lemma zmax_gtb : forall a b, (if a >? b then a else b) = Z.max a b.
Proof. intros a b; destruct (Z.gtb_spec a b); lia. Qed.

(** The loop without cutoff on its own: it returns a state with the
    persistent fields of [g] and a score between the running maximum and
    [CHECKMATE]. *)
Lemma fullWidthLoop_facts : forall d recA recF,
  recSpec d recA recF ->
  forall g tm atF, tm = 1 \/ tm = -1 ->
  forall moves, stepFacts d g moves ->
  forall gF nmF mF alphaF betaF,
  samePersistent gF g -> - CHECKMATE <= mF <= CHECKMATE ->
  let rF := fullWidthLoop recF atF moves gF nmF mF alphaF betaF tm in
  samePersistent (fst (fst rF)) g /\ mF <= snd rF <= CHECKMATE.
Proof.
  intros d recA recF Hrec g tm atF Htm.
  induction moves as [|move rest IH]; intros Hsteps gF nmF mF alphaF betaF HF Hm.
  - cbn; split; [exact HF | lia].
  - cbv zeta. rewrite fullWidthLoop_cons.
    rewrite (getValidMoves_persistent _ _ (makeMove_persistent _ _ move HF)).
    destruct (Hsteps move (or_introl eq_refl)) as [Hundo Hdisc].
    destruct (getValidMoves (makeMove g move)) as [gs2 nms]; cbn [fst snd] in *.
    assert (Htm' : - tm = 1 \/ - tm = -1) by lia.
    pose proof (Hrec gs2 nmF nmF nms (- CHECKMATE) CHECKMATE (- betaF) (- alphaF)
                  (- tm) Htm' Hdisc ltac:(lia) ltac:(unfold CHECKMATE; lia) ltac:(lia))
      as (_ & HsF & HbF & _).
    destruct (recF gs2 nmF nms (- betaF) (- alphaF) (- tm)) as [[gs3 nm3] r];
      cbn [fst snd] in *.
    cbv zeta. rewrite !zmax_gtb.
    assert (Hst : samePersistent (undoMove gs3) g).
    { eapply samePersistent_trans; [apply undoMove_persistent; exact HsF | exact Hundo]. }
    match goal with
    | |- context [fullWidthLoop recF atF rest ?g' ?n ?m ?a ?b tm] =>
      assert (Hm' : - CHECKMATE <= m <= CHECKMATE) by lia;
      destruct (IH (fun x H => Hsteps x (or_intror H)) g' n m a b Hst Hm')
        as [H1 H2]
    end.
    split; [exact H1 | lia].
Qed.

Ltac related_by_lia :=
  unfold related; cbn [fst snd];
  split; [ | split; [ | split; [ | split; [ | split ] ] ] ];
  try assumption; try apply samePersistent_refl; try lia.

(** The loop invariant of the pruned search against the unpruned one: with
    pruned running maximum [mA] and unpruned [mF], [mF <= mA], and
    [mA <= mF] once [mA] has risen above the initial [alpha0]. *)
Lemma alphaBetaLoop_related : forall d recA recF,
  recSpec d recA recF ->
  forall g alpha0 beta tm atA atF, tm = 1 \/ tm = -1 ->
  - CHECKMATE <= alpha0 -> beta <= CHECKMATE ->
  forall moves, stepFacts d g moves ->
  forall gA gF nmA nmF mA mF alphaC alphaF betaF,
  samePersistent gA g -> samePersistent gF g ->
  alphaC = Z.max alpha0 mA -> alphaC < beta ->
  mF <= mA -> (alpha0 < mA -> mA <= mF) -> - CHECKMATE <= mF <= CHECKMATE ->
  related g alpha0 beta
    (alphaBetaLoop recA atA moves gA nmA mA alphaC beta tm)
    (fullWidthLoop recF atF moves gF nmF mF alphaF betaF tm).
Proof.
  intros d recA recF Hrec g alpha0 beta tm atA atF Htm Ha0 Hb.
  induction moves as [|move rest IH];
    intros Hsteps gA gF nmA nmF mA mF alphaC alphaF betaF HA HF HaC Hlt Hi1 Hi2 Hm.
  - cbn [alphaBetaLoop fullWidthLoop]. related_by_lia.
  - rewrite alphaBetaLoop_cons, fullWidthLoop_cons.
    rewrite (getValidMoves_persistent _ _ (makeMove_persistent _ _ move HA)).
    rewrite (getValidMoves_persistent _ _ (makeMove_persistent _ _ move HF)).
    destruct (Hsteps move (or_introl eq_refl)) as [Hundo Hdisc].
    pose proof (fullWidthLoop_facts d recA recF Hrec g tm atF Htm rest
                  (fun x H => Hsteps x (or_intror H))) as Hfacts.
    destruct (getValidMoves (makeMove g move)) as [gs2 nms]; cbn [fst snd] in *.
    assert (Htm' : - tm = 1 \/ - tm = -1) by lia.
    pose proof (Hrec gs2 nmA nmF nms (- beta) (- alphaC) (- betaF) (- alphaF)
                  (- tm) Htm' Hdisc ltac:(lia) ltac:(lia) ltac:(lia)) as Hrel.
    destruct (recA gs2 nmA nms (- beta) (- alphaC) (- tm)) as [[gs3A nm3A] b].
    destruct (recF gs2 nmF nms (- betaF) (- alphaF) (- tm)) as [[gs3F nm3F] w].
    unfold related in Hrel; cbn [fst snd] in Hrel.
    destruct Hrel as (HsA & HsF & Hbw & H1 & H2 & H3).
    cbv zeta. rewrite !zmax_gtb.
    assert (HstA : samePersistent (undoMove gs3A) g).
    { eapply samePersistent_trans; [apply undoMove_persistent; exact HsA | exact Hundo]. }
    assert (HstF : samePersistent (undoMove gs3F) g).
    { eapply samePersistent_trans; [apply undoMove_persistent; exact HsF | exact Hundo]. }
    destruct (Z.geb_spec (Z.max (Z.max (- b) mA) alphaC) beta) as [Hcut|Hcut].
    + match goal with
      | |- context [fullWidthLoop recF atF rest ?g' ?n ?m ?a ?bb tm] =>
        assert (Hm' : - CHECKMATE <= m <= CHECKMATE) by lia;
        destruct (Hfacts g' n m a bb HstF Hm') as [Hf1 Hf2]
      end.
      related_by_lia.
    + apply IH; try assumption; try lia.
      intros x H; apply Hsteps; right; exact H.
Qed.

(** At every depth the pruned search is [related] to the unpruned one. *)
Lemma search_related : forall d,
  recSpec d (findMoveNegaMaxAlphaBeta d) (fullWidthNegaMax d).
Proof.
  induction d as [|d IH]; unfold recSpec;
    intros g nmA nmF moves alpha beta alpha' beta' tm Htm Hdisc Ha Hlt Hb.
  - cbn [findMoveNegaMaxAlphaBeta fullWidthNegaMax].
    pose proof (scoreBoard_bounded g) as Hs.
    destruct Htm; subst tm; related_by_lia.
  - cbn [findMoveNegaMaxAlphaBeta fullWidthNegaMax].
    apply (alphaBetaLoop_related d _ _ IH); auto using samePersistent_refl;
      unfold CHECKMATE in *; lia.
Qed.

(** On the full window the pruned and the unpruned search return the same
    value wherever the searched moves obey the make/undo discipline.  A
    position on which the two values differ, such as [sparsePosition], is
    therefore one whose search tree holds a move that [undoMove] does not
    take back. *)
Theorem alphaBeta_agrees_with_fullWidth : forall d g nm nm' moves tm,
  tm = 1 \/ tm = -1 -> disciplined d g moves ->
  snd (findMoveNegaMaxAlphaBeta d g nm moves (- CHECKMATE) CHECKMATE tm)
  = snd (fullWidthNegaMax d g nm' moves (- CHECKMATE) CHECKMATE tm).
Proof.
  intros d g nm nm' moves tm Htm Hdisc.
  destruct (search_related d g nm nm' moves (- CHECKMATE) CHECKMATE
              (- CHECKMATE) CHECKMATE tm Htm Hdisc)
    as (_ & _ & Hb & H1 & H2 & H3); unfold CHECKMATE in *; try lia.
Qed.

Lemma listEqb_eq : forall (A : Type) (eqb : A -> A -> bool),
  (forall x y, eqb x y = true -> x = y) ->
  forall l l', listEqb eqb l l' = true -> l = l'.
Proof.
  intros A eqb Heq; induction l as [|x r IH]; intros [|y r'] H;
    cbn [listEqb] in H; try discriminate; [reflexivity|].
  apply andb_true_iff in H; destruct H as [H1 H2].
  f_equal; [apply Heq; exact H1 | apply IH; exact H2].
Qed.

Lemma pairEq_eq : forall p q, pairEq p q = true -> p = q.
Proof.
  intros [a b] [c d] H; unfold pairEq in H; cbn [fst snd] in H.
  apply andb_true_iff in H; destruct H as [H1 H2].
  apply Z.eqb_eq in H1; apply Z.eqb_eq in H2; congruence.
Qed.

Lemma moveSame_eq : forall a b, moveSame a b = true -> a = b.
Proof.
  intros [] [] H; unfold moveSame in H; cbn in H.
  repeat (apply andb_true_iff in H; destruct H as [H ?]).
  repeat match goal with
  | X : (_ =? _) = true |- _ => apply Z.eqb_eq in X
  | X : String.eqb _ _ = true |- _ => apply String.eqb_eq in X
  | X : Bool.eqb _ _ = true |- _ => apply Bool.eqb_prop in X
  end.
  congruence.
Qed.

Lemma rightsSame_eq : forall a b, rightsSame a b = true -> a = b.
Proof.
  intros [] [] H; unfold rightsSame in H; cbn in H.
  repeat (apply andb_true_iff in H; destruct H as [H ?]).
  repeat match goal with
  | X : Bool.eqb _ _ = true |- _ => apply Bool.eqb_prop in X
  end.
  congruence.
Qed.

(** The checks are sound. *)
Lemma samePersistentb_sound : forall a b,
  samePersistentb a b = true -> samePersistent a b.
Proof.
  intros a b H; unfold samePersistentb in H.
  repeat (apply andb_true_iff in H; destruct H as [H ?]).
  unfold samePersistent.
  repeat match goal with |- _ /\ _ => split end;
    first [ apply (listEqb_eq _ _ (listEqb_eq _ _ (fun x y => proj1 (String.eqb_eq x y)))); assumption
          | apply Bool.eqb_prop; assumption
          | apply (listEqb_eq _ _ moveSame_eq); assumption
          | apply pairEq_eq; assumption
          | apply (listEqb_eq _ _ pairEq_eq); assumption
          | apply rightsSame_eq; assumption
          | apply (listEqb_eq _ _ rightsSame_eq); assumption ].
Qed.

Lemma disciplinedb_cons : forall d g m rest,
  disciplinedb (S d) g (m :: rest)
  = (let '(g2, nms) := getValidMoves (makeMove g m) in
     samePersistentb (undoMove g2) g && disciplinedb d g2 nms)
    && disciplinedb (S d) g rest.
Proof. reflexivity. Qed.

Lemma disciplinedb_sound : forall d g moves,
  disciplinedb d g moves = true -> disciplined d g moves.
Proof.
  induction d as [|d IH]; intros g moves H; [exact I|].
  induction moves as [|m rest IHm]; intros x Hin; [destruct Hin|].
  rewrite disciplinedb_cons in H.
  apply andb_true_iff in H; destruct H as [H1 H2].
  destruct Hin as [<-|Hin]; [|exact (IHm H2 x Hin)].
  destruct (getValidMoves (makeMove g m)) as [g2 nms]; cbn [fst snd].
  apply andb_true_iff in H1; destruct H1 as [Hs Hd].
  split; [apply samePersistentb_sound; exact Hs | apply IH; exact Hd].
Qed.

(** The discipline holds two plies deep from the initial position. *)
Lemma disciplined_initial :
  disciplined 2 newGameState (snd (getValidMoves newGameState)).
Proof. apply disciplinedb_sound. vm_compute. reflexivity. Qed.

(** Hence from the initial position the two searches agree at depth 2. *)
Lemma alphaBeta_agrees_initial :
  snd (findMoveNegaMaxAlphaBeta 2 newGameState defaultMove
         (snd (getValidMoves newGameState)) (- CHECKMATE) CHECKMATE 1)
  = snd (fullWidthNegaMax 2 newGameState defaultMove
           (snd (getValidMoves newGameState)) (- CHECKMATE) CHECKMATE 1).
Proof.
  apply alphaBeta_agrees_with_fullWidth; [left; reflexivity|].
  exact disciplined_initial.
Qed.

(** * Further properties of the code *)

(** ** Writing and reading squares *)

Lemma set_nth_same : forall (A : Type) (l : list A) n x y,
  set_nth (set_nth l n x) n y = set_nth l n y.
Proof.
  induction l as [|h t IH]; intros [|n] x y; simpl; try reflexivity.
  rewrite IH; reflexivity.
Qed.

Lemma set_nth_comm : forall (A : Type) (l : list A) n m x y,
  n <> m -> set_nth (set_nth l n x) m y = set_nth (set_nth l m y) n x.
Proof.
  induction l as [|h t IH]; intros [|n] [|m] x y H; simpl; try reflexivity.
  - contradiction.
  - rewrite IH by congruence; reflexivity.
Qed.

Lemma set_nth_nth : forall (A : Type) (l : list A) n d,
  set_nth l n (nth n l d) = l.
Proof.
  induction l as [|h t IH]; intros [|n] d; simpl; try reflexivity.
  rewrite IH; reflexivity.
Qed.

Lemma nth_set_nth_neq : forall (A : Type) (l : list A) n m x d,
  n <> m -> nth m (set_nth l n x) d = nth m l d.
Proof.
  induction l as [|h t IH]; intros [|n] [|m] x d H; simpl; try reflexivity.
  - contradiction.
  - apply IH; congruence.
Qed.

Lemma nth_set_nth_eq : forall (A : Type) (l : list A) n x d,
  (n < List.length l)%nat -> nth n (set_nth l n x) d = x.
Proof.
  induction l as [|h t IH]; intros [|n] x d H; simpl in *; try lia; try reflexivity.
  apply IH; lia.
Qed.

Lemma zset_same : forall (A : Type) (l : list A) i x y,
  zset (zset l i x) i y = zset l i y.
Proof. intros; unfold zset; destruct (i <? 0); [reflexivity | apply set_nth_same]. Qed.

Lemma zset_comm : forall (A : Type) (l : list A) i j x y,
  i <> j -> zset (zset l i x) j y = zset (zset l j y) i x.
Proof.
  intros A l i j x y H; unfold zset.
  destruct (Z.ltb_spec i 0), (Z.ltb_spec j 0); try reflexivity.
  apply set_nth_comm; lia.
Qed.

Lemma zset_zth : forall (A : Type) (l : list A) i d, zset l i (zth l i d) = l.
Proof.
  intros; unfold zset, zth; destruct (i <? 0); [reflexivity | apply set_nth_nth].
Qed.

Lemma zth_zset_neq : forall (A : Type) (l : list A) i j x d,
  i <> j -> zth (zset l i x) j d = zth l j d.
Proof.
  intros A l i j x d H; unfold zset, zth.
  destruct (Z.ltb_spec j 0); [reflexivity|].
  destruct (Z.ltb_spec i 0); [reflexivity|].
  apply nth_set_nth_neq; lia.
Qed.

Lemma set_nth_out : forall (A : Type) (l : list A) n x,
  (List.length l <= n)%nat -> set_nth l n x = l.
Proof.
  induction l as [|h t IH]; intros [|n] x H; simpl in *; try reflexivity; try lia.
  rewrite IH by lia; reflexivity.
Qed.

Lemma zinside_dec : forall (A : Type) (l : list A) i,
  (0 <= i /\ (Z.to_nat i < List.length l)%nat)
  \/ (i < 0 \/ (List.length l <= Z.to_nat i)%nat).
Proof. intros; lia. Qed.

Lemma zset_out : forall (A : Type) (l : list A) i x,
  i < 0 \/ (List.length l <= Z.to_nat i)%nat -> zset l i x = l.
Proof.
  intros A l i x H; unfold zset.
  destruct (Z.ltb_spec i 0); [reflexivity|].
  apply set_nth_out; lia.
Qed.

Lemma zth_zset_eq : forall (A : Type) (l : list A) i x d,
  0 <= i -> (Z.to_nat i < List.length l)%nat -> zth (zset l i x) i d = x.
Proof.
  intros A l i x d H1 H2; unfold zset, zth.
  destruct (Z.ltb_spec i 0); [lia|].
  apply nth_set_nth_eq; assumption.
Qed.

Lemma setSq_same : forall b r c x y,
  setSq (setSq b r c x) r c y = setSq b r c y.
Proof.
  intros; unfold setSq.
  destruct (zinside_dec _ b r) as [[H1 H2]|H].
  - rewrite zth_zset_eq by assumption.
    rewrite !zset_same; reflexivity.
  - repeat rewrite (zset_out _ b r) by exact H. reflexivity.
Qed.

Lemma setSq_comm : forall b r c r' c' x y,
  (r, c) <> (r', c') ->
  setSq (setSq b r c x) r' c' y = setSq (setSq b r' c' y) r c x.
Proof.
  intros b r c r' c' x y Hne; unfold setSq.
  destruct (Z.eq_dec r r') as [->|Hr].
  - assert (Hc : c <> c') by congruence.
    destruct (zinside_dec _ b r') as [[H1 H2]|H].
    + rewrite !zth_zset_eq by assumption.
      rewrite !zset_same. f_equal. apply zset_comm; exact Hc.
    + repeat rewrite (zset_out _ b r') by exact H. reflexivity.
  - rewrite (zth_zset_neq _ b r r') by exact Hr.
    rewrite (zth_zset_neq _ b r' r) by congruence.
    apply zset_comm; exact Hr.
Qed.

Lemma setSq_sq : forall b r c, setSq b r c (sq b r c) = b.
Proof. intros; unfold setSq, sq. rewrite zset_zth. apply zset_zth. Qed.

Lemma sq_setSq_neq : forall b r c r' c' x,
  (r, c) <> (r', c') -> sq (setSq b r c x) r' c' = sq b r' c'.
Proof.
  intros b r c r' c' x Hne; unfold setSq, sq.
  destruct (Z.eq_dec r r') as [->|Hr].
  - assert (Hc : c <> c') by congruence.
    destruct (zinside_dec _ b r') as [[H1 H2]|H].
    + rewrite zth_zset_eq by assumption. apply zth_zset_neq; exact Hc.
    + rewrite (zset_out _ b r') by exact H. reflexivity.
  - rewrite zth_zset_neq by exact Hr. reflexivity.
Qed.

(** ** The history stacks under one move *)

Lemma pop_back_push_back : forall (A : Type) (l : list A) x,
  pop_back (push_back l x) = l.
Proof. intros; unfold pop_back, push_back; apply removelast_last. Qed.

Lemma back_push_back : forall (A : Type) (l : list A) x d,
  back (push_back l x) d = x.
Proof. intros; unfold back, push_back; apply last_last. Qed.

Lemma isEmpty_push_back : forall (A : Type) (l : list A) x,
  isEmpty (push_back l x) = false.
Proof. intros A [|h t] x; reflexivity. Qed.

Lemma moveLog_makeMove : forall g m,
  moveLog (makeMove g m) = push_back (moveLog g) m.
Proof. reflexivity. Qed.

Lemma whiteToMove_makeMove : forall g m,
  whiteToMove (makeMove g m) = negb (whiteToMove g).
Proof. reflexivity. Qed.

Lemma enPassantPossibleLog_makeMove : forall g m,
  pop_back (enPassantPossibleLog (makeMove g m)) = enPassantPossibleLog g.
Proof. intros; apply pop_back_push_back. Qed.

Lemma castlingRightsLog_makeMove : forall g m,
  pop_back (castlingRightsLog (makeMove g m)) = castlingRightsLog g.
Proof. intros; apply pop_back_push_back. Qed.

Lemma board_makeMove_plain : forall g m,
  isEnpassantMove m = false -> isCastleMove m = false ->
  board (makeMove g m)
  = let b2 := setSq (setSq (board g) (startRow m) (startCol m) "--")
                    (endRow m) (endCol m) (pieceMoved m) in
    if isPawnPromotion m
    then setSq b2 (endRow m) (endCol m)
               (String.append (str1 (chr (pieceMoved m) 0)) "Q")
    else b2.
Proof.
  intros g m He Hc; unfold makeMove; cbn [board]; rewrite He, Hc; reflexivity.
Qed.

Lemma whiteKingLocation_makeMove : forall g m,
  whiteKingLocation (makeMove g m)
  = if streq (pieceMoved m) "wK" then (endRow m, endCol m)
    else whiteKingLocation g.
Proof. reflexivity. Qed.

Lemma blackKingLocation_makeMove : forall g m,
  blackKingLocation (makeMove g m)
  = if streq (pieceMoved m) "wK" then blackKingLocation g
    else if streq (pieceMoved m) "bK" then (endRow m, endCol m)
    else blackKingLocation g.
Proof. reflexivity. Qed.

(** What [undoMove] does to a position whose last move is [m], spelled out
    for a move that is neither en passant nor a castle. *)
Lemma undoMove_makeMove_fields : forall g m,
  isEnpassantMove m = false -> isCastleMove m = false ->
  let u := undoMove (makeMove g m) in
  board u = setSq (setSq (board (makeMove g m)) (startRow m) (startCol m)
                         (pieceMoved m))
                  (endRow m) (endCol m) (pieceCaptured m)
  /\ whiteToMove u = whiteToMove g
  /\ moveLog u = moveLog g
  /\ whiteKingLocation u
     = (if streq (pieceMoved m) "wK" then (startRow m, startCol m)
        else whiteKingLocation g)
  /\ blackKingLocation u
     = (if streq (pieceMoved m) "wK" then blackKingLocation g
        else if streq (pieceMoved m) "bK" then (startRow m, startCol m)
        else blackKingLocation g)
  /\ enPassantPossible u = back (enPassantPossibleLog g) (0, 0)
  /\ enPassantPossibleLog u = enPassantPossibleLog g
  /\ castlingRights u = back (castlingRightsLog g) (mkCR true true true true)
  /\ castlingRightsLog u = castlingRightsLog g.
Proof.
  intros g m He Hc u; subst u; unfold undoMove.
  rewrite moveLog_makeMove, isEmpty_push_back, back_push_back, pop_back_push_back.
  rewrite enPassantPossibleLog_makeMove, castlingRightsLog_makeMove.
  rewrite He, Hc.
  rewrite whiteToMove_makeMove, negb_involutive.
  rewrite whiteKingLocation_makeMove, blackKingLocation_makeMove.
  cbn [board whiteToMove moveLog whiteKingLocation blackKingLocation
       enPassantPossible enPassantPossibleLog castlingRights castlingRightsLog].
  repeat match goal with |- _ /\ _ => split end; try reflexivity;
    destruct (streq (pieceMoved m) "wK"); try reflexivity;
    destruct (streq (pieceMoved m) "bK"); reflexivity.
Qed.

Lemma board_round_trip : forall b m,
  pieceMoved m = sq b (startRow m) (startCol m) ->
  pieceCaptured m = sq b (endRow m) (endCol m) ->
  (startRow m, startCol m) <> (endRow m, endCol m) ->
  forall q,
  setSq (setSq (setSq (setSq (setSq b (startRow m) (startCol m) "--")
                             (endRow m) (endCol m) (pieceMoved m))
                      (endRow m) (endCol m) q)
               (startRow m) (startCol m) (pieceMoved m))
        (endRow m) (endCol m) (pieceCaptured m) = b.
Proof.
  intros b m Hm Hc Hne q.
  rewrite setSq_same.
  rewrite (setSq_comm _ (endRow m) (endCol m) (startRow m) (startCol m))
    by congruence.
  rewrite !setSq_same.
  rewrite Hm, setSq_sq, Hc. apply setSq_sq.
Qed.

Lemma streq_eq : forall a b, streq a b = true -> a = b.
Proof. intros a b H; apply String.eqb_eq; exact H. Qed.

Lemma makeMove_undoMove_plain : forall g m,
  kingsCached g -> logsCurrent g ->
  pieceMoved m = sq (board g) (startRow m) (startCol m) ->
  pieceCaptured m = sq (board g) (endRow m) (endCol m) ->
  (startRow m, startCol m) <> (endRow m, endCol m) ->
  isEnpassantMove m = false -> isCastleMove m = false ->
  samePersistent (undoMove (makeMove g m)) g.
Proof.
  intros g m Hk [Hl1 Hl2] Hm Hc Hne He Hca.
  destruct (undoMove_makeMove_fields g m He Hca)
    as (Hb & Hw & Hlog & Hwk & Hbk & Hep & Hepl & Hcr & Hcrl).
  unfold samePersistent.
  repeat match goal with |- _ /\ _ => split end; try assumption; try congruence.
  - rewrite Hb, (board_makeMove_plain g m He Hca). cbv zeta.
    destruct (isPawnPromotion m).
    + apply board_round_trip; assumption.
    + rewrite <- (setSq_same (setSq (board g) (startRow m) (startCol m) "--")
                    (endRow m) (endCol m) (pieceMoved m) (pieceMoved m)) at 1.
      apply board_round_trip; assumption.
  - rewrite Hwk. destruct (streq (pieceMoved m) "wK") eqn:E; [|reflexivity].
    apply streq_eq in E.
    destruct (Hk (startRow m) (startCol m)) as [H1 _].
    { rewrite <- Hm, E; reflexivity. }
    symmetry; apply H1. rewrite <- Hm, E; reflexivity.
  - rewrite Hbk. destruct (streq (pieceMoved m) "wK") eqn:E; [reflexivity|].
    destruct (streq (pieceMoved m) "bK") eqn:E2; [|reflexivity].
    apply streq_eq in E2.
    destruct (Hk (startRow m) (startCol m)) as [_ H1].
    { rewrite <- Hm, E2; reflexivity. }
    symmetry; apply H1. rewrite <- Hm, E2; reflexivity.
Qed.

Lemma forward_cases : forall w, forward w = -1 \/ forward w = 1.
Proof. intros []; cbn; auto. Qed.

Lemma pawnRow_cases : forall w,
  pawnRow w + 2 * forward w = 4 \/ pawnRow w + 2 * forward w = 3.
Proof. intros []; cbn; auto. Qed.

Lemma pieceMove_plain : forall b w ep r c er ec,
  onBoard r c = true -> onBoard er ec = true -> (r, c) <> (er, ec) ->
  chr (sq b r c) 0 = teamChar w -> chr (sq b er ec) 0 <> teamChar w ->
  (chr (sq b r c) 1 = "p"%char -> Z.abs (r - er) = 2 ->
   r = pawnRow w /\ ec = c /\ sq b (r + forward w) c = "--") ->
  pieceMove b w ep (newMove (r, c) (er, ec) b false false).
Proof.
  intros b w ep r c er ec H1 H2 H3 H4 H5 H6; unfold pieceMove, newMove;
    cbn [startRow startCol endRow endCol pieceMoved pieceCaptured
         isCastleMove isEnpassantMove isPawnPromotion fst snd].
  repeat match goal with |- _ /\ _ => split end; auto; discriminate.
Qed.

Lemma pieceMove_enPassant : forall b w ep r c er ec,
  onBoard r c = true -> onBoard er ec = true -> (r, c) <> (er, ec) ->
  chr (sq b r c) 0 = teamChar w -> chr (sq b r c) 1 = "p"%char ->
  (er, ec) = ep -> er = r + forward w -> ec <> c ->
  pieceMove b w ep (newMove (r, c) (er, ec) b true false).
Proof.
  intros b w ep r c er ec H1 H2 H3 H4 H5 H6 H7 H8; unfold pieceMove, newMove;
    cbn [startRow startCol endRow endCol pieceMoved pieceCaptured
         isCastleMove isEnpassantMove isPawnPromotion fst snd].
  repeat match goal with |- _ /\ _ => split end; auto; try discriminate.
  all: intros _ Ha; exfalso; destruct (forward_cases w); lia.
Qed.

Lemma Forall_push_back : forall (A : Type) (P : A -> Prop) l x,
  Forall P l -> P x -> Forall P (push_back l x).
Proof.
  intros; unfold push_back; apply Forall_app; split; [assumption|].
  constructor; [assumption | constructor].
Qed.

Lemma chreq_eq : forall a b, chreq a b = true -> a = b.
Proof. intros a b H; apply Ascii.eqb_eq; exact H. Qed.

Lemma teamColorOf_char : forall g,
  chr (teamColorOf g) 0 = teamChar (whiteToMove g).
Proof. intros g; unfold teamColorOf, teamChar; destruct (whiteToMove g); reflexivity. Qed.

Lemma empty_not_team : forall s w, streq s "--" = true -> chr s 0 <> teamChar w.
Proof.
  intros s w H; apply streq_eq in H; subst s; destruct w; discriminate.
Qed.

Lemma enemy_not_team : forall g s,
  chreq (chr s 0) (chr (enemyColorOf g) 0) = true ->
  chr s 0 <> teamChar (whiteToMove g).
Proof.
  intros g s H; apply chreq_eq in H; rewrite H.
  unfold enemyColorOf, teamChar; destruct (whiteToMove g); discriminate.
Qed.

Lemma other_not_team : forall g s,
  negb (chreq (chr s 0) (chr (teamColorOf g) 0)) = true ->
  chr s 0 <> teamChar (whiteToMove g).
Proof.
  intros g s H E. rewrite teamColorOf_char, E in H.
  unfold chreq in H; rewrite Ascii.eqb_refl in H; discriminate.
Qed.

Lemma onBoard_spec : forall r c,
  onBoard r c = true <-> 0 <= r <= 7 /\ 0 <= c <= 7.
Proof.
  intros; unfold onBoard; rewrite !andb_true_iff, !Z.leb_le; lia.
Qed.

(** Splitting off the list a conditional falls back to. *)
Ltac peel P :=
  match goal with
  | |- Forall _ (if _ then _ else ?M) =>
    let H := fresh "Hpeel" in
    assert (H : Forall P M); [ | revert H; generalize M; intros ? H ]
  end.

Ltac split_ifs :=
  repeat match goal with
  | |- context [if ?c then _ else _] => destruct c eqn:?
  end.

Ltac bools :=
  repeat match goal with
  | H : (_ && _) = true |- _ => apply andb_prop in H; destruct H
  | H : (_ <=? _) = true |- _ => apply Z.leb_le in H
  | H : (_ =? _) = true |- _ => apply Z.eqb_eq in H
  | H : onBoard _ _ = true |- _ => apply onBoard_spec in H
  end.

Ltac on_board := apply onBoard_spec; bools; lia.
Ltac apart :=
  let E := fresh in
  intros E; pose proof (f_equal fst E); pose proof (f_equal snd E);
  cbn [fst snd] in *; bools; lia.

Ltac plain_leaf g :=
  bools; apply pieceMove_plain;
  [ on_board | on_board | apart | assumption
  | first [ apply empty_not_team; assumption
          | apply (enemy_not_team g); assumption
          | apply (other_not_team g); assumption ]
  | intros _ ?;
    first [ exfalso; lia
          | repeat split; first [ lia | apply streq_eq; assumption ] ] ].

Ltac enPassant_leaf g :=
  apply pieceMove_enPassant;
  [ on_board | on_board | apart | assumption | assumption
  | bools; destruct (enPassantPossible g); cbn [fst snd] in *; congruence
  | reflexivity | lia ].

Ltac not_a_pawn :=
  let H := fresh in intros H _; exfalso; congruence.

Ltac pushes :=
  repeat (apply Forall_push_back; [try assumption|]); try assumption.

Lemma getPawnMoves_pieceMove : forall g row col moves,
  onBoard row col = true ->
  chr (sq (board g) row col) 0 = teamChar (whiteToMove g) ->
  chr (sq (board g) row col) 1 = "p"%char ->
  Forall (pieceMoveOf g) moves ->
  Forall (pieceMoveOf g) (snd (getPawnMoves g row col moves)).
Proof.
  intros g row col moves Hon Hteam Hp Hall; unfold getPawnMoves.
  cbv zeta.
  change (if whiteToMove g then -1 else 1) with (forward (whiteToMove g)).
  change (if whiteToMove g then 6 else 1) with (pawnRow (whiteToMove g)).
  pose proof (forward_cases (whiteToMove g)) as Hma.
  pose proof (pawnRow_cases (whiteToMove g)) as Hsr.
  destruct ((0 <=? row + forward (whiteToMove g))
            && (row + forward (whiteToMove g) <=? 7)) eqn:Erow; cbn [snd];
    [|exact Hall].
  bools.
  peel (pieceMoveOf g); [peel (pieceMoveOf g); [peel (pieceMoveOf g) |] |].
  - exact Hall.
  - split_ifs; pushes; plain_leaf g.
  - split_ifs; pushes; first [ plain_leaf g | enPassant_leaf g ].
  - split_ifs; pushes; first [ plain_leaf g | enPassant_leaf g ].
Qed.

Lemma pieceMoveOf_setPins : forall g p,
  pieceMoveOf (setPins g p) = pieceMoveOf g.
Proof. reflexivity. Qed.

Lemma pieceMoveOf_frame : forall a b m,
  sameFrame a b -> pieceMoveOf a m -> pieceMoveOf b m.
Proof.
  intros a b m (Hb & Hw & _ & He & _) H; unfold pieceMoveOf in *.
  rewrite <- Hb, <- Hw, <- He; exact H.
Qed.

Lemma Forall_pieceMoveOf_frame : forall a b ms,
  sameFrame a b -> Forall (pieceMoveOf a) ms -> Forall (pieceMoveOf b) ms.
Proof.
  intros a b ms Hf H; eapply Forall_impl; [|exact H].
  intros m; apply pieceMoveOf_frame; exact Hf.
Qed.

Lemma step_apart : forall row col d i,
  d <> (0, 0) -> 1 <= i ->
  (row, col) <> (row + fst d * i, col + snd d * i).
Proof.
  intros row col [dr dc] i Hd Hi E; cbn [fst snd] in E.
  pose proof (f_equal fst E) as E1; pose proof (f_equal snd E) as E2.
  cbn [fst snd] in E1, E2.
  assert (dr * i = 0) by lia. assert (dc * i = 0) by lia.
  apply Hd. f_equal; nia.
Qed.

Lemma rayMoves_pieceMove : forall g row col pinned pinDir d dists moves,
  onBoard row col = true ->
  chr (sq (board g) row col) 0 = teamChar (whiteToMove g) ->
  chr (sq (board g) row col) 1 <> "p"%char ->
  d <> (0, 0) -> Forall (fun i => 1 <= i) dists ->
  Forall (pieceMoveOf g) moves ->
  Forall (pieceMoveOf g) (rayMoves g row col pinned pinDir d dists moves).
Proof.
  intros g row col pinned pinDir d dists; induction dists as [|i rest IH];
    intros moves Hon Hteam Hnp Hd Hdists Hall; cbn [rayMoves]; [exact Hall|].
  inversion Hdists as [|? ? Hi Hrest]; subst.
  cbv zeta.
  destruct (onBoard (row + fst d * i) (col + snd d * i)) eqn:Eon; [|exact Hall].
  destruct (negb pinned || pairEq pinDir d || pairEq pinDir (- fst d, - snd d));
    [|apply IH; assumption].
  destruct (streq (sq (board g) (row + fst d * i) (col + snd d * i)) "--") eqn:Ee.
  - apply IH; try assumption.
    apply Forall_push_back; [assumption|].
    apply pieceMove_plain; try assumption.
    + apply step_apart; assumption.
    + apply empty_not_team; assumption.
    + not_a_pawn.
  - destruct (chreq _ _) eqn:Ec; [|exact Hall].
    apply Forall_push_back; [assumption|].
    apply pieceMove_plain; try assumption.
    + apply step_apart; assumption.
    + apply (enemy_not_team g); assumption.
    + not_a_pawn.
Qed.

Lemma oneToSeven_positive : Forall (fun i => 1 <= i) oneToSeven.
Proof. unfold oneToSeven; repeat constructor; lia. Qed.

Lemma slideMoves_pieceMove : forall g row col pinned pinDir ds moves,
  onBoard row col = true ->
  chr (sq (board g) row col) 0 = teamChar (whiteToMove g) ->
  chr (sq (board g) row col) 1 <> "p"%char ->
  Forall (fun d => d <> (0, 0)) ds ->
  Forall (pieceMoveOf g) moves ->
  Forall (pieceMoveOf g) (slideMoves g row col pinned pinDir ds moves).
Proof.
  intros g row col pinned pinDir ds; induction ds as [|d rest IH];
    intros moves Hon Hteam Hnp Hds Hall; cbn [slideMoves]; [exact Hall|].
  inversion Hds as [|? ? Hd Hrest]; subst.
  apply IH; try assumption.
  apply rayMoves_pieceMove; try assumption. apply oneToSeven_positive.
Qed.

Ltac nonzero_dirs := repeat constructor; discriminate.

Lemma getRookMoves_pieceMove : forall g row col moves,
  onBoard row col = true ->
  chr (sq (board g) row col) 0 = teamChar (whiteToMove g) ->
  chr (sq (board g) row col) 1 <> "p"%char ->
  Forall (pieceMoveOf g) moves ->
  Forall (pieceMoveOf g) (snd (getRookMoves g row col moves)).
Proof.
  intros g row col moves Hon Hteam Hnp Hall; unfold getRookMoves; cbv zeta; cbn [snd].
  destruct (lookupPin g row col) as [k|].
  - destruct (negb (chreq (chr (sq (board g) row col) 1) "Q"));
      [rewrite <- (pieceMoveOf_setPins g (removeAt (pins g) (Z.of_nat k)))|];
      apply slideMoves_pieceMove; try assumption; nonzero_dirs.
  - apply slideMoves_pieceMove; try assumption; nonzero_dirs.
Qed.

Lemma getBishopMoves_pieceMove : forall g row col moves,
  onBoard row col = true ->
  chr (sq (board g) row col) 0 = teamChar (whiteToMove g) ->
  chr (sq (board g) row col) 1 <> "p"%char ->
  Forall (pieceMoveOf g) moves ->
  Forall (pieceMoveOf g) (snd (getBishopMoves g row col moves)).
Proof.
  intros g row col moves Hon Hteam Hnp Hall; unfold getBishopMoves; cbv zeta; cbn [snd].
  destruct (lookupPin g row col) as [k|].
  - rewrite <- (pieceMoveOf_setPins g (removeAt (pins g) (Z.of_nat k))).
    apply slideMoves_pieceMove; try assumption; nonzero_dirs.
  - apply slideMoves_pieceMove; try assumption; nonzero_dirs.
Qed.

Lemma getQueenMoves_pieceMove : forall g row col moves,
  onBoard row col = true ->
  chr (sq (board g) row col) 0 = teamChar (whiteToMove g) ->
  chr (sq (board g) row col) 1 <> "p"%char ->
  Forall (pieceMoveOf g) moves ->
  Forall (pieceMoveOf g) (snd (getQueenMoves g row col moves)).
Proof.
  intros g row col moves Hon Hteam Hnp Hall; unfold getQueenMoves.
  pose proof (getBishopMoves_pieceMove g row col moves Hon Hteam Hnp Hall) as H1.
  pose proof (getBishopMoves_frame g row col moves) as Hf.
  destruct (getBishopMoves g row col moves) as [g1 m1]; cbn [fst snd] in *.
  apply (Forall_pieceMoveOf_frame g1 g); [exact Hf|].
  apply getRookMoves_pieceMove.
  - exact Hon.
  - destruct Hf as (Hb & Hw & _); rewrite Hb, Hw; exact Hteam.
  - destruct Hf as (Hb & _); rewrite Hb; exact Hnp.
  - apply (Forall_pieceMoveOf_frame g g1); [|exact H1].
    destruct Hf as (?&?&?&?&?&?&?); repeat split; congruence.
Qed.

Lemma knightLoop_pieceMove : forall g row col pinned ms moves,
  onBoard row col = true ->
  chr (sq (board g) row col) 0 = teamChar (whiteToMove g) ->
  chr (sq (board g) row col) 1 <> "p"%char ->
  Forall (fun d => d <> (0, 0)) ms ->
  Forall (pieceMoveOf g) moves ->
  Forall (pieceMoveOf g) (knightLoop g row col pinned ms moves).
Proof.
  intros g row col pinned ms; induction ms as [|d rest IH];
    intros moves Hon Hteam Hnp Hms Hall; cbn [knightLoop]; [exact Hall|].
  inversion Hms as [|? ? Hd Hrest]; subst.
  apply IH; try assumption. cbv zeta.
  destruct (onBoard (row + fst d) (col + snd d)) eqn:Eon; [|exact Hall].
  destruct (negb pinned); [|exact Hall].
  destruct (negb (chreq _ _)) eqn:Ec; [|exact Hall].
  apply Forall_push_back; [assumption|].
  apply pieceMove_plain; try assumption.
  - pose proof (step_apart row col d 1 Hd ltac:(lia)) as H.
    rewrite !Z.mul_1_r in H; exact H.
  - apply (other_not_team g); assumption.
  - not_a_pawn.
Qed.

Lemma getKnightMoves_pieceMove : forall g row col moves,
  onBoard row col = true ->
  chr (sq (board g) row col) 0 = teamChar (whiteToMove g) ->
  chr (sq (board g) row col) 1 <> "p"%char ->
  Forall (pieceMoveOf g) moves ->
  Forall (pieceMoveOf g) (snd (getKnightMoves g row col moves)).
Proof.
  intros g row col moves Hon Hteam Hnp Hall; unfold getKnightMoves; cbv zeta; cbn [snd].
  destruct (lookupPin g row col) as [k|].
  - rewrite <- (pieceMoveOf_setPins g (removeAt (pins g) (Z.of_nat k))).
    apply knightLoop_pieceMove; try assumption; nonzero_dirs.
  - apply knightLoop_pieceMove; try assumption; nonzero_dirs.
Qed.

Lemma pieceMoveOf_setKingOfMover : forall g k,
  pieceMoveOf (setKingOfMover g k) = pieceMoveOf g.
Proof.
  intros; unfold setKingOfMover; destruct (whiteToMove g) eqn:E; reflexivity.
Qed.

Lemma board_setKingOfMover : forall g k, board (setKingOfMover g k) = board g.
Proof. intros; unfold setKingOfMover; destruct (whiteToMove g); reflexivity. Qed.

Lemma whiteToMove_setKingOfMover : forall g k,
  whiteToMove (setKingOfMover g k) = whiteToMove g.
Proof.
  intros; unfold setKingOfMover; destruct (whiteToMove g) eqn:E; exact E.
Qed.

Lemma kingLoop_pieceMove : forall row col ms g moves,
  onBoard row col = true ->
  chr (sq (board g) row col) 0 = teamChar (whiteToMove g) ->
  chr (sq (board g) row col) 1 <> "p"%char ->
  Forall (fun d => d <> (0, 0)) ms ->
  Forall (pieceMoveOf g) moves ->
  Forall (pieceMoveOf g) (snd (kingLoop g row col ms moves)).
Proof.
  intros row col ms; induction ms as [|d rest IH];
    intros g moves Hon Hteam Hnp Hms Hall; cbn [kingLoop]; [exact Hall|].
  inversion Hms as [|? ? Hd Hrest]; subst.
  cbv zeta.
  destruct (onBoard (row + fst d) (col + snd d)) eqn:Eon; [|apply IH; assumption].
  destruct (negb (chreq _ _)) eqn:Ec; [|apply IH; assumption].
  rewrite <- (pieceMoveOf_setKingOfMover g (row + fst d, col + snd d)).
  rewrite <- (pieceMoveOf_setKingOfMover
                (setKingOfMover g (row + fst d, col + snd d)) (row, col)).
  apply IH; try assumption.
  - rewrite !board_setKingOfMover, !whiteToMove_setKingOfMover; exact Hteam.
  - rewrite !board_setKingOfMover; exact Hnp.
  - rewrite !pieceMoveOf_setKingOfMover.
    destruct (negb (pciInCheck _)); [|exact Hall].
    apply Forall_push_back; [assumption|].
    rewrite board_setKingOfMover.
    apply pieceMove_plain; try assumption.
    + pose proof (step_apart row col d 1 Hd ltac:(lia)) as H.
      rewrite !Z.mul_1_r in H; exact H.
    + apply (other_not_team g); assumption.
    + not_a_pawn.
Qed.

Lemma getKingMoves_pieceMove : forall g row col moves,
  onBoard row col = true ->
  chr (sq (board g) row col) 0 = teamChar (whiteToMove g) ->
  chr (sq (board g) row col) 1 <> "p"%char ->
  Forall (pieceMoveOf g) moves ->
  Forall (pieceMoveOf g) (snd (getKingMoves g row col moves)).
Proof.
  intros; unfold getKingMoves; apply kingLoop_pieceMove; try assumption.
  nonzero_dirs.
Qed.

Lemma moveFunction_pieceMove : forall g row col moves,
  onBoard row col = true ->
  chr (sq (board g) row col) 0 = teamChar (whiteToMove g) ->
  Forall (pieceMoveOf g) moves ->
  Forall (pieceMoveOf g)
    (snd (moveFunction (chr (sq (board g) row col) 1) g row col moves)).
Proof.
  intros g row col moves Hon Hteam Hall; unfold moveFunction.
  destruct (chreq (chr (sq (board g) row col) 1) "p") eqn:Ep.
  { apply getPawnMoves_pieceMove; try assumption. apply chreq_eq; exact Ep. }
  assert (Hnp : chr (sq (board g) row col) 1 <> "p"%char).
  { intros E; rewrite E in Ep; discriminate Ep. }
  destruct (chreq _ "R"); [apply getRookMoves_pieceMove; assumption|].
  destruct (chreq _ "N"); [apply getKnightMoves_pieceMove; assumption|].
  destruct (chreq _ "B"); [apply getBishopMoves_pieceMove; assumption|].
  destruct (chreq _ "Q"); [apply getQueenMoves_pieceMove; assumption|].
  destruct (chreq _ "K"); [apply getKingMoves_pieceMove; assumption|].
  exact Hall.
Qed.

Lemma turn_test : forall g s,
  (chreq (chr s 0) "w" && whiteToMove g)
  || (chreq (chr s 0) "b" && negb (whiteToMove g)) = true ->
  chr s 0 = teamChar (whiteToMove g).
Proof.
  intros g s H; unfold teamChar.
  destruct (whiteToMove g); cbn [negb] in H;
    rewrite ?andb_true_r, ?andb_false_r, ?orb_false_r, ?orb_false_l in H;
    apply chreq_eq in H; exact H.
Qed.

Lemma colLoop_cons : forall g row col rest moves,
  colLoop g row (col :: rest) moves
  = (let '(g1, m1) :=
       if (chreq (chr (sq (board g) row col) 0) "w" && whiteToMove g)
          || (chreq (chr (sq (board g) row col) 0) "b" && negb (whiteToMove g))
       then moveFunction (chr (sq (board g) row col) 1) g row col moves
       else (g, moves) in
     colLoop g1 row rest m1).
Proof. reflexivity. Qed.

Lemma sameFrame_sym : forall a b, sameFrame a b -> sameFrame b a.
Proof.
  intros a b (?&?&?&?&?&?&?); repeat split; congruence.
Qed.

Lemma colLoop_pieceMove : forall row cols g moves,
  0 <= row <= 7 -> Forall (fun c => 0 <= c <= 7) cols ->
  Forall (pieceMoveOf g) moves ->
  Forall (pieceMoveOf g) (snd (colLoop g row cols moves)).
Proof.
  intros row cols; induction cols as [|col rest IH];
    intros g moves Hrow Hcols Hall; [exact Hall|].
  inversion Hcols as [|? ? Hc Hrest]; subst.
  rewrite colLoop_cons.
  destruct ((chreq (chr (sq (board g) row col) 0) "w" && whiteToMove g)
            || (chreq (chr (sq (board g) row col) 0) "b" && negb (whiteToMove g)))
    eqn:Et.
  - pose proof (moveFunction_pieceMove g row col moves
                  ltac:(apply onBoard_spec; lia) (turn_test g _ Et) Hall) as H1.
    pose proof (moveFunction_frame (chr (sq (board g) row col) 1) g row col moves)
      as Hf.
    destruct (moveFunction _ g row col moves) as [g1 m1]; cbn [fst snd] in *.
    apply (Forall_pieceMoveOf_frame g1 g _ Hf).
    apply IH; try assumption.
    apply (Forall_pieceMoveOf_frame g g1 _ (sameFrame_sym _ _ Hf)); exact H1.
  - apply IH; assumption.
Qed.

Lemma rowLoop_cons : forall g row rest moves,
  rowLoop g (row :: rest) moves
  = (let '(g1, m1) := colLoop g row zeroToSeven moves in rowLoop g1 rest m1).
Proof. reflexivity. Qed.

Lemma zeroToSeven_range : Forall (fun c => 0 <= c <= 7) zeroToSeven.
Proof. unfold zeroToSeven; repeat constructor; lia. Qed.

Lemma rowLoop_pieceMove : forall rows g moves,
  Forall (fun r => 0 <= r <= 7) rows ->
  Forall (pieceMoveOf g) moves ->
  Forall (pieceMoveOf g) (snd (rowLoop g rows moves)).
Proof.
  induction rows as [|row rest IH]; intros g moves Hrows Hall; [exact Hall|].
  inversion Hrows as [|? ? Hr Hrest]; subst.
  rewrite rowLoop_cons.
  pose proof (colLoop_pieceMove row zeroToSeven g moves Hr zeroToSeven_range Hall)
    as H1.
  pose proof (colLoop_frame zeroToSeven g row moves) as Hf.
  destruct (colLoop g row zeroToSeven moves) as [g1 m1]; cbn [fst snd] in *.
  apply (Forall_pieceMoveOf_frame g1 g _ Hf).
  apply IH; try assumption.
  apply (Forall_pieceMoveOf_frame g g1 _ (sameFrame_sym _ _ Hf)); exact H1.
Qed.

Lemma getAllPossibleMoves_pieceMove : forall g,
  Forall (pieceMoveOf g) (snd (getAllPossibleMoves g)).
Proof.
  intros g; unfold getAllPossibleMoves.
  apply rowLoop_pieceMove; [apply zeroToSeven_range | constructor].
Qed.

Lemma getKingsideCastleMoves_castle : forall g row col moves
    (P : Move -> Prop),
  (forall m, castleMove (board g) (whiteToMove g) (castlingRights g)
                        (row, col) m -> P m) ->
  (if whiteToMove g then wks (castlingRights g) else bks (castlingRights g))
  = true ->
  Forall P moves ->
  Forall P (snd (getKingsideCastleMoves g row col moves)).
Proof.
  intros g row col moves P HP Hr Hall; unfold getKingsideCastleMoves.
  destruct (col + 2 >? 7) eqn:E7; [exact Hall|].
  destruct (streq (sq (board g) row (col + 1)) "--"
            && streq (sq (board g) row (col + 2)) "--") eqn:Ee; [|exact Hall].
  frame_sua g row (col + 1). destruct (negb a); [|exact Hall].
  frame_sua g0 row (col + 2).
  destruct (negb a0); cbn [snd]; [|exact Hall].
  apply Forall_push_back; [exact Hall|]. apply HP.
  assert (Hb : board g1 = board g).
  { destruct H as (Hb & _); destruct H0 as (Hb0 & _); congruence. }
  rewrite Hb.
  apply andb_prop in Ee; destruct Ee as [E1 E2].
  apply streq_eq in E1, E2.
  unfold castleMove, newMove;
    cbn [startRow startCol endRow endCol pieceMoved pieceCaptured
         isCastleMove isEnpassantMove isPawnPromotion fst snd].
  repeat match goal with |- _ /\ _ => split end; try reflexivity.
  - exact E2.
  - left. repeat split; try assumption; try reflexivity.
    destruct (Z.gtb_spec (col + 2) 7); [discriminate | lia].
Qed.

Lemma getQueensideCastleMoves_castle : forall g row col moves
    (P : Move -> Prop),
  (forall m, castleMove (board g) (whiteToMove g) (castlingRights g)
                        (row, col) m -> P m) ->
  (if whiteToMove g then wqs (castlingRights g) else bqs (castlingRights g))
  = true ->
  Forall P moves ->
  Forall P (snd (getQueensideCastleMoves g row col moves)).
Proof.
  intros g row col moves P HP Hr Hall; unfold getQueensideCastleMoves.
  destruct ((col - 2 <? 0) || (col - 3 <? 0)) eqn:E7; [exact Hall|].
  destruct (streq (sq (board g) row (col - 1)) "--"
            && streq (sq (board g) row (col - 2)) "--"
            && streq (sq (board g) row (col - 3)) "--") eqn:Ee; [|exact Hall].
  frame_sua g row (col - 1). destruct (negb a); [|exact Hall].
  frame_sua g0 row (col - 2).
  destruct (negb a0); cbn [snd]; [|exact Hall].
  apply Forall_push_back; [exact Hall|]. apply HP.
  assert (Hb : board g1 = board g).
  { destruct H as (Hb & _); destruct H0 as (Hb0 & _); congruence. }
  rewrite Hb.
  apply andb_prop in Ee; destruct Ee as [Ee E3].
  apply andb_prop in Ee; destruct Ee as [E1 E2].
  apply streq_eq in E1, E2, E3.
  apply orb_false_elim in E7; destruct E7 as [_ E7].
  unfold castleMove, newMove;
    cbn [startRow startCol endRow endCol pieceMoved pieceCaptured
         isCastleMove isEnpassantMove isPawnPromotion fst snd].
  repeat match goal with |- _ /\ _ => split end; try reflexivity.
  - exact E2.
  - right. repeat split; try assumption; try reflexivity.
    destruct (Z.ltb_spec (col - 3) 0); [discriminate | lia].
Qed.

Lemma rights_test : forall w a b,
  (w && a) || (negb w && b) = true -> (if w then a else b) = true.
Proof. intros [] [] []; cbn; auto. Qed.

Lemma getCastleMoves_castle : forall g row col moves (P : Move -> Prop),
  (forall m, castleMove (board g) (whiteToMove g) (castlingRights g)
                        (row, col) m -> P m) ->
  Forall P moves ->
  Forall P (snd (getCastleMoves g row col moves)).
Proof.
  intros g row col moves P HP Hall; unfold getCastleMoves.
  frame_sua g row col. destruct a; [exact Hall|].
  destruct H as (Hb & Hw & _ & _ & _ & Hc & _).
  assert (HP0 : forall m, castleMove (board g0) (whiteToMove g0)
                            (castlingRights g0) (row, col) m -> P m).
  { intro m; rewrite Hb, Hw, Hc; apply HP. }
  match goal with
  | |- context [let '(g2, m2) := ?X in _] =>
    assert (H2 : Forall P (snd X) /\ sameFrame (fst X) g0);
      [| destruct X as [g2 m2]]
  end.
  - destruct ((whiteToMove g0 && wks (castlingRights g0))
              || (negb (whiteToMove g0) && bks (castlingRights g0))) eqn:Ek.
    + split; [|apply getKingsideCastleMoves_frame].
      apply getKingsideCastleMoves_castle; try assumption.
      apply rights_test; exact Ek.
    + split; [exact Hall | apply sameFrame_refl].
  - cbn [fst snd] in H2; destruct H2 as [H2 Hf2].
    destruct Hf2 as (Hb2 & Hw2 & _ & _ & _ & Hc2 & _).
    destruct ((whiteToMove g2 && wqs (castlingRights g2))
              || (negb (whiteToMove g2) && bqs (castlingRights g2))) eqn:Eq;
      [|exact H2].
    apply getQueensideCastleMoves_castle; try assumption.
    + intro m; rewrite Hb2, Hw2, Hc2; apply HP0.
    + apply rights_test; exact Eq.
Qed.

Lemma Forall_filter_keep : forall (A : Type) (P : A -> Prop) f l,
  Forall P l -> Forall P (filter f l).
Proof.
  intros A P f l H; induction H as [|x l Hx Hl IH]; cbn [filter]; [constructor|].
  destruct (f x); [constructor; assumption | assumption].
Qed.

Lemma castleMoveOf_transfer : forall a b m,
  sameFrame a b -> sameKings a b -> castleMoveOf a m -> castleMoveOf b m.
Proof.
  intros a b m (Hb & Hw & _ & _ & _ & Hc & _) (Hwk & Hbk) H.
  unfold castleMoveOf, kingPosOf in *.
  rewrite <- Hb, <- Hw, <- Hc, <- Hwk, <- Hbk; exact H.
Qed.

Lemma listedMove_transfer : forall a b m,
  sameFrame a b -> sameKings a b -> listedMove a m -> listedMove b m.
Proof.
  intros a b m Hf Hk [H|H]; [left | right].
  - eapply pieceMoveOf_frame; eauto.
  - eapply castleMoveOf_transfer; eauto.
Qed.

Lemma kingStands_team : forall g,
  kingStands g ->
  chr (sq (board g) (fst (kingPosOf g)) (snd (kingPosOf g))) 0
  = teamChar (whiteToMove g).
Proof.
  intros g [_ H]; rewrite H; unfold teamChar; destruct (whiteToMove g); reflexivity.
Qed.

Lemma kingStands_not_pawn : forall g,
  kingStands g ->
  chr (sq (board g) (fst (kingPosOf g)) (snd (kingPosOf g))) 1 <> "p"%char.
Proof.
  intros g [_ H]; rewrite H; destruct (whiteToMove g); discriminate.
Qed.

(** The moves generated before the castles of [getValidMoves] are added,
    with the state they leave. *)
Lemma getValidMoves_body : forall g0,
  kingsCached g0 -> kingStands g0 ->
  let X :=
    if inCheck g0 then
      let '(g1, moves1) :=
        if size (checks g0) =? 1 then
          let '(g1, all) := getAllPossibleMoves g0 in
          let check := zth (checks g1) 0 defaultPin in
          let pieceChecking := sq (board g1) (pinRow check) (pinCol check) in
          let validSquares :=
            if chreq (chr pieceChecking 1) "N"
            then push_back [] (pinRow check, pinCol check)
            else raySquares (fst (kingPosOf g0)) (snd (kingPosOf g0)) check
                            oneToSeven [] in
          (g1, filter (keepsMove validSquares) all)
        else getKingMoves g0 (fst (kingPosOf g0)) (snd (kingPosOf g0)) [] in
      getCastleMoves g1 (fst (kingPosOf g1)) (snd (kingPosOf g1)) moves1
    else
      let '(g1, all) := getAllPossibleMoves g0 in
      getCastleMoves g1 (fst (kingPosOf g1)) (snd (kingPosOf g1)) all in
  Forall (listedMove g0) (snd X).
Proof.
  intros g0 Hk Hs X; subst X.
  assert (Hall : forall g1 all, getAllPossibleMoves g0 = (g1, all) ->
            sameFrame g1 g0 /\ sameKings g1 g0 /\ Forall (pieceMoveOf g0) all).
  { intros g1 all E.
    pose proof (getAllPossibleMoves_frame g0) as H1.
    pose proof (getAllPossibleMoves_kings g0 Hk) as H2.
    pose proof (getAllPossibleMoves_pieceMove g0) as H3.
    rewrite E in H1, H2, H3; auto. }
  assert (Hcastle : forall g1 moves1,
            sameFrame g1 g0 -> sameKings g1 g0 ->
            Forall (pieceMoveOf g0) moves1 ->
            Forall (listedMove g0)
              (snd (getCastleMoves g1 (fst (kingPosOf g1)) (snd (kingPosOf g1))
                      moves1))).
  { intros g1 moves1 Hf Hks Hm.
    apply getCastleMoves_castle.
    - intros m Hm'. apply (listedMove_transfer g1 g0 m Hf Hks).
      right; unfold castleMoveOf.
      rewrite (surjective_pairing (kingPosOf g1)); exact Hm'.
    - eapply Forall_impl; [|exact Hm]. intros m Hm'; left; exact Hm'. }
  destruct (inCheck g0).
  - destruct (size (checks g0) =? 1).
    + destruct (getAllPossibleMoves g0) as [g1 all] eqn:E.
      destruct (Hall g1 all eq_refl) as (Hf & Hks & Hm).
      cbv zeta. apply Hcastle; try assumption.
      apply Forall_filter_keep; exact Hm.
    + pose proof (getKingMoves_pieceMove g0 (fst (kingPosOf g0))
                    (snd (kingPosOf g0)) [] (proj1 Hs) (kingStands_team g0 Hs)
                    (kingStands_not_pawn g0 Hs) (Forall_nil _)) as Hm.
      assert (Hst : fst (getKingMoves g0 (fst (kingPosOf g0))
                           (snd (kingPosOf g0)) []) = g0).
      { unfold getKingMoves; apply kingLoop_restores.
        apply surjective_pairing. }
      destruct (getKingMoves g0 _ _ []) as [g1 moves1]; cbn [fst snd] in *.
      subst g1.
      apply Hcastle; try assumption;
        [apply sameFrame_refl | apply sameKings_refl].
  - destruct (getAllPossibleMoves g0) as [g1 all] eqn:E.
    destruct (Hall g1 all eq_refl) as (Hf & Hks & Hm).
    apply Hcastle; assumption.
Qed.

Lemma getValidMoves_listed : forall g,
  kingsCached g -> kingStands g ->
  Forall (listedMove g) (snd (getValidMoves g)).
Proof.
  intros g Hk Hs.
  pose proof (getValidMoves_body (setPinsAndChecks g (checkForPinsAndChecks g))
                Hk Hs) as H.
  cbv zeta in H.
  unfold getValidMoves; cbv zeta.
  match goal with
  | H : Forall _ (snd ?X) |- context [let '(g3, moves) := ?Y in _] =>
    change Y with X; destruct X as [g3 moves]
  end.
  exact H.
Qed.

Lemma length_set_nth' : forall (A : Type) (l : list A) n x,
  List.length (set_nth l n x) = List.length l.
Proof.
  induction l as [|h t IH]; intros [|n] x; simpl; auto.
Qed.

Lemma length_zset' : forall (A : Type) (l : list A) i x,
  List.length (zset l i x) = List.length l.
Proof.
  intros; unfold zset; destruct (i <? 0); [reflexivity | apply length_set_nth'].
Qed.

Lemma Forall_set_nth : forall (A : Type) (P : A -> Prop) l n x,
  Forall P l -> P x -> Forall P (set_nth l n x).
Proof.
  intros A P l; induction l as [|h t IH]; intros [|n] x Hl Hx; simpl;
    try assumption; inversion Hl; subst; constructor; auto.
Qed.

Lemma row_length : forall b r,
  boardShape b -> 0 <= r <= 7 -> List.length (zth b r []) = 8%nat.
Proof.
  intros b r [Hl Hr] H; unfold zth.
  destruct (Z.ltb_spec r 0); [lia|].
  rewrite Forall_forall in Hr; apply Hr. apply nth_In; lia.
Qed.

Lemma boardShape_setSq : forall b r c x,
  boardShape b -> boardShape (setSq b r c x).
Proof.
  intros b r c x Hs; pose proof Hs as [Hl Hr]; unfold setSq; split.
  - rewrite length_zset'; exact Hl.
  - unfold zset at 1. destruct (Z.ltb_spec r 0); [exact Hr|].
    destruct (Z.leb_spec r 7).
    + apply Forall_set_nth; [exact Hr|].
      rewrite length_zset'. apply row_length; [exact Hs | lia].
    + rewrite set_nth_out by lia. exact Hr.
Qed.

(** Reading a square after a write: the value written when the write fell
    on that square of the board, the old content otherwise. *)
Lemma sq_setSq : forall b r c x r' c',
  boardShape b ->
  sq (setSq b r c x) r' c'
  = if onBoard r c && (r =? r') && (c =? c') then x else sq b r' c'.
Proof.
  intros b r c x r' c' Hs.
  destruct (onBoard r c && (r =? r') && (c =? c')) eqn:E.
  - apply andb_prop in E; destruct E as [E E3].
    apply andb_prop in E; destruct E as [E1 E2].
    apply Z.eqb_eq in E2, E3; subst r' c'.
    apply onBoard_spec in E1.
    unfold setSq, sq.
    rewrite zth_zset_eq by (destruct Hs; lia).
    apply zth_zset_eq; [lia|].
    rewrite row_length by (auto; lia). lia.
  - destruct (Z.eq_dec r r') as [->|Hr].
    + destruct (Z.eq_dec c c') as [->|Hc].
      * rewrite !Z.eqb_refl, !andb_true_r in E.
        assert (Hoff : ~ (0 <= r' <= 7 /\ 0 <= c' <= 7)).
        { intros H; apply onBoard_spec in H; congruence. }
        unfold setSq.
        destruct (Z.ltb_spec r' 0); [rewrite (zset_out _ b r') by lia; reflexivity|].
        destruct (Z.leb_spec r' 7).
        -- rewrite (zset_out _ (zth b r' [])) by
             (rewrite row_length by (auto; lia); lia).
           rewrite zset_zth; reflexivity.
        -- rewrite (zset_out _ b r') by (destruct Hs; lia); reflexivity.
      * apply sq_setSq_neq; congruence.
    + apply sq_setSq_neq; congruence.
Qed.

Lemma nth_ext_length : forall (A : Type) (a b : list A) d,
  List.length a = List.length b ->
  (forall n, (n < List.length a)%nat -> nth n a d = nth n b d) -> a = b.
Proof.
  induction a as [|x a IH]; intros [|y b] d Hl H; simpl in *; try lia;
    [reflexivity|].
  f_equal.
  - apply (H 0%nat); lia.
  - apply (IH b d); [lia|]. intros n Hn; apply (H (S n)); lia.
Qed.

Lemma board_ext : forall a b,
  boardShape a -> boardShape b ->
  (forall r c, onBoard r c = true -> sq a r c = sq b r c) -> a = b.
Proof.
  intros a b Ha Hb H.
  apply (nth_ext_length _ a b []); [destruct Ha, Hb; congruence|].
  intros n Hn.
  assert (Hr : 0 <= Z.of_nat n <= 7) by (destruct Ha; lia).
  pose proof (row_length a _ Ha Hr) as La.
  pose proof (row_length b _ Hb Hr) as Lb.
  unfold zth in La, Lb. destruct (Z.ltb_spec (Z.of_nat n) 0); [lia|].
  rewrite Nat2Z.id in La, Lb.
  apply (nth_ext_length _ _ _ ""); [congruence|].
  intros k Hk.
  assert (Hc : 0 <= Z.of_nat k <= 7) by lia.
  specialize (H (Z.of_nat n) (Z.of_nat k) ltac:(apply onBoard_spec; lia)).
  unfold sq, zth in H.
  destruct (Z.ltb_spec (Z.of_nat n) 0); [lia|].
  destruct (Z.ltb_spec (Z.of_nat k) 0); [lia|].
  rewrite !Nat2Z.id in H; exact H.
Qed.

Lemma sq_offBoard : forall b r c,
  boardShape b -> onBoard r c = false -> sq b r c = "".
Proof.
  intros b r c Hs Hoff.
  assert (H : ~ (0 <= r <= 7 /\ 0 <= c <= 7)).
  { intros H; apply onBoard_spec in H; congruence. }
  unfold sq, zth.
  destruct (Z.ltb_spec r 0).
  { destruct (c <? 0); [reflexivity | destruct (Z.to_nat c); reflexivity]. }
  destruct (Z.ltb_spec c 0); [reflexivity|].
  destruct (Z.leb_spec r 7).
  - apply nth_overflow.
    pose proof (row_length b r Hs ltac:(lia)) as L.
    unfold zth in L. destruct (Z.ltb_spec r 0); [lia|]. lia.
  - rewrite (nth_overflow b) by (destruct Hs; lia).
    destruct (Z.to_nat c); reflexivity.
Qed.

Lemma empty_onBoard : forall b r c,
  boardShape b -> sq b r c = "--" -> onBoard r c = true.
Proof.
  intros b r c Hs H. destruct (onBoard r c) eqn:E; [reflexivity|].
  rewrite (sq_offBoard b r c Hs E) in H; discriminate.
Qed.

Lemma board_makeMove : forall g m, board (makeMove g m) = makeBoard (board g) m.
Proof. reflexivity. Qed.

(** [undoMove] right after [makeMove], member by member. *)
Lemma undoMove_makeMove : forall g m,
  let u := undoMove (makeMove g m) in
  board u = undoBoard (makeBoard (board g) m) m
  /\ whiteToMove u = whiteToMove g
  /\ moveLog u = moveLog g
  /\ whiteKingLocation u
     = (if streq (pieceMoved m) "wK" then (startRow m, startCol m)
        else whiteKingLocation g)
  /\ blackKingLocation u
     = (if streq (pieceMoved m) "wK" then blackKingLocation g
        else if streq (pieceMoved m) "bK" then (startRow m, startCol m)
        else blackKingLocation g)
  /\ enPassantPossible u = back (enPassantPossibleLog g) (0, 0)
  /\ enPassantPossibleLog u = enPassantPossibleLog g
  /\ castlingRights u = back (castlingRightsLog g) (mkCR true true true true)
  /\ castlingRightsLog u = castlingRightsLog g.
Proof.
  intros g m u; subst u; unfold undoMove.
  rewrite moveLog_makeMove, isEmpty_push_back, back_push_back, pop_back_push_back.
  rewrite enPassantPossibleLog_makeMove, castlingRightsLog_makeMove.
  rewrite whiteToMove_makeMove, negb_involutive.
  rewrite whiteKingLocation_makeMove, blackKingLocation_makeMove.
  rewrite board_makeMove.
  cbn [board whiteToMove moveLog whiteKingLocation blackKingLocation
       enPassantPossible enPassantPossibleLog castlingRights castlingRightsLog].
  repeat match goal with |- _ /\ _ => split end; try reflexivity;
    destruct (streq (pieceMoved m) "wK"); try reflexivity;
    destruct (streq (pieceMoved m) "bK"); reflexivity.
Qed.

Lemma boardShape_makeBoard : forall b m, boardShape b -> boardShape (makeBoard b m).
Proof.
  intros b m H; unfold makeBoard; cbv zeta.
  repeat match goal with
  | |- context [if ?c then _ else _] => destruct c
  end; repeat apply boardShape_setSq; exact H.
Qed.

Lemma boardShape_undoBoard : forall b m, boardShape b -> boardShape (undoBoard b m).
Proof.
  intros b m H; unfold undoBoard; cbv zeta.
  repeat match goal with
  | |- context [if ?c then _ else _] => destruct c
  end; repeat apply boardShape_setSq; exact H.
Qed.

Ltac shape := repeat apply boardShape_setSq; assumption.

Ltac read_squares :=
  repeat (rewrite sq_setSq by shape).

Ltac cases_squares :=
  repeat match goal with
  | |- context [if ?c then _ else _] =>
    let E := fresh "E" in destruct c eqn:E
  end.

Ltac bool_facts :=
  repeat match goal with
  | H : (_ && _) = true |- _ => apply andb_prop in H; destruct H
  | H : (_ && _) = false |- _ => apply andb_false_iff in H; destruct H
  | H : (_ =? _) = true |- _ => apply Z.eqb_eq in H
  | H : (_ =? _) = false |- _ => apply Z.eqb_neq in H
  | H : onBoard _ _ = true |- _ => apply onBoard_spec in H
  | H : onBoard _ _ = false |- _ =>
    let F := fresh in
    assert (F := proj2 (not_true_iff_false _) H);
    rewrite onBoard_spec in F; clear H
  end.

Lemma castle_board_round_trip : forall b w cr k m,
  boardShape b -> castleMove b w cr k m -> undoBoard (makeBoard b m) m = b.
Proof.
  intros b w cr k m Hs (Hc & He & _ & _ & Hm & Hcap & Hrow & Hside).
  apply board_ext; [apply boardShape_undoBoard, boardShape_makeBoard; exact Hs
                   | exact Hs |].
  intros r c Hon.
  unfold undoBoard, makeBoard; rewrite Hc, He, Hcap, Hrow; cbv zeta.
  destruct Hside as [(Hcol & H7 & _ & E1 & E2) | (Hcol & H0 & _ & E1 & E2 & E3)].
  - pose proof (empty_onBoard _ _ _ Hs E1) as O1.
    pose proof (empty_onBoard _ _ _ Hs E2) as O2.
    rewrite Hcol. replace (startCol m + 2 - startCol m =? 2) with true
      by (symmetry; apply Z.eqb_eq; lia).
    replace (startCol m + 2 - 1) with (startCol m + 1) by lia.
    destruct (isPawnPromotion m); read_squares;
      rewrite ?O1, ?O2, ?Z.eqb_refl; cbn [andb];
      cases_squares; bool_facts; subst;
      try reflexivity; try congruence; try lia.
  - pose proof (empty_onBoard _ _ _ Hs E1) as O1.
    pose proof (empty_onBoard _ _ _ Hs E2) as O2.
    pose proof (empty_onBoard _ _ _ Hs E3) as O3.
    rewrite Hcol. replace (startCol m - 2 - startCol m =? 2) with false
      by (symmetry; apply Z.eqb_neq; lia).
    replace (startCol m - 2 + 1) with (startCol m - 1) by lia.
    replace (startCol m - 2 - 2) with (startCol m - 4) by lia.
    destruct (isPawnPromotion m); read_squares;
      rewrite ?O1, ?O2, ?O3, ?Z.eqb_refl; cbn [andb];
      cases_squares; bool_facts; subst;
      try reflexivity; try congruence; try lia.
Qed.

Lemma sameChecks_refl : forall g, sameChecks g g.
Proof. intros g; split; reflexivity. Qed.

Lemma sameChecks_trans : forall a b c,
  sameChecks a b -> sameChecks b c -> sameChecks a c.
Proof. intros a b c [? ?] [? ?]; split; congruence. Qed.

Lemma sameChecks_setPins : forall g p, sameChecks (setPins g p) g.
Proof. intros; split; reflexivity. Qed.

Lemma sameChecks_setKingOfMover : forall g k, sameChecks (setKingOfMover g k) g.
Proof.
  intros g k; unfold setKingOfMover; destruct (whiteToMove g); split; reflexivity.
Qed.

Create HintDb checks.
#[local] Hint Resolve sameChecks_refl sameChecks_setPins
  sameChecks_setKingOfMover : checks.

Lemma getPawnMoves_checks : forall g row col moves,
  sameChecks (fst (getPawnMoves g row col moves)) g.
Proof.
  intros; unfold getPawnMoves.
  destruct ((0 <=? row + (if whiteToMove g then -1 else 1))
            && (row + (if whiteToMove g then -1 else 1) <=? 7))%bool;
    frame_pin; simpl; auto with checks.
Qed.

Lemma getRookMoves_checks : forall g row col moves,
  sameChecks (fst (getRookMoves g row col moves)) g.
Proof.
  intros; unfold getRookMoves; frame_pin; simpl; auto with checks.
  destruct (negb _); auto with checks.
Qed.

Lemma getBishopMoves_checks : forall g row col moves,
  sameChecks (fst (getBishopMoves g row col moves)) g.
Proof. intros; unfold getBishopMoves; frame_pin; simpl; auto with checks. Qed.

Lemma getKnightMoves_checks : forall g row col moves,
  sameChecks (fst (getKnightMoves g row col moves)) g.
Proof. intros; unfold getKnightMoves; frame_pin; simpl; auto with checks. Qed.

Lemma getQueenMoves_checks : forall g row col moves,
  sameChecks (fst (getQueenMoves g row col moves)) g.
Proof.
  intros; unfold getQueenMoves.
  pose proof (getBishopMoves_checks g row col moves) as HB.
  destruct (getBishopMoves g row col moves) as [g1 m1]; simpl in HB.
  eapply sameChecks_trans; [apply getRookMoves_checks | exact HB].
Qed.

Lemma kingLoop_checks : forall ms g row col moves,
  sameChecks (fst (kingLoop g row col ms moves)) g.
Proof.
  induction ms as [|m ms IH]; intros; cbn [kingLoop]; auto with checks.
  destruct (onBoard _ _); auto.
  destruct (negb _); auto.
  eapply sameChecks_trans; [apply IH|].
  eapply sameChecks_trans; apply sameChecks_setKingOfMover.
Qed.

Lemma getKingMoves_checks : forall g row col moves,
  sameChecks (fst (getKingMoves g row col moves)) g.
Proof. intros; apply kingLoop_checks. Qed.

Lemma moveFunction_checks : forall piece g row col moves,
  sameChecks (fst (moveFunction piece g row col moves)) g.
Proof.
  intros; unfold moveFunction.
  destruct (chreq piece "p"); [apply getPawnMoves_checks|].
  destruct (chreq piece "R"); [apply getRookMoves_checks|].
  destruct (chreq piece "N"); [apply getKnightMoves_checks|].
  destruct (chreq piece "B"); [apply getBishopMoves_checks|].
  destruct (chreq piece "Q"); [apply getQueenMoves_checks|].
  destruct (chreq piece "K"); [apply getKingMoves_checks|].
  apply sameChecks_refl.
Qed.

Lemma colLoop_checks : forall cols g row moves,
  sameChecks (fst (colLoop g row cols moves)) g.
Proof.
  induction cols as [|c cols IH]; intros; [apply sameChecks_refl|].
  rewrite colLoop_cons.
  match goal with
  | |- context [if ?c then ?a else ?b] =>
    assert (H : sameChecks (fst (if c then a else b)) g)
      by (destruct c; [apply moveFunction_checks | apply sameChecks_refl]);
    destruct (if c then a else b) as [g1 m1]
  end.
  cbn [fst] in H. eapply sameChecks_trans; [apply IH | exact H].
Qed.

Lemma rowLoop_checks : forall rows g moves,
  sameChecks (fst (rowLoop g rows moves)) g.
Proof.
  induction rows as [|r rows IH]; intros; [apply sameChecks_refl|].
  rewrite rowLoop_cons.
  pose proof (colLoop_checks zeroToSeven g r moves) as H.
  destruct (colLoop g r zeroToSeven moves) as [g1 m1]; cbn [fst] in H.
  eapply sameChecks_trans; [apply IH | exact H].
Qed.

Lemma getAllPossibleMoves_checks : forall g,
  sameChecks (fst (getAllPossibleMoves g)) g.
Proof. intros; apply rowLoop_checks. Qed.

Lemma squareUnderAttack_checks : forall g row col,
  sameChecks (fst (squareUnderAttack g row col)) g.
Proof.
  intros; unfold squareUnderAttack.
  pose proof (getAllPossibleMoves_checks (setWhiteToMove g (negb (whiteToMove g))))
    as H.
  destruct (getAllPossibleMoves _) as [g2 ms]; cbn [fst] in *.
  destruct H as [H1 H2]; split; [exact H1 | exact H2].
Qed.

Ltac checks_sua g row col :=
  let H := fresh "H" in
  let g' := fresh "g" in
  let a := fresh "a" in
  pose proof (squareUnderAttack_checks g row col) as H;
  destruct (squareUnderAttack g row col) as [g' a]; cbn [fst] in H.

Lemma getKingsideCastleMoves_checks : forall g row col moves,
  sameChecks (fst (getKingsideCastleMoves g row col moves)) g.
Proof.
  intros; unfold getKingsideCastleMoves.
  destruct (col + 2 >? 7); auto with checks.
  destruct (_ && _)%bool; auto with checks.
  checks_sua g row (col + 1). destruct (negb a); auto.
  checks_sua g0 row (col + 2).
  destruct (negb a0); cbn [fst]; eapply sameChecks_trans; eauto.
Qed.

Lemma getQueensideCastleMoves_checks : forall g row col moves,
  sameChecks (fst (getQueensideCastleMoves g row col moves)) g.
Proof.
  intros; unfold getQueensideCastleMoves.
  destruct (_ || _)%bool; auto with checks.
  destruct (_ && _)%bool; auto with checks.
  checks_sua g row (col - 1). destruct (negb a); auto.
  checks_sua g0 row (col - 2).
  destruct (negb a0); cbn [fst]; eapply sameChecks_trans; eauto.
Qed.

Lemma getCastleMoves_checks : forall g row col moves,
  sameChecks (fst (getCastleMoves g row col moves)) g.
Proof.
  intros; unfold getCastleMoves.
  checks_sua g row col. destruct a; auto.
  match goal with
  | |- context [if ?c then ?x else ?y] =>
    assert (H1 : sameChecks (fst (if c then x else y)) g0)
      by (destruct c; [apply getKingsideCastleMoves_checks | apply sameChecks_refl]);
    destruct (if c then x else y) as [g2 m2]
  end.
  cbn [fst] in H1.
  destruct (_ || _)%bool; cbn [fst].
  - eapply sameChecks_trans; [apply getQueensideCastleMoves_checks|].
    eapply sameChecks_trans; eauto.
  - eapply sameChecks_trans; eauto.
Qed.

(** The check flag and the checks a call of [getValidMoves] leaves are the
    ones [checkForPinsAndChecks] finds at its start, and the two end-of-game
    flags say whether the list is empty with or without check. *)
Lemma getValidMoves_flags : forall g,
  inCheck (fst (getValidMoves g)) = pciInCheck (checkForPinsAndChecks g)
  /\ checks (fst (getValidMoves g)) = pciChecks (checkForPinsAndChecks g)
  /\ checkmate (fst (getValidMoves g))
     = isEmpty (snd (getValidMoves g)) && pciInCheck (checkForPinsAndChecks g)
  /\ stalemate (fst (getValidMoves g))
     = isEmpty (snd (getValidMoves g))
       && negb (pciInCheck (checkForPinsAndChecks g)).
Proof.
  intros g; unfold getValidMoves; cbv zeta.
  set (g0 := setPinsAndChecks g (checkForPinsAndChecks g)).
  match goal with
  | |- context [let '(g3, moves) := ?X in _] =>
    assert (H3 : sameChecks (fst X) g0); [| destruct X as [g3 moves]]
  end.
  - destruct (inCheck g0).
    + match goal with
      | |- context [let '(g1, moves1) := ?X in _] =>
        assert (H1 : sameChecks (fst X) g0); [| destruct X as [g1 moves1]]
      end.
      * destruct (size (checks g0) =? 1).
        -- pose proof (getAllPossibleMoves_checks g0) as HA.
           destruct (getAllPossibleMoves g0) as [g1 all]; exact HA.
        -- apply getKingMoves_checks.
      * cbn [fst] in H1.
        eapply sameChecks_trans; [apply getCastleMoves_checks | exact H1].
    + pose proof (getAllPossibleMoves_checks g0) as HA.
      destruct (getAllPossibleMoves g0) as [g1 all]; cbn [fst] in HA.
      eapply sameChecks_trans; [apply getCastleMoves_checks | exact HA].
  - cbn [fst snd] in *. destruct H3 as [Hi Hc].
    change (inCheck g0) with (pciInCheck (checkForPinsAndChecks g)) in Hi.
    change (checks g0) with (pciChecks (checkForPinsAndChecks g)) in Hc.
    destruct (isEmpty moves); [destruct (inCheck g3) eqn:E|];
      cbn [setCastlingRights setMate inCheck checks checkmate stalemate andb];
      rewrite <- ?Hi, ?E; cbn [negb]; repeat split; try assumption; congruence.
Qed.

Lemma flagMatches_check : forall acc p,
  flagMatches (mkPCI true (pciPins acc) (push_back (pciChecks acc) p)).
Proof.
  intros acc p; unfold flagMatches; cbn [pciInCheck pciChecks].
  rewrite isEmpty_push_back; reflexivity.
Qed.

Lemma scanRay_flag : forall g j d dists pin acc,
  flagMatches acc -> flagMatches (scanRay g j d dists pin acc).
Proof.
  intros g j d dists; induction dists as [|i rest IH]; intros pin acc H;
    cbn [scanRay]; [exact H|].
  cbv zeta.
  destruct (onBoard _ _); [|exact H].
  destruct (_ && _)%bool.
  - destruct (pinRow pin =? -1); [apply IH; exact H | exact H].
  - destruct (chreq _ _); [|apply IH; exact H].
    destruct (canCheck _ _ _ _); [|exact H].
    destruct (pinRow pin =? -1); [apply flagMatches_check | exact H].
Qed.

Lemma scanDirections_flag : forall g ds j acc,
  flagMatches acc -> flagMatches (scanDirections g j ds acc).
Proof.
  intros g ds; induction ds as [|d rest IH]; intros j acc H;
    cbn [scanDirections]; [exact H|].
  apply IH, scanRay_flag; exact H.
Qed.

Lemma scanKnights_flag : forall g ms acc,
  flagMatches acc -> flagMatches (scanKnights g ms acc).
Proof.
  intros g ms; induction ms as [|m rest IH]; intros acc H;
    cbn [scanKnights]; [exact H|].
  apply IH. cbv zeta.
  destruct (onBoard _ _); [|exact H].
  destruct (_ && _)%bool; [apply flagMatches_check | exact H].
Qed.

Lemma checkForPinsAndChecks_flag : forall g,
  flagMatches (checkForPinsAndChecks g).
Proof.
  intros g; unfold checkForPinsAndChecks.
  apply scanKnights_flag, scanDirections_flag. reflexivity.
Qed.

Lemma kingLoop_start : forall row col ms g moves,
  Forall (fun m => (startRow m, startCol m) = (row, col)) moves ->
  Forall (fun m => (startRow m, startCol m) = (row, col))
         (snd (kingLoop g row col ms moves)).
Proof.
  intros row col ms; induction ms as [|d rest IH]; intros g moves H;
    cbn [kingLoop]; [exact H|].
  cbv zeta.
  destruct (onBoard _ _); [|apply IH; exact H].
  destruct (negb (chreq _ _)); [|apply IH; exact H].
  apply IH.
  destruct (negb (pciInCheck _)); [|exact H].
  apply Forall_push_back; [exact H | reflexivity].
Qed.

(** With two or more checks recorded, every move [getValidMoves] returns
    starts on the cached king square of the side to move. *)
Lemma getValidMoves_double_check : forall g,
  1 < size (pciChecks (checkForPinsAndChecks g)) ->
  Forall (fun m => (startRow m, startCol m) = kingPosOf g)
         (snd (getValidMoves g)).
Proof.
  intros g Hn.
  pose proof (checkForPinsAndChecks_flag g) as Hf; unfold flagMatches in Hf.
  unfold getValidMoves; cbv zeta.
  set (g0 := setPinsAndChecks g (checkForPinsAndChecks g)).
  change (inCheck g0) with (pciInCheck (checkForPinsAndChecks g)).
  change (checks g0) with (pciChecks (checkForPinsAndChecks g)).
  change (kingPosOf g) with (kingPosOf g0).
  rewrite Hf.
  destruct (pciChecks (checkForPinsAndChecks g)) as [|c0 cs] eqn:Ec;
    [cbn in Hn; lia|].
  cbn [isEmpty negb].
  replace (size (c0 :: cs) =? 1) with false
    by (symmetry; apply Z.eqb_neq; lia).
  pose proof (kingLoop_start (fst (kingPosOf g0)) (snd (kingPosOf g0))
                kingOffsets g0 [] (Forall_nil _)) as Hk.
  assert (Hst : fst (getKingMoves g0 (fst (kingPosOf g0))
                       (snd (kingPosOf g0)) []) = g0).
  { unfold getKingMoves; apply kingLoop_restores. apply surjective_pairing. }
  change (kingLoop g0 (fst (kingPosOf g0)) (snd (kingPosOf g0)) kingOffsets [])
    with (getKingMoves g0 (fst (kingPosOf g0)) (snd (kingPosOf g0)) []) in Hk.
  destruct (getKingMoves g0 _ _ []) as [g1 moves1]; cbn [fst snd] in *.
  subst g1.
  match goal with
  | |- context [let '(g3, moves) := ?X in _] =>
    assert (H3 : Forall (fun m => (startRow m, startCol m) = kingPosOf g0) (snd X));
      [| destruct X as [g3 moves]; exact H3]
  end.
  apply getCastleMoves_castle.
  - intros m (_ & _ & _ & Hs & _). rewrite Hs. symmetry; apply surjective_pairing.
  - rewrite (surjective_pairing (kingPosOf g0)); exact Hk.
Qed.

Lemma chreq_neq : forall a b, chreq a b = false -> a <> b.
Proof. intros a b H E; subst; unfold chreq in H; rewrite Ascii.eqb_refl in H; discriminate. Qed.

Lemma scanRay_infoOK : forall g j d dists pin acc,
  pinRow pin = -1 \/ pinOK g pin ->
  infoOK g acc -> infoOK g (scanRay g j d dists pin acc).
Proof.
  intros g j d dists; induction dists as [|i rest IH]; intros pin acc Hp H;
    cbn [scanRay]; [exact H|].
  cbv zeta.
  destruct (onBoard _ _) eqn:Eon; [|exact H].
  destruct (_ && _)%bool eqn:Ea.
  - destruct (pinRow pin =? -1); [|exact H].
    apply IH; [|exact H]. right.
    apply andb_prop in Ea; destruct Ea as [E1 E2].
    apply chreq_eq in E1. apply negb_true_iff, chreq_neq in E2.
    split; [exact Eon | split; assumption].
  - destruct (chreq (chr _ 0) (chr (enemyColorOf g) 0)) eqn:Ee;
      [|apply IH; assumption].
    destruct (canCheck _ _ _ _); [|exact H].
    destruct H as [H1 H2].
    destruct (pinRow pin =? -1) eqn:E1; split; cbn [pciPins pciChecks];
      try assumption.
    + apply Forall_push_back; [exact H2|].
      split; [exact Eon | apply chreq_eq; exact Ee].
    + apply Forall_push_back; [exact H1|].
      destruct Hp as [Hp|Hp]; [|exact Hp].
      apply Z.eqb_neq in E1; contradiction.
Qed.

Lemma scanDirections_infoOK : forall g ds j acc,
  infoOK g acc -> infoOK g (scanDirections g j ds acc).
Proof.
  intros g ds; induction ds as [|d rest IH]; intros j acc H;
    cbn [scanDirections]; [exact H|].
  apply IH, scanRay_infoOK; [left; reflexivity | exact H].
Qed.

Lemma scanKnights_infoOK : forall g ms acc,
  infoOK g acc -> infoOK g (scanKnights g ms acc).
Proof.
  intros g ms; induction ms as [|m rest IH]; intros acc H;
    cbn [scanKnights]; [exact H|].
  apply IH. cbv zeta.
  destruct (onBoard _ _) eqn:Eon; [|exact H].
  destruct (_ && _)%bool eqn:Ea; [|exact H].
  apply andb_prop in Ea; destruct Ea as [E1 _]. apply chreq_eq in E1.
  destruct H as [H1 H2]; split; cbn [pciPins pciChecks]; [exact H1|].
  apply Forall_push_back; [exact H2 | split; assumption].
Qed.

Lemma checkForPinsAndChecks_infoOK : forall g,
  infoOK g (checkForPinsAndChecks g).
Proof.
  intros g; unfold checkForPinsAndChecks.
  apply scanKnights_infoOK, scanDirections_infoOK.
  split; constructor.
Qed.

Lemma rowsToRanks_reverse : forall row,
  rowsToRanks row = at_ (reverseMap ranksToRows) row.
Proof.
  intros row; unfold rowsToRanks.
  change (reverseMap ranksToRows)
    with [(7, "1"); (6, "2"); (5, "3"); (4, "4");
          (3, "5"); (2, "6"); (1, "7"); (0, "8")].
  cbn [at_].
  rewrite (Z.eqb_sym 7 row), (Z.eqb_sym 6 row), (Z.eqb_sym 5 row),
    (Z.eqb_sym 4 row), (Z.eqb_sym 3 row), (Z.eqb_sym 2 row),
    (Z.eqb_sym 1 row), (Z.eqb_sym 0 row).
  reflexivity.
Qed.

Lemma colsToFiles_reverse : forall col,
  colsToFiles col = at_ (reverseMap filesToCols) col.
Proof.
  intros col; unfold colsToFiles.
  change (reverseMap filesToCols)
    with [(0, "a"); (1, "b"); (2, "c"); (3, "d");
          (4, "e"); (5, "f"); (6, "g"); (7, "h")].
  cbn [at_].
  rewrite (Z.eqb_sym 7 col), (Z.eqb_sym 6 col), (Z.eqb_sym 5 col),
    (Z.eqb_sym 4 col), (Z.eqb_sym 3 col), (Z.eqb_sym 2 col),
    (Z.eqb_sym 1 col), (Z.eqb_sym 0 col).
  reflexivity.
Qed.

Lemma on_board_cases : forall r c,
  onBoard r c = true ->
  In r [0; 1; 2; 3; 4; 5; 6; 7] /\ In c [0; 1; 2; 3; 4; 5; 6; 7].
Proof.
  intros r c H; apply onBoard_spec in H; cbn [In]; lia.
Qed.

(** The name of a square of the board reads back, through the two maps of
    the source, as the square: its first character is the file of the
    column and its second the rank of the row. *)
Lemma getRankFile_reads_back : forall row col,
  onBoard row col = true ->
  String.length (getRankFile row col) = 2%nat
  /\ valueOf filesToCols (substring 0 1 (getRankFile row col)) = Some col
  /\ valueOf ranksToRows (substring 1 1 (getRankFile row col)) = Some row.
Proof.
  intros row col H; destruct (on_board_cases row col H) as [Hr Hc].
  cbn [In] in Hr, Hc.
  repeat (destruct Hr as [Hr|Hr]; [subst row|]); try contradiction;
    repeat (destruct Hc as [Hc|Hc]; [subst col|]); try contradiction;
    repeat split; reflexivity.
Qed.

(** ** Move identity *)

(** [Move::operator==] compares the four coordinates and nothing else:
    for coordinates below ten two moves are equal exactly when they run
    between the same squares. *)
Lemma moveEq_squares : forall a b,
  0 <= startCol a <= 9 -> 0 <= endRow a <= 9 -> 0 <= endCol a <= 9 ->
  0 <= startCol b <= 9 -> 0 <= endRow b <= 9 -> 0 <= endCol b <= 9 ->
  moveID a = startRow a * 1000 + startCol a * 100 + endRow a * 10 + endCol a ->
  moveID b = startRow b * 1000 + startCol b * 100 + endRow b * 10 + endCol b ->
  (moveEq a b = true <->
   startRow a = startRow b /\ startCol a = startCol b
   /\ endRow a = endRow b /\ endCol a = endCol b).
Proof.
  intros a b H1 H2 H3 H4 H5 H6 Ha Hb; unfold moveEq.
  rewrite Z.eqb_eq, Ha, Hb. split; [intros H | intros (-> & -> & -> & ->); reflexivity].
  lia.
Qed.

Lemma set_nth_front : forall (A : Type) (l : list A) j x d,
  (j < List.length l)%nat ->
  Permutation (nth j l d :: set_nth l j x) (x :: l).
Proof.
  induction l as [|a t IH]; intros [|j] x d H; simpl in *; try lia.
  - apply perm_swap.
  - eapply perm_trans; [apply perm_swap|].
    eapply perm_trans; [apply perm_skip, (IH j x d); lia|].
    apply perm_swap.
Qed.

Lemma set_nth_swap_perm : forall (A : Type) (l : list A) i j d,
  (i < List.length l)%nat -> (j < List.length l)%nat ->
  Permutation (set_nth (set_nth l i (nth j l d)) j (nth i l d)) l.
Proof.
  induction l as [|a t IH]; intros [|i] [|j] d Hi Hj; simpl in *; try lia.
  - apply Permutation_refl.
  - apply set_nth_front; lia.
  - apply set_nth_front; lia.
  - apply perm_skip, IH; lia.
Qed.

Lemma swap_perm : forall v i j,
  0 <= i < size v -> 0 <= j < size v -> Permutation (swap v i j) v.
Proof.
  intros v i j Hi Hj; unfold swap, zset, zth, size in *.
  destruct (Z.ltb_spec i 0); [lia|]. destruct (Z.ltb_spec j 0); [lia|].
  apply set_nth_swap_perm; lia.
Qed.

Lemma shuffleLoop_perm : forall bounded,
  (forall k n, 0 < n -> 0 <= bounded k n < n) ->
  forall i k v, (i < List.length v)%nat ->
  Permutation (fst (shuffleLoop bounded i k v)) v.
Proof.
  intros bounded Hb; induction i as [|i IH]; intros k v Hi;
    [apply Permutation_refl|].
  cbn [shuffleLoop]. cbv zeta.
  pose proof (Hb k (Z.of_nat (S i) + 1) ltac:(lia)) as Hj.
  destruct (Z.of_nat (S i) =? bounded k (Z.of_nat (S i) + 1)).
  - apply IH; lia.
  - eapply perm_trans.
    + apply IH. rewrite length_swap; lia.
    + apply swap_perm; unfold size; lia.
Qed.

(** ** The value of the search *)

Lemma alphaBetaLoop_bounded : forall rec,
  (forall g nm ms a b t, t = 1 \/ t = -1 ->
     - CHECKMATE <= snd (rec g nm ms a b t) <= CHECKMATE) ->
  forall moves atRoot g nm maxScore alpha beta tm,
  tm = 1 \/ tm = -1 -> - CHECKMATE <= maxScore <= CHECKMATE ->
  - CHECKMATE
  <= snd (alphaBetaLoop rec atRoot moves g nm maxScore alpha beta tm)
  <= CHECKMATE.
Proof.
  intros rec Hrec; induction moves as [|move rest IH];
    intros atRoot g nm maxScore alpha beta tm Htm Hm; [exact Hm|].
  rewrite alphaBetaLoop_cons.
  destruct (getValidMoves (makeMove g move)) as [gs2 nextMoves].
  pose proof (Hrec gs2 nm nextMoves (- beta) (- alpha) (- tm) ltac:(lia)) as Hr.
  destruct (rec gs2 nm nextMoves (- beta) (- alpha) (- tm)) as [[gs3 nm3] r].
  cbn [snd] in Hr. cbv zeta. rewrite !zmax_gtb.
  destruct (_ >=? beta); [cbn [snd]; lia|].
  apply IH; [exact Htm | lia].
Qed.

Lemma findMoveNegaMaxAlphaBeta_bounded : forall d g nm moves alpha beta tm,
  tm = 1 \/ tm = -1 ->
  - CHECKMATE
  <= snd (findMoveNegaMaxAlphaBeta d g nm moves alpha beta tm)
  <= CHECKMATE.
Proof.
  induction d as [|d IH]; intros g nm moves alpha beta tm Htm.
  - cbn [findMoveNegaMaxAlphaBeta snd].
    pose proof (scoreBoard_bounded g). destruct Htm; subst tm; lia.
  - cbn [findMoveNegaMaxAlphaBeta].
    apply alphaBetaLoop_bounded; [exact IH | exact Htm | unfold CHECKMATE; lia].
Qed.

(** ** Castling rights are only ever cleared *)

Lemma updateCastleRights_only_clears : forall cr m,
  (wks (updateCastleRights cr m) = true -> wks cr = true)
  /\ (bks (updateCastleRights cr m) = true -> bks cr = true)
  /\ (wqs (updateCastleRights cr m) = true -> wqs cr = true)
  /\ (bqs (updateCastleRights cr m) = true -> bqs cr = true).
Proof.
  intros cr m; rewrite updateCastleRights_computes;
    cbn [wks bks wqs bqs].
  repeat split; intros H;
    repeat (apply andb_prop in H; destruct H as [H ?]); exact H.
Qed.

(** ** Squares [makeMove] leaves alone *)

Lemma makeBoard_elsewhere : forall b m r c,
  (r, c) <> (startRow m, startCol m) -> (r, c) <> (endRow m, endCol m) ->
  (r, c) <> (startRow m, endCol m) ->
  (r, c) <> (endRow m, endCol m - 1) -> (r, c) <> (endRow m, endCol m + 1) ->
  (r, c) <> (endRow m, endCol m - 2) ->
  sq (makeBoard b m) r c = sq b r c.
Proof.
  intros b m r c H1 H2 H3 H4 H5 H6; unfold makeBoard; cbv zeta.
  destruct (isCastleMove m); [destruct (_ =? 2)|];
    destruct (isEnpassantMove m); destruct (isPawnPromotion m);
    repeat (rewrite sq_setSq_neq by congruence); reflexivity.
Qed.

Lemma undoBoard_elsewhere : forall b m r c,
  (r, c) <> (startRow m, startCol m) -> (r, c) <> (endRow m, endCol m) ->
  (r, c) <> (startRow m, endCol m) ->
  (r, c) <> (endRow m, endCol m - 1) -> (r, c) <> (endRow m, endCol m + 1) ->
  (r, c) <> (endRow m, endCol m - 2) ->
  sq (undoBoard b m) r c = sq b r c.
Proof.
  intros b m r c H1 H2 H3 H4 H5 H6; unfold undoBoard; cbv zeta.
  destruct (isCastleMove m); [destruct (_ =? 2)|];
    destruct (isEnpassantMove m);
    repeat (rewrite sq_setSq_neq by congruence); reflexivity.
Qed.

(** ** Taking back a listed move *)

Lemma kings_round_trip : forall g m,
  kingsCached g ->
  pieceMoved m = sq (board g) (startRow m) (startCol m) ->
  (if streq (pieceMoved m) "wK" then (startRow m, startCol m)
   else whiteKingLocation g) = whiteKingLocation g
  /\ (if streq (pieceMoved m) "wK" then blackKingLocation g
      else if streq (pieceMoved m) "bK" then (startRow m, startCol m)
      else blackKingLocation g) = blackKingLocation g.
Proof.
  intros g m Hk Hm.
  destruct (streq (pieceMoved m) "wK") eqn:E.
  - apply streq_eq in E. split; [|reflexivity].
    destruct (Hk (startRow m) (startCol m)) as [H1 _].
    { rewrite <- Hm, E; reflexivity. }
    symmetry; apply H1. rewrite <- Hm, E; reflexivity.
  - split; [reflexivity|].
    destruct (streq (pieceMoved m) "bK") eqn:E2; [|reflexivity].
    apply streq_eq in E2.
    destruct (Hk (startRow m) (startCol m)) as [_ H1].
    { rewrite <- Hm, E2; reflexivity. }
    symmetry; apply H1. rewrite <- Hm, E2; reflexivity.
Qed.

Lemma makeMove_undoMove_board : forall g m,
  kingsCached g -> logsCurrent g ->
  pieceMoved m = sq (board g) (startRow m) (startCol m) ->
  undoBoard (makeBoard (board g) m) m = board g ->
  samePersistent (undoMove (makeMove g m)) g.
Proof.
  intros g m Hk [Hl1 Hl2] Hm Hb.
  destruct (undoMove_makeMove g m)
    as (Hbd & Hw & Hlog & Hwk & Hbk & Hep & Hepl & Hcr & Hcrl).
  destruct (kings_round_trip g m Hk Hm) as [K1 K2].
  unfold samePersistent.
  repeat match goal with |- _ /\ _ => split end; congruence.
Qed.

Lemma makeMove_undoMove_listed : forall g m,
  kingsCached g -> logsCurrent g -> boardShape (board g) ->
  listedMove g m -> isEnpassantMove m = false ->
  samePersistent (undoMove (makeMove g m)) g.
Proof.
  intros g m Hk Hl Hs [Hp|Hc] He.
  - destruct Hp as (_ & _ & Hne & Hm & _ & Hca & Hcap & _).
    destruct (Hcap He) as [Hcap' _].
    apply makeMove_undoMove_plain; assumption.
  - apply makeMove_undoMove_board; try assumption.
    + destruct Hc as (_ & _ & _ & _ & Hm & _); exact Hm.
    + eapply castle_board_round_trip; [exact Hs | exact Hc].
Qed.

Lemma getValidMoves_samePersistent : forall g,
  kingsCached g -> samePersistent (fst (getValidMoves g)) g.
Proof.
  intros g Hk.
  destruct (getValidMoves_preserves g Hk)
    as ((Hb & Hw & Hwk & Hbk & Hc & He) & Hl & Hcl & Hel).
  unfold samePersistent; repeat split; assumption.
Qed.

Lemma enPassant_board_round_trip : forall b m,
  boardShape b ->
  isCastleMove m = false -> isEnpassantMove m = true ->
  endRow m <> startRow m -> endCol m <> startCol m ->
  pieceMoved m = sq b (startRow m) (startCol m) ->
  sq b (endRow m) (endCol m) = "--" ->
  sq b (startRow m) (endCol m) = pieceCaptured m ->
  undoBoard (makeBoard b m) m = b.
Proof.
  intros b m Hs Hc He Hr Hcl Hm Hend Hcap.
  apply board_ext; [apply boardShape_undoBoard, boardShape_makeBoard; exact Hs
                   | exact Hs |].
  intros r c Hon.
  unfold undoBoard, makeBoard; rewrite Hc, He; cbv zeta.
  destruct (isPawnPromotion m); read_squares;
    cases_squares; bool_facts; subst;
    try reflexivity; try congruence; try lia.
Qed.

(** ** Reading the board after a piece move *)

Lemma makeBoard_piece : forall b w ep m r c,
  boardShape b -> pieceMove b w ep m ->
  sq (makeBoard b m) r c
  = if isEnpassantMove m && (startRow m =? r) && (endCol m =? c) then "--"
    else if (endRow m =? r) && (endCol m =? c) then
      (if isPawnPromotion m
       then String.append (str1 (chr (pieceMoved m) 0)) "Q"
       else pieceMoved m)
    else if (startRow m =? r) && (startCol m =? c) then "--"
    else sq b r c.
Proof.
  intros b w ep m r c Hs (Hon1 & Hon2 & Hne & _ & _ & Hc & _ & _ & Hep & _).
  unfold makeBoard; rewrite Hc; cbv zeta.
  assert (Hon3 : isEnpassantMove m = true ->
                 onBoard (startRow m) (endCol m) = true).
  { intros _. apply onBoard_spec. apply onBoard_spec in Hon1, Hon2. lia. }
  destruct (isEnpassantMove m) eqn:Ee.
  - specialize (Hon3 eq_refl). destruct (Hep eq_refl) as (Hr & Hcl & _).
    pose proof (forward_cases w).
    destruct (isPawnPromotion m); read_squares;
      rewrite Hon1, Hon2, Hon3; cbn [andb];
      cases_squares; bool_facts; subst; try reflexivity; try lia.
  - destruct (isPawnPromotion m); read_squares;
      rewrite Hon1, Hon2; cbn [andb];
      cases_squares; bool_facts; subst; try reflexivity; try lia;
      exfalso; apply Hne; congruence.
Qed.

Lemma two_letters : forall s,
  String.length s = 2%nat -> s = String (chr s 0) (String (chr s 1) "").
Proof.
  intros [|a [|b [|c s]]] H; cbn in H; try discriminate; reflexivity.
Qed.

Lemma code_on_board : forall b r c x y,
  twoLetters b -> onBoard r c = true ->
  chr (sq b r c) 0 = x -> chr (sq b r c) 1 = y ->
  sq b r c = String x (String y "").
Proof.
  intros b r c x y Ht Hon Hx Hy.
  rewrite (two_letters _ (Ht r c Hon)) at 1. rewrite Hx, Hy; reflexivity.
Qed.

Lemma twoLetters_piece : forall b w ep m,
  boardShape b -> twoLetters b -> pieceMove b w ep m ->
  twoLetters (makeBoard b m).
Proof.
  intros b w ep m Hs Ht Hp r c Hon.
  rewrite (makeBoard_piece b w ep m r c Hs Hp).
  destruct Hp as (Hon1 & _ & _ & Hm & _).
  repeat match goal with
  | |- context [if ?x then _ else _] => destruct x
  end; try reflexivity.
  - rewrite Hm; apply Ht; exact Hon1.
  - apply Ht; exact Hon.
Qed.

Lemma enPassant_facts : forall g m,
  twoLetters (board g) -> enPassantSound g -> pieceMoveOf g m ->
  isEnpassantMove m = true ->
  sq (board g) (endRow m) (endCol m) = "--"
  /\ sq (board g) (startRow m) (endCol m) = pawnOf (negb (whiteToMove g))
  /\ pieceCaptured m = pawnOf (negb (whiteToMove g))
  /\ pieceMoved m = pawnOf (whiteToMove g)
  /\ endRow m <> startRow m /\ endCol m <> startCol m.
Proof.
  intros g m Ht He
    (Hon1 & Hon2 & _ & Hm & Hteam & _ & _ & Hep1 & Hep2 & _) Hflag.
  destruct (Hep1 Hflag) as [Hp Htarget].
  destruct (Hep2 Hflag) as (Hrow & Hcol & Hcap).
  unfold enPassantSound in He. rewrite <- Htarget in He; cbn [fst snd] in He.
  destruct (He Hon2) as [He1 He2].
  assert (Hmoved : pieceMoved m = pawnOf (whiteToMove g)).
  { rewrite Hm in Hteam, Hp |- *.
    rewrite (code_on_board _ _ _ _ _ Ht Hon1 Hteam Hp).
    unfold teamChar, pawnOf; destruct (whiteToMove g); reflexivity. }
  pose proof (forward_cases (whiteToMove g)).
  repeat split; try assumption; try lia.
  - replace (startRow m) with (endRow m - forward (whiteToMove g)) by lia.
    exact He2.
  - rewrite Hcap, Hmoved; unfold pawnOf; destruct (whiteToMove g); reflexivity.
Qed.

Lemma streq_refl : forall s, streq s s = true.
Proof. intros; apply String.eqb_refl. Qed.

Lemma streq_false : forall a b, a <> b -> streq a b = false.
Proof. intros a b H; apply String.eqb_neq; exact H. Qed.

Lemma kingsCached_piece : forall g m,
  boardShape (board g) -> twoLetters (board g) -> kingsCached g ->
  pieceMoveOf g m -> kingsCached (makeMove g m).
Proof.
  intros g m Hs Ht Hk Hp r c.
  rewrite board_makeMove, (makeBoard_piece _ _ _ m r c Hs Hp).
  rewrite whiteKingLocation_makeMove, blackKingLocation_makeMove.
  pose proof Hp as (Hon1 & _ & _ & Hm & _).
  destruct (isEnpassantMove m && (startRow m =? r) && (endCol m =? c));
    [intros HK; discriminate HK|].
  destruct ((endRow m =? r) && (endCol m =? c)) eqn:E2.
  - apply andb_prop in E2; destruct E2 as [E E']; apply Z.eqb_eq in E, E'; subst.
    destruct (isPawnPromotion m); [intros HK; discriminate HK|].
    intros HK; apply chreq_eq in HK. rewrite Hm in HK |- *.
    split; intros Hc; apply chreq_eq in Hc;
      rewrite (code_on_board _ _ _ _ _ Ht Hon1 Hc HK); reflexivity.
  - destruct ((startRow m =? r) && (startCol m =? c)) eqn:E3;
      [intros HK; discriminate HK|].
    intros HK. destruct (Hk r c HK) as [Hw Hb].
    split; intros Hc.
    + destruct (streq (pieceMoved m) "wK") eqn:Ew; [|exact (Hw Hc)].
      exfalso. apply streq_eq in Ew.
      destruct (Hk (startRow m) (startCol m)) as [Hw' _];
        [rewrite <- Hm, Ew; reflexivity|].
      specialize (Hw' ltac:(rewrite <- Hm, Ew; reflexivity)).
      specialize (Hw Hc). rewrite Hw in Hw'. inversion Hw'; subst.
      rewrite !Z.eqb_refl in E3; discriminate E3.
    + destruct (streq (pieceMoved m) "wK") eqn:Ew; [exact (Hb Hc)|].
      destruct (streq (pieceMoved m) "bK") eqn:Eb; [|exact (Hb Hc)].
      exfalso. apply streq_eq in Eb.
      destruct (Hk (startRow m) (startCol m)) as [_ Hb'];
        [rewrite <- Hm, Eb; reflexivity|].
      specialize (Hb' ltac:(rewrite <- Hm, Eb; reflexivity)).
      specialize (Hb Hc). rewrite Hb in Hb'. inversion Hb'; subst.
      rewrite !Z.eqb_refl in E3; discriminate E3.
Qed.

(** The square a king stands on after a piece move that captures no king. *)
Lemma king_square_piece : forall g m kr kc (king : string),
  boardShape (board g) -> twoLetters (board g) -> enPassantSound g ->
  pieceMoveOf g m -> chr (pieceCaptured m) 1 <> "K"%char ->
  chr king 1 = "K"%char ->
  sq (board g) kr kc = king -> pieceMoved m <> king ->
  sq (makeBoard (board g) m) kr kc = king.
Proof.
  intros g m kr kc king Hs Ht He Hp Hcap HK Hking Hmoved.
  rewrite (makeBoard_piece _ _ _ m kr kc Hs Hp).
  pose proof Hp as (_ & _ & _ & Hm & _ & _ & Hplain & _).
  destruct (isEnpassantMove m) eqn:Ee; cbn [andb].
  - destruct (enPassant_facts g m Ht He Hp Ee) as (H1 & H2 & _).
    destruct ((startRow m =? kr) && (endCol m =? kc)) eqn:E1.
    { apply andb_prop in E1; destruct E1 as [E E']; apply Z.eqb_eq in E, E'; subst.
      exfalso. rewrite H2 in HK. destruct (whiteToMove g); discriminate HK. }
    destruct ((endRow m =? kr) && (endCol m =? kc)) eqn:E2.
    { apply andb_prop in E2; destruct E2 as [E E']; apply Z.eqb_eq in E, E'; subst.
      exfalso. rewrite H1 in HK. discriminate HK. }
    destruct ((startRow m =? kr) && (startCol m =? kc)) eqn:E3; [|exact Hking].
    apply andb_prop in E3; destruct E3 as [E E']; apply Z.eqb_eq in E, E'; subst.
    exfalso; apply Hmoved; exact Hm.
  - destruct (Hplain eq_refl) as [Hc _].
    destruct ((endRow m =? kr) && (endCol m =? kc)) eqn:E2.
    { apply andb_prop in E2; destruct E2 as [E E']; apply Z.eqb_eq in E, E'; subst.
      exfalso. apply Hcap. rewrite Hc; exact HK. }
    destruct ((startRow m =? kr) && (startCol m =? kc)) eqn:E3; [|exact Hking].
    apply andb_prop in E3; destruct E3 as [E E']; apply Z.eqb_eq in E, E'; subst.
    exfalso; apply Hmoved; exact Hm.
Qed.

(** The end square of a king that moves. *)
Lemma king_arrives : forall g m (king : string),
  boardShape (board g) -> pieceMoveOf g m ->
  (king = "wK" \/ king = "bK") -> pieceMoved m = king ->
  onBoard (endRow m) (endCol m) = true
  /\ sq (makeBoard (board g) m) (endRow m) (endCol m) = king.
Proof.
  intros g m king Hs Hp Hk Hmoved.
  rewrite (makeBoard_piece _ _ _ m _ _ Hs Hp).
  pose proof Hp as (_ & Hon2 & _ & _ & _ & _ & _ & Hep & _ & _ & Hpromo).
  split; [exact Hon2|].
  assert (Ee : isEnpassantMove m = false).
  { destruct (isEnpassantMove m); [|reflexivity].
    destruct (Hep eq_refl) as [H _]. rewrite Hmoved in H.
    destruct Hk; subst king; discriminate H. }
  rewrite Ee, !Z.eqb_refl; cbn [andb].
  rewrite Hpromo, Hmoved. destruct Hk; subst king; reflexivity.
Qed.

Lemma kingsOn_piece : forall g m,
  boardShape (board g) -> twoLetters (board g) -> enPassantSound g ->
  kingsOn g -> pieceMoveOf g m -> chr (pieceCaptured m) 1 <> "K"%char ->
  kingsOn (makeMove g m).
Proof.
  intros g m Hs Ht He (Hw1 & Hw2 & Hb1 & Hb2) Hp Hcap.
  unfold kingsOn.
  rewrite whiteKingLocation_makeMove, blackKingLocation_makeMove, board_makeMove.
  destruct (streq (pieceMoved m) "wK") eqn:Ew.
  - apply streq_eq in Ew.
    destruct (king_arrives g m "wK" Hs Hp (or_introl eq_refl) Ew) as [H1 H2].
    cbn [fst snd]. repeat split; try assumption.
    apply (king_square_piece g m _ _ "bK"); try assumption;
      [reflexivity | congruence].
  - destruct (streq (pieceMoved m) "bK") eqn:Eb.
    + apply streq_eq in Eb.
      destruct (king_arrives g m "bK" Hs Hp (or_intror eq_refl) Eb) as [H1 H2].
      cbn [fst snd]. repeat split; try assumption.
      apply (king_square_piece g m _ _ "wK"); try assumption;
        [reflexivity | congruence].
    + repeat split; try assumption.
      * apply (king_square_piece g m _ _ "wK"); try assumption;
          [reflexivity|]. intros E; rewrite E in Ew; discriminate Ew.
      * apply (king_square_piece g m _ _ "bK"); try assumption;
          [reflexivity|]. intros E; rewrite E in Eb; discriminate Eb.
Qed.

Lemma logsCurrent_makeMove : forall g m, logsCurrent (makeMove g m).
Proof.
  intros g m; split.
  - apply back_push_back.
  - unfold makeMove; cbn [castlingRightsLog castlingRights].
    rewrite back_push_back.
    destruct (updateCastleRights (castlingRights g) m); reflexivity.
Qed.

Lemma enPassantPossible_makeMove : forall g m,
  enPassantPossible (makeMove g m)
  = if chreq (chr (pieceMoved m) 1) "p"
       && (Z.abs (startRow m - endRow m) =? 2)
    then (Z.quot (startRow m + endRow m) 2, startCol m) else (-1, -1).
Proof. reflexivity. Qed.

Lemma enPassantSound_piece : forall g m,
  boardShape (board g) -> twoLetters (board g) ->
  pieceMoveOf g m -> enPassantSound (makeMove g m).
Proof.
  intros g m Hs Ht Hp; unfold enPassantSound.
  rewrite enPassantPossible_makeMove, whiteToMove_makeMove, board_makeMove.
  destruct (chreq (chr (pieceMoved m) 1) "p"
            && (Z.abs (startRow m - endRow m) =? 2)) eqn:E;
    [|intros H; discriminate H].
  apply andb_prop in E; destruct E as [E1 E2].
  apply chreq_eq in E1. apply Z.eqb_eq in E2.
  pose proof Hp as (Hon1 & Hon2 & _ & Hm & Hteam & _ & _ & _ & _ & Hd & Hpromo).
  destruct (Hd E1 E2) as (Hne & Hrow & Hcol & Hmid).
  assert (Hmoved : pieceMoved m = pawnOf (whiteToMove g)).
  { rewrite Hm in Hteam, E1 |- *.
    rewrite (code_on_board _ _ _ _ _ Ht Hon1 Hteam E1).
    unfold teamChar, pawnOf; destruct (whiteToMove g); reflexivity. }
  cbn [fst snd]. intros _.
  rewrite !(makeBoard_piece _ _ _ m _ _ Hs Hp), Hne, Hpromo, Hmoved; cbn [andb].
  apply onBoard_spec in Hon1, Hon2.
  unfold pawnRow, forward, pawnOf in *.
  destruct (whiteToMove g); cbn [negb] in *.
  - assert (endRow m = 4) by lia.
    rewrite Hrow, H in *. rewrite Hcol, !Z.eqb_refl. cbn. split; [exact Hmid | reflexivity].
  - assert (endRow m = 3) by lia.
    rewrite Hrow, H in *. rewrite Hcol, !Z.eqb_refl. cbn. split; [exact Hmid | reflexivity].
Qed.

(** A square that holds neither a pawn nor nothing keeps its content
    through a piece move that neither starts on it nor ends on it. *)
Lemma square_kept : forall g m r c x,
  boardShape (board g) -> twoLetters (board g) -> enPassantSound g ->
  pieceMoveOf g m ->
  sq (board g) r c = x -> x <> "--" -> x <> "wp" -> x <> "bp" ->
  (startRow m, startCol m) <> (r, c) ->
  (isEnpassantMove m = false -> (endRow m, endCol m) <> (r, c)) ->
  sq (makeBoard (board g) m) r c = x.
Proof.
  intros g m r c x Hs Ht He Hp Hx H1 H2 H3 Hstart Hend.
  rewrite (makeBoard_piece _ _ _ m r c Hs Hp).
  destruct (isEnpassantMove m) eqn:Ee; cbn [andb].
  - destruct (enPassant_facts g m Ht He Hp Ee) as (F1 & F2 & _).
    destruct ((startRow m =? r) && (endCol m =? c)) eqn:E1.
    { apply andb_prop in E1; destruct E1 as [E E']; apply Z.eqb_eq in E, E'; subst.
      exfalso. rewrite F2 in H2, H3. destruct (whiteToMove g); cbn in *; congruence. }
    destruct ((endRow m =? r) && (endCol m =? c)) eqn:E2.
    { apply andb_prop in E2; destruct E2 as [E E']; apply Z.eqb_eq in E, E'; subst.
      exfalso. congruence. }
    destruct ((startRow m =? r) && (startCol m =? c)) eqn:E3; [|exact Hx].
    apply andb_prop in E3; destruct E3 as [E E']; apply Z.eqb_eq in E, E'; subst.
    exfalso; apply Hstart; reflexivity.
  - destruct ((endRow m =? r) && (endCol m =? c)) eqn:E2.
    { apply andb_prop in E2; destruct E2 as [E E']; apply Z.eqb_eq in E, E'; subst.
      exfalso; apply (Hend eq_refl); reflexivity. }
    destruct ((startRow m =? r) && (startCol m =? c)) eqn:E3; [|exact Hx].
    apply andb_prop in E3; destruct E3 as [E E']; apply Z.eqb_eq in E, E'; subst.
    exfalso; apply Hstart; reflexivity.
Qed.

Lemma castlingRights_makeMove : forall g m,
  castlingRights (makeMove g m) = updateCastleRights (castlingRights g) m.
Proof. reflexivity. Qed.

(** One right after a piece move: its king has not moved and its rook
    still stands in its corner. *)
Lemma right_kept : forall g m (rook : string) rr rc,
  boardShape (board g) -> twoLetters (board g) -> enPassantSound g ->
  pieceMoveOf g m ->
  (rook = "wR" \/ rook = "bR") ->
  sq (board g) rr rc = rook ->
  streq (pieceCaptured m) rook && (endCol m =? rc) = false ->
  streq (pieceMoved m) rook && (startRow m =? rr) && (startCol m =? rc) = false ->
  sq (makeBoard (board g) m) rr rc = rook.
Proof.
  intros g m rook rr rc Hs Ht He Hp Hr Hsq Hcap Hmov.
  pose proof Hp as (_ & _ & _ & Hm & _ & _ & Hplain & _).
  apply (square_kept g m rr rc rook); try assumption;
    try (destruct Hr; subst rook; discriminate).
  - intros E; injection E as E1 E2.
    rewrite Hm, E1, E2, Hsq, streq_refl, !Z.eqb_refl in Hmov; discriminate Hmov.
  - intros Ee E; injection E as E1 E2.
    destruct (Hplain Ee) as [Hc _].
    rewrite Hc, E1, E2, Hsq, streq_refl, Z.eqb_refl in Hcap; discriminate Hcap.
Qed.

Ltac right_facts H :=
  rewrite castlingRights_makeMove, updateCastleRights_computes in H;
  cbn [wks bks wqs bqs] in H;
  repeat (apply andb_prop in H; destruct H as [H ?]);
  repeat match goal with
  | X : negb _ = true |- _ => apply negb_true_iff in X
  end.

Lemma rightsSound_piece : forall g m,
  boardShape (board g) -> twoLetters (board g) -> enPassantSound g ->
  rightsSound g -> pieceMoveOf g m -> rightsSound (makeMove g m).
Proof.
  intros g m Hs Ht He (R1 & R2 & R3 & R4) Hp; unfold rightsSound.
  rewrite whiteKingLocation_makeMove, blackKingLocation_makeMove, board_makeMove.
  split; [intros H | split; [intros H | split; intros H]]; right_facts H;
    try match goal with
        | X : streq (pieceMoved _) "wK" = false |- _ => rewrite X
        end;
    try match goal with
        | X : streq (pieceMoved _) "bK" = false |- _ => rewrite X
        end.
  - split; [apply R1; exact H|].
    apply (right_kept g m "wR"); try assumption;
      [left; reflexivity | apply R1; exact H].
  - split; [apply R2; exact H|].
    apply (right_kept g m "wR"); try assumption;
      [left; reflexivity | apply R2; exact H].
  - split; [destruct (streq (pieceMoved m) "wK"); apply R3; exact H|].
    apply (right_kept g m "bR"); try assumption;
      [right; reflexivity | apply R3; exact H].
  - split; [destruct (streq (pieceMoved m) "wK"); apply R4; exact H|].
    apply (right_kept g m "bR"); try assumption;
      [right; reflexivity | apply R4; exact H].
Qed.

Lemma sound_piece : forall g m,
  sound g -> pieceMoveOf g m -> chr (pieceCaptured m) 1 <> "K"%char ->
  sound (makeMove g m).
Proof.
  intros g m (Hs & Ht & Hl & Hk & Hon & He & Hr) Hp Hcap.
  repeat match goal with |- sound _ => unfold sound end.
  split; [rewrite board_makeMove; apply boardShape_makeBoard; exact Hs|].
  split; [rewrite board_makeMove; eapply twoLetters_piece; eauto|].
  split; [apply logsCurrent_makeMove|].
  split; [apply kingsCached_piece; assumption|].
  split; [apply kingsOn_piece; assumption|].
  split; [apply enPassantSound_piece; assumption|].
  apply rightsSound_piece; assumption.
Qed.

(** ** Castles in a sound position *)

Lemma castle_facts : forall g m,
  sound g -> castleMoveOf g m ->
  isCastleMove m = true /\ isEnpassantMove m = false
  /\ isPawnPromotion m = false
  /\ startRow m = homeRow (whiteToMove g) /\ startCol m = 4
  /\ endRow m = homeRow (whiteToMove g)
  /\ pieceMoved m = kingOf (whiteToMove g) /\ pieceCaptured m = "--"
  /\ ((endCol m = 6
       /\ sq (board g) (homeRow (whiteToMove g)) 5 = "--"
       /\ sq (board g) (homeRow (whiteToMove g)) 6 = "--"
       /\ sq (board g) (homeRow (whiteToMove g)) 7 = rookOf (whiteToMove g))
      \/ (endCol m = 2
          /\ sq (board g) (homeRow (whiteToMove g)) 3 = "--"
          /\ sq (board g) (homeRow (whiteToMove g)) 2 = "--"
          /\ sq (board g) (homeRow (whiteToMove g)) 1 = "--"
          /\ sq (board g) (homeRow (whiteToMove g)) 0 = rookOf (whiteToMove g))).
Proof.
  intros g m (Hs & Ht & Hl & Hk & (Hw1 & Hw2 & Hb1 & Hb2) & He & (R1 & R2 & R3 & R4))
    (Hc & Hep & Hpromo & Hstart & Hm & Hcap & Hrow & Hside).
  unfold kingPosOf, homeRow, kingOf, rookOf in *.
  destruct (whiteToMove g).
  - destruct Hside as [(Hcol & _ & Hright & E1 & E2) | (Hcol & _ & Hright & E1 & E2 & E3)].
    + destruct (R1 Hright) as [Hloc Hrook]. rewrite Hloc in *.
      injection Hstart as Hsr Hsc. cbn [fst snd] in *.
      rewrite Hsr, Hsc in *. rewrite Hw2 in Hm. rewrite Hpromo, Hm.
      repeat split; try assumption; try reflexivity.
      left. repeat split; try assumption; lia.
    + destruct (R2 Hright) as [Hloc Hrook]. rewrite Hloc in *.
      injection Hstart as Hsr Hsc. cbn [fst snd] in *.
      rewrite Hsr, Hsc in *. rewrite Hw2 in Hm. rewrite Hpromo, Hm.
      repeat split; try assumption; try reflexivity.
      right. repeat split; try assumption; lia.
  - destruct Hside as [(Hcol & _ & Hright & E1 & E2) | (Hcol & _ & Hright & E1 & E2 & E3)].
    + destruct (R3 Hright) as [Hloc Hrook]. rewrite Hloc in *.
      injection Hstart as Hsr Hsc. cbn [fst snd] in *.
      rewrite Hsr, Hsc in *. rewrite Hb2 in Hm. rewrite Hpromo, Hm.
      repeat split; try assumption; try reflexivity.
      left. repeat split; try assumption; lia.
    + destruct (R4 Hright) as [Hloc Hrook]. rewrite Hloc in *.
      injection Hstart as Hsr Hsc. cbn [fst snd] in *.
      rewrite Hsr, Hsc in *. rewrite Hb2 in Hm. rewrite Hpromo, Hm.
      repeat split; try assumption; try reflexivity.
      right. repeat split; try assumption; lia.
Qed.

Lemma onBoard_true : forall r c,
  0 <= r <= 7 -> 0 <= c <= 7 -> onBoard r c = true.
Proof. intros; apply onBoard_spec; lia. Qed.

Lemma makeBoard_fields : forall b m,
  makeBoard b m
  = makeBoard b (mkMove (startRow m) (startCol m) (endRow m) (endCol m)
                   (pieceMoved m) (pieceCaptured m) (isPawnPromotion m)
                   (isEnpassantMove m) (isCastleMove m) false 0).
Proof. intros b []; reflexivity. Qed.

Lemma makeBoard_kingside : forall b hr (king rook : string) r c,
  boardShape b -> 0 <= hr <= 7 -> sq b hr 7 = rook ->
  sq (makeBoard b (mkMove hr 4 hr 6 king "--" false false true false 0)) r c
  = if (hr =? r) && (7 =? c) then "--"
    else if (hr =? r) && (5 =? c) then rook
    else if (hr =? r) && (6 =? c) then king
    else if (hr =? r) && (4 =? c) then "--"
    else sq b r c.
Proof.
  intros b hr king rook r c Hs Hr Hrook.
  unfold makeBoard;
    cbn [startRow startCol endRow endCol pieceMoved pieceCaptured
         isPawnPromotion isEnpassantMove isCastleMove].
  change (6 - 4 =? 2) with true. change (6 - 1) with 5. change (6 + 1) with 7.
  cbv zeta.
  rewrite (sq_setSq_neq _ hr 6 hr 7) by (intros E; inversion E).
  rewrite (sq_setSq_neq _ hr 4 hr 7) by (intros E; inversion E).
  rewrite Hrook. read_squares.
  rewrite !onBoard_true by lia. reflexivity.
Qed.

Lemma makeBoard_queenside : forall b hr (king rook : string) r c,
  boardShape b -> 0 <= hr <= 7 -> sq b hr 0 = rook ->
  sq (makeBoard b (mkMove hr 4 hr 2 king "--" false false true false 0)) r c
  = if (hr =? r) && (0 =? c) then "--"
    else if (hr =? r) && (3 =? c) then rook
    else if (hr =? r) && (2 =? c) then king
    else if (hr =? r) && (4 =? c) then "--"
    else sq b r c.
Proof.
  intros b hr king rook r c Hs Hr Hrook.
  unfold makeBoard;
    cbn [startRow startCol endRow endCol pieceMoved pieceCaptured
         isPawnPromotion isEnpassantMove isCastleMove].
  change (2 - 4 =? 2) with false. change (2 + 1) with 3. change (2 - 2) with 0.
  cbv zeta.
  rewrite (sq_setSq_neq _ hr 2 hr 0) by (intros E; inversion E).
  rewrite (sq_setSq_neq _ hr 4 hr 0) by (intros E; inversion E).
  rewrite Hrook. read_squares.
  rewrite !onBoard_true by lia. reflexivity.
Qed.

(** The board after a castle in a sound position, square by square. *)
Lemma makeBoard_castle : forall g m r c,
  sound g -> castleMoveOf g m ->
  sq (makeBoard (board g) m) r c
  = if endCol m =? 6 then
      if (homeRow (whiteToMove g) =? r) && (7 =? c) then "--"
      else if (homeRow (whiteToMove g) =? r) && (5 =? c)
           then rookOf (whiteToMove g)
      else if (homeRow (whiteToMove g) =? r) && (6 =? c)
           then kingOf (whiteToMove g)
      else if (homeRow (whiteToMove g) =? r) && (4 =? c) then "--"
      else sq (board g) r c
    else
      if (homeRow (whiteToMove g) =? r) && (0 =? c) then "--"
      else if (homeRow (whiteToMove g) =? r) && (3 =? c)
           then rookOf (whiteToMove g)
      else if (homeRow (whiteToMove g) =? r) && (2 =? c)
           then kingOf (whiteToMove g)
      else if (homeRow (whiteToMove g) =? r) && (4 =? c) then "--"
      else sq (board g) r c.
Proof.
  intros g m r c Hsound Hc.
  destruct (castle_facts g m Hsound Hc)
    as (F1 & F2 & F3 & F4 & F5 & F6 & F7 & F8 & Hside).
  destruct Hsound as (Hs & _).
  assert (Hhr : 0 <= homeRow (whiteToMove g) <= 7)
    by (unfold homeRow; destruct (whiteToMove g); lia).
  rewrite makeBoard_fields, F1, F2, F3, F4, F5, F6, F7, F8.
  destruct Hside as [(Hcol & E1 & E2 & E3) | (Hcol & E1 & E2 & E3 & E4)];
    rewrite Hcol.
  - apply makeBoard_kingside; assumption.
  - apply makeBoard_queenside; assumption.
Qed.

Lemma castle_end : forall g m,
  sound g -> castleMoveOf g m -> endCol m = 6 \/ endCol m = 2.
Proof.
  intros g m Hsound Hc.
  destruct (castle_facts g m Hsound Hc) as (_ & _ & _ & _ & _ & _ & _ & _ & Hside).
  destruct Hside as [(H & _) | (H & _)]; auto.
Qed.

Lemma twoLetters_castle : forall g m,
  sound g -> castleMoveOf g m -> twoLetters (makeBoard (board g) m).
Proof.
  intros g m Hsound Hc r c Hon.
  rewrite (makeBoard_castle g m r c Hsound Hc).
  destruct Hsound as (_ & Ht & _).
  unfold rookOf, kingOf.
  repeat match goal with
  | |- context [if ?x then _ else _] => destruct x
  end; try reflexivity; apply Ht; exact Hon.
Qed.

Ltac eqb_facts :=
  repeat match goal with
  | H : (_ && _) = true |- _ => apply andb_prop in H; destruct H
  | H : (_ =? _) = true |- _ => apply Z.eqb_eq in H
  end.

Ltac closed_tests :=
  change (6 =? 6) with true in *; change (2 =? 6) with false in *;
  change (streq "wK" "wK") with true in *;
  change (streq "bK" "wK") with false in *;
  change (streq "bK" "bK") with true in *;
  cbv iota in *.

Lemma kingsCached_castle : forall g m,
  sound g -> castleMoveOf g m -> kingsCached (makeMove g m).
Proof.
  intros g m Hsound Hc r c.
  rewrite board_makeMove, (makeBoard_castle g m r c Hsound Hc).
  rewrite whiteKingLocation_makeMove, blackKingLocation_makeMove.
  destruct (castle_facts g m Hsound Hc)
    as (F1 & F2 & F3 & F4 & F5 & F6 & F7 & F8 & Hside).
  pose proof (castle_end g m Hsound Hc) as Hend.
  destruct Hsound as (Hs & Ht & Hl & Hk & (Hw1 & Hw2 & Hb1 & Hb2) & He & Hr).
  destruct Hc as (_ & _ & _ & Hstart & _).
  rewrite F4, F5 in Hstart. rewrite F6, F7. clear Hside.
  unfold kingPosOf, homeRow, kingOf, rookOf in *.
  destruct (whiteToMove g); destruct Hend as [Hend|Hend]; rewrite Hend;
    closed_tests;
    repeat match goal with
    | |- context [if ?x then _ else _] => destruct x eqn:?
    end; intros HK; try discriminate HK;
    eqb_facts; subst;
    try (split; intros Hcol; try discriminate Hcol; reflexivity);
    destruct (Hk r c HK) as [Hkw Hkb];
    (split; intros Hcol;
     [ try exact (Hkw Hcol) | try exact (Hkb Hcol) ]).
  all: exfalso;
    first [ specialize (Hkw Hcol); rewrite <- Hstart in Hkw
          | specialize (Hkb Hcol); rewrite <- Hstart in Hkb ];
    match goal with
    | X : (_, _) = (_, _) |- _ => injection X as <- <-
    end;
    rewrite !Z.eqb_refl in *; discriminate.
Qed.

Lemma kingsOn_castle : forall g m,
  sound g -> castleMoveOf g m -> kingsOn (makeMove g m).
Proof.
  intros g m Hsound Hc; unfold kingsOn.
  rewrite whiteKingLocation_makeMove, blackKingLocation_makeMove, board_makeMove.
  rewrite !(makeBoard_castle g m _ _ Hsound Hc).
  destruct (castle_facts g m Hsound Hc)
    as (F1 & F2 & F3 & F4 & F5 & F6 & F7 & F8 & Hside).
  destruct Hsound as (Hs & Ht & Hl & Hk & (Hw1 & Hw2 & Hb1 & Hb2) & He & Hr).
  destruct Hc as (_ & _ & _ & Hstart & _).
  rewrite F4, F5 in Hstart. rewrite F6, F7.
  unfold kingPosOf, homeRow, kingOf, rookOf in *.
  destruct (whiteToMove g);
    [rewrite <- Hstart in Hw2 | rewrite <- Hstart in Hb2];
    cbn [fst snd] in *;
    destruct Hside as [(Hend & E1 & E2 & E3) | (Hend & E1 & E2 & E3 & E4)];
    rewrite Hend; closed_tests; cbn [fst snd];
    (split; [first [reflexivity | assumption]|]);
    (split; [first [reflexivity | idtac]|]);
    try (split; [first [reflexivity | assumption]|]);
    try reflexivity;
    repeat match goal with
    | |- context [if ?x then _ else _] => destruct x eqn:?
    end; try assumption; exfalso; eqb_facts;
    repeat match goal with
    | X : _ = fst _ |- _ => rewrite <- X in *; clear X
    | X : _ = snd _ |- _ => rewrite <- X in *; clear X
    end; congruence.
Qed.

Lemma enPassantSound_castle : forall g m,
  sound g -> castleMoveOf g m -> enPassantSound (makeMove g m).
Proof.
  intros g m Hsound Hc; unfold enPassantSound.
  rewrite enPassantPossible_makeMove.
  destruct (castle_facts g m Hsound Hc) as (_ & _ & _ & _ & _ & _ & F7 & _).
  rewrite F7. unfold kingOf; destruct (whiteToMove g); intros H; discriminate H.
Qed.

Lemma rightsSound_castle : forall g m,
  sound g -> castleMoveOf g m -> rightsSound (makeMove g m).
Proof.
  intros g m Hsound Hc; unfold rightsSound.
  rewrite whiteKingLocation_makeMove, blackKingLocation_makeMove, board_makeMove.
  rewrite !(makeBoard_castle g m _ _ Hsound Hc).
  destruct (castle_facts g m Hsound Hc)
    as (F1 & F2 & F3 & F4 & F5 & F6 & F7 & F8 & Hside).
  pose proof (castle_end g m Hsound Hc) as Hend.
  destruct Hsound as (_ & _ & _ & _ & _ & _ & (R1 & R2 & R3 & R4)).
  clear Hside Hc.
  unfold homeRow, kingOf, rookOf in *.
  split; [intros H | split; [intros H | split; intros H]]; right_facts H;
    destruct (whiteToMove g); rewrite F7 in *;
    try match goal with
        | X : streq ?a ?a = false |- _ => discriminate X
        end;
    destruct Hend as [Hend|Hend]; rewrite Hend; closed_tests;
    first [ apply R1 | apply R2 | apply R3 | apply R4 ]; exact H.
Qed.

Lemma sound_castle : forall g m,
  sound g -> castleMoveOf g m -> sound (makeMove g m).
Proof.
  intros g m Hsound Hc.
  split; [rewrite board_makeMove; apply boardShape_makeBoard;
          destruct Hsound as (Hs & _); exact Hs|].
  split; [rewrite board_makeMove; apply twoLetters_castle; assumption|].
  split; [apply logsCurrent_makeMove|].
  split; [apply kingsCached_castle; assumption|].
  split; [apply kingsOn_castle; assumption|].
  split; [apply enPassantSound_castle; assumption|].
  apply rightsSound_castle; assumption.
Qed.

(** Regular play keeps positions sound: a listed move that captures no
    king leads from a sound position to a sound position. *)
Lemma sound_makeMove : forall g m,
  sound g -> listedMove g m -> chr (pieceCaptured m) 1 <> "K"%char ->
  sound (makeMove g m).
Proof.
  intros g m Hsound [Hp|Hc] Hcap;
    [apply sound_piece | apply sound_castle]; assumption.
Qed.

Lemma twoLettersb_sound : forall b, twoLettersb b = true -> twoLetters b.
Proof.
  intros b H r c Hon.
  destruct (on_board_cases r c Hon) as [Hr Hc].
  unfold twoLettersb in H. rewrite forallb_forall in H.
  specialize (H r Hr). rewrite forallb_forall in H.
  specialize (H c Hc). apply Nat.eqb_eq in H; exact H.
Qed.

Lemma sound_newGameState : sound newGameState.
Proof.
  split; [split; [reflexivity | repeat constructor]|].
  split; [apply twoLettersb_sound; reflexivity|].
  split; [split; reflexivity|].
  split; [exact kingsCached_newGameState|].
  split; [repeat split|].
  split; [intros H; discriminate H|].
  repeat split.
Qed.

Lemma sound_persistent : forall a b,
  samePersistent a b -> sound a -> sound b.
Proof.
  intros a b (Hb & Hw & Hl & Hwk & Hbk & He & Hel & Hc & Hcl)
    (S1 & S2 & S3 & S4 & S5 & S6 & S7).
  unfold sound, logsCurrent, kingsCached, kingsOn, enPassantSound, rightsSound
    in *.
  rewrite <- Hb, <- Hw, <- Hwk, <- Hbk, <- He, <- Hel, <- Hc, <- Hcl.
  split; [exact S1|]. split; [exact S2|]. split; [exact S3|].
  split; [exact S4|]. split; [exact S5|]. split; [exact S6 | exact S7].
Qed.

Lemma sound_kingStands : forall g, sound g -> kingStands g.
Proof.
  intros g (_ & _ & _ & _ & (Hw1 & Hw2 & Hb1 & Hb2) & _).
  unfold kingStands, kingPosOf; destruct (whiteToMove g); split; assumption.
Qed.

Lemma makeMove_undoMove_sound : forall g m,
  sound g -> listedMove g m -> samePersistent (undoMove (makeMove g m)) g.
Proof.
  intros g m Hsound Hm.
  pose proof Hsound as (Hs & Ht & Hl & Hk & Hon & He & Hr).
  destruct (isEnpassantMove m) eqn:Ee.
  - destruct Hm as [Hp | Hc]; [|destruct Hc as (_ & Hc & _); congruence].
    destruct (enPassant_facts g m Ht He Hp Ee) as (F1 & F2 & F3 & F4 & F5 & F6).
    pose proof Hp as (_ & _ & _ & Hmoved & _ & Hcastle & _).
    apply makeMove_undoMove_board; try assumption.
    apply enPassant_board_round_trip; try assumption. congruence.
  - apply makeMove_undoMove_listed; assumption.
Qed.

Lemma samePersistent_frame : forall a b, samePersistent a b -> sameFrame a b.
Proof.
  intros a b (Hb & Hw & Hl & Hwk & Hbk & He & Hel & Hc & Hcl).
  repeat split; assumption.
Qed.

Lemma samePersistent_kings : forall a b, samePersistent a b -> sameKings a b.
Proof.
  intros a b (Hb & Hw & Hl & Hwk & Hbk & He & Hel & Hc & Hcl).
  split; assumption.
Qed.

Lemma sound_getValidMoves : forall g,
  sound g ->
  samePersistent (fst (getValidMoves g)) g
  /\ sound (fst (getValidMoves g))
  /\ Forall (listedMove (fst (getValidMoves g))) (snd (getValidMoves g)).
Proof.
  intros g Hsound.
  pose proof Hsound as (_ & _ & _ & Hk & _).
  pose proof (getValidMoves_samePersistent g Hk) as Hp.
  split; [exact Hp|].
  split; [apply (sound_persistent g); [apply samePersistent_sym; exact Hp | exact Hsound]|].
  pose proof (getValidMoves_listed g Hk (sound_kingStands g Hsound)) as Hl.
  eapply Forall_impl; [|exact Hl].
  intros m Hm. apply (listedMove_transfer g); try assumption.
  - apply samePersistent_frame, samePersistent_sym; exact Hp.
  - apply samePersistent_kings, samePersistent_sym; exact Hp.
Qed.

(** In a sound position the search keeps its make/undo discipline as deep
    as no listed move captures a king. *)
Lemma disciplined_sound : forall d g moves,
  sound g -> Forall (listedMove g) moves -> kingSafe d g moves ->
  disciplined d g moves.
Proof.
  induction d as [|d IH]; intros g moves Hsound Hl Hsafe; [exact I|].
  intros m Hin.
  rewrite Forall_forall in Hl. specialize (Hl m Hin).
  destruct (Hsafe m Hin) as [Hcap Hrest].
  pose proof (sound_makeMove g m Hsound Hl Hcap) as Hs'.
  destruct (sound_getValidMoves (makeMove g m) Hs') as (Hp & Hs2 & Hl2).
  split.
  - eapply samePersistent_trans;
      [apply undoMove_persistent; exact Hp
      | apply makeMove_undoMove_sound; assumption].
  - apply IH; assumption.
Qed.

Lemma kingSafeb_cons : forall d g m rest,
  kingSafeb (S d) g (m :: rest)
  = (negb (chreq (chr (pieceCaptured m) 1) "K")
     && (let '(g2, nms) := getValidMoves (makeMove g m) in kingSafeb d g2 nms))
    && kingSafeb (S d) g rest.
Proof. reflexivity. Qed.

Lemma kingSafeb_sound : forall d g moves,
  kingSafeb d g moves = true -> kingSafe d g moves.
Proof.
  induction d as [|d IH]; intros g moves H; [exact I|].
  induction moves as [|m rest IHm]; intros x Hin; [destruct Hin|].
  rewrite kingSafeb_cons in H.
  apply andb_prop in H; destruct H as [H1 H2].
  destruct Hin as [<-|Hin]; [|exact (IHm H2 x Hin)].
  apply andb_prop in H1; destruct H1 as [Hk Hd].
  split.
  - apply negb_true_iff in Hk. apply chreq_neq; exact Hk.
  - destruct (getValidMoves (makeMove g m)) as [g2 nms]; cbn [fst snd].
    apply IH; exact Hd.
Qed.

Lemma boardShapeb_sound : forall b, boardShapeb b = true -> boardShape b.
Proof.
  intros b H; apply andb_prop in H; destruct H as [H1 H2].
  apply Nat.eqb_eq in H1. split; [exact H1|].
  rewrite forallb_forall in H2. apply Forall_forall.
  intros row Hin. apply Nat.eqb_eq, H2, Hin.
Qed.

Lemma kingsCachedb_sound : forall g,
  boardShape (board g) -> kingsCachedb g = true -> kingsCached g.
Proof.
  intros g Hs H r c HK.
  destruct (onBoard r c) eqn:Hon.
  - destruct (on_board_cases r c Hon) as [Hr Hc].
    unfold kingsCachedb in H. rewrite forallb_forall in H.
    specialize (H r Hr). rewrite forallb_forall in H. specialize (H c Hc).
    rewrite HK in H. cbn [negb orb] in H.
    apply andb_prop in H; destruct H as [H1 H2].
    split; intros Hcol; [rewrite Hcol in H1 | rewrite Hcol in H2];
      cbn [negb orb] in *; apply pairEq_eq; assumption.
  - rewrite (sq_offBoard _ _ _ Hs Hon) in HK. discriminate HK.
Qed.

Lemma soundb_sound : forall g, soundb g = true -> sound g.
Proof.
  intros g H; unfold soundb in H.
  do 6 (apply andb_prop in H; destruct H as [H ?]).
  pose proof (boardShapeb_sound _ H) as Hs.
  split; [exact Hs|].
  split; [apply twoLettersb_sound; assumption|].
  split.
  { match goal with X : logsCurrentb g = true |- _ =>
      apply andb_prop in X; destruct X as [X1 X2] end.
    split; [apply pairEq_eq; assumption | apply rightsSame_eq; assumption]. }
  split; [apply kingsCachedb_sound; assumption|].
  split.
  { match goal with X : kingsOnb g = true |- _ =>
      unfold kingsOnb in X;
      do 3 (apply andb_prop in X; destruct X as [X ?]) end.
    unfold kingsOn.
    repeat match goal with |- _ /\ _ => split end;
      try assumption; apply streq_eq; assumption. }
  split.
  { match goal with X : enPassantSoundb g = true |- _ =>
      unfold enPassantSoundb in X end.
    intros Hon. rewrite Hon in *. cbn [negb orb] in *.
    match goal with X : _ && _ = true |- _ =>
      apply andb_prop in X; destruct X as [X1 X2] end.
    split; apply streq_eq; assumption. }
  match goal with X : rightsSoundb g = true |- _ =>
    unfold rightsSoundb in X;
    repeat (apply andb_prop in X; destruct X as [X ?]) end.
  unfold rightsSound.
  repeat match goal with |- _ /\ _ => split end; intros Hr;
    match goal with
    | X : negb ?r || _ = true |- _ =>
      lazymatch type of Hr with r = true => rewrite Hr in X end;
      cbn [negb orb] in X; apply andb_prop in X; destruct X as [X1 X2];
      split; [apply pairEq_eq; exact X1 | apply streq_eq; exact X2]
    end.
Qed.

Lemma oneToSeven_countFrom : oneToSeven = countFrom 1 7.
Proof. reflexivity. Qed.

Lemma pinOK_set : forall g pin, pinOK g pin -> pinRow pin <> -1.
Proof.
  intros g pin (Hon & _) E. apply onBoard_spec in Hon. lia.
Qed.

Lemma scanRay_lines : forall g j d len n pin acc,
  0 <= j <= 7 -> zth directions8 j (0, 0) = d ->
  1 <= n -> n + Z.of_nat len <= 8 ->
  pinState g d n pin ->
  infoLines g acc -> infoLines g (scanRay g j d (countFrom n len) pin acc).
Proof.
  intros g j d len; induction len as [|len IH]; intros n pin acc Hj Hd Hn Hlen Hp H;
    cbn [countFrom scanRay]; [exact H|].
  cbv zeta.
  destruct (onBoard _ _) eqn:Eon; [|exact H].
  destruct Hp as [Hdir Hp].
  destruct (_ && _)%bool eqn:Ea.
  - destruct (pinRow pin =? -1) eqn:E1; [|exact H].
    apply Z.eqb_eq in E1.
    apply IH; try assumption; try lia.
    split; [cbn [dirRow dirCol]; exact Hdir|].
    right. exists n.
    destruct Hp as [[_ Hpass] | (i & _ & _ & Hok & _)];
      [|exfalso; exact (pinOK_set g pin Hok E1)].
    split; [lia|]. split; [reflexivity|].
    split.
    { apply andb_prop in Ea; destruct Ea as [A1 A2].
      apply chreq_eq in A1. apply negb_true_iff, chreq_neq in A2.
      split; [exact Eon | split; assumption]. }
    intros k Hk Hne. apply Hpass. lia.
  - destruct (chreq (chr _ 0) (chr (enemyColorOf g) 0)) eqn:Ee.
    + destruct (canCheck _ _ _ _) eqn:Ec; [|exact H].
      destruct H as [H1 H2].
      destruct (pinRow pin =? -1) eqn:E1; split; cbn [pciPins pciChecks];
        try assumption.
      * apply Z.eqb_eq in E1.
        destruct Hp as [[_ Hpass] | (i & _ & _ & Hok & _)];
          [|exfalso; exact (pinOK_set g pin Hok E1)].
        apply Forall_push_back; [exact H2|].
        split; [split; [exact Eon | apply chreq_eq; exact Ee]|].
        left. exists j, n. cbn [pinRow pinCol dirRow dirCol].
        rewrite <- surjective_pairing.
        split; [exact Hj|]. split; [exact Hd|]. split; [lia|].
        split; [reflexivity|]. split; [exact Hpass | exact Ec].
      * apply Z.eqb_neq in E1.
        destruct Hp as [[E _] | (i & Hi & Hsq & Hok & Hpass)]; [contradiction|].
        apply Forall_push_back; [exact H1|].
        exists j, i, n. rewrite Hdir.
        split; [exact Hj|]. split; [exact Hd|].
        split; [lia|]. split; [lia|]. split; [lia|].
        split; [exact Hsq|]. split; [exact Hok|].
        split; [exact Hpass|].
        split; [split; [exact Eon | apply chreq_eq; exact Ee] | exact Ec].
    + apply IH; try assumption; try lia.
      split; [exact Hdir|].
      destruct Hp as [[E Hpass] | (i & Hi & Hsq & Hok & Hpass)].
      * left. split; [exact E|].
        intros k Hk. destruct (Z.eq_dec k n) as [->|Hne];
          [split; assumption | apply Hpass; lia].
      * right. exists i. split; [lia|]. split; [exact Hsq|].
        split; [exact Hok|].
        intros k Hk Hki. destruct (Z.eq_dec k n) as [->|Hne];
          [split; assumption | apply Hpass; lia].
Qed.

Lemma scanDirections_lines : forall g ds j acc,
  0 <= j -> j + Z.of_nat (List.length ds) <= 8 ->
  (forall t, (t < List.length ds)%nat ->
     zth directions8 (j + Z.of_nat t) (0, 0) = nth t ds (0, 0)) ->
  infoLines g acc -> infoLines g (scanDirections g j ds acc).
Proof.
  intros g ds; induction ds as [|d rest IH]; intros j acc Hj Hlen Hds H;
    cbn [scanDirections]; [exact H|].
  cbn [List.length] in Hlen.
  apply IH; try lia.
  - intros t Ht. specialize (Hds (S t)). cbn [nth List.length] in Hds.
    rewrite <- Hds by lia. f_equal. lia.
  - rewrite oneToSeven_countFrom.
    apply scanRay_lines; try assumption; try lia.
    + specialize (Hds O). cbn [nth List.length] in Hds.
      rewrite <- Hds by lia. f_equal. lia.
    + split; [cbn [dirRow dirCol]; symmetry; apply surjective_pairing|].
      left. split; [reflexivity|]. intros k Hk; lia.
Qed.

Lemma scanKnights_lines : forall g ms acc,
  incl ms knightOffsets ->
  infoLines g acc -> infoLines g (scanKnights g ms acc).
Proof.
  intros g ms; induction ms as [|m rest IH]; intros acc Hin H;
    cbn [scanKnights]; [exact H|].
  apply IH; [intros x Hx; apply Hin; right; exact Hx|]. cbv zeta.
  destruct (onBoard _ _) eqn:Eon; [|exact H].
  destruct (_ && _)%bool eqn:Ea; [|exact H].
  apply andb_prop in Ea; destruct Ea as [E1 E2].
  apply chreq_eq in E1. apply chreq_eq in E2.
  destruct H as [H1 H2]; split; cbn [pciPins pciChecks]; [exact H1|].
  apply Forall_push_back; [exact H2|].
  split; [split; assumption|].
  right. cbn [pinRow pinCol dirRow dirCol]. rewrite <- surjective_pairing.
  split; [apply Hin; left; reflexivity|].
  split; [unfold fromKing; f_equal; lia | exact E2].
Qed.

Lemma checkForPinsAndChecks_lines : forall g,
  infoLines g (checkForPinsAndChecks g).
Proof.
  intros g; unfold checkForPinsAndChecks.
  apply scanKnights_lines; [apply incl_refl|].
  apply scanDirections_lines; try (cbn; lia).
  - intros t Ht. cbn [List.length directions8] in Ht.
    do 8 (destruct t as [|t]; [reflexivity|]). lia.
  - split; constructor.
Qed.

Lemma findPin_prefix : forall n l x r c,
  (n <= List.length l)%nat -> findPin (l ++ x) r c n = findPin l r c n.
Proof.
  induction n as [|n IH]; intros l x r c Hn; cbn [findPin]; [reflexivity|].
  cbv zeta. rewrite app_nth1 by lia. rewrite IH by lia. reflexivity.
Qed.

Lemma findPin_found : forall ps r c n k,
  findPin ps r c n = Some k ->
  (k < n)%nat /\ pinMatches r c (nth k ps defaultPin) = true.
Proof.
  intros ps r c n; induction n as [|n IH]; intros k H; cbn [findPin] in H;
    [discriminate|].
  cbv zeta in H.
  destruct ((pinRow (nth n ps defaultPin) =? r)
            && (pinCol (nth n ps defaultPin) =? c)) eqn:E.
  - injection H as <-. split; [lia | exact E].
  - destruct (IH k H) as [H1 H2]. split; [lia | exact H2].
Qed.

Lemma lastDir_snoc : forall l p,
  lastDir (l ++ [p]) = Some (dirRow p, dirCol p).
Proof.
  intros l p; unfold lastDir. rewrite last_last.
  destruct l; reflexivity.
Qed.

Lemma pinDirFound_pinsAt : forall ps r c,
  pinDirFound ps r c = lastDir (pinsAt ps r c).
Proof.
  intros ps r c; induction ps as [|p l IH] using rev_ind; [reflexivity|].
  unfold pinDirFound, pinsAt in *.
  rewrite filter_app, length_app. cbn [List.length filter].
  replace (List.length l + 1)%nat with (S (List.length l)) by lia.
  cbn [findPin]. cbv zeta.
  rewrite nth_middle.
  change ((pinRow p =? r) && (pinCol p =? c)) with (pinMatches r c p).
  destruct (pinMatches r c p).
  - rewrite nth_middle. rewrite lastDir_snoc. reflexivity.
  - rewrite app_nil_r, findPin_prefix by lia.
    rewrite <- IH.
    destruct (findPin l r c (List.length l)) as [k|] eqn:E; [|reflexivity].
    destruct (findPin_found _ _ _ _ _ E) as [Hk _].
    rewrite app_nth1 by lia. reflexivity.
Qed.

Lemma pinsAt_remove_nth : forall ps k r c,
  ((k < List.length ps)%nat -> pinMatches r c (nth k ps defaultPin) = false) ->
  pinsAt (remove_nth ps k) r c = pinsAt ps r c.
Proof.
  induction ps as [|a t IH]; intros k r c H; destruct k as [|k];
    cbn [remove_nth]; try reflexivity.
  - unfold pinsAt; cbn [filter]. cbn [nth List.length] in H.
    rewrite H by lia. reflexivity.
  - unfold pinsAt in *; cbn [filter]. rewrite IH; [reflexivity|].
    intros Hk. apply H. cbn [List.length]. lia.
Qed.

Lemma pins_after_removal : forall g row col k,
  lookupPin g row col = Some k ->
  pinsElsewhere (setPins g (removeAt (pins g) (Z.of_nat k))) g row col.
Proof.
  intros g row col k E r c Hne.
  change (pins (setPins g (removeAt (pins g) (Z.of_nat k))))
    with (removeAt (pins g) (Z.of_nat k)).
  unfold removeAt.
  replace (Z.of_nat k <? 0) with false by (symmetry; apply Z.ltb_ge; lia).
  rewrite Nat2Z.id. apply pinsAt_remove_nth; intros _.
  destruct (findPin_found _ _ _ _ _ E) as [_ Hm].
  unfold pinMatches in *. apply andb_prop in Hm; destruct Hm as [H1 H2].
  apply Z.eqb_eq in H1, H2. rewrite H1, H2.
  apply andb_false_iff.
  destruct (Z.eq_dec row r) as [->|Hr]; [|left; apply Z.eqb_neq; exact Hr].
  right; apply Z.eqb_neq. intros ->; apply Hne; reflexivity.
Qed.

Lemma pinsElsewhere_refl : forall g row col, pinsElsewhere g g row col.
Proof. intros g row col r c _; reflexivity. Qed.

Lemma pinsElsewhere_trans : forall a b c row col,
  pinsElsewhere a b row col -> pinsElsewhere b c row col ->
  pinsElsewhere a c row col.
Proof.
  intros a b c row col H1 H2 r c' Hne.
  rewrite (H1 r c' Hne). apply H2; exact Hne.
Qed.

Lemma getPawnMoves_pins : forall g row col moves,
  pinsElsewhere (fst (getPawnMoves g row col moves)) g row col.
Proof.
  intros; unfold getPawnMoves.
  destruct ((0 <=? row + (if whiteToMove g then -1 else 1))
            && (row + (if whiteToMove g then -1 else 1) <=? 7))%bool;
    destruct (lookupPin g row col) eqn:E; cbn [fst];
    first [apply pins_after_removal; exact E | apply pinsElsewhere_refl].
Qed.

Lemma getRookMoves_pins : forall g row col moves,
  pinsElsewhere (fst (getRookMoves g row col moves)) g row col.
Proof.
  intros; unfold getRookMoves.
  destruct (lookupPin g row col) eqn:E; cbn [fst];
    [|apply pinsElsewhere_refl].
  destruct (negb _);
    [apply pins_after_removal; exact E | apply pinsElsewhere_refl].
Qed.

Lemma getBishopMoves_pins : forall g row col moves,
  pinsElsewhere (fst (getBishopMoves g row col moves)) g row col.
Proof.
  intros; unfold getBishopMoves.
  destruct (lookupPin g row col) eqn:E; cbn [fst];
    [apply pins_after_removal; exact E | apply pinsElsewhere_refl].
Qed.

Lemma getKnightMoves_pins : forall g row col moves,
  pinsElsewhere (fst (getKnightMoves g row col moves)) g row col.
Proof.
  intros; unfold getKnightMoves.
  destruct (lookupPin g row col) eqn:E; cbn [fst];
    [apply pins_after_removal; exact E | apply pinsElsewhere_refl].
Qed.

Lemma getQueenMoves_pins : forall g row col moves,
  pinsElsewhere (fst (getQueenMoves g row col moves)) g row col.
Proof.
  intros; unfold getQueenMoves.
  pose proof (getBishopMoves_pins g row col moves) as HB.
  destruct (getBishopMoves g row col moves) as [g1 m1]; cbn [fst] in HB.
  eapply pinsElsewhere_trans; [apply getRookMoves_pins | exact HB].
Qed.

Lemma pins_setKingOfMover : forall g k, pins (setKingOfMover g k) = pins g.
Proof. intros g k; unfold setKingOfMover; destruct (whiteToMove g); reflexivity. Qed.

Lemma kingLoop_pins : forall ms g row col moves,
  pins (fst (kingLoop g row col ms moves)) = pins g.
Proof.
  induction ms as [|m ms IH]; intros; cbn [kingLoop]; [reflexivity|].
  cbv zeta.
  destruct (onBoard _ _); [|apply IH].
  destruct (negb _); [|apply IH].
  rewrite IH, !pins_setKingOfMover. reflexivity.
Qed.

Lemma moveFunction_pins : forall piece g row col moves,
  pinsElsewhere (fst (moveFunction piece g row col moves)) g row col.
Proof.
  intros; unfold moveFunction.
  destruct (chreq piece "p"); [apply getPawnMoves_pins|].
  destruct (chreq piece "R"); [apply getRookMoves_pins|].
  destruct (chreq piece "N"); [apply getKnightMoves_pins|].
  destruct (chreq piece "B"); [apply getBishopMoves_pins|].
  destruct (chreq piece "Q"); [apply getQueenMoves_pins|].
  destruct (chreq piece "K"); [|apply pinsElsewhere_refl].
  intros r c _. unfold getKingMoves. rewrite kingLoop_pins. reflexivity.
Qed.

(** ** Moves of a pinned piece *)

Section Lines.

Variable P : Move -> Prop.

Lemma rayMoves_line : forall g row col pinned pd d dists moves,
  (forall i b',
     (pinned = true -> pd = d \/ pd = (- fst d, - snd d)) ->
     P (newMove (row, col) (row + fst d * i, col + snd d * i) b' false false)) ->
  Forall P moves ->
  Forall P (rayMoves g row col pinned pd d dists moves).
Proof.
  intros g row col pinned pd d dists; induction dists as [|i rest IH];
    intros moves HP H; cbn [rayMoves]; [exact H|].
  cbv zeta.
  destruct (onBoard _ _); [|exact H].
  destruct (negb pinned || pairEq pd d || pairEq pd (- fst d, - snd d)) eqn:E;
    [|apply IH; assumption].
  assert (Hnew : forall b',
            P (newMove (row, col) (row + fst d * i, col + snd d * i) b'
                 false false)).
  { intros b'. apply HP. intros ->. cbn [negb orb] in E.
    apply orb_prop in E. destruct E as [E|E]; apply pairEq_eq in E; auto. }
  destruct (streq _ "--").
  - apply IH; [exact HP|]. apply Forall_push_back; [exact H | apply Hnew].
  - destruct (chreq _ _); [|exact H].
    apply Forall_push_back; [exact H | apply Hnew].
Qed.

Lemma slideMoves_line : forall g row col pinned pd ds moves,
  (forall d i b',
     (pinned = true -> pd = d \/ pd = (- fst d, - snd d)) ->
     P (newMove (row, col) (row + fst d * i, col + snd d * i) b' false false)) ->
  Forall P moves ->
  Forall P (slideMoves g row col pinned pd ds moves).
Proof.
  intros g row col pinned pd ds; induction ds as [|d rest IH];
    intros moves HP H; cbn [slideMoves]; [exact H|].
  apply IH; [exact HP|]. apply rayMoves_line; [apply HP | exact H].
Qed.

Lemma slide_on_line : forall g row col found,
  lookupPin g row col = found ->
  forall d i,
  (match found with Some _ => true | None => false end = true ->
   match found with Some k => pinDirAt g k | None => (0, 0) end = d
   \/ match found with Some k => pinDirAt g k | None => (0, 0) end
      = (- fst d, - snd d)) ->
  onPinLine g row col (row + fst d * i) (col + snd d * i).
Proof.
  intros g row col found E d i H k Hk.
  subst found. rewrite Hk in H.
  destruct (H eq_refl) as [-> | ->]; cbn [fst snd];
    [exists i | exists (- i)]; split; lia.
Qed.

Lemma getRookMoves_line : forall g row col moves,
  (forall er ec b' ep,
     onPinLine g row col er ec ->
     P (newMove (row, col) (er, ec) b' ep false)) ->
  Forall P moves -> Forall P (snd (getRookMoves g row col moves)).
Proof.
  intros g row col moves HP H; unfold getRookMoves; cbv zeta; cbn [snd].
  apply slideMoves_line; [|exact H].
  intros d i b' Hpin. apply HP.
  apply (slide_on_line g row col _ eq_refl); exact Hpin.
Qed.

Lemma getBishopMoves_line : forall g row col moves,
  (forall er ec b' ep,
     onPinLine g row col er ec ->
     P (newMove (row, col) (er, ec) b' ep false)) ->
  Forall P moves -> Forall P (snd (getBishopMoves g row col moves)).
Proof.
  intros g row col moves HP H; unfold getBishopMoves; cbv zeta; cbn [snd].
  apply slideMoves_line; [|exact H].
  intros d i b' Hpin. apply HP.
  apply (slide_on_line g row col _ eq_refl); exact Hpin.
Qed.

Lemma getQueenMoves_start : forall g row col moves,
  (forall er ec b' ep, P (newMove (row, col) (er, ec) b' ep false)) ->
  Forall P moves -> Forall P (snd (getQueenMoves g row col moves)).
Proof.
  intros g row col moves HP H; unfold getQueenMoves.
  pose proof (getBishopMoves_line g row col moves
                (fun er ec b' ep _ => HP er ec b' ep) H) as HB.
  destruct (getBishopMoves g row col moves) as [g1 m1]; cbn [snd] in HB.
  apply getRookMoves_line; [|exact HB].
  intros er ec b' ep _; apply HP.
Qed.

Lemma knightLoop_line : forall g row col pinned ms moves,
  (forall er ec b', pinned = false ->
     P (newMove (row, col) (er, ec) b' false false)) ->
  Forall P moves -> Forall P (knightLoop g row col pinned ms moves).
Proof.
  intros g row col pinned ms; induction ms as [|m rest IH];
    intros moves HP H; cbn [knightLoop]; [exact H|].
  cbv zeta. apply IH; [exact HP|].
  destruct (onBoard _ _); [|exact H].
  destruct (negb pinned) eqn:E; [|exact H].
  destruct (negb (chreq _ _)); [|exact H].
  apply Forall_push_back; [exact H|].
  apply HP. apply negb_true_iff; exact E.
Qed.

Lemma getKnightMoves_line : forall g row col moves,
  (forall er ec b' ep,
     onPinLine g row col er ec ->
     P (newMove (row, col) (er, ec) b' ep false)) ->
  Forall P moves -> Forall P (snd (getKnightMoves g row col moves)).
Proof.
  intros g row col moves HP H; unfold getKnightMoves; cbv zeta; cbn [snd].
  apply knightLoop_line; [|exact H].
  intros er ec b' Hpin. apply HP. intros k Hk.
  rewrite Hk in Hpin; discriminate Hpin.
Qed.

Lemma kingLoop_line : forall row col ms g moves,
  (forall er ec b' ep, P (newMove (row, col) (er, ec) b' ep false)) ->
  Forall P moves -> Forall P (snd (kingLoop g row col ms moves)).
Proof.
  intros row col ms; induction ms as [|d rest IH]; intros g moves HP H;
    cbn [kingLoop]; [exact H|].
  cbv zeta.
  destruct (onBoard _ _); [|apply IH; assumption].
  destruct (negb (chreq _ _)); [|apply IH; assumption].
  apply IH; [exact HP|].
  destruct (negb (pciInCheck _)); [|exact H].
  apply Forall_push_back; [exact H | apply HP].
Qed.

Lemma getPawnMoves_line : forall g row col moves,
  (forall er ec b' ep,
     onPinLine g row col er ec ->
     P (newMove (row, col) (er, ec) b' ep false)) ->
  Forall P moves -> Forall P (snd (getPawnMoves g row col moves)).
Proof.
  intros g row col moves HP Hall; unfold getPawnMoves.
  cbv zeta.
  change (if whiteToMove g then -1 else 1) with (forward (whiteToMove g)).
  change (if whiteToMove g then 6 else 1) with (pawnRow (whiteToMove g)).
  assert (Hnew : forall t dc b' ep,
            (forall k, lookupPin g row col = Some k ->
               pinDirAt g k = (forward (whiteToMove g), dc)) ->
            P (newMove (row, col)
                 (row + t * forward (whiteToMove g), col + t * dc) b' ep false)).
  { intros t dc b' ep Hd. apply HP. intros k Hk.
    rewrite (Hd k Hk); cbn [fst snd]. exists t; split; lia. }
  assert (Hdir : forall dc,
            negb (match lookupPin g row col with Some _ => true | None => false end)
            || pairEq (match lookupPin g row col with
                       | Some k => pinDirAt g k | None => (0, 0) end)
                      (forward (whiteToMove g), dc) = true ->
            forall k, lookupPin g row col = Some k ->
            pinDirAt g k = (forward (whiteToMove g), dc)).
  { intros dc E k Hk. rewrite Hk in E. cbn [negb orb] in E.
    apply pairEq_eq; exact E. }
  destruct ((0 <=? row + forward (whiteToMove g))
            && (row + forward (whiteToMove g) <=? 7)) eqn:Erow; cbn [snd];
    [|exact Hall].
  peel P; [peel P; [peel P |] |].
  - exact Hall.
  - destruct (streq _ "--"); [|assumption].
    destruct (negb _ || pairEq _ (forward (whiteToMove g), 0)) eqn:E;
      [|assumption].
    pose proof (Hnew 1 0 (board g) false (Hdir 0 E)) as H1.
    pose proof (Hnew 2 0 (board g) false (Hdir 0 E)) as H2.
    replace (row + 1 * forward (whiteToMove g)) with (row + forward (whiteToMove g))
      in H1 by lia.
    replace (col + 1 * 0) with col in H1 by lia.
    replace (col + 2 * 0) with col in H2 by lia.
    destruct ((row =? pawnRow (whiteToMove g)) && _); pushes.
  - destruct (0 <=? col - 1); [|assumption].
    destruct (negb _ || pairEq _ (forward (whiteToMove g), -1)) eqn:E;
      [|assumption].
    pose proof (fun ep => Hnew 1 (-1) (board g) ep (Hdir (-1) E)) as H1.
    replace (row + 1 * forward (whiteToMove g)) with (row + forward (whiteToMove g))
      in H1 by lia.
    replace (col + 1 * -1) with (col - 1) in H1 by lia.
    split_ifs; pushes; apply H1.
  - destruct (col + 1 <=? 7); [|assumption].
    destruct (negb _ || pairEq _ (forward (whiteToMove g), 1)) eqn:E;
      [|assumption].
    pose proof (fun ep => Hnew 1 1 (board g) ep (Hdir 1 E)) as H1.
    replace (row + 1 * forward (whiteToMove g)) with (row + forward (whiteToMove g))
      in H1 by lia.
    replace (col + 1 * 1) with (col + 1) in H1 by lia.
    split_ifs; pushes; apply H1.
Qed.

End Lines.

Lemma newMove_squares : forall s e b ep c,
  startRow (newMove s e b ep c) = fst s
  /\ startCol (newMove s e b ep c) = snd s
  /\ endRow (newMove s e b ep c) = fst e
  /\ endCol (newMove s e b ep c) = snd e.
Proof. intros; repeat split. Qed.

Lemma alongPin_new : forall b P0 g row col er ec b' ep,
  pinsAt (pins g) row col = pinsAt P0 row col ->
  onPinLine g row col er ec ->
  alongPin b P0 (newMove (row, col) (er, ec) b' ep false).
Proof.
  intros b P0 g row col er ec b' ep Hpins Hline d Hd _.
  destruct (newMove_squares (row, col) (er, ec) b' ep false)
    as (E1 & E2 & E3 & E4).
  unfold keepsLine. rewrite E1, E2, E3, E4 in *. cbn [fst snd] in *.
  rewrite pinDirFound_pinsAt, <- Hpins, <- pinDirFound_pinsAt in Hd.
  unfold pinDirFound in Hd.
  change (findPin (pins g) row col (List.length (pins g)))
    with (lookupPin g row col) in Hd.
  destruct (lookupPin g row col) as [k|] eqn:E; [|discriminate Hd].
  injection Hd as <-.
  exact (Hline k E).
Qed.

Lemma alongPin_unpinned : forall b P0 m,
  pinsAt P0 (startRow m) (startCol m) = [] -> alongPin b P0 m.
Proof.
  intros b P0 m H d Hd _. rewrite pinDirFound_pinsAt, H in Hd. discriminate Hd.
Qed.

Lemma moveFunction_alongPin : forall b P0 g row col moves,
  pinsAt (pins g) row col = pinsAt P0 row col ->
  (chr (sq b row col) 1 = "K"%char -> pinsAt P0 row col = []) ->
  Forall (alongPin b P0) moves ->
  Forall (alongPin b P0)
         (snd (moveFunction (chr (sq b row col) 1) g row col moves)).
Proof.
  intros b P0 g row col moves Hpins HK H; unfold moveFunction.
  assert (Hnew : forall er ec b' ep,
            onPinLine g row col er ec ->
            alongPin b P0 (newMove (row, col) (er, ec) b' ep false)).
  { intros; apply (alongPin_new b P0 g); assumption. }
  destruct (chreq _ "p"); [apply getPawnMoves_line; assumption|].
  destruct (chreq _ "R"); [apply getRookMoves_line; assumption|].
  destruct (chreq _ "N"); [apply getKnightMoves_line; assumption|].
  destruct (chreq _ "B"); [apply getBishopMoves_line; assumption|].
  destruct (chreq _ "Q") eqn:EQ.
  { apply getQueenMoves_start; [|exact H].
    intros er ec b' ep d _ HQ. exfalso; apply HQ.
    apply chreq_eq in EQ. exact EQ. }
  destruct (chreq _ "K") eqn:EK; [|exact H].
  apply kingLoop_line; [|exact H].
  intros er ec b' ep. apply alongPin_unpinned.
  apply HK. apply chreq_eq; exact EK.
Qed.

Lemma colLoop_pins : forall cols g row moves r c,
  ~ (r = row /\ In c cols) ->
  pinsAt (pins (fst (colLoop g row cols moves))) r c = pinsAt (pins g) r c.
Proof.
  induction cols as [|col rest IH]; intros g row moves r c Hout; [reflexivity|].
  rewrite colLoop_cons.
  match goal with
  | |- context [if ?t then ?a else ?b] =>
    assert (H : pinsElsewhere (fst (if t then a else b)) g row col)
      by (destruct t; [apply moveFunction_pins | apply pinsElsewhere_refl]);
    destruct (if t then a else b) as [g1 m1]
  end.
  cbn [fst] in H.
  rewrite IH by (intros [E1 E2]; apply Hout; split; [exact E1 | right; exact E2]).
  apply H. intros E; injection E as -> ->. apply Hout; split; [reflexivity | left; reflexivity].
Qed.

Lemma colLoop_alongPin : forall b P0 row cols g moves,
  board g = b -> NoDup cols ->
  (forall c, In c cols -> pinsAt (pins g) row c = pinsAt P0 row c) ->
  (forall r c, chr (sq b r c) 1 = "K"%char -> pinsAt P0 r c = []) ->
  Forall (alongPin b P0) moves ->
  Forall (alongPin b P0) (snd (colLoop g row cols moves)).
Proof.
  intros b P0 row cols; induction cols as [|col rest IH];
    intros g moves Hb Hnd Hpins HK H; [exact H|].
  rewrite colLoop_cons.
  inversion Hnd as [|? ? Hnotin Hnd']; subst.
  match goal with
  | |- context [if ?t then ?a else ?b] =>
    assert (H1 : pinsElsewhere (fst (if t then a else b)) g row col
                 /\ sameFrame (fst (if t then a else b)) g
                 /\ Forall (alongPin (board g) P0) (snd (if t then a else b)));
      [destruct t | destruct (if t then a else b) as [g1 m1]]
  end.
  - split; [apply moveFunction_pins|]. split; [apply moveFunction_frame|].
    apply moveFunction_alongPin; [apply Hpins; left; reflexivity | apply HK | exact H].
  - split; [apply pinsElsewhere_refl|]. split; [apply sameFrame_refl | exact H].
  - cbn [fst snd] in H1. destruct H1 as (Hp & Hf & Hm).
    apply IH; try assumption.
    + destruct Hf as [Hf _]; exact Hf.
    + intros c Hc. rewrite Hp; [apply Hpins; right; exact Hc|].
      intros E; injection E as ->. contradiction.
Qed.

Lemma rowLoop_alongPin : forall b P0 rows g moves,
  board g = b -> NoDup rows ->
  (forall r c, In r rows -> pinsAt (pins g) r c = pinsAt P0 r c) ->
  (forall r c, chr (sq b r c) 1 = "K"%char -> pinsAt P0 r c = []) ->
  Forall (alongPin b P0) moves ->
  Forall (alongPin b P0) (snd (rowLoop g rows moves)).
Proof.
  intros b P0 rows; induction rows as [|row rest IH];
    intros g moves Hb Hnd Hpins HK H; [exact H|].
  rewrite rowLoop_cons.
  inversion Hnd as [|? ? Hnotin Hnd']; subst.
  assert (Hcols : NoDup zeroToSeven).
  { unfold zeroToSeven. repeat constructor; cbn [In]; lia. }
  pose proof (colLoop_alongPin (board g) P0 row zeroToSeven g moves eq_refl Hcols
                (fun c _ => Hpins row c (or_introl eq_refl)) HK H) as Hm.
  pose proof (colLoop_frame zeroToSeven g row moves) as Hf.
  pose proof (fun r c => colLoop_pins zeroToSeven g row moves r c) as Hp.
  destruct (colLoop g row zeroToSeven moves) as [g1 m1]; cbn [fst snd] in *.
  apply IH; try assumption.
  - destruct Hf as [Hf _]; exact Hf.
  - intros r c Hr. rewrite Hp; [apply Hpins; right; exact Hr|].
    intros [-> _]. contradiction.
Qed.

Lemma getAllPossibleMoves_alongPin : forall g,
  (forall r c, chr (sq (board g) r c) 1 = "K"%char -> pinsAt (pins g) r c = []) ->
  Forall (alongPin (board g) (pins g)) (snd (getAllPossibleMoves g)).
Proof.
  intros g HK; unfold getAllPossibleMoves.
  apply rowLoop_alongPin; try reflexivity; try assumption; [|constructor].
  unfold zeroToSeven. repeat constructor; cbn [In]; lia.
Qed.

(** ** The list of [getValidMoves] *)

Lemma kingPosOf_transfer : forall a b,
  sameFrame a b -> sameKings a b -> kingPosOf a = kingPosOf b.
Proof.
  intros a b (_ & Hw & _) (Hwk & Hbk); unfold kingPosOf.
  rewrite Hw, Hwk, Hbk; reflexivity.
Qed.

(** A property of the moves of [getAllPossibleMoves] that also holds of
    every move from the cached king square holds of the moves
    [getValidMoves] returns. *)
Lemma getValidMoves_parts : forall g (P : Move -> Prop),
  kingsCached g ->
  Forall P (snd (getAllPossibleMoves
                   (setPinsAndChecks g (checkForPinsAndChecks g)))) ->
  (forall m, (startRow m, startCol m) = kingPosOf g -> P m) ->
  Forall P (snd (getValidMoves g)).
Proof.
  intros g P Hk Hall Hking.
  unfold getValidMoves; cbv zeta.
  set (g0 := setPinsAndChecks g (checkForPinsAndChecks g)) in *.
  assert (Hk0 : kingsCached g0) by exact Hk.
  assert (Hcastle : forall g1 moves1,
            sameFrame g1 g0 -> sameKings g1 g0 -> Forall P moves1 ->
            Forall P
              (snd (getCastleMoves g1 (fst (kingPosOf g1)) (snd (kingPosOf g1))
                      moves1))).
  { intros g1 moves1 Hf Hks Hm.
    apply getCastleMoves_castle; [|exact Hm].
    intros m (_ & _ & _ & Hstart & _). apply Hking.
    rewrite Hstart, <- surjective_pairing.
    apply (kingPosOf_transfer g1 g0); assumption. }
  match goal with
  | |- Forall P (snd (let '(g3, moves) := ?X in _)) =>
    assert (H : Forall P (snd X)); [|destruct X as [g3 moves]; exact H]
  end.
  pose proof (getAllPossibleMoves_frame g0) as Hf.
  pose proof (getAllPossibleMoves_kings g0 Hk0) as Hks.
  destruct (inCheck g0).
  - destruct (size (checks g0) =? 1).
    + destruct (getAllPossibleMoves g0) as [g1 all]; cbn [fst snd] in *.
      cbv zeta. apply Hcastle; try assumption.
      apply Forall_filter_keep; exact Hall.
    + pose proof (kingLoop_start (fst (kingPosOf g0)) (snd (kingPosOf g0))
                    kingOffsets g0 [] (Forall_nil _)) as Hm.
      assert (Hst : fst (getKingMoves g0 (fst (kingPosOf g0))
                           (snd (kingPosOf g0)) []) = g0).
      { unfold getKingMoves; apply kingLoop_restores.
        apply surjective_pairing. }
      change (kingLoop g0 (fst (kingPosOf g0)) (snd (kingPosOf g0)) kingOffsets [])
        with (getKingMoves g0 (fst (kingPosOf g0)) (snd (kingPosOf g0)) []) in Hm.
      destruct (getKingMoves g0 _ _ []) as [g1 moves1]; cbn [fst snd] in *.
      subst g1.
      apply Hcastle; [apply sameFrame_refl | apply sameKings_refl |].
      eapply Forall_impl; [|exact Hm].
      intros m Hstart. apply Hking. rewrite Hstart, <- surjective_pairing.
      reflexivity.
  - destruct (getAllPossibleMoves g0) as [g1 all]; cbn [fst snd] in *.
    apply Hcastle; assumption.
Qed.

Lemma direction_listed : forall j d,
  0 <= j <= 7 -> zth directions8 j (0, 0) = d -> In d directions8.
Proof.
  intros j d Hj <-.
  assert (E : j = 0 \/ j = 1 \/ j = 2 \/ j = 3 \/ j = 4 \/ j = 5 \/ j = 6 \/ j = 7)
    by lia.
  repeat (destruct E as [->|E]; [cbn; tauto|]). subst j; cbn; tauto.
Qed.

Lemma pinLine_direction : forall g p,
  pinLine g p ->
  In (dirRow p, dirCol p) directions8
  /\ exists i, 1 <= i
     /\ (pinRow p, pinCol p) = fromKing g (dirRow p, dirCol p) i.
Proof.
  intros g p (j & i & i' & Hj & Hd & Hi & _ & _ & Hsq & _).
  split; [exact (direction_listed j _ Hj Hd)|].
  exists i; split; assumption.
Qed.

Ltac each_direction H :=
  cbn [In directions8] in H;
  repeat (destruct H as [H|H]; [injection H as <- <-|]); [..|contradiction].

(** Two recorded pins on one square have the same direction. *)
Lemma pinLine_unique : forall g p q,
  pinLine g p -> pinLine g q ->
  (pinRow p, pinCol p) = (pinRow q, pinCol q) ->
  (dirRow p, dirCol p) = (dirRow q, dirCol q).
Proof.
  intros g p q Hp Hq E.
  destruct (pinLine_direction g p Hp) as (Dp & i & Hi & Sp).
  destruct (pinLine_direction g q Hq) as (Dq & i' & Hi' & Sq).
  rewrite Sp, Sq in E. unfold fromKing in E.
  revert Dp Dq E.
  generalize (dirRow p) (dirCol p) (dirRow q) (dirCol q).
  intros a b c d Dp Dq E. cbn [fst snd] in E.
  injection E as E1 E2.
  each_direction Dp; each_direction Dq;
    first [reflexivity | exfalso; lia].
Qed.

(** No recorded pin lies on the cached king square. *)
Lemma pinLine_off_king : forall g p,
  pinLine g p -> (pinRow p, pinCol p) <> kingPosOf g.
Proof.
  intros g p Hp E.
  destruct (pinLine_direction g p Hp) as (Dp & i & Hi & Sp).
  rewrite Sp in E. unfold fromKing in E.
  rewrite (surjective_pairing (kingPosOf g)) in E at 3.
  revert Dp E. generalize (dirRow p) (dirCol p). intros a b Dp E.
  cbn [fst snd] in E. injection E as E1 E2.
  each_direction Dp; lia.
Qed.

Lemma filter_none : forall (A : Type) (f : A -> bool) l,
  (forall x, In x l -> f x = false) -> filter f l = [].
Proof.
  intros A f l; induction l as [|a t IH]; intros H; [reflexivity|].
  cbn [filter]. rewrite (H a (or_introl eq_refl)).
  apply IH. intros x Hx; apply H; right; exact Hx.
Qed.

Lemma pinMatches_square : forall r c p,
  pinMatches r c p = true -> (pinRow p, pinCol p) = (r, c).
Proof.
  intros r c p H; unfold pinMatches in H.
  apply andb_prop in H; destruct H as [H1 H2].
  apply Z.eqb_eq in H1, H2. congruence.
Qed.

Lemma pinsAt_none : forall ps r c,
  (forall p, In p ps -> (pinRow p, pinCol p) <> (r, c)) ->
  pinsAt ps r c = [].
Proof.
  intros ps r c H. apply filter_none. intros p Hin.
  destruct (pinMatches r c p) eqn:E; [|reflexivity].
  exfalso. exact (H p Hin (pinMatches_square r c p E)).
Qed.

(** The direction the generators find for a square is the direction of
    any pin recorded on it. *)
Lemma pinDirFound_recorded : forall g ps p,
  Forall (pinLine g) ps -> In p ps ->
  pinDirFound ps (pinRow p) (pinCol p) = Some (dirRow p, dirCol p).
Proof.
  intros g ps p Hall Hin.
  rewrite pinDirFound_pinsAt.
  assert (Hp : In p (pinsAt ps (pinRow p) (pinCol p))).
  { apply filter_In. split; [exact Hin|].
    unfold pinMatches; rewrite !Z.eqb_refl; reflexivity. }
  destruct (pinsAt ps (pinRow p) (pinCol p)) as [|q0 l] eqn:E; [destruct Hp|].
  unfold lastDir.
  assert (Hq : In (last (q0 :: l) defaultPin) (pinsAt ps (pinRow p) (pinCol p))).
  { rewrite E. destruct (exists_last (l := q0 :: l)) as (l' & x & ->);
      [discriminate|].
    rewrite last_last. apply in_or_app; right; left; reflexivity. }
  apply filter_In in Hq. destruct Hq as [Hq1 Hq2].
  rewrite Forall_forall in Hall.
  f_equal. symmetry.
  apply (pinLine_unique g p _ (Hall p Hin) (Hall _ Hq1)).
  symmetry. apply pinMatches_square; exact Hq2.
Qed.

(** Where the king caches are accurate, every move [getValidMoves]
    returns respects the pins [checkForPinsAndChecks] records. *)
Lemma getValidMoves_alongPin : forall g,
  kingsCached g ->
  Forall (alongPin (board g) (pciPins (checkForPinsAndChecks g)))
         (snd (getValidMoves g)).
Proof.
  intros g Hk.
  destruct (checkForPinsAndChecks_lines g) as [Hlines _].
  rewrite Forall_forall in Hlines.
  apply getValidMoves_parts; [exact Hk | |].
  - apply (getAllPossibleMoves_alongPin
             (setPinsAndChecks g (checkForPinsAndChecks g))).
    intros r c HK. apply pinsAt_none. intros p Hin E.
    destruct (Hlines p Hin) as (j & i & i' & _ & _ & _ & _ & _ & _ & Hok & _).
    destruct Hok as (_ & _ & Hnk). apply Hnk.
    injection E as -> ->. exact HK.
  - intros m Hstart. apply alongPin_unpinned. apply pinsAt_none.
    intros p Hin E. apply (pinLine_off_king g p (Hlines p Hin)).
    rewrite E, <- Hstart. reflexivity.
Qed.

Lemma codedb_sound : forall b, codedb b = true -> coded b.
Proof.
  intros b H r c Hon.
  destruct (on_board_cases r c Hon) as [Hr Hc].
  unfold codedb in H. rewrite forallb_forall in H.
  specialize (H r Hr). rewrite forallb_forall in H. specialize (H c Hc).
  apply orb_prop in H. destruct H as [H|H]; [apply orb_prop in H; destruct H as [H|H]|].
  - left; apply streq_eq; exact H.
  - right; left; apply chreq_eq; exact H.
  - right; right; apply chreq_eq; exact H.
Qed.

Lemma kingsApartb_sound : forall g, kingsApartb g = true -> kingsApart g.
Proof.
  intros g H; apply orb_prop in H; destruct H as [H|H]; apply Z.ltb_lt in H;
    [left | right]; exact H.
Qed.

(** ** The generators only add moves *)

Section Keeps.

Variable m : Move.

Lemma push_back_keeps : forall (l : list Move) x, In m l -> In m (push_back l x).
Proof. intros l x H; unfold push_back; apply in_or_app; left; exact H. Qed.

Lemma push_back_last : forall (l : list Move) x, In x (push_back l x).
Proof. intros l x; unfold push_back; apply in_or_app; right; left; reflexivity. Qed.

Lemma rayMoves_keeps : forall g row col pinned pd d dists moves,
  In m moves -> In m (rayMoves g row col pinned pd d dists moves).
Proof.
  intros g row col pinned pd d dists; induction dists as [|i rest IH];
    intros moves H; cbn [rayMoves]; [exact H|].
  cbv zeta.
  destruct (onBoard _ _); [|exact H].
  destruct (_ || _); [|apply IH; exact H].
  destruct (streq _ "--"); [apply IH, push_back_keeps; exact H|].
  destruct (chreq _ _); [apply push_back_keeps|]; exact H.
Qed.

Lemma slideMoves_keeps : forall g row col pinned pd ds moves,
  In m moves -> In m (slideMoves g row col pinned pd ds moves).
Proof.
  intros g row col pinned pd ds; induction ds as [|d rest IH];
    intros moves H; cbn [slideMoves]; [exact H|].
  apply IH, rayMoves_keeps; exact H.
Qed.

Lemma knightLoop_keeps : forall g row col pinned ms moves,
  In m moves -> In m (knightLoop g row col pinned ms moves).
Proof.
  intros g row col pinned ms; induction ms as [|o rest IH];
    intros moves H; cbn [knightLoop]; [exact H|].
  cbv zeta. apply IH.
  destruct (onBoard _ _); [|exact H].
  destruct (negb pinned); [|exact H].
  destruct (negb (chreq _ _)); [apply push_back_keeps|]; exact H.
Qed.

Lemma kingLoop_keeps : forall ms g row col moves,
  In m moves -> In m (snd (kingLoop g row col ms moves)).
Proof.
  induction ms as [|o rest IH]; intros g row col moves H; cbn [kingLoop];
    [exact H|].
  cbv zeta.
  destruct (onBoard _ _); [|apply IH; exact H].
  destruct (negb (chreq _ _)); [|apply IH; exact H].
  apply IH. destruct (negb (pciInCheck _)); [apply push_back_keeps|]; exact H.
Qed.

Lemma getPawnMoves_keeps : forall g row col moves,
  In m moves -> In m (snd (getPawnMoves g row col moves)).
Proof.
  intros g row col moves H; unfold getPawnMoves. cbv zeta.
  change (if whiteToMove g then -1 else 1) with (forward (whiteToMove g)).
  change (if whiteToMove g then 6 else 1) with (pawnRow (whiteToMove g)).
  destruct ((0 <=? row + forward (whiteToMove g))
            && (row + forward (whiteToMove g) <=? 7)); cbn [snd]; [|exact H].
  match goal with
  | |- In m (if _ then _ else ?M) =>
    assert (H2 : In m M); [|revert H2; generalize M; intros l2 H2]
  end.
  { match goal with
    | |- In m (if _ then _ else ?M) =>
      assert (H1 : In m M); [|revert H1; generalize M; intros l1 H1]
    end.
    - split_ifs; repeat apply push_back_keeps; exact H.
    - split_ifs; repeat apply push_back_keeps; exact H1. }
  split_ifs; repeat apply push_back_keeps; exact H2.
Qed.

Lemma getRookMoves_keeps : forall g row col moves,
  In m moves -> In m (snd (getRookMoves g row col moves)).
Proof. intros; unfold getRookMoves; cbv zeta; cbn [snd]; apply slideMoves_keeps; assumption. Qed.

Lemma getBishopMoves_keeps : forall g row col moves,
  In m moves -> In m (snd (getBishopMoves g row col moves)).
Proof. intros; unfold getBishopMoves; cbv zeta; cbn [snd]; apply slideMoves_keeps; assumption. Qed.

Lemma getKnightMoves_keeps : forall g row col moves,
  In m moves -> In m (snd (getKnightMoves g row col moves)).
Proof. intros; unfold getKnightMoves; cbv zeta; cbn [snd]; apply knightLoop_keeps; assumption. Qed.

Lemma getQueenMoves_keeps : forall g row col moves,
  In m moves -> In m (snd (getQueenMoves g row col moves)).
Proof.
  intros g row col moves H; unfold getQueenMoves.
  pose proof (getBishopMoves_keeps g row col moves H) as HB.
  destruct (getBishopMoves g row col moves) as [g1 m1]; cbn [snd] in HB.
  apply getRookMoves_keeps; exact HB.
Qed.

Lemma moveFunction_keeps : forall piece g row col moves,
  In m moves -> In m (snd (moveFunction piece g row col moves)).
Proof.
  intros piece g row col moves H; unfold moveFunction.
  destruct (chreq piece "p"); [apply getPawnMoves_keeps; exact H|].
  destruct (chreq piece "R"); [apply getRookMoves_keeps; exact H|].
  destruct (chreq piece "N"); [apply getKnightMoves_keeps; exact H|].
  destruct (chreq piece "B"); [apply getBishopMoves_keeps; exact H|].
  destruct (chreq piece "Q"); [apply getQueenMoves_keeps; exact H|].
  destruct (chreq piece "K"); [apply kingLoop_keeps; exact H | exact H].
Qed.

Lemma colLoop_keeps : forall cols g row moves,
  In m moves -> In m (snd (colLoop g row cols moves)).
Proof.
  induction cols as [|col rest IH]; intros g row moves H; [exact H|].
  rewrite colLoop_cons.
  match goal with
  | |- context [if ?t then ?a else ?b] =>
    assert (H1 : In m (snd (if t then a else b)))
      by (destruct t; [apply moveFunction_keeps; exact H | exact H]);
    destruct (if t then a else b) as [g1 m1]
  end.
  apply IH; exact H1.
Qed.

Lemma rowLoop_keeps : forall rows g moves,
  In m moves -> In m (snd (rowLoop g rows moves)).
Proof.
  induction rows as [|row rest IH]; intros g moves H; [exact H|].
  rewrite rowLoop_cons.
  pose proof (colLoop_keeps zeroToSeven g row moves H) as H1.
  destruct (colLoop g row zeroToSeven moves) as [g1 m1].
  apply IH; exact H1.
Qed.

End Keeps.

(** ** The generators never add a pin *)

Lemma remove_nth_incl : forall (A : Type) (l : list A) k, incl (remove_nth l k) l.
Proof.
  intros A l; induction l as [|a t IH]; intros k x H; destruct k;
    cbn [remove_nth] in H; try exact H.
  - right; exact H.
  - destruct H as [H|H]; [left; exact H | right; exact (IH k x H)].
Qed.

Lemma removeAt_incl : forall (A : Type) (l : list A) i, incl (removeAt l i) l.
Proof.
  intros A l i; unfold removeAt. destruct (i <? 0);
    [apply incl_refl | apply remove_nth_incl].
Qed.

Lemma getPawnMoves_fewer_pins : forall g row col moves,
  incl (pins (fst (getPawnMoves g row col moves))) (pins g).
Proof.
  intros; unfold getPawnMoves.
  destruct ((0 <=? row + (if whiteToMove g then -1 else 1))
            && (row + (if whiteToMove g then -1 else 1) <=? 7))%bool;
    destruct (lookupPin g row col); cbn [fst];
    first [apply removeAt_incl | apply incl_refl].
Qed.

Lemma getRookMoves_fewer_pins : forall g row col moves,
  incl (pins (fst (getRookMoves g row col moves))) (pins g).
Proof.
  intros; unfold getRookMoves.
  destruct (lookupPin g row col); cbn [fst]; [|apply incl_refl].
  destruct (negb _); [apply removeAt_incl | apply incl_refl].
Qed.

Lemma getBishopMoves_fewer_pins : forall g row col moves,
  incl (pins (fst (getBishopMoves g row col moves))) (pins g).
Proof.
  intros; unfold getBishopMoves.
  destruct (lookupPin g row col); cbn [fst];
    [apply removeAt_incl | apply incl_refl].
Qed.

Lemma getKnightMoves_fewer_pins : forall g row col moves,
  incl (pins (fst (getKnightMoves g row col moves))) (pins g).
Proof.
  intros; unfold getKnightMoves.
  destruct (lookupPin g row col); cbn [fst];
    [apply removeAt_incl | apply incl_refl].
Qed.

Lemma moveFunction_fewer_pins : forall piece g row col moves,
  incl (pins (fst (moveFunction piece g row col moves))) (pins g).
Proof.
  intros; unfold moveFunction.
  destruct (chreq piece "p"); [apply getPawnMoves_fewer_pins|].
  destruct (chreq piece "R"); [apply getRookMoves_fewer_pins|].
  destruct (chreq piece "N"); [apply getKnightMoves_fewer_pins|].
  destruct (chreq piece "B"); [apply getBishopMoves_fewer_pins|].
  destruct (chreq piece "Q").
  { unfold getQueenMoves.
    pose proof (getBishopMoves_fewer_pins g row col moves) as HB.
    destruct (getBishopMoves g row col moves) as [g1 m1]; cbn [fst] in HB.
    eapply incl_tran; [apply getRookMoves_fewer_pins | exact HB]. }
  destruct (chreq piece "K"); [|apply incl_refl].
  unfold getKingMoves. rewrite kingLoop_pins. apply incl_refl.
Qed.

Lemma colLoop_fewer_pins : forall cols g row moves,
  incl (pins (fst (colLoop g row cols moves))) (pins g).
Proof.
  induction cols as [|col rest IH]; intros g row moves; [apply incl_refl|].
  rewrite colLoop_cons.
  match goal with
  | |- context [if ?t then ?a else ?b] =>
    assert (H1 : incl (pins (fst (if t then a else b))) (pins g))
      by (destruct t; [apply moveFunction_fewer_pins | apply incl_refl]);
    destruct (if t then a else b) as [g1 m1]
  end.
  eapply incl_tran; [apply IH | exact H1].
Qed.

Lemma rowLoop_fewer_pins : forall rows g moves,
  incl (pins (fst (rowLoop g rows moves))) (pins g).
Proof.
  induction rows as [|row rest IH]; intros g moves; [apply incl_refl|].
  rewrite rowLoop_cons.
  pose proof (colLoop_fewer_pins zeroToSeven g row moves) as H1.
  destruct (colLoop g row zeroToSeven moves) as [g1 m1].
  eapply incl_tran; [apply IH | exact H1].
Qed.

(** ** Moves an unpinned piece is sure to get *)

Lemma enemy_not_empty : forall h s,
  chr s 0 = chr (enemyColorOf h) 0 -> streq s "--" = false.
Proof.
  intros h s H. destruct (streq s "--") eqn:E; [|reflexivity].
  apply streq_eq in E; subst s.
  unfold enemyColorOf in H; destruct (whiteToMove h); discriminate H.
Qed.

Lemma chreq_refl : forall a, chreq a a = true.
Proof. intros a; apply Ascii.eqb_refl. Qed.

Lemma rayMoves_reaches : forall h row col pd e i len n moves,
  n <= i -> i < n + Z.of_nat len ->
  (forall k, n <= k < i ->
     onBoard (row + fst e * k) (col + snd e * k) = true
     /\ sq (board h) (row + fst e * k) (col + snd e * k) = "--") ->
  onBoard (row + fst e * i) (col + snd e * i) = true ->
  chr (sq (board h) (row + fst e * i) (col + snd e * i)) 0
  = chr (enemyColorOf h) 0 ->
  In (newMove (row, col) (row + fst e * i, col + snd e * i) (board h) false false)
     (rayMoves h row col false pd e (countFrom n len) moves).
Proof.
  intros h row col pd e i len; induction len as [|len IH];
    intros n moves Hn Hi Hfree Hon Henemy; [cbn in Hi; lia|].
  cbn [countFrom rayMoves]. cbv zeta. cbn [negb orb].
  destruct (Z.eq_dec n i) as [->|Hne].
  - rewrite Hon, (enemy_not_empty h _ Henemy), Henemy, chreq_refl.
    apply push_back_last.
  - destruct (Hfree n) as [Hon' Hempty]; [lia|].
    rewrite Hon', Hempty.
    change (streq "--" "--") with true. cbv iota.
    apply IH; try assumption; try lia.
    intros k Hk; apply Hfree; lia.
Qed.

Lemma slideMoves_reaches : forall h row col pd e i ds moves,
  In e ds -> 1 <= i <= 7 ->
  (forall k, 1 <= k < i ->
     onBoard (row + fst e * k) (col + snd e * k) = true
     /\ sq (board h) (row + fst e * k) (col + snd e * k) = "--") ->
  onBoard (row + fst e * i) (col + snd e * i) = true ->
  chr (sq (board h) (row + fst e * i) (col + snd e * i)) 0
  = chr (enemyColorOf h) 0 ->
  In (newMove (row, col) (row + fst e * i, col + snd e * i) (board h) false false)
     (slideMoves h row col false pd ds moves).
Proof.
  intros h row col pd e i ds; induction ds as [|d rest IH];
    intros moves Hin Hi Hfree Hon Henemy; [destruct Hin|].
  cbn [slideMoves].
  destruct Hin as [->|Hin]; [|apply IH; assumption].
  apply slideMoves_keeps. rewrite oneToSeven_countFrom.
  apply rayMoves_reaches; try assumption; cbn; lia.
Qed.

Lemma knightLoop_reaches : forall h row col o ms moves,
  In o ms ->
  onBoard (row + fst o) (col + snd o) = true ->
  chr (sq (board h) (row + fst o) (col + snd o)) 0 <> chr (teamColorOf h) 0 ->
  In (newMove (row, col) (row + fst o, col + snd o) (board h) false false)
     (knightLoop h row col false ms moves).
Proof.
  intros h row col o ms; induction ms as [|x rest IH];
    intros moves Hin Hon Hteam; [destruct Hin|].
  cbn [knightLoop]. cbv zeta. cbn [negb].
  destruct Hin as [->|Hin]; [|apply IH; assumption].
  apply knightLoop_keeps. rewrite Hon.
  destruct (chreq _ _) eqn:E; [apply chreq_eq in E; contradiction|].
  cbn [negb]. apply push_back_last.
Qed.

Lemma getPawnMoves_captures : forall h row col dc moves,
  lookupPin h row col = None ->
  dc = -1 \/ dc = 1 ->
  onBoard (row + forward (whiteToMove h)) (col + dc) = true ->
  chr (sq (board h) (row + forward (whiteToMove h)) (col + dc)) 0
  = chr (enemyColorOf h) 0 ->
  In (newMove (row, col) (row + forward (whiteToMove h), col + dc)
        (board h) false false)
     (snd (getPawnMoves h row col moves)).
Proof.
  intros h row col dc moves Hunp Hdc Hon Henemy.
  unfold getPawnMoves. rewrite Hunp. cbv zeta.
  change (if whiteToMove h then -1 else 1) with (forward (whiteToMove h)).
  change (if whiteToMove h then 6 else 1) with (pawnRow (whiteToMove h)).
  cbn [negb orb].
  pose proof Hon as Hb. apply onBoard_spec in Hb.
  replace (0 <=? row + forward (whiteToMove h)) with true
    by (symmetry; apply Z.leb_le; lia).
  replace (row + forward (whiteToMove h) <=? 7) with true
    by (symmetry; apply Z.leb_le; lia).
  cbn [andb snd].
  destruct Hdc as [-> | ->].
  - change (col + -1) with (col - 1) in *.
    replace (0 <=? col - 1) with true by (symmetry; apply Z.leb_le; lia).
    rewrite Henemy, chreq_refl.
    split_ifs; repeat first [apply push_back_last | apply push_back_keeps].
  - replace (col + 1 <=? 7) with true by (symmetry; apply Z.leb_le; lia).
    rewrite Henemy, chreq_refl.
    split_ifs; repeat first [apply push_back_last | apply push_back_keeps].
Qed.

(** ** A move one square is sure to contribute reaches the list *)

Section Reach.

Variables (m0 : Move) (r c : Z) (Inv : GameState -> Prop).

Hypothesis Inv_kept : forall h h',
  Inv h -> sameFrame h' h -> incl (pins h') (pins h) -> Inv h'.

Hypothesis Inv_turn : forall h, Inv h ->
  (chreq (chr (sq (board h) r c) 0) "w" && whiteToMove h)
  || (chreq (chr (sq (board h) r c) 0) "b" && negb (whiteToMove h)) = true.

Hypothesis Inv_move : forall h moves, Inv h ->
  In m0 (snd (moveFunction (chr (sq (board h) r c) 1) h r c moves)).

Lemma colLoop_reaches : forall cols h moves,
  Inv h -> In c cols -> In m0 (snd (colLoop h r cols moves)).
Proof.
  induction cols as [|col rest IH]; intros h moves Hinv Hin; [destruct Hin|].
  rewrite colLoop_cons.
  destruct (Z.eq_dec col c) as [->|Hne].
  - rewrite (Inv_turn h Hinv).
    pose proof (Inv_move h moves Hinv) as H1.
    destruct (moveFunction _ h r c moves) as [g1 m1]; cbn [snd] in H1.
    apply colLoop_keeps; exact H1.
  - destruct Hin as [E|Hin]; [contradiction|].
    match goal with
    | |- context [if ?t then ?a else ?b] =>
      assert (H1 : sameFrame (fst (if t then a else b)) h
                   /\ incl (pins (fst (if t then a else b))) (pins h))
        by (destruct t;
            [split; [apply moveFunction_frame | apply moveFunction_fewer_pins]
            | split; [apply sameFrame_refl | apply incl_refl]]);
      destruct (if t then a else b) as [g1 m1]
    end.
    cbn [fst] in H1. destruct H1 as [Hf Hp].
    apply IH; [exact (Inv_kept h g1 Hinv Hf Hp) | exact Hin].
Qed.

Lemma rowLoop_reaches : forall rows h moves,
  Inv h -> In r rows -> In c zeroToSeven ->
  In m0 (snd (rowLoop h rows moves)).
Proof.
  induction rows as [|row rest IH]; intros h moves Hinv Hin Hc; [destruct Hin|].
  rewrite rowLoop_cons.
  destruct (Z.eq_dec row r) as [->|Hne].
  - pose proof (colLoop_reaches zeroToSeven h moves Hinv Hc) as H1.
    destruct (colLoop h r zeroToSeven moves) as [g1 m1]; cbn [snd] in H1.
    apply rowLoop_keeps; exact H1.
  - destruct Hin as [E|Hin]; [contradiction|].
    pose proof (colLoop_frame zeroToSeven h row moves) as Hf.
    pose proof (colLoop_fewer_pins zeroToSeven h row moves) as Hp.
    destruct (colLoop h row zeroToSeven moves) as [g1 m1]; cbn [fst] in Hf, Hp.
    apply IH; [exact (Inv_kept h g1 Hinv Hf Hp) | exact Hin | exact Hc].
Qed.

End Reach.

(** ** A recorded check is an attack on the king square *)

Lemma opposite_kept : forall g h h',
  opposite g h -> sameFrame h' h -> incl (pins h') (pins h) -> opposite g h'.
Proof.
  intros g h h' (Hb & Hw & Hp) (Fb & Fw & _) Hincl.
  split; [congruence|]. split; [congruence|].
  apply Forall_forall; intros p Hin. rewrite Forall_forall in Hp.
  apply Hp, Hincl, Hin.
Qed.

Lemma lookupPin_none : forall h r c,
  (forall p, In p (pins h) -> (pinRow p, pinCol p) <> (r, c)) ->
  lookupPin h r c = None.
Proof.
  intros h r c H. unfold lookupPin.
  destruct (findPin (pins h) r c (List.length (pins h))) as [k|] eqn:E;
    [|reflexivity].
  destruct (findPin_found _ _ _ _ _ E) as [Hk Hm].
  exfalso. apply (H (nth k (pins h) defaultPin));
    [apply nth_In; exact Hk | apply pinMatches_square; exact Hm].
Qed.

Lemma enemy_colors : forall g, chr (enemyColorOf g) 0 <> chr (teamColorOf g) 0.
Proof. intros g; unfold enemyColorOf, teamColorOf; destruct (whiteToMove g); discriminate. Qed.

Lemma opposite_colors : forall g h,
  opposite g h ->
  teamColorOf h = enemyColorOf g /\ enemyColorOf h = teamColorOf g.
Proof.
  intros g h (_ & Hw & _); unfold teamColorOf, enemyColorOf; rewrite Hw.
  destruct (whiteToMove g); split; reflexivity.
Qed.

Lemma opposite_unpinned : forall g h r c,
  opposite g h -> chr (sq (board g) r c) 0 = chr (enemyColorOf g) 0 ->
  lookupPin h r c = None.
Proof.
  intros g h r c (_ & _ & Hp) He. apply lookupPin_none. intros p Hin E.
  rewrite Forall_forall in Hp. destruct (Hp p Hin) as (_ & Ht & _).
  injection E as E1 E2. rewrite E1, E2 in Ht.
  apply (enemy_colors g). congruence.
Qed.

Lemma opposite_turn : forall g h r c,
  opposite g h -> chr (sq (board g) r c) 0 = chr (enemyColorOf g) 0 ->
  (chreq (chr (sq (board h) r c) 0) "w" && whiteToMove h)
  || (chreq (chr (sq (board h) r c) 0) "b" && negb (whiteToMove h)) = true.
Proof.
  intros g h r c (Hb & Hw & _) H. rewrite Hb, Hw, H.
  unfold enemyColorOf. destruct (whiteToMove g); reflexivity.
Qed.

Lemma passable_empty : forall g r c,
  coded (board g) -> kingsCached g -> onBoard r c = true ->
  (r, c) <> kingPosOf g -> passable g r c -> sq (board g) r c = "--".
Proof.
  intros g r c Hcoded Hk Hon Hne [Hp1 Hp2].
  destruct (Hcoded r c Hon) as [E | E]; [exact E|]. exfalso.
  unfold teamColorOf, enemyColorOf, kingPosOf in *.
  destruct (whiteToMove g); destruct E as [E|E]; rewrite E in Hp1, Hp2;
    try discriminate Hp2.
  - cbn [andb] in Hp1. change (chreq (chr "w" 0) "w") with true in Hp1.
    cbn [andb] in Hp1. apply negb_false_iff in Hp1.
    destruct (Hk r c Hp1) as [Hw _]. apply Hne. symmetry; apply Hw.
    rewrite E; reflexivity.
  - change (chreq (chr "b" 0) "b") with true in Hp1.
    cbn [andb] in Hp1. apply negb_false_iff in Hp1.
    destruct (Hk r c Hp1) as [_ Hb]. apply Hne. symmetry; apply Hb.
    rewrite E; reflexivity.
Qed.

Lemma king_is_enemy : forall g h,
  kingStands g -> opposite g h ->
  chr (sq (board h) (fst (kingPosOf g)) (snd (kingPosOf g))) 0
  = chr (enemyColorOf h) 0.
Proof.
  intros g h [_ Hs] Ho. destruct (opposite_colors g h Ho) as [_ He].
  destruct Ho as (Hb & _). rewrite Hb, Hs, He.
  unfold teamColorOf; destruct (whiteToMove g); reflexivity.
Qed.

Section Attack.

Variables (g : GameState).
Hypothesis Hcoded : coded (board g).
Hypothesis Hcached : kingsCached g.
Hypothesis Hstands : kingStands g.

(** The capture of the king an unpinned rook, bishop or queen gets along
    direction [d] reversed. *)
Lemma slider_attack : forall d i r c ds h pd moves,
  In d directions8 -> 1 <= i <= 7 ->
  r = fst (kingPosOf g) + fst d * i -> c = snd (kingPosOf g) + snd d * i ->
  onBoard r c = true ->
  (forall k, 1 <= k < i ->
     passable g (fst (fromKing g d k)) (snd (fromKing g d k))) ->
  In (- fst d, - snd d) ds ->
  opposite g h ->
  In (newMove (r, c) (kingPosOf g) (board g) false false)
     (slideMoves h r c false pd ds moves).
Proof.
  intros [dr dc] i r c ds h pd moves Hd Hi Hr Hc Hon Hfree Hds Ho.
  cbn [fst snd] in *.
  pose proof (king_is_enemy g h Hstands Ho) as Hking.
  pose proof Hstands as [Hkon _].
  pose proof Ho as (Hb & _).
  rewrite (surjective_pairing (kingPosOf g)).
  replace (newMove (r, c) (fst (kingPosOf g), snd (kingPosOf g)) (board g)
             false false)
    with (newMove (r, c) (r + fst (- dr, - dc) * i,
                          c + snd (- dr, - dc) * i) (board h) false false)
    by (rewrite Hb; cbn [fst snd]; do 2 f_equal; f_equal; lia).
  apply slideMoves_reaches; try assumption.
  - intros k Hk. cbn [fst snd].
    replace (r + - dr * k) with (fst (fromKing g (dr, dc) (i - k)))
      by (unfold fromKing; cbn [fst snd]; lia).
    replace (c + - dc * k) with (snd (fromKing g (dr, dc) (i - k)))
      by (unfold fromKing; cbn [fst snd]; lia).
    specialize (Hfree (i - k)).
    assert (Hon' : onBoard (fst (fromKing g (dr, dc) (i - k)))
                           (snd (fromKing g (dr, dc) (i - k))) = true).
    { unfold fromKing; cbn [fst snd]. apply onBoard_spec.
      apply onBoard_spec in Hon, Hkon. subst r c.
      each_direction Hd; cbn [fst snd] in *; lia. }
    split; [exact Hon'|]. rewrite Hb.
    apply passable_empty; try assumption; [|apply Hfree; lia].
    intros E. pose proof (f_equal fst E) as E1.
    pose proof (f_equal snd E) as E2.
    unfold fromKing in E1, E2. cbn [fst snd] in E1, E2.
    each_direction Hd; cbn [fst snd] in *; lia.
  - cbn [fst snd].
    replace (r + - dr * i) with (fst (kingPosOf g)) by lia.
    replace (c + - dc * i) with (snd (kingPosOf g)) by lia.
    exact Hkon.
  - cbn [fst snd].
    replace (r + - dr * i) with (fst (kingPosOf g)) by lia.
    replace (c + - dc * i) with (snd (kingPosOf g)) by lia.
    exact Hking.
Qed.

End Attack.

Lemma moveFunction_pawn : forall h r c moves,
  moveFunction "p" h r c moves = getPawnMoves h r c moves.
Proof. reflexivity. Qed.

Lemma moveFunction_rook : forall h r c moves,
  moveFunction "R" h r c moves = getRookMoves h r c moves.
Proof. reflexivity. Qed.

Lemma moveFunction_knight : forall h r c moves,
  moveFunction "N" h r c moves = getKnightMoves h r c moves.
Proof. reflexivity. Qed.

Lemma moveFunction_bishop : forall h r c moves,
  moveFunction "B" h r c moves = getBishopMoves h r c moves.
Proof. reflexivity. Qed.

Lemma moveFunction_queen : forall h r c moves,
  moveFunction "Q" h r c moves = getQueenMoves h r c moves.
Proof. reflexivity. Qed.

Ltac direction_number j Hz :=
  let E := fresh in
  assert (E : j = 0 \/ j = 1 \/ j = 2 \/ j = 3 \/ j = 4 \/ j = 5 \/ j = 6 \/ j = 7)
    by lia;
  repeat (destruct E as [E|E]; [subst j; try lia; vm_compute in Hz;
                                injection Hz as <- <-|]);
  [..|subst j; try lia; vm_compute in Hz; injection Hz as <- <-].

Section Check.

Variables (g : GameState).
Hypothesis Hcoded : coded (board g).
Hypothesis Hcached : kingsCached g.
Hypothesis Hstands : kingStands g.
Hypothesis Hapart : kingsApart g.

Lemma king_target : forall h r c er ec,
  opposite g h -> (er, ec) = kingPosOf g ->
  newMove (r, c) (kingPosOf g) (board g) false false
  = newMove (r, c) (er, ec) (board h) false false.
Proof. intros h r c er ec (Hb & _) E; rewrite Hb, E; reflexivity. Qed.

Lemma check_attack : forall p h moves,
  checkLine g p -> opposite g h ->
  In (newMove (pinRow p, pinCol p) (kingPosOf g) (board g) false false)
     (snd (moveFunction (chr (sq (board h) (pinRow p) (pinCol p)) 1) h
             (pinRow p) (pinCol p) moves)).
Proof.
  intros [r c dr dc] h moves [Hok Hline] Ho.
  cbn [pinRow pinCol dirRow dirCol] in *.
  destruct Hok as [Hon Henemy]; cbn [pinRow pinCol] in Hon, Henemy.
  pose proof (opposite_unpinned g h r c Ho Henemy) as Hunp.
  pose proof (king_is_enemy g h Hstands Ho) as Hking.
  pose proof Hstands as [Hkon _].
  pose proof Ho as (Hb & Hw & _). rewrite Hb.
  destruct Hline as [(j & i & Hj & Hz & Hi & Hsq & Hfree & Hcan)
                    | (Hoff & Hsq & HN)].
  - unfold fromKing in Hsq; cbn [fst snd] in Hsq. injection Hsq as Hr Hc.
    pose proof (direction_listed j _ Hj Hz) as Hd.
    unfold canCheck in Hcan.
    destruct ((j <=? 3) && chreq (chr (sq (board g) r c) 1) "R") eqn:E1.
    { apply andb_prop in E1; destruct E1 as [Ej ER].
      apply Z.leb_le in Ej. apply chreq_eq in ER. rewrite ER.
      rewrite moveFunction_rook. unfold getRookMoves. rewrite Hunp.
      cbv zeta. cbn [snd].
      apply (slider_attack g Hcoded Hcached Hstands (dr, dc) i);
        try assumption.
      direction_number j Hz; cbn; tauto. }
    destruct ((j >=? 4) && chreq (chr (sq (board g) r c) 1) "B") eqn:E2.
    { apply andb_prop in E2; destruct E2 as [Ej EB].
      apply Z.geb_le in Ej. apply chreq_eq in EB. rewrite EB.
      rewrite moveFunction_bishop. unfold getBishopMoves. rewrite Hunp.
      cbv zeta. cbn [snd].
      apply (slider_attack g Hcoded Hcached Hstands (dr, dc) i);
        try assumption.
      direction_number j Hz; cbn; tauto. }
    destruct ((i =? 1) && chreq (chr (sq (board g) r c) 1) "p") eqn:E3.
    { apply andb_prop in E3; destruct E3 as [Ei Ep].
      apply Z.eqb_eq in Ei. apply chreq_eq in Ep. rewrite Ep. subst i.
      rewrite moveFunction_pawn.
      assert (Hcap : forall dc',
                dc' = -1 \/ dc' = 1 ->
                (r + forward (whiteToMove h), c + dc') = kingPosOf g ->
                In (newMove (r, c) (kingPosOf g) (board g) false false)
                   (snd (getPawnMoves h r c moves))).
      { intros dc' Hdc' E.
        rewrite (king_target h r c _ _ Ho E).
        pose proof (f_equal fst E) as F1. pose proof (f_equal snd E) as F2.
        cbn [fst snd] in F1, F2.
        apply getPawnMoves_captures; try assumption;
          rewrite F1, F2; assumption. }
      rewrite Hw in Hcap.
      rewrite (surjective_pairing (kingPosOf g)) in Hcap.
      unfold enemyColorOf in Hcan.
      destruct (whiteToMove g); cbn [negb forward] in Hcap.
      - change (streq "b" "w") with false in Hcan.
        change (streq "b" "b") with true in Hcan.
        cbn [andb orb] in Hcan.
        apply andb_prop in Hcan; destruct Hcan as [J1 J2].
        apply Z.geb_le in J1. apply Z.leb_le in J2.
        direction_number j Hz.
        + apply (Hcap 1); [right; reflexivity | f_equal; lia].
        + apply (Hcap (-1)); [left; reflexivity | f_equal; lia].
      - change (streq "w" "w") with true in Hcan.
        change (streq "w" "b") with false in Hcan.
        cbn [andb orb] in Hcan. rewrite orb_false_r in Hcan.
        apply andb_prop in Hcan; destruct Hcan as [J1 J2].
        apply Z.geb_le in J1. apply Z.leb_le in J2.
        direction_number j Hz.
        + apply (Hcap 1); [right; reflexivity | f_equal; lia].
        + apply (Hcap (-1)); [left; reflexivity | f_equal; lia]. }
    destruct (chreq (chr (sq (board g) r c) 1) "Q") eqn:E4.
    { apply chreq_eq in E4. rewrite E4.
      rewrite moveFunction_queen. unfold getQueenMoves, getBishopMoves.
      rewrite Hunp. cbv zeta. unfold getRookMoves. rewrite Hunp.
      cbv zeta. cbn [snd].
      destruct (Z_le_gt_dec j 3) as [Ej|Ej].
      - apply (slider_attack g Hcoded Hcached Hstands (dr, dc) i);
          try assumption.
        direction_number j Hz; cbn; tauto.
      - apply slideMoves_keeps.
        apply (slider_attack g Hcoded Hcached Hstands (dr, dc) i);
          try assumption.
        direction_number j Hz; cbn; tauto. }
    destruct ((i =? 1) && chreq (chr (sq (board g) r c) 1) "K") eqn:E5;
      [|discriminate Hcan].
    exfalso.
    apply andb_prop in E5; destruct E5 as [Ei EK].
    apply Z.eqb_eq in Ei. subst i.
    destruct (Hcached r c EK) as [Kw Kb].
    unfold kingsApart in Hapart. unfold kingPosOf, enemyColorOf in *.
    destruct (whiteToMove g).
    + rewrite Kb in Hapart by (rewrite Henemy; reflexivity).
      cbn [fst snd] in Hapart. each_direction Hd; cbn [fst snd] in *; lia.
    + rewrite Kw in Hapart by (rewrite Henemy; reflexivity).
      cbn [fst snd] in Hapart. each_direction Hd; cbn [fst snd] in *; lia.
  - unfold fromKing in Hsq; cbn [fst snd] in Hsq. injection Hsq as Hr Hc.
    rewrite HN. rewrite moveFunction_knight. unfold getKnightMoves.
    rewrite Hunp. cbv zeta. cbn [snd].
    rewrite (king_target h r c (r + fst (- dr, - dc)) (c + snd (- dr, - dc)) Ho)
      by (rewrite (surjective_pairing (kingPosOf g)); cbn [fst snd];
          f_equal; lia).
    apply knightLoop_reaches.
    + cbn [In knightOffsets] in Hoff |- *.
      repeat (destruct Hoff as [Hoff|Hoff]; [injection Hoff as <- <-; tauto|]).
      contradiction.
    + cbn [fst snd].
      replace (r + - dr) with (fst (kingPosOf g)) by lia.
      replace (c + - dc) with (snd (kingPosOf g)) by lia. exact Hkon.
    + cbn [fst snd].
      replace (r + - dr) with (fst (kingPosOf g)) by lia.
      replace (c + - dc) with (snd (kingPosOf g)) by lia.
      rewrite Hking. destruct (opposite_colors g h Ho) as [Ht He].
      rewrite Ht, He. intros E. apply (enemy_colors g). congruence.
Qed.

(** A recorded check shows in the attack test on the king square. *)
Lemma check_attacks_king : forall p g1,
  checkLine g p -> sameFrame g1 g -> Forall (pinOK g) (pins g1) ->
  snd (squareUnderAttack g1 (fst (kingPosOf g)) (snd (kingPosOf g))) = true.
Proof.
  intros p g1 Hline (Fb & Fw & _) Hp.
  pose proof Hline as [[Hon Henemy] _].
  unfold squareUnderAttack. cbv zeta.
  set (h0 := setWhiteToMove g1 (negb (whiteToMove g1))).
  assert (Ho : opposite g h0).
  { split; [exact Fb|]. split; [|exact Hp].
    change (whiteToMove h0) with (negb (whiteToMove g1)). rewrite Fw; reflexivity. }
  destruct (on_board_cases _ _ Hon) as [Hr Hc].
  pose proof (rowLoop_reaches
                (newMove (pinRow p, pinCol p) (kingPosOf g) (board g) false false)
                (pinRow p) (pinCol p) (opposite g) (opposite_kept g)
                (fun h Hh => opposite_turn g h _ _ Hh Henemy)
                (fun h moves Hh => check_attack p h moves Hline Hh)
                zeroToSeven h0 [] Ho Hr Hc) as Hin.
  change (rowLoop h0 zeroToSeven []) with (getAllPossibleMoves h0) in Hin.
  destruct (getAllPossibleMoves h0) as [g2 opp]; cbn [fst snd] in *.
  apply existsb_exists. eexists; split; [exact Hin|].
  rewrite (surjective_pairing (kingPosOf g)).
  destruct (newMove_squares (pinRow p, pinCol p)
              (fst (kingPosOf g), snd (kingPosOf g)) (board g) false false)
    as (_ & _ & E3 & E4).
  rewrite E3, E4. cbn [fst snd]. rewrite !Z.eqb_refl. reflexivity.
Qed.

End Check.

Lemma getCastleMoves_attacked : forall g row col moves,
  snd (squareUnderAttack g row col) = true ->
  snd (getCastleMoves g row col moves) = moves.
Proof.
  intros g row col moves H; unfold getCastleMoves.
  destruct (squareUnderAttack g row col) as [g' a]; cbn [snd] in H; subst a.
  reflexivity.
Qed.

Lemma recorded_check : forall g,
  pciInCheck (checkForPinsAndChecks g) = true ->
  exists p, checkLine g p.
Proof.
  intros g H.
  pose proof (checkForPinsAndChecks_flag g) as Hf; unfold flagMatches in Hf.
  destruct (checkForPinsAndChecks_lines g) as [_ Hl].
  rewrite H in Hf.
  destruct (pciChecks (checkForPinsAndChecks g)) as [|p rest];
    [discriminate Hf|].
  exists p. exact (Forall_inv Hl).
Qed.

(** With the king caches accurate, the king of the side to move on its
    cached square, every square empty or holding a white or black piece
    and the kings not next to each other, the scan reporting check means
    the attack test on the king square succeeds and no castle is
    listed. *)
Lemma getValidMoves_no_castle_in_check : forall g,
  coded (board g) -> kingsCached g -> kingStands g -> kingsApart g ->
  pciInCheck (checkForPinsAndChecks g) = true ->
  Forall (fun m => isCastleMove m = false) (snd (getValidMoves g)).
Proof.
  intros g Hcoded Hk Hs Hapart Hin.
  destruct (recorded_check g Hin) as [p Hline].
  destruct (checkForPinsAndChecks_infoOK g) as [Hpins _].
  unfold getValidMoves; cbv zeta.
  set (g0 := setPinsAndChecks g (checkForPinsAndChecks g)) in *.
  change (inCheck g0) with (pciInCheck (checkForPinsAndChecks g)).
  rewrite Hin.
  assert (Hk0 : kingsCached g0) by exact Hk.
  assert (Hcastle : forall g1 moves1,
            sameFrame g1 g0 -> sameKings g1 g0 -> incl (pins g1) (pins g0) ->
            Forall (fun m => isCastleMove m = false) moves1 ->
            Forall (fun m => isCastleMove m = false)
              (snd (getCastleMoves g1 (fst (kingPosOf g1)) (snd (kingPosOf g1))
                      moves1))).
  { intros g1 moves1 Hf Hks Hincl Hm.
    rewrite getCastleMoves_attacked; [exact Hm|].
    rewrite (kingPosOf_transfer g1 g0 Hf Hks).
    change (kingPosOf g0) with (kingPosOf g).
    apply (check_attacks_king g Hcoded Hk Hs Hapart p); [exact Hline | exact Hf |].
    apply Forall_forall; intros q Hq. rewrite Forall_forall in Hpins.
    apply Hpins. exact (Hincl q Hq). }
  match goal with
  | |- Forall ?P (snd (let '(g3, moves) := ?X in _)) =>
    assert (H : Forall P (snd X)); [|destruct X as [g3 moves]; exact H]
  end.
  destruct (size (checks g0) =? 1).
  - pose proof (getAllPossibleMoves_frame g0) as Hf.
    pose proof (getAllPossibleMoves_kings g0 Hk0) as Hks.
    pose proof (rowLoop_fewer_pins zeroToSeven g0 []) as Hincl.
    change (rowLoop g0 zeroToSeven []) with (getAllPossibleMoves g0) in Hincl.
    pose proof (getAllPossibleMoves_pieceMove g0) as Hm.
    destruct (getAllPossibleMoves g0) as [g1 all]; cbn [fst snd] in *.
    cbv zeta. apply Hcastle; try assumption.
    apply Forall_filter_keep. eapply Forall_impl; [|exact Hm].
    intros m (_ & _ & _ & _ & _ & Hc & _); exact Hc.
  - pose proof (kingLoop_line (fun m => isCastleMove m = false)
                  (fst (kingPosOf g0)) (snd (kingPosOf g0)) kingOffsets g0 []
                  (fun er ec b' ep => eq_refl) (Forall_nil _)) as Hm.
    assert (Hst : fst (getKingMoves g0 (fst (kingPosOf g0))
                         (snd (kingPosOf g0)) []) = g0).
    { unfold getKingMoves; apply kingLoop_restores. apply surjective_pairing. }
    change (kingLoop g0 (fst (kingPosOf g0)) (snd (kingPosOf g0)) kingOffsets [])
      with (getKingMoves g0 (fst (kingPosOf g0)) (snd (kingPosOf g0)) []) in Hm.
    destruct (getKingMoves g0 _ _ []) as [g1 moves1]; cbn [fst snd] in *.
    subst g1.
    apply Hcastle;
      [apply sameFrame_refl | apply sameKings_refl | apply incl_refl | exact Hm].
Qed.

Lemma raySquares_line : forall g p len n acc,
  1 <= n -> n + Z.of_nat len <= 8 ->
  (forall k', 1 <= k' < n ->
     fromKing g (dirRow p, dirCol p) k' <> (pinRow p, pinCol p)) ->
  Forall (onCheckLine g p) acc ->
  Forall (onCheckLine g p)
         (raySquares (fst (kingPosOf g)) (snd (kingPosOf g)) p
                     (countFrom n len) acc).
Proof.
  intros g p len; induction len as [|len IH]; intros n acc Hn Hlen Hbefore Hacc;
    cbn [countFrom raySquares]; [exact Hacc|].
  cbv zeta. cbn [fst snd].
  assert (Hnew : onCheckLine g p
                   (fst (kingPosOf g) + dirRow p * n,
                    snd (kingPosOf g) + dirCol p * n)).
  { exists n. split; [lia|]. split; [reflexivity | exact Hbefore]. }
  destruct ((fst (kingPosOf g) + dirRow p * n =? pinRow p)
            && (snd (kingPosOf g) + dirCol p * n =? pinCol p)) eqn:E.
  - apply Forall_app; split; [exact Hacc | constructor; [exact Hnew | constructor]].
  - apply IH; try lia.
    + intros k' Hk'. destruct (Z.eq_dec k' n) as [->|Hne];
        [|apply Hbefore; lia].
      unfold fromKing; cbn [fst snd]. intros F; injection F as F1 F2.
      rewrite F1, F2, !Z.eqb_refl in E. discriminate E.
    + apply Forall_app; split; [exact Hacc | constructor; [exact Hnew | constructor]].
Qed.

Lemma knight_is_no_line_check : forall e j i,
  canCheck e j i "N" = false.
Proof.
  intros e j i; unfold canCheck.
  change (chreq "N" "R") with false. change (chreq "N" "B") with false.
  change (chreq "N" "p") with false. change (chreq "N" "Q") with false.
  change (chreq "N" "K") with false.
  rewrite !andb_false_r. reflexivity.
Qed.

(** With exactly one check recorded, a move of [getValidMoves] that is
    no castle and moves no king ends on the line of the check. *)
Lemma getValidMoves_single_check : forall g p,
  pciChecks (checkForPinsAndChecks g) = [p] ->
  Forall (fun m => isCastleMove m = false ->
                   chr (pieceMoved m) 1 <> "K"%char ->
                   onCheckLine g p (endRow m, endCol m))
         (snd (getValidMoves g)).
Proof.
  intros g p Hp.
  pose proof (checkForPinsAndChecks_flag g) as Hf; unfold flagMatches in Hf.
  destruct (checkForPinsAndChecks_lines g) as [_ Hl].
  rewrite Hp in Hf, Hl. cbn [isEmpty negb] in Hf.
  pose proof (Forall_inv Hl) as Hline.
  unfold getValidMoves; cbv zeta.
  set (g0 := setPinsAndChecks g (checkForPinsAndChecks g)) in *.
  change (inCheck g0) with (pciInCheck (checkForPinsAndChecks g)).
  rewrite Hf.
  change (checks g0) with (pciChecks (checkForPinsAndChecks g)). rewrite Hp.
  change (size [p] =? 1) with true. cbv iota.
  match goal with
  | |- Forall ?P (snd (let '(g3, moves) := ?X in _)) =>
    assert (H : Forall P (snd X)); [|destruct X as [g3 moves]; exact H]
  end.
  pose proof (getAllPossibleMoves_checks g0) as [_ Hc].
  pose proof (getAllPossibleMoves_frame g0) as (Hb & _).
  destruct (getAllPossibleMoves g0) as [g1 all]; cbn [fst snd] in Hc, Hb.
  change (checks g0) with (pciChecks (checkForPinsAndChecks g)) in Hc.
  rewrite Hp in Hc. rewrite Hc, Hb.
  change (zth [p] 0 defaultPin) with p.
  change (board g0) with (board g). change (kingPosOf g0) with (kingPosOf g).
  apply getCastleMoves_castle.
  { intros m (Hcastle & _) E; congruence. }
  set (vs := if chreq (chr (sq (board g) (pinRow p) (pinCol p)) 1) "N"
             then push_back [] (pinRow p, pinCol p)
             else raySquares (fst (kingPosOf g)) (snd (kingPosOf g)) p
                             oneToSeven []).
  assert (Hvs : Forall (onCheckLine g p) vs).
  { subst vs. destruct Hline as [_ Hkind].
    destruct (chreq (chr (sq (board g) (pinRow p) (pinCol p)) 1) "N") eqn:EN.
    - apply chreq_eq in EN.
      destruct Hkind as [(j & i & _ & _ & _ & _ & _ & Hcan) | (_ & Hsq & _)].
      + rewrite EN, knight_is_no_line_check in Hcan. discriminate Hcan.
      + constructor; [|constructor].
        exists 1. split; [lia|]. split; [exact Hsq | intros k' Hk'; lia].
    - rewrite oneToSeven_countFrom.
      apply raySquares_line; try (cbn; lia); constructor. }
  apply Forall_forall. intros m Hm _ HK.
  apply filter_In in Hm. destruct Hm as [_ Hkeep].
  unfold keepsMove in Hkeep.
  destruct (chreq (chr (pieceMoved m) 1) "K") eqn:EK;
    [apply chreq_eq in EK; contradiction|].
  cbn [negb] in Hkeep.
  apply existsb_exists in Hkeep. destruct Hkeep as (s & Hs & Hend).
  apply andb_prop in Hend; destruct Hend as [E1 E2].
  apply Z.eqb_eq in E1, E2. rewrite E1, E2, <- surjective_pairing.
  rewrite Forall_forall in Hvs. exact (Hvs s Hs).
Qed.

Lemma boardShape_initialBoard : boardShape initialBoard.
Proof. split; [reflexivity | repeat constructor]. Qed.

Lemma kingStands_newGameState : kingStands newGameState.
Proof. split; reflexivity. Qed.

Lemma logsCurrent_newGameState : logsCurrent newGameState.
Proof. split; reflexivity. Qed.

(** X1: for every state, [getValidMoves] returns with the board, the side
    to move, the move log, the en-passant target and its log, and the
    castling rights and their log as they were. *)
Theorem X1_getValidMoves_keeps_frame : forall g,
  sameFrame (fst (getValidMoves g)) g.
Proof. exact getValidMoves_frame. Qed.

(** X2: where every king on the board stands on the square cached for its
    colour, [getValidMoves] returns with every persistent member (all but
    [inCheck], [pins], [checks], [checkmate] and [stalemate]) as it was. *)
Theorem X2_getValidMoves_keeps_position : forall g,
  kingsCached g -> samePersistent (fst (getValidMoves g)) g.
Proof. exact getValidMoves_samePersistent. Qed.

Lemma X2_getValidMoves_keeps_position_witness :
  samePersistent (fst (getValidMoves newGameState)) newGameState.
Proof.
  apply X2_getValidMoves_keeps_position. exact kingsCached_newGameState.
Defined.

(** X3: the state and the list [getValidMoves] returns depend on the
    persistent members alone: two states that differ only in [inCheck],
    [pins], [checks], [checkmate] and [stalemate] give the same result. *)
Theorem X3_getValidMoves_reads_persistent_members : forall a b,
  samePersistent a b -> getValidMoves a = getValidMoves b.
Proof. exact getValidMoves_persistent. Qed.

Lemma X3_getValidMoves_reads_persistent_members_witness :
  getValidMoves (setMate newGameState true true) = getValidMoves newGameState.
Proof.
  apply X3_getValidMoves_reads_persistent_members.
  unfold samePersistent; repeat split; reflexivity.
Defined.

(** X4: for every state, every move of [getAllPossibleMoves] is no castle,
    runs between two different squares of the board, moves the piece on
    its start square, which belongs to the side to move, and, unless it is
    an en-passant capture, records the content of its end square as
    captured, which is no piece of the side to move.  An en-passant
    capture is made by a pawn, ends on the en-passant target, one row
    forward in another column, and records a pawn of the other colour as
    captured.  A pawn move over two rows is no en-passant capture, starts
    on the pawn's home row, stays in its column and passes an empty
    square.  The promotion flag is set exactly for a white pawn ending on
    row 0 and a black pawn ending on row 7. *)
Theorem X4_getAllPossibleMoves_piece_moves : forall g,
  Forall (pieceMoveOf g) (snd (getAllPossibleMoves g)).
Proof. exact getAllPossibleMoves_pieceMove. Qed.

(** X5: where the king caches are accurate and the king of the side to
    move stands on its cached square, every move [getValidMoves] returns
    is a piece move as in X4 or a castle.  A castle is flagged as a castle
    and not as an en-passant capture, moves the piece on the cached king
    square, captures nothing, stays on its row and ends two columns away:
    right, on the board, with the side's kingside right set and the two
    squares next to the king empty, or left with the queenside right set
    and the three squares left of the king on the board and empty. *)
Theorem X5_getValidMoves_listed_moves : forall g,
  kingsCached g -> kingStands g ->
  Forall (listedMove g) (snd (getValidMoves g)).
Proof. exact getValidMoves_listed. Qed.

Lemma X5_getValidMoves_listed_moves_witness :
  Forall (listedMove newGameState) (snd (getValidMoves newGameState)).
Proof.
  apply X5_getValidMoves_listed_moves;
    [exact kingsCached_newGameState | split; reflexivity].
Defined.

(** X6: in a state with an 8x8 board, accurate king caches, the king of
    the side to move on its cached square and the current castling rights
    and en-passant target on top of their logs, [makeMove] of any move
    [getValidMoves] returned other than an en-passant capture, followed by
    [undoMove], gives back every persistent member of the state. *)
Theorem X6_undoMove_takes_back_listed_move : forall g,
  kingsCached g -> kingStands g -> logsCurrent g -> boardShape (board g) ->
  Forall (fun m => isEnpassantMove m = false ->
            samePersistent (undoMove (makeMove (fst (getValidMoves g)) m)) g)
         (snd (getValidMoves g)).
Proof.
  intros g Hk Hs Hl Hb.
  pose proof (getValidMoves_listed g Hk Hs) as H.
  pose proof (getValidMoves_samePersistent g Hk) as Hp.
  eapply Forall_impl; [|exact H].
  intros m Hm He.
  eapply samePersistent_trans.
  - apply undoMove_persistent, makeMove_persistent; exact Hp.
  - apply makeMove_undoMove_listed; assumption.
Qed.

Lemma X6_undoMove_takes_back_listed_move_witness :
  Forall (fun m => isEnpassantMove m = false ->
            samePersistent
              (undoMove (makeMove (fst (getValidMoves newGameState)) m))
              newGameState)
         (snd (getValidMoves newGameState)).
Proof.
  apply X6_undoMove_takes_back_listed_move.
  - exact kingsCached_newGameState.
  - split; reflexivity.
  - split; reflexivity.
  - split; [reflexivity | repeat constructor].
Defined.

(** X7: [makeMove] never sets a castling right: each of the four rights
    that is set after the move was set before it. *)
Theorem X7_makeMove_only_clears_rights : forall g m,
  (wks (castlingRights (makeMove g m)) = true -> wks (castlingRights g) = true)
  /\ (bks (castlingRights (makeMove g m)) = true -> bks (castlingRights g) = true)
  /\ (wqs (castlingRights (makeMove g m)) = true -> wqs (castlingRights g) = true)
  /\ (bqs (castlingRights (makeMove g m)) = true -> bqs (castlingRights g) = true).
Proof. intros g m; exact (updateCastleRights_only_clears (castlingRights g) m). Qed.

(** X8: for every state, [scoreBoard] lies between [-CHECKMATE] and
    [CHECKMATE]. *)
Theorem X8_scoreBoard_range : forall gs,
  - CHECKMATE <= scoreBoard gs <= CHECKMATE.
Proof. exact scoreBoard_bounded. Qed.

(** X9: for every depth and state and either side, on the full window
    [findMoveNegaMaxAlphaBeta] returns the value of the same recursion
    without the cutoff, provided [undoMove] takes back every move of the
    search tree (the state after [makeMove], [getValidMoves] and [undoMove]
    has the persistent members of the state before, [depth] plies deep). *)
Theorem X9_alphaBeta_value_of_full_search : forall d g nm nm' moves tm,
  tm = 1 \/ tm = -1 -> disciplined d g moves ->
  snd (findMoveNegaMaxAlphaBeta d g nm moves (- CHECKMATE) CHECKMATE tm)
  = snd (fullWidthNegaMax d g nm' moves (- CHECKMATE) CHECKMATE tm).
Proof. exact alphaBeta_agrees_with_fullWidth. Qed.

Lemma X9_alphaBeta_value_of_full_search_witness :
  snd (findMoveNegaMaxAlphaBeta 2 newGameState defaultMove
         (snd (getValidMoves newGameState)) (- CHECKMATE) CHECKMATE 1)
  = snd (fullWidthNegaMax 2 newGameState defaultMove
           (snd (getValidMoves newGameState)) (- CHECKMATE) CHECKMATE 1).
Proof.
  apply X9_alphaBeta_value_of_full_search; [left; reflexivity|].
  apply disciplinedb_sound; vm_compute; reflexivity.
Defined.

(** X10: under the same discipline, for every window
    [-CHECKMATE <= alpha < beta <= CHECKMATE] the search hands back the
    state with its persistent members as they were, and its value [a]
    relates to the value [v] of the unpruned search as alpha-beta should:
    [v = a] when [a] lies strictly inside the window, [v <= a] when
    [a <= alpha], and [a <= v] when [beta <= a]. *)
Theorem X10_alphaBeta_window : forall d g nm nm' moves alpha beta tm,
  tm = 1 \/ tm = -1 -> disciplined d g moves ->
  - CHECKMATE <= alpha -> alpha < beta -> beta <= CHECKMATE ->
  samePersistent
    (fst (fst (findMoveNegaMaxAlphaBeta d g nm moves alpha beta tm))) g
  /\ (alpha < snd (findMoveNegaMaxAlphaBeta d g nm moves alpha beta tm) ->
      snd (findMoveNegaMaxAlphaBeta d g nm moves alpha beta tm) < beta ->
      snd (fullWidthNegaMax d g nm' moves (- CHECKMATE) CHECKMATE tm)
      = snd (findMoveNegaMaxAlphaBeta d g nm moves alpha beta tm))
  /\ (snd (findMoveNegaMaxAlphaBeta d g nm moves alpha beta tm) <= alpha ->
      snd (fullWidthNegaMax d g nm' moves (- CHECKMATE) CHECKMATE tm)
      <= snd (findMoveNegaMaxAlphaBeta d g nm moves alpha beta tm))
  /\ (beta <= snd (findMoveNegaMaxAlphaBeta d g nm moves alpha beta tm) ->
      snd (findMoveNegaMaxAlphaBeta d g nm moves alpha beta tm)
      <= snd (fullWidthNegaMax d g nm' moves (- CHECKMATE) CHECKMATE tm)).
Proof.
  intros d g nm nm' moves alpha beta tm Htm Hd Ha Hlt Hb.
  destruct (search_related d g nm nm' moves alpha beta
              (- CHECKMATE) CHECKMATE tm Htm Hd Ha Hlt Hb)
    as (Hs & _ & _ & H1 & H2 & H3).
  split; [exact Hs | split; [exact H2 | split; [exact H3 | exact H1]]].
Qed.

Lemma X10_alphaBeta_window_witness :
  samePersistent
    (fst (fst (findMoveNegaMaxAlphaBeta 1 newGameState defaultMove
                 (snd (getValidMoves newGameState)) (-1) 1 1))) newGameState
  /\ (-1 < snd (findMoveNegaMaxAlphaBeta 1 newGameState defaultMove
                  (snd (getValidMoves newGameState)) (-1) 1 1) ->
      snd (findMoveNegaMaxAlphaBeta 1 newGameState defaultMove
             (snd (getValidMoves newGameState)) (-1) 1 1) < 1 ->
      snd (fullWidthNegaMax 1 newGameState defaultMove
             (snd (getValidMoves newGameState)) (- CHECKMATE) CHECKMATE 1)
      = snd (findMoveNegaMaxAlphaBeta 1 newGameState defaultMove
               (snd (getValidMoves newGameState)) (-1) 1 1))
  /\ (snd (findMoveNegaMaxAlphaBeta 1 newGameState defaultMove
             (snd (getValidMoves newGameState)) (-1) 1 1) <= -1 ->
      snd (fullWidthNegaMax 1 newGameState defaultMove
             (snd (getValidMoves newGameState)) (- CHECKMATE) CHECKMATE 1)
      <= snd (findMoveNegaMaxAlphaBeta 1 newGameState defaultMove
                (snd (getValidMoves newGameState)) (-1) 1 1))
  /\ (1 <= snd (findMoveNegaMaxAlphaBeta 1 newGameState defaultMove
                  (snd (getValidMoves newGameState)) (-1) 1 1) ->
      snd (findMoveNegaMaxAlphaBeta 1 newGameState defaultMove
             (snd (getValidMoves newGameState)) (-1) 1 1)
      <= snd (fullWidthNegaMax 1 newGameState defaultMove
                (snd (getValidMoves newGameState)) (- CHECKMATE) CHECKMATE 1)).
Proof.
  apply X10_alphaBeta_window.
  - left; reflexivity.
  - apply disciplinedb_sound; vm_compute; reflexivity.
  - unfold CHECKMATE; lia.
  - lia.
  - unfold CHECKMATE; lia.
Defined.

(** X11: for every depth and state, either side, and every window whose
    bounds lie between [-CHECKMATE] and [CHECKMATE], the value
    [findMoveNegaMaxAlphaBeta] returns lies between [-CHECKMATE] and
    [CHECKMATE]. *)
Theorem X11_search_value_range : forall d g nm moves alpha beta tm,
  tm = 1 \/ tm = -1 ->
  - CHECKMATE <= alpha <= CHECKMATE ->
  - CHECKMATE <= beta <= CHECKMATE ->
  - CHECKMATE
  <= snd (findMoveNegaMaxAlphaBeta d g nm moves alpha beta tm)
  <= CHECKMATE.
Proof.
  intros d g nm moves alpha beta tm Htm _ _.
  apply findMoveNegaMaxAlphaBeta_bounded; exact Htm.
Qed.

Lemma X11_search_value_range_witness :
  - CHECKMATE
  <= snd (findMoveNegaMaxAlphaBeta DEPTH newGameState defaultMove
            (snd (getValidMoves newGameState)) (- CHECKMATE) CHECKMATE 1)
  <= CHECKMATE.
Proof.
  apply X11_search_value_range;
    [left; reflexivity | unfold CHECKMATE; lia | unfold CHECKMATE; lia].
Defined.

(** X12: with a random source whose draws lie in the requested range, the
    shuffle of [findBestMove] returns a permutation of the list of valid
    moves: no move is lost or doubled. *)
Theorem X12_shuffle_permutes : forall (bounded : RandomSource) (v : list Move),
  (forall k n, 0 < n -> 0 <= bounded k n < n) ->
  Permutation (fst (shuffleLoop bounded (List.length v - 1) 0 v)) v.
Proof.
  intros bounded v Hb. destruct v as [|m v]; [apply Permutation_refl|].
  apply shuffleLoop_perm; [exact Hb | simpl; lia].
Qed.

Lemma X12_shuffle_permutes_witness :
  Permutation
    (fst (shuffleLoop (fun _ _ => 0)
            (List.length (snd (getValidMoves newGameState)) - 1) 0
            (snd (getValidMoves newGameState))))
    (snd (getValidMoves newGameState)).
Proof. apply X12_shuffle_permutes; intros k n H; lia. Defined.

(** X13: [Move::operator==] compares the squares and nothing else: two
    moves the constructor builds between squares of the board are equal
    exactly when they have the same start and the same end square,
    whatever the boards, the pieces and the flags. *)
Theorem X13_move_equality_is_by_squares :
  forall s e b ep ca s' e' b' ep' ca',
  onBoard (fst s) (snd s) = true -> onBoard (fst e) (snd e) = true ->
  onBoard (fst s') (snd s') = true -> onBoard (fst e') (snd e') = true ->
  (moveEq (newMove s e b ep ca) (newMove s' e' b' ep' ca') = true
   <-> s = s' /\ e = e').
Proof.
  intros [sr sc] [er ec] b ep ca [sr' sc'] [er' ec'] b' ep' ca' H1 H2 H3 H4.
  cbn [fst snd] in *. apply onBoard_spec in H1, H2, H3, H4.
  unfold moveEq, newMove; cbn [moveID fst snd]. rewrite Z.eqb_eq.
  split; [intros H | intros [E1 E2]; congruence].
  split; f_equal; lia.
Qed.

Lemma X13_move_equality_is_by_squares_witness :
  moveEq (newMove (6, 4) (4, 4) initialBoard false false)
         (newMove (6, 4) (4, 4) [] true true) = true
  <-> (6, 4) = (6, 4) /\ (4, 4) = (4, 4).
Proof. apply X13_move_equality_is_by_squares; reflexivity. Defined.

(** X14: the name [getRankFile] gives a square of the board has two
    characters and reads back through the two maps of the source: the
    first is the key of the column in [filesToCols], the second the key of
    the row in [ranksToRows]. *)
Theorem X14_getRankFile_reads_back : forall row col,
  onBoard row col = true ->
  String.length (getRankFile row col) = 2%nat
  /\ valueOf filesToCols (substring 0 1 (getRankFile row col)) = Some col
  /\ valueOf ranksToRows (substring 1 1 (getRankFile row col)) = Some row.
Proof. exact getRankFile_reads_back. Qed.

Lemma X14_getRankFile_reads_back_witness :
  String.length (getRankFile 6 4) = 2%nat
  /\ valueOf filesToCols (substring 0 1 (getRankFile 6 4)) = Some 4
  /\ valueOf ranksToRows (substring 1 1 (getRankFile 6 4)) = Some 6.
Proof. apply X14_getRankFile_reads_back; reflexivity. Defined.

(** X15: for every state, [getValidMoves] leaves [inCheck] and [checks]
    as [checkForPinsAndChecks] computes them at its start, sets
    [checkmate] exactly when it returns no move and [inCheck] is set, and
    [stalemate] exactly when it returns no move and [inCheck] is not. *)
Theorem X15_getValidMoves_flags : forall g,
  inCheck (fst (getValidMoves g)) = pciInCheck (checkForPinsAndChecks g)
  /\ checks (fst (getValidMoves g)) = pciChecks (checkForPinsAndChecks g)
  /\ checkmate (fst (getValidMoves g))
     = isEmpty (snd (getValidMoves g)) && pciInCheck (checkForPinsAndChecks g)
  /\ stalemate (fst (getValidMoves g))
     = isEmpty (snd (getValidMoves g))
       && negb (pciInCheck (checkForPinsAndChecks g)).
Proof. exact getValidMoves_flags. Qed.

(** X16: for every state, [checkForPinsAndChecks] sets its check flag
    exactly when it records a check; every pin it records is a square of
    the board holding a piece of the side to move that is no king, and
    every check a square of the board holding a piece of the other side. *)
Theorem X16_checkForPinsAndChecks_records : forall g,
  pciInCheck (checkForPinsAndChecks g)
  = negb (isEmpty (pciChecks (checkForPinsAndChecks g)))
  /\ Forall (pinOK g) (pciPins (checkForPinsAndChecks g))
  /\ Forall (checkOK g) (pciChecks (checkForPinsAndChecks g)).
Proof.
  intros g; split; [apply checkForPinsAndChecks_flag|].
  apply checkForPinsAndChecks_infoOK.
Qed.

(** X17: when [checkForPinsAndChecks] records two or more checks, every
    move [getValidMoves] returns starts on the cached king square of the
    side to move. *)
Theorem X17_double_check_moves_the_king : forall g,
  1 < size (pciChecks (checkForPinsAndChecks g)) ->
  Forall (fun m => (startRow m, startCol m) = kingPosOf g)
         (snd (getValidMoves g)).
Proof. exact getValidMoves_double_check. Qed.

Lemma X17_double_check_moves_the_king_witness :
  Forall (fun m => (startRow m, startCol m) = kingPosOf doubleCheckPosition)
         (snd (getValidMoves doubleCheckPosition)).
Proof.
  apply X17_double_check_moves_the_king. vm_compute. reflexivity.
Defined.

Lemma squareUnderAttack_true : forall g row col,
  snd (squareUnderAttack g row col) = true ->
  exists m,
    pieceMove (board g) (negb (whiteToMove g)) (enPassantPossible g) m
    /\ endRow m = row /\ endCol m = col.
Proof.
  intros g row col H; unfold squareUnderAttack in H.
  pose proof (getAllPossibleMoves_pieceMove
                (setWhiteToMove g (negb (whiteToMove g)))) as Hall.
  destruct (getAllPossibleMoves _) as [g2 ms]; cbn [fst snd] in *.
  apply existsb_exists in H; destruct H as (m & Hin & Hm).
  apply andb_prop in Hm; destruct Hm as [E1 E2].
  apply Z.eqb_eq in E1, E2.
  rewrite Forall_forall in Hall.
  exists m; split; [exact (Hall m Hin) | split; assumption].
Qed.

Lemma isInCheck_frame : forall g,
  sameFrame (fst (isInCheck g)) g /\ sameChecks (fst (isInCheck g)) g.
Proof.
  intros g; unfold isInCheck; destruct (whiteToMove g);
    split; first [apply squareUnderAttack_frame | apply squareUnderAttack_checks].
Qed.

(** X18: for every state and square, [squareUnderAttack] and [isInCheck]
    return with the board, the side to move, the logs, the castling
    rights, the en-passant target, [inCheck] and [checks] as they were;
    and a square [squareUnderAttack] reports as attacked is a square of
    the board that holds no piece of the side that is not to move, or is
    the en-passant target. *)
Theorem X18_attack_tests : forall g row col,
  sameFrame (fst (squareUnderAttack g row col)) g
  /\ sameChecks (fst (squareUnderAttack g row col)) g
  /\ sameFrame (fst (isInCheck g)) g
  /\ sameChecks (fst (isInCheck g)) g
  /\ (snd (squareUnderAttack g row col) = true ->
      onBoard row col = true
      /\ (chr (sq (board g) row col) 0 <> teamChar (negb (whiteToMove g))
          \/ (row, col) = enPassantPossible g)).
Proof.
  intros g row col.
  split; [apply squareUnderAttack_frame|].
  split; [apply squareUnderAttack_checks|].
  split; [apply isInCheck_frame|].
  split; [apply isInCheck_frame|].
  intros H. destruct (squareUnderAttack_true g row col H)
    as (m & (_ & Hon & _ & _ & _ & _ & Hcap & Hep) & <- & <-).
  split; [exact Hon|].
  destruct (isEnpassantMove m) eqn:E.
  - right. apply Hep; reflexivity.
  - left. destruct (Hcap eq_refl) as [H1 H2]. rewrite <- H1; exact H2.
Qed.

(** X19: [makeMove] leaves every square alone that is not the start or
    the end square of the move, the square beside the start in the end
    column (the pawn an en-passant capture removes) or one of the squares
    one to the left, one to the right and two to the left of the end
    square on its row (where a castle moves the rook). *)
Theorem X19_makeMove_leaves_other_squares : forall g m r c,
  (r, c) <> (startRow m, startCol m) -> (r, c) <> (endRow m, endCol m) ->
  (r, c) <> (startRow m, endCol m) ->
  (r, c) <> (endRow m, endCol m - 1) -> (r, c) <> (endRow m, endCol m + 1) ->
  (r, c) <> (endRow m, endCol m - 2) ->
  sq (board (makeMove g m)) r c = sq (board g) r c.
Proof. intros g m r c; apply makeBoard_elsewhere. Qed.

Lemma X19_makeMove_leaves_other_squares_witness :
  sq (board (makeMove newGameState
               (newMove (6, 4) (4, 4) initialBoard false false))) 0 0
  = sq (board newGameState) 0 0.
Proof.
  apply X19_makeMove_leaves_other_squares; vm_compute; discriminate.
Defined.

(** X20: for every state and every move, [undoMove] right after
    [makeMove] gives back the side to move and the three logs, and sets
    the castling rights and the en-passant target to the last entries of
    their logs. *)
Theorem X20_undoMove_after_makeMove : forall g m,
  whiteToMove (undoMove (makeMove g m)) = whiteToMove g
  /\ moveLog (undoMove (makeMove g m)) = moveLog g
  /\ enPassantPossibleLog (undoMove (makeMove g m)) = enPassantPossibleLog g
  /\ castlingRightsLog (undoMove (makeMove g m)) = castlingRightsLog g
  /\ enPassantPossible (undoMove (makeMove g m))
     = back (enPassantPossibleLog g) (0, 0)
  /\ castlingRights (undoMove (makeMove g m))
     = back (castlingRightsLog g) (mkCR true true true true).
Proof.
  intros g m.
  destruct (undoMove_makeMove g m)
    as (_ & Hw & Hlog & _ & _ & Hep & Hepl & Hcr & Hcrl).
  repeat split; assumption.
Qed.

Lemma undoMoves_S : forall n g, undoMoves (S n) g = undoMove (undoMoves n g).
Proof. reflexivity. Qed.

Lemma applyMoves_cons : forall g m rest,
  applyMoves g (m :: rest) = applyMoves (makeMove g m) rest.
Proof. reflexivity. Qed.

Lemma sound_listed : forall g m,
  sound g -> In m (snd (getValidMoves g)) -> listedMove g m.
Proof.
  intros g m Hsound Hin.
  pose proof Hsound as (_ & _ & _ & Hk & _).
  pose proof (getValidMoves_listed g Hk (sound_kingStands g Hsound)) as Hl.
  rewrite Forall_forall in Hl; exact (Hl m Hin).
Qed.

(** Along a sequence of listed moves that capture no king, soundness is
    kept and the moves are taken back in reverse order. *)
Lemma sound_applyMoves : forall ms g,
  sound g -> legalSeq g ms -> noKingCaptured ms ->
  sound (applyMoves g ms)
  /\ samePersistent (undoMoves (List.length ms) (applyMoves g ms)) g.
Proof.
  induction ms as [|m rest IH]; intros g Hsound Hlegal Hsafe.
  - split; [exact Hsound | apply samePersistent_refl].
  - destruct Hlegal as [Hin Hrest].
    pose proof (Forall_inv Hsafe) as Hm.
    pose proof (Forall_inv_tail Hsafe) as Htail.
    pose proof (sound_listed g m Hsound Hin) as Hl.
    pose proof (sound_makeMove g m Hsound Hl Hm) as Hs'.
    destruct (IH (makeMove g m) Hs' Hrest Htail) as [H1 H2].
    rewrite applyMoves_cons. split; [exact H1|].
    cbn [List.length]. rewrite undoMoves_S.
    eapply samePersistent_trans;
      [apply undoMove_persistent; exact H2
      | apply makeMove_undoMove_sound; assumption].
Qed.

(** X21: positions of regular play stay positions of regular play.  A
    state is sound when its board is 8x8 and holds two-letter codes, the
    current castling rights and en-passant target are on top of their
    logs, each colour has one king, on its cached square, an en-passant
    target on the board is empty with the pawn that passed it one row
    further on, and a castling right that is set has its king and rook at
    home.  The freshly constructed game is sound, and from a sound state
    every sequence of moves each taken from the list [getValidMoves]
    returns and none recording a captured king, played with [makeMove],
    ends in a sound state. *)
Theorem X21_listed_moves_keep_positions_sound :
  sound newGameState
  /\ forall g ms,
     sound g -> legalSeq g ms -> noKingCaptured ms -> sound (applyMoves g ms).
Proof.
  split; [exact sound_newGameState|].
  intros g ms H1 H2 H3; exact (proj1 (sound_applyMoves ms g H1 H2 H3)).
Qed.

Lemma legalSeq_enPassantLine : legalSeq enPassantPosition enPassantLine.
Proof. apply legalSeq_two; apply validMove_In; vm_compute; discriminate. Qed.

Lemma noKingCaptured_enPassantLine : noKingCaptured enPassantLine.
Proof. repeat constructor; vm_compute; discriminate. Qed.

Lemma sound_enPassantPosition : sound enPassantPosition.
Proof. apply soundb_sound; vm_compute; reflexivity. Qed.

Lemma X21_listed_moves_keep_positions_sound_witness :
  sound (applyMoves enPassantPosition enPassantLine).
Proof.
  apply (proj2 X21_listed_moves_keep_positions_sound).
  - exact sound_enPassantPosition.
  - exact legalSeq_enPassantLine.
  - exact noKingCaptured_enPassantLine.
Defined.

(** X22: from a sound position, after any sequence of N moves each taken
    from the list [getValidMoves] returns (en-passant captures, castles
    and promotions included) and none recording a captured king, N calls
    of [undoMove] give back every persistent member of the state. *)
Theorem X22_undoMove_takes_back_sequences : forall g ms,
  sound g -> legalSeq g ms -> noKingCaptured ms ->
  samePersistent (undoMoves (List.length ms) (applyMoves g ms)) g.
Proof. intros g ms H1 H2 H3; exact (proj2 (sound_applyMoves ms g H1 H2 H3)). Qed.

Lemma X22_undoMove_takes_back_sequences_witness :
  samePersistent
    (undoMoves (List.length enPassantLine)
       (applyMoves enPassantPosition enPassantLine))
    enPassantPosition.
Proof.
  apply X22_undoMove_takes_back_sequences.
  - exact sound_enPassantPosition.
  - exact legalSeq_enPassantLine.
  - exact noKingCaptured_enPassantLine.
Defined.

(** X23: from a sound position and for moves it lists, on the full window
    [findMoveNegaMaxAlphaBeta] returns the value of the same recursion
    without the cutoff, as deep as no move of the search tree records a
    captured king. *)
Theorem X23_alphaBeta_exact_while_kings_stand : forall d g nm nm' moves tm,
  tm = 1 \/ tm = -1 -> sound g -> Forall (listedMove g) moves ->
  kingSafe d g moves ->
  snd (findMoveNegaMaxAlphaBeta d g nm moves (- CHECKMATE) CHECKMATE tm)
  = snd (fullWidthNegaMax d g nm' moves (- CHECKMATE) CHECKMATE tm).
Proof.
  intros d g nm nm' moves tm Htm Hs Hl Hk.
  apply alphaBeta_agrees_with_fullWidth; [exact Htm|].
  apply disciplined_sound; assumption.
Qed.

Lemma X23_alphaBeta_exact_while_kings_stand_witness :
  snd (findMoveNegaMaxAlphaBeta 2 enPassantPosition defaultMove
         (snd (getValidMoves enPassantPosition)) (- CHECKMATE) CHECKMATE 1)
  = snd (fullWidthNegaMax 2 enPassantPosition defaultMove
           (snd (getValidMoves enPassantPosition)) (- CHECKMATE) CHECKMATE 1).
Proof.
  apply X23_alphaBeta_exact_while_kings_stand.
  - left; reflexivity.
  - exact sound_enPassantPosition.
  - apply Forall_forall; intros m Hin.
    exact (sound_listed _ m sound_enPassantPosition Hin).
  - apply kingSafeb_sound; vm_compute; reflexivity.
Defined.

(** X24: in a sound position, the board after [makeMove] of a move
    [getValidMoves] returned is, square by square: for a castle, the king
    of the side to move two columns from column 4 on its home row, its
    rook from the corner on the square the king passed, their old squares
    empty; for any other move, the start square empty, the end square
    holding the moved piece, or the queen of its colour when the move is a
    promotion, and for an en-passant capture the square beside the start
    in the end column empty; every other square as before. *)
Theorem X24_board_after_listed_move : forall g,
  sound g ->
  Forall (fun m => forall r c,
    sq (board (makeMove (fst (getValidMoves g)) m)) r c
    = if isCastleMove m then
        if endCol m =? 6 then
          if (homeRow (whiteToMove g) =? r) && (7 =? c) then "--"
          else if (homeRow (whiteToMove g) =? r) && (5 =? c)
               then rookOf (whiteToMove g)
          else if (homeRow (whiteToMove g) =? r) && (6 =? c)
               then kingOf (whiteToMove g)
          else if (homeRow (whiteToMove g) =? r) && (4 =? c) then "--"
          else sq (board g) r c
        else
          if (homeRow (whiteToMove g) =? r) && (0 =? c) then "--"
          else if (homeRow (whiteToMove g) =? r) && (3 =? c)
               then rookOf (whiteToMove g)
          else if (homeRow (whiteToMove g) =? r) && (2 =? c)
               then kingOf (whiteToMove g)
          else if (homeRow (whiteToMove g) =? r) && (4 =? c) then "--"
          else sq (board g) r c
      else
        if isEnpassantMove m && (startRow m =? r) && (endCol m =? c) then "--"
        else if (endRow m =? r) && (endCol m =? c) then
          (if isPawnPromotion m
           then String.append (str1 (chr (pieceMoved m) 0)) "Q"
           else pieceMoved m)
        else if (startRow m =? r) && (startCol m =? c) then "--"
        else sq (board g) r c)
    (snd (getValidMoves g)).
Proof.
  intros g Hsound.
  pose proof Hsound as (Hs & _ & _ & Hk & _).
  pose proof (getValidMoves_listed g Hk (sound_kingStands g Hsound)) as Hl.
  pose proof (getValidMoves_frame g) as (Hb & _).
  eapply Forall_impl; [|exact Hl].
  intros m Hm r c. rewrite board_makeMove, Hb.
  destruct Hm as [Hp | Hc].
  - pose proof Hp as (_ & _ & _ & _ & _ & Hcastle & _). rewrite Hcastle.
    apply (makeBoard_piece _ _ _ m r c Hs Hp).
  - pose proof Hc as (Hcastle & _). rewrite Hcastle.
    apply makeBoard_castle; assumption.
Qed.

Lemma X24_board_after_listed_move_witness :
  Forall (fun m => forall r c,
    sq (board (makeMove (fst (getValidMoves enPassantPosition)) m)) r c
    = if isCastleMove m then
        if endCol m =? 6 then
          if (homeRow (whiteToMove enPassantPosition) =? r) && (7 =? c) then "--"
          else if (homeRow (whiteToMove enPassantPosition) =? r) && (5 =? c)
               then rookOf (whiteToMove enPassantPosition)
          else if (homeRow (whiteToMove enPassantPosition) =? r) && (6 =? c)
               then kingOf (whiteToMove enPassantPosition)
          else if (homeRow (whiteToMove enPassantPosition) =? r) && (4 =? c)
               then "--"
          else sq (board enPassantPosition) r c
        else
          if (homeRow (whiteToMove enPassantPosition) =? r) && (0 =? c) then "--"
          else if (homeRow (whiteToMove enPassantPosition) =? r) && (3 =? c)
               then rookOf (whiteToMove enPassantPosition)
          else if (homeRow (whiteToMove enPassantPosition) =? r) && (2 =? c)
               then kingOf (whiteToMove enPassantPosition)
          else if (homeRow (whiteToMove enPassantPosition) =? r) && (4 =? c)
               then "--"
          else sq (board enPassantPosition) r c
      else
        if isEnpassantMove m && (startRow m =? r) && (endCol m =? c) then "--"
        else if (endRow m =? r) && (endCol m =? c) then
          (if isPawnPromotion m
           then String.append (str1 (chr (pieceMoved m) 0)) "Q"
           else pieceMoved m)
        else if (startRow m =? r) && (startCol m =? c) then "--"
        else sq (board enPassantPosition) r c)
    (snd (getValidMoves enPassantPosition)).
Proof.
  apply X24_board_after_listed_move. exact sound_enPassantPosition.
Defined.

(** X25: every pin [checkForPinsAndChecks] records is a pin and every
    check a check.  A pin has one of the eight scan directions; the
    pinned piece, of the side to move and no king, stands on that
    direction from the cached king square with only passable squares
    before it (squares holding neither a piece of the other side nor a
    piece of the side to move other than a king), and further on, again
    after passable squares only, stands a piece of the other side that the
    scan accepts as checking along this direction from its distance.  A
    check is such a checking piece with only passable squares before it,
    or a knight of the other side one knight's move from the king. *)
Theorem X25_pins_and_checks_are_lines : forall g,
  Forall (pinLine g) (pciPins (checkForPinsAndChecks g))
  /\ Forall (checkLine g) (pciChecks (checkForPinsAndChecks g)).
Proof. exact checkForPinsAndChecks_lines. Qed.

(** X26: where the king caches are accurate, a move [getValidMoves]
    returns for a piece other than a queen standing on a square that
    [checkForPinsAndChecks] records as pinned runs along the recorded pin
    direction, forwards or backwards. *)
Theorem X26_pinned_piece_keeps_the_line : forall g m p,
  kingsCached g ->
  In m (snd (getValidMoves g)) ->
  In p (pciPins (checkForPinsAndChecks g)) ->
  (startRow m, startCol m) = (pinRow p, pinCol p) ->
  chr (sq (board g) (startRow m) (startCol m)) 1 <> "Q"%char ->
  exists t, endRow m = startRow m + t * dirRow p
            /\ endCol m = startCol m + t * dirCol p.
Proof.
  intros g m p Hk Hm Hp Hsq HQ.
  pose proof (getValidMoves_alongPin g Hk) as H.
  rewrite Forall_forall in H. specialize (H m Hm).
  destruct (checkForPinsAndChecks_lines g) as [Hlines _].
  pose proof (pinDirFound_recorded g _ p Hlines Hp) as Hd.
  injection Hsq as E1 E2. rewrite <- E1, <- E2 in Hd.
  exact (H _ Hd HQ).
Qed.

Lemma X26_pinned_piece_keeps_the_line_witness :
  exists t,
    endRow (validMove pinnedBishopPosition 6341)
    = startRow (validMove pinnedBishopPosition 6341)
      + t * dirRow (mkPin 6 3 (-1) (-1))
    /\ endCol (validMove pinnedBishopPosition 6341)
       = startCol (validMove pinnedBishopPosition 6341)
         + t * dirCol (mkPin 6 3 (-1) (-1)).
Proof.
  apply (X26_pinned_piece_keeps_the_line pinnedBishopPosition).
  - apply kingsCachedb_sound; [apply boardShapeb_sound|]; vm_compute; reflexivity.
  - apply validMove_In; vm_compute; discriminate.
  - vm_compute. left; reflexivity.
  - vm_compute; reflexivity.
  - vm_compute; discriminate.
Defined.

(** X27: where the king caches are accurate, the king of the side to move
    stands on its cached square, every square of the board is empty or
    holds a white or a black piece and the two kings are not next to each
    other, a check reported by [checkForPinsAndChecks] keeps every castle
    out of the list [getValidMoves] returns: the attack test of
    [getCastleMoves] on the king square finds the checking piece. *)
Theorem X27_no_castle_out_of_check : forall g,
  kingsCached g -> kingStands g -> coded (board g) -> kingsApart g ->
  pciInCheck (checkForPinsAndChecks g) = true ->
  Forall (fun m => isCastleMove m = false) (snd (getValidMoves g)).
Proof.
  intros g Hk Hs Hc Ha Hin.
  apply getValidMoves_no_castle_in_check; assumption.
Qed.

Lemma X27_no_castle_out_of_check_witness :
  Forall (fun m => isCastleMove m = false)
         (snd (getValidMoves bishopCheckPosition)).
Proof.
  apply X27_no_castle_out_of_check.
  - apply kingsCachedb_sound; [apply boardShapeb_sound|]; vm_compute; reflexivity.
  - split; vm_compute; reflexivity.
  - apply codedb_sound; vm_compute; reflexivity.
  - apply kingsApartb_sound; vm_compute; reflexivity.
  - vm_compute; reflexivity.
Defined.

(** X28: when [checkForPinsAndChecks] records exactly one check, every
    move [getValidMoves] returns that is no castle and moves no king ends
    on the direction of the check from the cached king square, on the
    square of the checking piece or before it: it captures the checking
    piece or blocks the line. *)
Theorem X28_single_check_is_blocked_or_captured : forall g p,
  pciChecks (checkForPinsAndChecks g) = [p] ->
  Forall (fun m => isCastleMove m = false ->
                   chr (pieceMoved m) 1 <> "K"%char ->
                   onCheckLine g p (endRow m, endCol m))
         (snd (getValidMoves g)).
Proof. exact getValidMoves_single_check. Qed.

Lemma X28_single_check_is_blocked_or_captured_witness :
  Forall (fun m => isCastleMove m = false ->
                   chr (pieceMoved m) 1 <> "K"%char ->
                   onCheckLine queenCheckPosition (mkPin 3 7 1 1)
                               (endRow m, endCol m))
         (snd (getValidMoves queenCheckPosition)).
Proof.
  apply X28_single_check_is_blocked_or_captured. vm_compute. reflexivity.
Defined.

(** ** The search within the range of int *)

Lemma toInt_score : forall x,
  - CHECKMATE <= x <= CHECKMATE -> toInt x = Some x.
Proof.
  intros x H; unfold toInt, INT_MIN, INT_MAX; unfold CHECKMATE in H.
  destruct (Z.leb_spec (-2147483648) x); [|lia].
  destruct (Z.leb_spec x 2147483647); [reflexivity|lia].
Qed.

Lemma alphaBetaLoopInt_exact : forall recI rec,
  (forall g nm ms a b t, t = 1 \/ t = -1 ->
     - CHECKMATE <= a <= CHECKMATE -> - CHECKMATE <= b <= CHECKMATE ->
     recI g nm ms a b t = Some (rec g nm ms a b t)) ->
  (forall g nm ms a b t, t = 1 \/ t = -1 ->
     - CHECKMATE <= snd (rec g nm ms a b t) <= CHECKMATE) ->
  forall moves atRoot g nm maxScore alpha beta tm,
  tm = 1 \/ tm = -1 ->
  - CHECKMATE <= maxScore <= CHECKMATE ->
  - CHECKMATE <= alpha <= CHECKMATE ->
  - CHECKMATE <= beta <= CHECKMATE ->
  alphaBetaLoopInt recI atRoot moves g nm maxScore alpha beta tm
  = Some (alphaBetaLoop rec atRoot moves g nm maxScore alpha beta tm).
Proof.
  intros recI rec Hexact Hrange; induction moves as [|move rest IH];
    intros atRoot g nm maxScore alpha beta tm Htm Hm Ha Hb; [reflexivity|].
  rewrite alphaBetaLoop_cons. cbn [alphaBetaLoopInt].
  destruct (getValidMoves (makeMove g move)) as [gs2 nextMoves].
  rewrite (toInt_score (- beta)) by lia.
  rewrite (toInt_score (- alpha)) by lia.
  rewrite (toInt_score (- tm)) by (unfold CHECKMATE; lia).
  rewrite (Hexact gs2 nm nextMoves (- beta) (- alpha) (- tm)) by lia.
  pose proof (Hrange gs2 nm nextMoves (- beta) (- alpha) (- tm) ltac:(lia)) as Hr.
  destruct (rec gs2 nm nextMoves (- beta) (- alpha) (- tm)) as [[gs3 nm3] r].
  cbn [snd] in Hr. rewrite (toInt_score (- r)) by lia.
  cbv zeta.
  destruct (_ >=? beta); [reflexivity|].
  apply IH; [exact Htm | rewrite zmax_gtb; lia | rewrite !zmax_gtb; lia | exact Hb].
Qed.

(** X29: for every depth and state, either side, and every window whose
    bounds lie between [-CHECKMATE] and [CHECKMATE], no negation and no
    product of [findMoveNegaMaxAlphaBeta] leaves the range of [int]: the
    search computed in [int] returns what the search computed in the
    integers returns.  With [alpha = INT_MIN] the negation of [alpha]
    does leave it. *)
Theorem X29_search_stays_in_int :
  (forall d g nm moves alpha beta tm,
   tm = 1 \/ tm = -1 ->
   - CHECKMATE <= alpha <= CHECKMATE ->
   - CHECKMATE <= beta <= CHECKMATE ->
   findMoveNegaMaxAlphaBetaInt d g nm moves alpha beta tm
   = Some (findMoveNegaMaxAlphaBeta d g nm moves alpha beta tm))
  /\ findMoveNegaMaxAlphaBetaInt 1 newGameState defaultMove
       (snd (getValidMoves newGameState)) INT_MIN CHECKMATE 1 = None.
Proof.
  split; [|vm_compute; reflexivity].
  induction d as [|d IH]; intros g nm moves alpha beta tm Htm Ha Hb.
  - cbn [findMoveNegaMaxAlphaBetaInt findMoveNegaMaxAlphaBeta].
    rewrite toInt_score; [reflexivity|].
    pose proof (scoreBoard_bounded g). destruct Htm; subst tm; lia.
  - cbn [findMoveNegaMaxAlphaBetaInt findMoveNegaMaxAlphaBeta].
    rewrite (toInt_score (- CHECKMATE)) by (unfold CHECKMATE; lia).
    apply alphaBetaLoopInt_exact;
      [exact IH | apply findMoveNegaMaxAlphaBeta_bounded | exact Htm
       | unfold CHECKMATE; lia | exact Ha | exact Hb].
Qed.

Lemma X29_search_stays_in_int_witness :
  findMoveNegaMaxAlphaBetaInt DEPTH newGameState defaultMove
    (snd (getValidMoves newGameState)) (- CHECKMATE) CHECKMATE 1
  = Some (findMoveNegaMaxAlphaBeta DEPTH newGameState defaultMove
            (snd (getValidMoves newGameState)) (- CHECKMATE) CHECKMATE 1).
Proof.
  apply (proj1 X29_search_stays_in_int);
    [left; reflexivity | unfold CHECKMATE; lia | unfold CHECKMATE; lia].
Defined.

(** ** Move text of the listed moves *)




(** ** What the constructor gives every listed move *)

Section Constructed.

Variable P : Move -> Prop.
Hypothesis P_new : forall s e b' ep, P (newMove s e b' ep false).




Hypothesis P_castle : forall m, isCastleMove m = true -> P m.


End Constructed.






